(** * The contact-form validator of [script.js]

    A shallow embedding of the [FormValidator] class of [src/script.js]
    (lines 132-288) and of the part of the browser it talks to: strings,
    the two regular expressions, a document tree, listeners and timers;
    then of the rest of the script: the two utility functions, the
    listeners of the keyboard and of the pointer, the style sheet, the
    observers and the counters.

    Part I holds the definitions, Part II the lemmas and theorems. *)

From Stdlib Require Import List NArith ZArith Bool String Ascii Lia Arith.
From Stdlib Require Import DecimalNat Sorted.
From Stdlib Require Floats.
Import ListNotations.

(* ================================================================= *)
(** * Part I - definitions *)
(* ================================================================= *)

(** ** JavaScript strings

    A JavaScript string is a sequence of UTF-16 code units; [length] is
    the number of code units, as [String.prototype.length] is. *)

Definition char16 := N.
Definition jsstring := list char16.

(** A literal of the source, written with its ASCII characters. *)
Definition js (s : string) : jsstring :=
  map N_of_ascii (list_ascii_of_string s).

Definition jsstring_eq_dec : forall a b : jsstring, {a = b} + {a <> b} :=
  list_eq_dec N.eq_dec.

(** [a === b] on strings. *)
Definition streq (a b : jsstring) : bool :=
  if jsstring_eq_dec a b then true else false.

(** The characters [\s] matches, [trim] strips and [parseInt] skips:
    WhiteSpace and LineTerminator of ECMAScript. *)
Definition is_space (c : char16) : bool :=
  ((9 <=? c) && (c <=? 13) || (c =? 32) || (c =? 160) || (c =? 5760)
   || (8192 <=? c) && (c <=? 8202) || (c =? 8232) || (c =? 8233)
   || (c =? 8239) || (c =? 8287) || (c =? 12288) || (c =? 65279))%N.

(** [\d] without the unicode flag: the ASCII digits. *)
Definition is_digit (c : char16) : bool := ((48 <=? c) && (c <=? 57))%N.

Definition ch_at : char16 := 64%N.      (* @ *)
Definition ch_dot : char16 := 46%N.     (* . *)
Definition ch_colon : char16 := 58%N.   (* : *)
Definition ch_minus : char16 := 45%N.   (* - *)
Definition ch_plus : char16 := 43%N.    (* + *)
Definition ch_lparen : char16 := 40%N.  (* ( *)
Definition ch_rparen : char16 := 41%N.  (* ) *)

Fixpoint dropwhile (p : char16 -> bool) (s : jsstring) : jsstring :=
  match s with
  | [] => []
  | c :: s' => if p c then dropwhile p s' else s
  end.

(** [s.trim()] *)
Definition trim (s : jsstring) : jsstring :=
  rev (dropwhile is_space (rev (dropwhile is_space s))).

(** [s.startsWith(p)] *)
Fixpoint startsWith (s p : jsstring) : bool :=
  match p, s with
  | [], _ => true
  | _ :: _, [] => false
  | a :: p', b :: s' => (a =? b)%N && startsWith s' p'
  end.

(** [s.split(sep)] for a separator of one code unit. *)
Fixpoint split (sep : char16) (s : jsstring) : list jsstring :=
  match s with
  | [] => [[]]
  | c :: s' =>
      if (c =? sep)%N then [] :: split sep s'
      else match split sep s' with
           | [] => [[c]]
           | seg :: segs => (c :: seg) :: segs
           end
  end.

(** A JavaScript number as far as this code needs one: an integer or
    NaN.  ([parseInt] rounds an integer above 2^53 to a double, which
    does not change its comparison with a string length, itself below
    2^53.) *)
Inductive number := NaN | Int (z : Z).

Definition digit_val (c : char16) : Z := Z.of_N c - 48.

(** The value of the longest prefix of decimal digits of [s], if that
    prefix is not empty. *)
Fixpoint parse_digits (acc : option Z) (s : jsstring) : option Z :=
  match s with
  | [] => acc
  | c :: s' =>
      if is_digit c then
        parse_digits
          (Some (10 * match acc with Some a => a | None => 0 end
                 + digit_val c)%Z) s'
      else acc
  end.

(** [parseInt(s, 10)]: skip white space, read a sign, read digits. *)
Definition parseInt (s : jsstring) : number :=
  let s1 := dropwhile is_space s in
  let '(sign, s2) :=
    match s1 with
    | c :: s' => if (c =? ch_minus)%N then ((-1)%Z, s')
                 else if (c =? ch_plus)%N then (1%Z, s')
                 else (1%Z, s1)
    | [] => (1%Z, s1)
    end in
  match parse_digits None s2 with
  | Some v => Int (sign * v)
  | None => NaN
  end.

(** [n >= x] for a length [n] and a number [x]; false on NaN. *)
Definition length_ge (n : nat) (x : number) : bool :=
  match x with
  | NaN => false
  | Int z => (z <=? Z.of_nat n)%Z
  end.

(** ** Regular expressions

    The two patterns of [checkRule] are sequences of single characters
    and of greedy repetitions [[class]{n,}] of a character class,
    anchored at both ends.  [exec] is the backtracking matcher: a
    repetition takes a character when it can and falls back to the rest
    of the pattern when that fails. *)

Inductive item :=
| Chr (p : char16 -> bool)               (* one character of the class *)
| Rep (n : nat) (p : char16 -> bool).    (* [class]{n,};  + is {1,} *)

Definition regex := list item.

Fixpoint rep (p : char16 -> bool) (n : nat) (k : jsstring -> bool)
         (s : jsstring) : bool :=
  match s with
  | [] => (n =? 0) && k []
  | c :: s' => (p c && rep p (pred n) k s') || ((n =? 0) && k s)
  end.

Fixpoint exec (r : regex) (s : jsstring) : bool :=
  match r with
  | [] => match s with [] => true | _ => false end      (* $ *)
  | Chr p :: r' =>
      match s with
      | c :: s' => p c && exec r' s'
      | [] => false
      end
  | Rep n p :: r' => rep p n (exec r') s
  end.

(** [r.test(s)] for a pattern [^...$] without flags. *)
Definition test (r : regex) (s : jsstring) : bool := exec r s.

(** [[^\s@]] *)
Definition not_space_at (c : char16) : bool :=
  negb (is_space c || (c =? ch_at)%N).

(** [[\d\s\-\+\(\)]] *)
Definition phone_char (c : char16) : bool :=
  is_digit c || is_space c || (c =? ch_minus)%N || (c =? ch_plus)%N
  || (c =? ch_lparen)%N || (c =? ch_rparen)%N.

(** [/^[^\s@]+@[^\s@]+\.[^\s@]+$/] *)
Definition emailRegex : regex :=
  [Rep 1 not_space_at; Chr (N.eqb ch_at); Rep 1 not_space_at;
   Chr (N.eqb ch_dot); Rep 1 not_space_at].

(** [/^[\d\s\-\+\(\)]{7,}$/] *)
Definition phoneRegex : regex := [Rep 7 phone_char].

(** ** [checkRule] (script.js, 200-217) *)

(** [rule.split(':')[1]]; a missing element is [undefined], which
    [parseInt] turns into the string "undefined". *)
Definition rule_argument (rule : jsstring) : jsstring :=
  match nth_error (split ch_colon rule) 1 with
  | Some s => s
  | None => js "undefined"
  end.

Definition checkRule (value rule : jsstring) : bool :=
  if streq rule (js "required") then
    0 <? List.length (trim value)
  else if startsWith rule (js "minLength") then
    length_ge (List.length value) (parseInt (rule_argument rule))
  else if streq rule (js "email") then
    test emailRegex value
  else if streq rule (js "phone") then
    test phoneRegex value || streq value (js "")
  else true.

(** The decimal numeral of a natural number, as a rule is written. *)
Fixpoint uint_chars (d : Decimal.uint) : jsstring :=
  match d with
  | Decimal.Nil => []
  | Decimal.D0 d => 48%N :: uint_chars d
  | Decimal.D1 d => 49%N :: uint_chars d
  | Decimal.D2 d => 50%N :: uint_chars d
  | Decimal.D3 d => 51%N :: uint_chars d
  | Decimal.D4 d => 52%N :: uint_chars d
  | Decimal.D5 d => 53%N :: uint_chars d
  | Decimal.D6 d => 54%N :: uint_chars d
  | Decimal.D7 d => 55%N :: uint_chars d
  | Decimal.D8 d => 56%N :: uint_chars d
  | Decimal.D9 d => 57%N :: uint_chars d
  end.

Definition decimal (n : nat) : jsstring := uint_chars (Nat.to_uint n).

(** The rule specifier [minLength:N]. *)
Definition minLength_rule (n : nat) : jsstring :=
  js "minLength:" ++ decimal n.

(** The claim of the specification about the email rule, word for
    word: exactly one [@], a character that is not white space on each
    side of it, and after it a dot with a character that is not white
    space on both of its sides. *)
Definition email_as_claimed (v : jsstring) : Prop :=
  count_occ N.eq_dec v ch_at = 1 /\
  exists l r, v = l ++ ch_at :: r /\
    Exists (fun c => is_space c = false) l /\
    Exists (fun c => is_space c = false) r /\
    exists r1 x y r2, r = r1 ++ x :: ch_dot :: y :: r2 /\
      is_space x = false /\ is_space y = false.

(** What the pattern asks for: one [@], no white space anywhere, a
    local part, and a domain with a dot strictly inside it. *)
Definition email_shape (v : jsstring) : Prop :=
  count_occ N.eq_dec v ch_at = 1 /\
  Forall (fun c => is_space c = false) v /\
  exists a b c, v = a ++ ch_at :: b ++ ch_dot :: c /\
    a <> [] /\ b <> [] /\ c <> [].

(** The characters the specification allows in a phone number. *)
Definition phone_symbol (c : char16) : Prop :=
  is_digit c = true \/ is_space c = true \/ c = ch_minus \/ c = ch_plus
  \/ c = ch_lparen \/ c = ch_rparen.

(** ** The document

    An element carries what the validator reads and writes.  A node has
    an identity, the stand-in for the identity of a JavaScript object:
    two references are [===] when their identities are equal.  Text
    nodes are not kept: [textContent] stands for the text of an element,
    and setting it removes the children, as the DOM does. *)

Record element := mkElement {
  tagName : string;
  attributes : list (string * string);
  classList : list string;
  value : jsstring;
  defaultValue : jsstring;
  textContent : jsstring;
  style : list (string * string)
}.

#[warnings="-register-all"]
Inductive node := Node (i : nat) (e : element) (ks : list node).

Definition nid (n : node) : nat := let 'Node i _ _ := n in i.
Definition data (n : node) : element := let 'Node _ e _ := n in e.
Definition kids (n : node) : list node := let 'Node _ _ ks := n in ks.

(** The node and everything below it, in document order. *)
Fixpoint subtrees (n : node) : list node :=
  match n with
  | Node _ _ ks => n :: flat_map subtrees ks
  end.

Definition descendants (n : node) : list node := flat_map subtrees (kids n).

Definition ids (n : node) : list nat := map nid (subtrees n).

(** *** Selectors

    The selectors of the source are compound selectors: a tag, a class
    and an attribute with its value, each optional. *)

Record compound := mkSelector {
  sel_tag : option string;
  sel_class : option string;
  sel_attr : option (string * string)
}.

Fixpoint getAttribute (k : string) (l : list (string * string))
  : option string :=
  match l with
  | [] => None
  | (k', v) :: l' => if String.eqb k k' then Some v else getAttribute k l'
  end.

Definition contains (c : string) (l : list string) : bool :=
  existsb (String.eqb c) l.

Definition matches (s : compound) (e : element) : bool :=
  match sel_tag s with
  | Some t => String.eqb t (tagName e)
  | None => true
  end
  && match sel_class s with
     | Some c => contains c (classList e)
     | None => true
     end
  && match sel_attr s with
     | Some (k, v) =>
         match getAttribute k (attributes e) with
         | Some v' => String.eqb v v'
         | None => false
         end
     | None => true
     end.

(** [document.querySelector(s)]: the first match in document order. *)
Definition document_querySelector (s : compound) (doc : node) : option node :=
  find (fun n => matches s (data n)) (subtrees doc).

(** [n.querySelector(s)]: the first match among the descendants. *)
Definition querySelector (s : compound) (n : node) : option node :=
  find (fun m => matches s (data m)) (descendants n).

(** The node a reference stands for. *)
Definition lookup (i : nat) (doc : node) : option node :=
  find (fun n => nid n =? i) (subtrees doc).

Definition has_kid (i : nat) (n : node) : bool :=
  existsb (fun k => nid k =? i) (kids n).

(** [element.parentElement] *)
Definition parentElement (i : nat) (doc : node) : option node :=
  find (has_kid i) (subtrees doc).

(** *** Mutation *)

(** Change the element a reference stands for. *)
Fixpoint update (i : nat) (f : element -> element) (n : node) : node :=
  match n with
  | Node j e ks => Node j (if j =? i then f e else e) (map (update i f) ks)
  end.

(** [node.remove()] *)
Fixpoint detach (i : nat) (n : node) : node :=
  match n with
  | Node j e ks =>
      Node j e
        (flat_map (fun k => if nid k =? i then [] else [detach i k]) ks)
  end.

(** Rebuild the node a reference stands for. *)
Fixpoint at_node (i : nat) (g : node -> node) (n : node) : node :=
  match n with
  | Node j e ks => if j =? i then g n else Node j e (map (at_node i g) ks)
  end.

Definition add_last (c : node) (n : node) : node :=
  let 'Node j e ks := n in Node j e (ks ++ [c]).

Definition add_first (c : node) (n : node) : node :=
  let 'Node j e ks := n in Node j e (c :: ks).

(** [parent.appendChild(c)]: [c] leaves the place it had, if it had
    one, and becomes the last child of [parent]. *)
Definition appendChild (parent : nat) (c : node) (doc : node) : node :=
  at_node parent (add_last c) (detach (nid c) doc).

(** [parent.insertBefore(c, parent.firstChild)] for a new node [c]. *)
Definition insertFirst (parent : nat) (c : node) (doc : node) : node :=
  at_node parent (add_first c) doc.

(** [classList.add(c)] and [classList.remove(c)] *)
Definition classList_add (c : string) (e : element) : element :=
  mkElement (tagName e) (attributes e)
    (if contains c (classList e) then classList e else classList e ++ [c])
    (value e) (defaultValue e) (textContent e) (style e).

Definition classList_remove (c : string) (e : element) : element :=
  mkElement (tagName e) (attributes e)
    (filter (fun c' => negb (String.eqb c c')) (classList e))
    (value e) (defaultValue e) (textContent e) (style e).

(** [n.textContent = s] *)
Definition set_textContent (s : jsstring) (n : node) : node :=
  let 'Node j e _ := n in
  Node j (mkElement (tagName e) (attributes e) (classList e) (value e)
            (defaultValue e) s (style e)) [].

Fixpoint set_property (k v : string) (l : list (string * string))
  : list (string * string) :=
  match l with
  | [] => [(k, v)]
  | (k', v') :: l' =>
      if String.eqb k k' then (k, v) :: l' else (k', v') :: set_property k v l'
  end.

(** [style.k = v] *)
Definition set_style (k v : string) (e : element) : element :=
  mkElement (tagName e) (attributes e) (classList e) (value e)
    (defaultValue e) (textContent e) (set_property k v (style e)).

(** The controls [form.reset()] resets. *)
Definition is_control (e : element) : bool :=
  String.eqb (tagName e) "input" || String.eqb (tagName e) "textarea"
  || String.eqb (tagName e) "select" || String.eqb (tagName e) "output".

Definition reset_element (e : element) : element :=
  if is_control e then
    mkElement (tagName e) (attributes e) (classList e) (defaultValue e)
      (defaultValue e) (textContent e) (style e)
  else e.

Fixpoint reset_controls (n : node) : node :=
  match n with
  | Node j e ks => Node j (reset_element e) (map reset_controls ks)
  end.

(** [form.reset()] *)
Definition reset (form : nat) (doc : node) : node :=
  at_node form reset_controls doc.

(** [document.createElement(tag)] with a given identity. *)
Definition createElement (i : nat) (tag : string) : node :=
  Node i (mkElement tag [] [] [] [] [] []) [].

(** ** The page as the script sees it *)

Inductive event_name := Blur | Input | Submit.

(** The three arrow functions [init] registers (script.js, 168-174). *)
Inductive handler :=
| OnBlur (form element : nat)     (* () => this.validateField(element) *)
| OnInput (form element : nat)    (* () => this.clearError(element) *)
| OnSubmit (form : nat).          (* (e) => this.handleSubmit(e) *)

(** The two arrow functions [submitForm] hands to [setTimeout]
    (script.js, 277-281). *)
Inductive task :=
| ResetAndFade (form banner : nat)
| RemoveBanner (banner : nat).

(** The method calls, in the order they are made. *)
Inductive call :=
| CallValidateField (element : nat)
| CallCheckRule (value rule : jsstring)
| CallShowError (element : nat) (message : jsstring)
| CallClearError (element : nat)
| CallHandleSubmit
| CallSubmitForm.

Record world := mkWorld {
  document : node;
  fresh : nat;                                   (* next identity *)
  listeners : list (nat * event_name * handler);
  timers : list (nat * task);                    (* due time, callback *)
  clock : nat;                                   (* milliseconds *)
  calls : list call
}.

(** A computation reads and writes the world and may throw. *)
Definition M (A : Type) : Type := world -> option (A * world).

Definition ret {A} (a : A) : M A := fun w => Some (a, w).
Definition throw {A} : M A := fun _ => None.
Definition bind {A B} (m : M A) (k : A -> M B) : M B :=
  fun w => match m w with
           | Some (a, w') => k a w'
           | None => None
           end.

Notation "x <- m ;; k" := (bind m (fun x => k))
  (at level 61, m at next level, right associativity).
Notation "m ;;; k" := (bind m (fun _ => k))
  (at level 61, right associativity).

Definition get_document : M node := fun w => Some (document w, w).

Definition set_document (d : node) : M unit :=
  fun w => Some (tt, mkWorld d (fresh w) (listeners w) (timers w) (clock w)
                       (calls w)).

Definition log (c : call) : M unit :=
  fun w => Some (tt, mkWorld (document w) (fresh w) (listeners w) (timers w)
                       (clock w) (calls w ++ [c])).

(** A new identity. *)
Definition new_id : M nat :=
  fun w => Some (fresh w, mkWorld (document w) (S (fresh w)) (listeners w)
                            (timers w) (clock w) (calls w)).

Definition addEventListener (target : nat) (ev : event_name) (h : handler)
  : M unit :=
  fun w => Some (tt, mkWorld (document w) (fresh w)
                       (listeners w ++ [(target, ev, h)]) (timers w)
                       (clock w) (calls w)).

Definition setTimeout (t : task) (delay : nat) : M unit :=
  fun w => Some (tt, mkWorld (document w) (fresh w) (listeners w)
                       (timers w ++ [(clock w + delay, t)]) (clock w)
                       (calls w)).

(** A reference that must stand for a node: using [null] throws. *)
Definition deref {A} (o : option A) : M A :=
  match o with
  | Some a => ret a
  | None => throw
  end.

(** ** [FormValidator] (script.js, 132-283) *)

Record field := mkField {
  selector : compound;
  rules : list jsstring;
  message : jsstring
}.

Definition tag_attr (t k v : string) : compound :=
  mkSelector (Some t) None (Some (k, v)).

(** [this.fields] (script.js, 137-158), in the order of declaration,
    which is the order of [Object.values] and of [for ... in]. *)
Definition fields : list (string * field) :=
  [ ("email"%string,
     mkField (tag_attr "input" "type" "email")
       [js "required"; js "email"]
       (js "Please enter a valid email address"));
    ("name"%string,
     mkField (tag_attr "input" "name" "name")
       [js "required"; js "minLength:2"]
       (js "Name must be at least 2 characters"));
    ("phone"%string,
     mkField (tag_attr "input" "type" "tel")
       [js "phone"]
       (js "Please enter a valid phone number"));
    ("message"%string,
     mkField (tag_attr "textarea" "name" "message")
       [js "required"; js "minLength:10"]
       (js "Message must be at least 10 characters")) ].

(** ['.error-message'] *)
Definition error_selector : compound :=
  mkSelector None (Some "error-message"%string) None.

(** [this.form.querySelector(s)]; [this.form] is the node [form]. *)
Definition form_querySelector (form : nat) (s : compound)
  : M (option node) :=
  d <- get_document ;;
  f <- deref (lookup form d) ;;
  ret (querySelector s f).

(** [createErrorElement] (script.js, 235-242) *)
Definition error_element (i : nat) : node :=
  Node i (mkElement "div" [] ["error-message"%string] [] [] []
            [("color", "#dc3545"); ("font-size", "12px");
             ("margin-top", "4px")]%string) [].

Definition createErrorElement : M node :=
  i <- new_id ;;
  ret (error_element i).

(** [showError] (script.js, 219-225) *)
Definition showError (element : nat) (message : jsstring) : M unit :=
  log (CallShowError element message) ;;;
  d <- get_document ;;
  set_document (update element (classList_add "field-error") d) ;;;
  d <- get_document ;;
  parent <- deref (parentElement element d) ;;
  errorElement <- match querySelector error_selector parent with
                  | Some n => ret n
                  | None => createErrorElement
                  end ;;
  let errorElement := set_textContent message errorElement in
  set_document (appendChild (nid parent) errorElement d).

(** [clearError] (script.js, 227-233) *)
Definition clearError (element : nat) : M unit :=
  log (CallClearError element) ;;;
  d <- get_document ;;
  set_document (update element (classList_remove "field-error") d) ;;;
  d <- get_document ;;
  parent <- deref (parentElement element d) ;;
  match querySelector error_selector parent with
  | Some errorElement => set_document (detach (nid errorElement) d)
  | None => ret tt
  end.

(** [findRules] (script.js, 191-198) *)
Fixpoint findRules_in (fs : list (string * field)) (form element : nat)
  : M (option field) :=
  match fs with
  | [] => ret None
  | (_, f) :: fs' =>
      q <- form_querySelector form (selector f) ;;
      match q with
      | Some n => if nid n =? element then ret (Some f)
                  else findRules_in fs' form element
      | None => findRules_in fs' form element
      end
  end.

Definition findRules (form element : nat) : M (option field) :=
  findRules_in fields form element.

(** [element.value] *)
Definition value_of (element : nat) : M jsstring :=
  d <- get_document ;;
  n <- deref (lookup element d) ;;
  ret (value (data n)).

(** The loop of [validateField] over the rules that are left. *)
Fixpoint check_rules (element : nat) (message : jsstring)
         (rs : list jsstring) : M bool :=
  match rs with
  | [] => clearError element ;;; ret true
  | rule :: rs' =>
      v <- value_of element ;;
      log (CallCheckRule v rule) ;;;
      if negb (checkRule v rule) then
        showError element message ;;; ret false
      else check_rules element message rs'
  end.

(** [validateField] (script.js, 177-189) *)
Definition validateField (form element : nat) : M bool :=
  log (CallValidateField element) ;;;
  r <- findRules form element ;;
  match r with
  | None => ret true
  | Some f => check_rules element (message f) (rules f)
  end.

(** The banner of [submitForm]. *)
Definition success_text : jsstring :=
  js "Thank you! Your message has been sent successfully.".

Definition success_element : element :=
  mkElement "div" [] ["form-success-message"%string] [] [] success_text
    [("background-color", "#28a745"); ("color", "white");
     ("padding", "12px 16px"); ("border-radius", "4px");
     ("margin-bottom", "16px");
     ("animation", "slideIn 0.3s ease-out")]%string.

(** [submitForm] (script.js, 260-282) *)
Definition submitForm (form : nat) : M unit :=
  log CallSubmitForm ;;;
  i <- new_id ;;
  let successMessage := Node i success_element [] in
  d <- get_document ;;
  _ <- deref (lookup form d) ;;
  set_document (insertFirst form successMessage d) ;;;
  setTimeout (ResetAndFade form i) 2000.

(** The submit event, as far as the handler touches it. *)
Record event := mkEvent { defaultPrevented : bool }.

Definition preventDefault (e : event) : event := mkEvent true.

(** The body of the [forEach] of [handleSubmit] (script.js, 248-253),
    folded over the fields with the flag [isValid]. *)
Fixpoint validate_all (fs : list (string * field)) (form : nat)
         (isValid : bool) : M bool :=
  match fs with
  | [] => ret isValid
  | (_, f) :: fs' =>
      q <- form_querySelector form (selector f) ;;
      match q with
      | Some n =>
          ok <- validateField form (nid n) ;;
          validate_all fs' form (if negb ok then false else isValid)
      | None => validate_all fs' form isValid
      end
  end.

(** [handleSubmit] (script.js, 244-258) *)
Definition handleSubmit (form : nat) (e : event) : M event :=
  log CallHandleSubmit ;;;
  let e := preventDefault e in
  isValid <- validate_all fields form true ;;
  if isValid then submitForm form ;;; ret e else ret e.

(** [init] (script.js, 163-175) *)
Fixpoint init_fields (fs : list (string * field)) (form : nat) : M unit :=
  match fs with
  | [] => ret tt
  | (_, f) :: fs' =>
      q <- form_querySelector form (selector f) ;;
      match q with
      | Some n =>
          addEventListener (nid n) Blur (OnBlur form (nid n)) ;;;
          addEventListener (nid n) Input (OnInput form (nid n)) ;;;
          init_fields fs' form
      | None => init_fields fs' form
      end
  end.

Definition init (form : nat) : M unit :=
  init_fields fields form ;;;
  addEventListener form Submit (OnSubmit form).

(** The object the constructor gives back; [this.fields] is the table
    above whenever [this.form] is a form. *)
Record FormValidator := mkFormValidator { form : option nat }.

(** [constructor] (script.js, 133-161) *)
Definition new_FormValidator (formSelector : compound) : M FormValidator :=
  d <- get_document ;;
  match document_querySelector formSelector d with
  | None => ret (mkFormValidator None)
  | Some f => init (nid f) ;;; ret (mkFormValidator (Some (nid f)))
  end.

(** An object is truthy, whatever its fields hold. *)
Definition truthy (v : FormValidator) : bool := true.

(** [a || b]: [b] is evaluated only when [a] is falsy. *)
Definition or_else (a b : M FormValidator) : M FormValidator :=
  x <- a ;; if truthy x then ret x else b.

(** ['form[name="contact"]'], ['form.contact-form'], ['form'] *)
Definition sel_contact_name : compound := tag_attr "form" "name" "contact".
Definition sel_contact_class : compound :=
  mkSelector (Some "form"%string) (Some "contact-form"%string) None.
Definition sel_form : compound := mkSelector (Some "form"%string) None None.

(** [contactForm] (script.js, 286-288) *)
Definition contactForm : M FormValidator :=
  or_else (new_FormValidator sel_contact_name)
    (or_else (new_FormValidator sel_contact_class)
       (new_FormValidator sel_form)).

(** ** Events and time *)

Definition run_handler (h : handler) : M unit :=
  match h with
  | OnBlur form element => validateField form element ;;; ret tt
  | OnInput form element => clearError element
  | OnSubmit form => handleSubmit form (mkEvent false) ;;; ret tt
  end.

Fixpoint run_handlers (hs : list handler) : M unit :=
  match hs with
  | [] => ret tt
  | h :: hs' => run_handler h ;;; run_handlers hs'
  end.

Definition event_name_eqb (a b : event_name) : bool :=
  match a, b with
  | Blur, Blur | Input, Input | Submit, Submit => true
  | _, _ => false
  end.

Definition handlers_of (target : nat) (ev : event_name)
           (l : list (nat * event_name * handler)) : list handler :=
  map snd
    (filter (fun x => (fst (fst x) =? target) && event_name_eqb (snd (fst x)) ev)
       l).

(** The event [ev] fires on [target]: its listeners run in the order
    they were added. *)
Definition dispatch (target : nat) (ev : event_name) : M unit :=
  fun w => run_handlers (handlers_of target ev (listeners w)) w.

(** A callback of [setTimeout] runs. *)
Definition run_task (t : task) : M unit :=
  match t with
  | ResetAndFade form banner =>
      d <- get_document ;;
      set_document (reset form d) ;;;
      d <- get_document ;;
      set_document
        (update banner (set_style "animation" "slideOut 0.3s ease-out") d) ;;;
      setTimeout (RemoveBanner banner) 300
  | RemoveBanner banner =>
      d <- get_document ;;
      set_document (detach banner d)
  end.

(** The first of the timers due soonest, if it is due by [limit]. *)
Fixpoint next_due (limit : nat) (l : list (nat * task))
  : option (nat * task) :=
  match l with
  | [] => None
  | (due, t) :: l' =>
      match next_due limit l' with
      | Some (due', t') =>
          if due <=? due' then Some (due, t) else Some (due', t')
      | None => if due <=? limit then Some (due, t) else None
      end
  end.

Definition task_eqb (a b : task) : bool :=
  match a, b with
  | ResetAndFade f i, ResetAndFade g j => (f =? g) && (i =? j)
  | RemoveBanner i, RemoveBanner j => i =? j
  | _, _ => false
  end.

(** Take the first occurrence of a timer off the list. *)
Fixpoint cancel (x : nat * task) (l : list (nat * task))
  : list (nat * task) :=
  match l with
  | [] => []
  | y :: l' =>
      if (fst x =? fst y) && task_eqb (snd x) (snd y) then l'
      else y :: cancel x l'
  end.

Definition set_clock (t : nat) : M unit :=
  fun w => Some (tt, mkWorld (document w) (fresh w) (listeners w) (timers w)
                       t (calls w)).

Definition set_timers (l : list (nat * task)) : M unit :=
  fun w => Some (tt, mkWorld (document w) (fresh w) (listeners w) l
                       (clock w) (calls w)).

(** Run what is due by [limit], soonest first, then stop the clock at
    [limit]. *)
Fixpoint run_timers (fuel : nat) (limit : nat) : M unit :=
  fun w =>
    match next_due limit (timers w) with
    | None => set_clock limit w
    | Some (due, t) =>
        match fuel with
        | 0 => set_clock limit w
        | S fuel' =>
            (set_timers (cancel (due, t) (timers w)) ;;;
             set_clock (Nat.max due (clock w)) ;;;
             run_task t ;;;
             run_timers fuel' limit) w
        end
    end.

(** A callback that sets one more timer counts twice. *)
Definition weight (l : list (nat * task)) : nat :=
  list_sum (map (fun x => match snd x with
                          | ResetAndFade _ _ => 2
                          | RemoveBanner _ => 1
                          end) l).

(** [ms] milliseconds pass on the simulated clock. *)
Definition advance (ms : nat) : M unit :=
  fun w => run_timers (weight (timers w)) (clock w + ms) w.

(** ** The container of a field

    What [showError] and [clearError] do is confined to the parent of
    the field.  [mark] and [unmark] are the two methods as functions of
    that parent alone; the lemmas [showError_focus] and
    [clearError_focus] of Part II show that the methods rebuild that one
    subtree with them and nothing else. *)

(** The tree with the subtree of identity [i] put to [n']. *)
Definition replace (i : nat) (n' : node) : node -> node :=
  at_node i (fun _ => n').

Definition label (m : node) : nat * element := (nid m, data m).

(** The elements of a tree with their identities, in document order. *)
Definition nodes (n : node) : list (nat * element) := map label (subtrees n).

(** The error-message nodes of a container. *)
Definition error_nodes (P : node) : list node :=
  filter (fun m => matches error_selector (data m)) (descendants P).

Definition mark (element : nat) (message : jsstring) (fr : nat) (P : node)
  : node :=
  let P1 := update element (classList_add "field-error") P in
  let errorElement :=
    match querySelector error_selector P1 with
    | Some n => n
    | None => error_element fr
    end in
  let errorElement := set_textContent message errorElement in
  add_last errorElement (detach (nid errorElement) P1).

Definition unmark (element : nat) (P : node) : node :=
  let P1 := update element (classList_remove "field-error") P in
  match querySelector error_selector P1 with
  | Some errorElement => detach (nid errorElement) P1
  | None => P1
  end.

(** The next identity after [showError]: one more when the error
    element had to be created. *)
Definition fresh_after_mark (element : nat) (P : node) (fr : nat) : nat :=
  match querySelector error_selector
          (update element (classList_add "field-error") P) with
  | Some _ => fr
  | None => S fr
  end.

(** The field carries the error class. *)
Definition has_error_class (element : nat) (doc : node) : bool :=
  match lookup element doc with
  | Some n => contains "field-error" (classList (data n))
  | None => false
  end.

(** Identities are distinct and below the next one to be given. *)
Definition well_formed (w : world) : Prop :=
  NoDup (ids (document w)) /\
  Forall (fun i => i < fresh w) (ids (document w)).

(** The world after the calls [l] were written down. *)
Definition logged (w : world) (l : list call) : world :=
  mkWorld (document w) (fresh w) (listeners w) (timers w) (clock w)
    (calls w ++ l).

(** The descriptor [findRules] gives for an element of the form [F]:
    the first one whose selector finds that element. *)
Fixpoint governing (fs : list (string * field)) (F : node) (element : nat)
  : option field :=
  match fs with
  | [] => None
  | (_, f) :: fs' =>
      match querySelector (selector f) F with
      | Some n => if nid n =? element then Some f
                  else governing fs' F element
      | None => governing fs' F element
      end
  end.

(** The elements [showError] was called on, in order. *)
Definition shown (tr : list call) : list nat :=
  flat_map (fun c => match c with
                     | CallShowError i _ => [i]
                     | _ => []
                     end) tr.

(** The elements [validateField] was called on, in order. *)
Definition validated (tr : list call) : list nat :=
  flat_map (fun c => match c with
                     | CallValidateField i => [i]
                     | _ => []
                     end) tr.

(** The rules [checkRule] was called on, in order. *)
Definition checked (tr : list call) : list jsstring :=
  flat_map (fun c => match c with
                     | CallCheckRule _ r => [r]
                     | _ => []
                     end) tr.

Definition is_submitForm (c : call) : bool :=
  match c with
  | CallSubmitForm => true
  | _ => false
  end.

Fixpoint distinct (l : list nat) : bool :=
  match l with
  | [] => true
  | a :: l' => negb (existsb (Nat.eqb a) l') && distinct l'
  end.

(** [well_formed], computed. *)
Definition well_formedb (w : world) : bool :=
  distinct (ids (document w))
  && forallb (fun i => i <? fresh w) (ids (document w)).

(** The specification's account of the loop of [handleSubmit]: every
    declared field whose element is present is validated, in the order
    of declaration, whatever the fields before it reported; the list
    holds the elements validated with what each reported. *)
Inductive validates (form : nat)
  : list (string * field) -> world -> list (nat * bool) -> world -> Prop :=
| validates_nil w : validates form [] w [] w
| validates_absent name f fs w rs w' :
    form_querySelector form (selector f) w = Some (None, w) ->
    validates form fs w rs w' ->
    validates form ((name, f) :: fs) w rs w'
| validates_present name f fs w n ok w1 rs w' :
    form_querySelector form (selector f) w = Some (Some n, w) ->
    validateField form (nid n) w = Some (ok, w1) ->
    validates form fs w1 rs w' ->
    validates form ((name, f) :: fs) w ((nid n, ok) :: rs) w'.

(** The elements that reported invalid. *)
Definition invalid (rs : list (nat * bool)) : list nat :=
  map fst (filter (fun x => negb (snd x)) rs).

(** ['.form-success-message'] *)
Definition success_selector : compound :=
  mkSelector None (Some "form-success-message"%string) None.

(** The success banners of the page. *)
Definition banners (doc : node) : list node :=
  filter (fun m => matches success_selector (data m)) (subtrees doc).

(** What [showError] and [clearError] may change in an element that
    stays on the page: the error class and the text. *)
Definition same_but_error_class (e e' : element) : Prop :=
  tagName e' = tagName e /\ attributes e' = attributes e /\
  value e' = value e /\ defaultValue e' = defaultValue e /\
  forall c, c <> "field-error"%string ->
            contains c (classList e') = contains c (classList e).

(** Where a node of the page comes from, after some calls of the two
    methods on the page [doc0] with next identity [fr0]: it was there,
    or it is an error element made since. *)
Definition came_from (doc0 : node) (fr0 : nat) (m' : node) : Prop :=
  (exists m, In m (subtrees doc0) /\ nid m = nid m' /\
             same_but_error_class (data m) (data m')) \/
  (fr0 <= nid m' /\
   same_but_error_class (data (error_element 0)) (data m')).

(** One step: a node after the call was there before, changed at most
    in its error class and text and in its classes only if it is the
    field, or it is the error element just made. *)
Definition step_kept (element fr : nat) (doc doc' : node) : Prop :=
  forall m', In m' (subtrees doc') ->
    (exists m, In m (subtrees doc) /\ nid m = nid m' /\
               same_but_error_class (data m) (data m') /\
               (nid m' <> element ->
                classList (data m') = classList (data m))) \/
    (nid m' = fr /\ classList (data m') = ["error-message"%string] /\
     same_but_error_class (data (error_element 0)) (data m')).

(** The listeners [init] adds for the fields of the form [F]. *)
Fixpoint field_listeners (fs : list (string * field)) (form : nat) (F : node)
  : list (nat * event_name * handler) :=
  match fs with
  | [] => []
  | (_, f) :: fs' =>
      match querySelector (selector f) F with
      | Some n => (nid n, Blur, OnBlur form (nid n))
                  :: (nid n, Input, OnInput form (nid n))
                  :: field_listeners fs' form F
      | None => field_listeners fs' form F
      end
  end.

Definition with_listeners (w : world) (l : list (nat * event_name * handler))
  : world :=
  mkWorld (document w) (fresh w) (listeners w ++ l) (timers w) (clock w)
    (calls w).

(** A node after [clearError] was there before, with the same value. *)
Definition kept_all (doc doc' : node) : Prop :=
  forall m', In m' (subtrees doc') ->
    exists m, In m (subtrees doc) /\ nid m = nid m' /\
              same_but_error_class (data m) (data m').

(** ** Pages to run the script on *)

Definition plain (tag : string) : element := mkElement tag [] [] [] [] [] [].

Definition input_element (type name : string) (v : jsstring) : element :=
  mkElement "input" [("type", type); ("name", name)]%string [] v [] [] [].

Definition textarea_element (name : string) (v : jsstring) : element :=
  mkElement "textarea" [("name", name)]%string [] v [] [] [].

Definition message_element (text : jsstring) : element :=
  mkElement "div" [] ["error-message"%string] [] [] text [].

(** A form named contact with an email field holding "x", a name field
    holding "Bob" and an empty message, each in a container of its
    own. *)
Definition contact_form : node :=
  Node 1 (mkElement "form" [("name", "contact")]%string [] [] [] [] [])
    [Node 2 (plain "div")
       [Node 3 (input_element "email" "email" (js "x")) []];
     Node 4 (plain "div")
       [Node 5 (input_element "text" "name" (js "Bob")) []];
     Node 6 (plain "div")
       [Node 7 (textarea_element "message" (js "")) []]].

Definition contact_page : world :=
  mkWorld (Node 0 (plain "html") [contact_form]) 8 [] [] 0 [].



(** A form with the class contact-form and no name. *)
Definition class_form : node :=
  Node 1 (mkElement "form" [] ["contact-form"%string] [] [] [] [])
    [Node 2 (plain "div")
       [Node 3 (input_element "email" "email" (js "x")) []]].

Definition class_page : world :=
  mkWorld (Node 0 (plain "html") [class_form]) 4 [] [] 0 [].

(** A form whose email field lies directly in the form while the name
    and the message have a container of their own, so that the
    container of the email field encloses the two others.  All three
    fields are invalid, and the page holds no error-message node. *)
Definition nested_form : node :=
  Node 1 (mkElement "form" [("name", "contact")]%string [] [] [] [] [])
    [Node 2 (input_element "email" "email" (js "x")) [];
     Node 3 (plain "div")
       [Node 4 (input_element "text" "name" (js "")) []];
     Node 5 (plain "div")
       [Node 6 (textarea_element "message" (js "")) []]].

Definition nested_page : world :=
  mkWorld (Node 0 (plain "html") [nested_form]) 7 [] [] 0 [].

(** The world a computation leaves, the world itself if it throws. *)
Definition world_after {A} (m : M A) (w : world) : world :=
  match m w with
  | Some (_, w') => w'
  | None => w
  end.

(** [contact_page] once the script has run, and once the form has then
    been submitted. *)
Definition contact_page_ready : world :=
  Eval vm_compute in world_after contactForm contact_page.

Definition contact_page_submitted : world :=
  Eval vm_compute in world_after (dispatch 1 Submit) contact_page_ready.

(** The texts of the error-message nodes of a container. *)
Definition error_texts (P : node) : list jsstring :=
  map (fun X => textContent (data X)) (error_nodes P).

(** A change of an element that does not make or unmake an
    error-message node. *)
Definition keeps_error_class (f : element -> element) : Prop :=
  forall e, matches error_selector (f e) = matches error_selector e.

(** ** Forms whose fields have a container each *)

(** The declared descriptors whose selector matches an element. *)
Definition descriptors_of (e : element) : list (string * field) :=
  filter (fun x => matches (selector (snd x)) e) fields.

(** An element one of the declared selectors matches. *)
Definition is_field (e : element) : bool :=
  existsb (fun x => matches (selector (snd x)) e) fields.

(** The fields of a page, each with its container. *)
Definition field_containers (doc : node) : list (nat * node) :=
  flat_map (fun P => map (fun k => (nid k, P))
                       (filter (fun k => is_field (data k)) (kids P)))
    (subtrees doc).

(** Two lists of identities with none in common. *)
Definition disjoint (a b : list nat) : bool :=
  forallb (fun i => negb (existsb (Nat.eqb i) b)) a.

(** A page whose fields have a container each: no element is matched
    by two of the declared selectors or is a field and an error-message
    node at once; the container of a field holds at most one
    error-message node, and the containers of two fields have no node
    in common. *)
Definition tidy (doc : node) : bool :=
  forallb (fun m => (List.length (descriptors_of (data m)) <=? 1)
                    && negb (is_field (data m)
                             && matches error_selector (data m)))
    (subtrees doc)
  && forallb (fun a =>
       (List.length (error_nodes (snd a)) <=? 1)
       && forallb (fun b => (fst a =? fst b)
                            || disjoint (ids (snd a)) (ids (snd b)))
            (field_containers doc))
     (field_containers doc).

(** The identity of a field of the page. *)
Definition field_id (doc : node) (x : nat) : Prop :=
  exists m, lookup x doc = Some m /\ is_field (data m) = true.

(** What [tidy] says. *)
Definition Tidy (doc : node) : Prop :=
  (forall m, In m (subtrees doc) -> is_field (data m) = true ->
             matches error_selector (data m) = false) /\
  (forall m a b, In m (subtrees doc) -> In a fields -> In b fields ->
     matches (selector (snd a)) (data m) = true ->
     matches (selector (snd b)) (data m) = true -> a = b) /\
  (forall x P, field_id doc x -> parentElement x doc = Some P ->
               List.length (error_nodes P) <= 1) /\
  (forall x y P Q, field_id doc x -> field_id doc y -> x <> y ->
     parentElement x doc = Some P -> parentElement y doc = Some Q ->
     forall i, In i (ids P) -> ~ In i (ids Q)).

(** The marker of the field [x] in its container [C], after a
    validation that reported [ok] under the descriptor [f]. *)
Definition marker (x : nat) (ok : bool) (f : field) (C : node) : Prop :=
  has_error_class x C = negb ok /\
  if ok then error_nodes C = []
  else exists ks X, kids C = ks ++ [X] /\ error_nodes C = [X] /\
                    textContent (data X) = message f.

(** The value of a control is set, by the user or by another script. *)
Definition set_value (v : jsstring) (e : element) : element :=
  mkElement (tagName e) (attributes e) (classList e) v (defaultValue e)
    (textContent e) (style e).

(** A form whose email field has a container of its own while the name
    field lies directly in the form, after it.  The email is invalid,
    the name is valid, and the page holds no error-message node. *)
Definition wrap_form : node :=
  Node 1 (mkElement "form" [("name", "contact")]%string [] [] [] [] [])
    [Node 2 (plain "div")
       [Node 3 (input_element "email" "email" (js "x")) []];
     Node 4 (input_element "text" "name" (js "Bob")) []].

Definition wrap_page : world :=
  mkWorld (Node 0 (plain "html") [wrap_form]) 5 [] [] 0 [].

(** [nested_page] once the script has run and the form has been
    submitted, with a valid address then put into the email field. *)
Definition nested_page_fixed : world :=
  Eval vm_compute in
    (let ws := world_after (dispatch 1 Submit)
                 (world_after contactForm nested_page) in
     mkWorld (update 2 (set_value (js "a@b.co")) (document ws)) (fresh ws)
       (listeners ws) (timers ws) (clock ws) (calls ws)).

(** [contact_page] at the same point: submitted, then a valid address
    put into the email field. *)
Definition contact_page_fixed : world :=
  mkWorld (update 3 (set_value (js "a@b.co"))
             (document contact_page_submitted))
    (fresh contact_page_submitted) (listeners contact_page_submitted)
    (timers contact_page_submitted) (clock contact_page_submitted)
    (calls contact_page_submitted).

(* ----------------------------------------------------------------- *)
(** * The rest of the script *)
(* ----------------------------------------------------------------- *)

(** ** [throttle] (script.js, 318-327)

    The two utility functions give back a closure.  A closure is the
    function of its arguments and of the variables it keeps; [func] is
    any function of its arguments and of the state it works on, which
    returns and does not call the closure itself.  The times are what
    [Date.now()] gives, whole milliseconds; a delay is an integer or
    NaN, as [undefined] is in a comparison. *)

(** [a >= b] for an integer [a] and a number [b]; false on NaN. *)
Definition number_ge (a : Z) (b : number) : bool :=
  match b with
  | NaN => false
  | Int z => (z <=? a)%Z
  end.

Section Throttle.
Variables A B St : Type.
Variable func : A -> St -> B * St.

(** One call of the function [throttle(func, delay)] returns, made with
    the arguments [args] when [Date.now()] is [now].  [lastCall] is the
    variable of the closure and [s] what [func] works on; the result
    [None] is [undefined]. *)
Definition throttled (delay : number) (now : Z) (args : A)
           (lastCall : Z) (s : St) : option B * Z * St :=
  if number_ge (now - lastCall) delay then
    let '(b, s') := func args s in (Some b, now, s')
  else (None, lastCall, s).

(** Calls one after the other, each with the time it is made at. *)
Fixpoint throttled_calls (delay : number) (cs : list (Z * A))
         (lastCall : Z) (s : St) : list (option B) * Z * St :=
  match cs with
  | [] => ([], lastCall, s)
  | (now, args) :: cs' =>
      let '(r, lastCall', s') := throttled delay now args lastCall s in
      let '(rs, lastCall'', s'') := throttled_calls delay cs' lastCall' s' in
      (r :: rs, lastCall'', s'')
  end.

(** [throttle(func, delay)] and then the calls [cs]: [lastCall] starts
    at 0. *)
Definition throttle (delay : number) (cs : list (Z * A)) (s : St)
  : list (option B) * Z * St :=
  throttled_calls delay cs 0%Z s.

(** The calls that went through to [func]. *)
Fixpoint passed {X} (cs : list X) (rs : list (option B)) : list X :=
  match cs, rs with
  | c :: cs', Some _ :: rs' => c :: passed cs' rs'
  | _ :: cs', None :: rs' => passed cs' rs'
  | _, _ => []
  end.

(** [func] applied to the calls in turn. *)
Fixpoint apply_all (cs : list (Z * A)) (s : St) : St :=
  match cs with
  | [] => s
  | (_, args) :: cs' => apply_all cs' (snd (func args s))
  end.

End Throttle.
Arguments throttled {A B St}.
Arguments throttled_calls {A B St}.
Arguments throttle {A B St}.
Arguments passed {B X}.
Arguments apply_all {A B St}.

(** ** Timers with handles

    [setTimeout] gives a handle and [clearTimeout] takes the timer with
    that handle off the list.  A timer holds what its callback needs to
    run.  The delay is a number: the browser reads it as a 32-bit
    integer and takes a negative one for 0. *)

Definition to_int32 (z : Z) : Z := ((z + 2 ^ 31) mod 2 ^ 32 - 2 ^ 31)%Z.

Definition timeout_ms (delay : number) : nat :=
  match delay with
  | NaN => 0
  | Int z => Z.to_nat (to_int32 z)
  end.

Section Timers.
Variable T : Type.

Record timer := mkTimer {
  timer_id : nat;
  timer_due : nat;
  timer_callback : T
}.

Record scheduler := mkScheduler {
  sched_clock : nat;            (* milliseconds *)
  sched_next : nat;             (* next handle *)
  sched_queue : list timer
}.

(** [setTimeout(callback, ms)] *)
Definition schedule (cb : T) (ms : nat) (sc : scheduler) : nat * scheduler :=
  (sched_next sc,
   mkScheduler (sched_clock sc) (S (sched_next sc))
     (sched_queue sc ++ [mkTimer (sched_next sc) (sched_clock sc + ms) cb])).

Definition drop_timer (id : nat) (q : list timer) : list timer :=
  filter (fun tm => negb (timer_id tm =? id)) q.

(** [clearTimeout(id)]; [None] is [undefined], the handle of no timer. *)
Definition unschedule (id : option nat) (sc : scheduler) : scheduler :=
  match id with
  | None => sc
  | Some i =>
      mkScheduler (sched_clock sc) (sched_next sc)
        (drop_timer i (sched_queue sc))
  end.

(** The first of the timers due soonest, if it is due by [limit]. *)
Fixpoint earliest (limit : nat) (q : list timer) : option timer :=
  match q with
  | [] => None
  | tm :: q' =>
      match earliest limit q' with
      | Some tm' =>
          if timer_due tm <=? timer_due tm' then Some tm else Some tm'
      | None => if timer_due tm <=? limit then Some tm else None
      end
  end.

(** What the callbacks work on, and what a callback does when it runs
    at a given time.  The callbacks of this script set no timer
    themselves. *)
Variable X : Type.
Variable run : nat -> T -> X -> X.

(** The timers due by [limit] fire, soonest first, none before it is
    due. *)
Fixpoint fire_due (fuel : nat) (limit : nat) (sc : scheduler) (x : X)
  : scheduler * X :=
  match fuel with
  | 0 => (sc, x)
  | S fuel' =>
      match earliest limit (sched_queue sc) with
      | None => (sc, x)
      | Some tm =>
          let t := Nat.max (timer_due tm) (sched_clock sc) in
          fire_due fuel' limit
            (mkScheduler t (sched_next sc)
               (drop_timer (timer_id tm) (sched_queue sc)))
            (run t (timer_callback tm) x)
      end
  end.

(** The clock comes to [t]. *)
Definition wait_until (t : nat) (sc : scheduler) (x : X) : scheduler * X :=
  let '(sc', x') := fire_due (List.length (sched_queue sc)) t sc x in
  (mkScheduler (Nat.max t (sched_clock sc')) (sched_next sc') (sched_queue sc'),
   x').

End Timers.
Arguments mkTimer {T}.
Arguments timer_id {T}.
Arguments timer_due {T}.
Arguments timer_callback {T}.
Arguments mkScheduler {T}.
Arguments sched_clock {T}.
Arguments sched_next {T}.
Arguments sched_queue {T}.
Arguments schedule {T}.
Arguments drop_timer {T}.
Arguments unschedule {T}.
Arguments earliest {T}.
Arguments fire_due {T X}.
Arguments wait_until {T X}.

(** ** [debounce] (script.js, 330-336) *)

Section Debounce.
Variables A St : Type.
Variable func : A -> St -> St.

(** The variable [timeout] of the closure, the timers whose callback is
    [() => func(...args)], each holding its [args], what [func] works
    on, and the calls of [func] made so far with the time of each. *)
Record debounced := mkDebounced {
  timeout : option nat;
  pending : scheduler A;
  acted : St;
  invoked : list (nat * A)
}.

(** One call of the function [debounce(func, delay)] returns. *)
Definition debounced_call (delay : number) (args : A) (st : debounced)
  : debounced :=
  let sc := unschedule (timeout st) (pending st) in
  let '(id, sc') := schedule args (timeout_ms delay) sc in
  mkDebounced (Some id) sc' (acted st) (invoked st).

(** The callback of a timer runs. *)
Definition debounced_run (t : nat) (args : A) (x : St * list (nat * A))
  : St * list (nat * A) :=
  (func args (fst x), snd x ++ [(t, args)]).

(** The clock comes to [t]. *)
Definition debounced_wait (t : nat) (st : debounced) : debounced :=
  let '(sc, (s, l)) :=
    wait_until debounced_run t (pending st) (acted st, invoked st) in
  mkDebounced (timeout st) sc s l.

(** The debounced function is called at the times and with the
    arguments [cs], and the clock comes to [final].  The calls listed
    with one time are the calls of one task, made one after the other:
    a callback runs only once the running task has returned, so no
    timer fires between them.  A task that starts later finds that the
    timers due by then have fired. *)
Fixpoint debounced_calls (delay : number) (cs : list (nat * A)) (final : nat)
         (st : debounced) : debounced :=
  match cs with
  | [] => debounced_wait final st
  | (t, args) :: cs' =>
      debounced_calls delay cs' final
        (debounced_call delay args
           (if t =? sched_clock (pending st) then st
            else debounced_wait t st))
  end.

(** [debounce(func, delay)], then the calls: no timer yet, handles start
    at 1. *)
Definition debounce (delay : number) (cs : list (nat * A)) (final : nat)
           (s : St) : debounced :=
  debounced_calls delay cs final
    (mkDebounced None (mkScheduler 0 1 []) s []).

(** The calls whose timer is due before the next call is made - by
    [final], for the last call - each with the time its timer is
    due. *)
Fixpoint settled (d : nat) (cs : list (nat * A)) (final : nat)
  : list (nat * A) :=
  match cs with
  | [] => []
  | (t, args) :: cs' =>
      (if match cs' with
          | [] => t + d <=? final
          | (t', _) :: _ => t + d <? t'
          end
       then [(t + d, args)] else [])
      ++ settled d cs' final
  end.

(** [func] applied to the arguments in turn. *)
Definition run_all (l : list (nat * A)) (s : St) : St :=
  fold_left (fun s x => func (snd x) s) l s.

(** One timer is pending, that of the last call. *)
Definition armed (due : nat) (args : A) (st : debounced) : Prop :=
  exists id,
    timeout st = Some id /\
    sched_queue (pending st) = [mkTimer id due args] /\
    id < sched_next (pending st).

(** No timer is pending. *)
Definition idle (st : debounced) : Prop :=
  sched_queue (pending st) = [] /\
  match timeout st with
  | Some id => id < sched_next (pending st)
  | None => True
  end.

End Debounce.
Arguments mkDebounced {A St}.
Arguments timeout {A St}.
Arguments pending {A St}.
Arguments acted {A St}.
Arguments invoked {A St}.
Arguments debounced_call {A St}.
Arguments debounced_run {A St}.
Arguments debounced_wait {A St}.
Arguments debounced_calls {A St}.
Arguments debounce {A St}.
Arguments settled {A}.
Arguments run_all {A St}.
Arguments armed {A St}.
Arguments idle {A St}.

(** ** The page outside the form

    The rest of the script works on the whole document, whose root is
    the element [html].  Its selectors are lists of compound selectors
    with tests on attributes.  As before, nodes that are off the page
    are not followed. *)

Inductive simple :=
| ByTag (t : string)              (* button *)
| ByClass (c : string)            (* .active *)
| WithAttr (k : string)           (* [data-modal] *)
| AttrEquals (k v : string).      (* [role="button"] *)

Definition matches_simple (s : simple) (e : element) : bool :=
  match s with
  | ByTag t => String.eqb t (tagName e)
  | ByClass c => contains c (classList e)
  | WithAttr k =>
      match getAttribute k (attributes e) with
      | Some _ => true
      | None => false
      end
  | AttrEquals k v =>
      match getAttribute k (attributes e) with
      | Some v' => String.eqb v v'
      | None => false
      end
  end.

(** A list of compound selectors: one of them holds in full. *)
Definition matches_list (sl : list (list simple)) (e : element) : bool :=
  existsb (forallb (fun s => matches_simple s e)) sl.

(** [document.querySelectorAll(sl)]: the matches in document order. *)
Definition document_querySelectorAll (sl : list (list simple)) (doc : node)
  : list node :=
  filter (fun n => matches_list sl (data n)) (subtrees doc).

(** [n.querySelectorAll(sl)] *)
Definition querySelectorAll (sl : list (list simple)) (n : node) : list node :=
  filter (fun m => matches_list sl (data m)) (descendants n).

(** [list.forEach(n => change n)] for a change of the element alone.
    The list is the one [querySelectorAll] gave: it does not follow the
    changes. *)
Definition forEach_update (f : element -> element) (l : list node) (doc : node)
  : node :=
  fold_left (fun d m => update (nid m) f d) l doc.

(** The child of the root element [html] that [document.body] and
    [document.head] stand for. *)
Definition html_child (tags : list string) (doc : node) : option node :=
  if String.eqb (tagName (data doc)) "html" then
    find (fun k => existsb (String.eqb (tagName (data k))) tags) (kids doc)
  else None.

Definition document_body : node -> option node :=
  html_child ["body"; "frameset"]%string.

Definition document_head : node -> option node :=
  html_child ["head"%string].

(** *** Keyboard navigation (script.js, 295-311) *)

(** ['[data-modal].active'] *)
Definition open_modals : list (list simple) :=
  [[WithAttr "data-modal"; ByClass "active"]].

(** The listener of [keydown] on the document; [None] is a TypeError. *)
Definition on_keydown (key : string) (doc : node) : option node :=
  let doc :=
    if String.eqb key "Escape" then
      forEach_update (classList_remove "active")
        (document_querySelectorAll open_modals doc) doc
    else doc in
  if String.eqb key "Tab" then
    match document_body doc with
    | Some body => Some (update (nid body) (classList_add "keyboard-nav") doc)
    | None => None
    end
  else Some doc.

(** The listener of [mousedown] on the document. *)
Definition on_mousedown (doc : node) : option node :=
  match document_body doc with
  | Some body => Some (update (nid body) (classList_remove "keyboard-nav") doc)
  | None => None
  end.

Inductive input := Keydown (key : string) | Mousedown.

Definition on_input (i : input) (doc : node) : option node :=
  match i with
  | Keydown key => on_keydown key doc
  | Mousedown => on_mousedown doc
  end.

Fixpoint on_inputs (l : list input) (doc : node) : option node :=
  match l with
  | [] => Some doc
  | i :: l' =>
      match on_input i doc with
      | Some doc' => on_inputs l' doc'
      | None => None
      end
  end.

(** Every element changed, each by its identity. *)
Fixpoint map_elements (g : nat -> element -> element) (n : node) : node :=
  match n with
  | Node j e ks => Node j (g j e) (map (map_elements g) ks)
  end.

(** What Escape does to one element. *)
Definition close_modal (e : element) : element :=
  if matches_list open_modals e then classList_remove "active" e else e.

(** Whether the body carries [keyboard-nav] after the inputs [l], when
    it did or did not before. *)
Fixpoint keyboard_nav (l : list input) (before : bool) : bool :=
  match l with
  | [] => before
  | Keydown key :: l' =>
      keyboard_nav l' (if String.eqb key "Tab" then true else before)
  | Mousedown :: l' => keyboard_nav l' false
  end.

(** A change of the elements that keeps their tags. *)
Definition keeps_tag (g : nat -> element -> element) : Prop :=
  forall j e, tagName (g j e) = tagName e.

(** *** The style sheet of the animations (script.js, 338-424) *)

(** ['style[data-animations]'] *)
Definition animations_style : list (list simple) :=
  [[ByTag "style"; WithAttr "data-animations"]].

Definition animations_css : jsstring :=
  js "
    .animate-fade-in {
      animation: fadeIn 0.6s ease-out forwards;
    }

    @keyframes fadeIn {
      from {
        opacity: 0;
        transform: translateY(20px);
      }
      to {
        opacity: 1;
        transform: translateY(0);
      }
    }

    .ripple {
      position: absolute;
      border-radius: 50%;
      background: rgba(255, 255, 255, 0.5);
      transform: scale(0);
      animation: ripple-animation 0.6s ease-out;
      pointer-events: none;
    }

    @keyframes ripple-animation {
      to {
        transform: scale(4);
        opacity: 0;
      }
    }

    .field-error {
      border-color: #dc3545 !important;
      background-color: #fff5f5;
    }

    .error-message {
      color: #dc3545;
      font-size: 12px;
      margin-top: 4px;
      animation: slideIn 0.2s ease-out;
    }

    @keyframes slideIn {
      from {
        opacity: 0;
        transform: translateY(-4px);
      }
      to {
        opacity: 1;
        transform: translateY(0);
      }
    }

    @keyframes slideOut {
      from {
        opacity: 1;
        transform: translateY(0);
      }
      to {
        opacity: 0;
        transform: translateY(-4px);
      }
    }

    button {
      position: relative;
      overflow: hidden;
    }

    button.hover-active {
      transform: translateY(-2px);
      transition: all 0.2s ease-out;
    }

    body.keyboard-nav *:focus {
      outline: 2px solid #007bff;
      outline-offset: 2px;
    }
  ".

(** The element the script makes, with a given identity. *)
Definition style_element (i : nat) : node :=
  Node i (mkElement "style" [("data-animations", "true")]%string [] [] []
            animations_css []) [].

(** The statement as a whole, on the page and the next identity;
    [None] is a TypeError. *)
Definition add_animations (doc : node) (fresh : nat) : option (node * nat) :=
  match hd_error (document_querySelectorAll animations_style doc) with
  | Some _ => Some (doc, fresh)
  | None =>
      match document_head doc with
      | Some head =>
          Some (appendChild (nid head) (style_element fresh) doc, S fresh)
      | None => None
      end
  end.

(** *** Buttons and interactive elements (script.js, 103-126) *)

(** ['button, [role="button"]'] and ['[data-interactive]'] *)
Definition buttons : list (list simple) :=
  [[ByTag "button"]; [AttrEquals "role" "button"]].

Definition interactive : list (list simple) := [[WithAttr "data-interactive"]].

Inductive pointer_event := Click | Mouseenter | Mouseleave.

(** The functions the script registers: [createRipple] and the four
    anonymous ones. *)
Inductive pointer_handler :=
| CreateRipple
| HoverOn        (* this.classList.add('hover-active') *)
| HoverOff       (* this.classList.remove('hover-active') *)
| LiftOn         (* transform and boxShadow set *)
| LiftOff.       (* transform back, boxShadow emptied *)

(** The listeners of the two [forEach], in the order they are added. *)
Definition pointer_listeners (doc : node)
  : list (nat * pointer_event * pointer_handler) :=
  flat_map (fun b => [(nid b, Click, CreateRipple);
                      (nid b, Mouseenter, HoverOn);
                      (nid b, Mouseleave, HoverOff)])
    (document_querySelectorAll buttons doc)
  ++ flat_map (fun x => [(nid x, Mouseenter, LiftOn);
                         (nid x, Mouseleave, LiftOff)])
       (document_querySelectorAll interactive doc).

Fixpoint remove_property (k : string) (l : list (string * string))
  : list (string * string) :=
  match l with
  | [] => []
  | (k', v) :: l' =>
      if String.eqb k k' then remove_property k l'
      else (k', v) :: remove_property k l'
  end.

(** [style.k = ''] takes the property off the style. *)
Definition clear_style (k : string) (e : element) : element :=
  mkElement (tagName e) (attributes e) (classList e) (value e)
    (defaultValue e) (textContent e) (remove_property k (style e)).

(** What the four functions do to [this]. *)
Definition hover (h : pointer_handler) (e : element) : element :=
  match h with
  | CreateRipple => e
  | HoverOn => classList_add "hover-active" e
  | HoverOff => classList_remove "hover-active" e
  | LiftOn =>
      set_style "box-shadow" "0 8px 24px rgba(0, 0, 0, 0.15)"
        (set_style "transform" "translateY(-4px)" e)
  | LiftOff =>
      clear_style "box-shadow" (set_style "transform" "translateY(0)" e)
  end.

Definition pointer_event_eqb (a b : pointer_event) : bool :=
  match a, b with
  | Click, Click | Mouseenter, Mouseenter | Mouseleave, Mouseleave => true
  | _, _ => false
  end.

Definition pointer_handlers_of (target : nat) (ev : pointer_event)
           (l : list (nat * pointer_event * pointer_handler))
  : list pointer_handler :=
  map snd
    (filter (fun x => (fst (fst x) =? target)
                      && pointer_event_eqb (snd (fst x)) ev) l).

(** The pointer enters or leaves [target]: its listeners run in the
    order they were added. *)
Definition hover_dispatch (target : nat) (ev : pointer_event)
           (l : list (nat * pointer_event * pointer_handler)) (doc : node)
  : node :=
  fold_left (fun d h => update target (hover h) d)
    (pointer_handlers_of target ev l) doc.

(** The value of a property of the style, if it is set. *)
Definition style_of (k : string) (e : element) : option string :=
  getAttribute k (style e).

(** *** Scroll-triggered fade-in (script.js, 19-37) *)

(** ['[data-animate]'] *)
Definition animated : list (list simple) := [[WithAttr "data-animate"]].

(** The targets of an IntersectionObserver, and the page. *)
Record observing := mkObserving {
  observed : list nat;
  observed_doc : node
}.

(** [observer.observe(target)] and [observer.unobserve(target)] *)
Definition observe (target : nat) (l : list nat) : list nat :=
  if existsb (Nat.eqb target) l then l else l ++ [target].

Definition unobserve (target : nat) (l : list nat) : list nat :=
  filter (fun j => negb (j =? target)) l.

(** The callback of [observer]; an entry is its target with
    [isIntersecting]. *)
Definition fade_in (entries : list (nat * bool)) (st : observing) : observing :=
  fold_left
    (fun (st : observing) (en : nat * bool) =>
       if snd en then
         mkObserving (unobserve (fst en) (observed st))
           (update (fst en) (classList_add "animate-fade-in") (observed_doc st))
       else st)
    entries st.

(** The [forEach] that puts every animated element under observation. *)
Definition fade_in_start (doc : node) : observing :=
  mkObserving
    (fold_left (fun l n => observe (nid n) l)
       (document_querySelectorAll animated doc) [])
    doc.

(** The browser reports: the callback gets the entries of the targets
    that are under observation. *)
Definition fade_in_report (entries : list (nat * bool)) (st : observing)
  : observing :=
  fade_in (filter (fun en => existsb (Nat.eqb (fst en)) (observed st)) entries)
    st.

Definition fade_in_reports (bs : list (list (nat * bool))) (st : observing)
  : observing :=
  fold_left (fun st b => fade_in_report b st) bs st.

(** Some entry says that [target] is intersecting. *)
Definition intersecting (target : nat) (entries : list (nat * bool)) : bool :=
  existsb (fun en => (fst en =? target) && snd en) entries.

(** [j] is one of [l]. *)
Definition among (l : list nat) (j : nat) : bool := existsb (Nat.eqb j) l.

(** *** The ripple of a button (script.js, 84-101)

    The geometry is in double-precision numbers, the kernel's binary64
    floats.  [Number_toString] is the conversion of a number to a
    string, as [size + 'px'] makes it; the style keeps the text as
    assigned. *)

Section Geometry.
Import Floats.
Local Open Scope float_scope.

Variable Number_toString : float -> string.

(** The answer of [getBoundingClientRect], as far as it is read. *)
Record rect := mkRect {
  rect_left : float;
  rect_top : float;
  rect_width : float;
  rect_height : float
}.

(** The click, as far as it is read. *)
Record mouse := mkMouse { clientX : float; clientY : float }.

(** [Math.max(a, b)]: NaN if one of them is, and +0 above -0. *)
Definition Math_max (a b : float) : float :=
  if (is_nan a || is_nan b)%bool then nan
  else if a <? b then b
  else if b <? a then a
  else match classify a with
       | NZero => b
       | _ => a
       end.

Definition px (x : float) : string := (Number_toString x ++ "px")%string.

(** The span [createRipple] makes, with a given identity. *)
Definition ripple_element (i : nat) (ev : mouse) (r : rect) : node :=
  let size := Math_max (rect_width r) (rect_height r) in
  let x := clientX ev - rect_left r - size / 2 in
  let y := clientY ev - rect_top r - size / 2 in
  Node i (mkElement "span" [] ["ripple"%string] [] [] []
            [("height", px size); ("width", px size);
             ("left", px x); ("top", px y)]%string) [].

End Geometry.

Section Ripple.
Variable Number_toString : PrimFloat.float -> string.

(** The page, the next identity and the timers of the ripples, each
    callback [() => ripple.remove()] holding its ripple. *)
Record page := mkPage {
  page_document : node;
  page_fresh : nat;
  page_timers : scheduler nat
}.

(** [createRipple(event)] for a click on [button], the element the
    listener is on. *)
Definition createRipple (button : nat) (ev : mouse) (r : rect) (p : page)
  : page :=
  let ripple := ripple_element Number_toString (page_fresh p) ev r in
  let doc := appendChild button ripple (page_document p) in
  let '(_, timers) := schedule (page_fresh p) 600 (page_timers p) in
  mkPage doc (S (page_fresh p)) timers.

(** The clock comes to [t]: the ripples whose time has come are
    removed. *)
Definition page_wait (t : nat) (p : page) : page :=
  let '(timers, doc) :=
    wait_until (fun _ ripple doc => detach ripple doc) t (page_timers p)
      (page_document p) in
  mkPage doc (page_fresh p) timers.

(** A click: when, on which button, where, and the box of the button. *)
Record click := mkClick {
  click_time : nat;
  click_button : nat;
  click_mouse : mouse;
  click_rect : rect
}.

(** The clicks [cs] one after the other, and the clock comes to
    [final]. *)
Fixpoint clicks (cs : list click) (final : nat) (p : page) : page :=
  match cs with
  | [] => page_wait final p
  | c :: cs' =>
      clicks cs' final
        (createRipple (click_button c) (click_mouse c) (click_rect c)
           (page_wait (click_time c) p))
  end.

(** The ripples still on the page at time [final]: those of the clicks
    of the last 600 ms, the [k]-th click having made the element with
    the [k]-th identity. *)
Fixpoint lasting (cs : list click) (final : nat) (fresh : nat)
  : list (nat * node) :=
  match cs with
  | [] => []
  | c :: cs' =>
      (if final <? click_time c + 600
       then [(click_button c,
              ripple_element Number_toString fresh (click_mouse c)
                (click_rect c))]
       else [])
      ++ lasting cs' final (S fresh)
  end.

(** The elements [l] appended, each to its parent. *)
Definition with_ripples (l : list (nat * node)) (doc : node) : node :=
  fold_left (fun d x => at_node (fst x) (add_last (snd x)) d) l doc.

End Ripple.

(** A ripple that is on the page, with its timer: the handle and the due
    time, the button and the element. *)
Definition ripple_timer (y : nat * nat * (nat * node)) : timer nat :=
  mkTimer (fst (fst y)) (snd (fst y)) (nid (snd (snd y))).

(** The page [p] is the page [d0] with the ripples [pend], oldest
    first, and a timer for each. *)
Definition ripples_ok (fresh0 : nat) (d0 : node) (p : page)
           (pend : list (nat * nat * (nat * node))) : Prop :=
  sched_queue (page_timers p) = map ripple_timer pend /\
  page_document p = with_ripples (map snd pend) d0 /\
  StronglySorted le (map (fun y => snd (fst y)) pend) /\
  Forall (fun y => snd (fst y) <= sched_clock (page_timers p) + 600) pend /\
  NoDup (map (fun y => fst (fst y)) pend) /\
  Forall (fun y => fst (fst y) < sched_next (page_timers p)) pend /\
  NoDup (map (fun y => nid (snd (snd y))) pend) /\
  Forall (fun y => fresh0 <= nid (snd (snd y)) < page_fresh p /\
                   kids (snd (snd y)) = []) pend /\
  fresh0 <= page_fresh p.

(** The ripple is due after [t]. *)
Definition alive (t : nat) (y : nat * nat * (nat * node)) : bool :=
  t <? snd (fst y).

(** A page with one button. *)
Definition button_page : node :=
  Node 0 (plain "html")
    [Node 1 (plain "body") [Node 2 (plain "button") []]].

(** *** The counters of the stats section (script.js, 39-78)

    The counting is in double-precision numbers.  [toLocaleString] is
    the formatting of a number for the locale of the browser. *)

Section Counting.
Import Floats.
Local Open Scope float_scope.

(** The number an integer stands for; exact below 2^53. *)
Definition Z_to_float (z : Z) : float :=
  SF2Prim (binary_normalize prec emax z 0 false).

(** [Math.floor(x)] *)
Definition Math_floor (x : float) : float :=
  match Prim2SF x with
  | S754_finite s m e =>
      if (0 <=? e)%Z then x
      else
        let q := Z.shiftr (Zpos m) (- e) in
        let whole := Z.eqb (Z.shiftl q (- e)) (Zpos m) in
        let z := if s then (if whole then - q else - q - 1)%Z else q in
        SF2Prim (binary_normalize prec emax z 0 s)
  | _ => x
  end.

(** One call of [animateCounter]: its arguments, the variables
    [increment] and [current] of its closure, and whether the interval
    is still set. *)
Record counter := mkCounter {
  counter_element : nat;
  counter_target : float;
  counter_increment : float;
  counter_current : float;
  counter_running : bool
}.

(** [animateCounter(element, target)], with the default duration. *)
Definition animateCounter (element : nat) (target : float) : counter :=
  mkCounter element target (target / (2000 / 16)) 0 true.

(** The callback of the interval runs: [current] grows, and the
    interval is cleared when it has reached the target. *)
Definition counter_next (c : counter) : counter :=
  let current := counter_current c + counter_increment c in
  mkCounter (counter_element c) (counter_target c) (counter_increment c)
    current (negb (counter_target c <=? current)).

(** The number the callback shows when it runs. *)
Definition counter_shows (c : counter) : float :=
  let current := counter_current c + counter_increment c in
  if counter_target c <=? current then counter_target c
  else Math_floor current.

End Counting.

(** A result of [parseInt] as a double. *)
Definition number_to_float (x : number) : PrimFloat.float :=
  match x with
  | NaN => PrimFloat.nan
  | Int z => Z_to_float z
  end.

(** The counter after [n] runs of its callback. *)
Definition counter_after (n : nat) (c : counter) : counter :=
  Nat.iter n counter_next c.

Section Stats.
Variable toLocaleString : PrimFloat.float -> jsstring.

(** 16 ms pass for one counter: its callback runs if the interval is
    still set, and writes the text of the element. *)
Definition counter_tick (c : counter) (doc : node) : counter * node :=
  if counter_running c then
    (counter_next c,
     at_node (counter_element c)
       (set_textContent (toLocaleString (counter_shows c))) doc)
  else (c, doc).

Fixpoint counter_ticks (n : nat) (c : counter) (doc : node) : counter * node :=
  match n with
  | 0 => (c, doc)
  | S n' => let '(c', doc') := counter_tick c doc in counter_ticks n' c' doc'
  end.

(** The targets of [statsObserver], the page, and the counters started
    so far. *)
Record stats := mkStats {
  stats_observed : list nat;
  stats_doc : node;
  stats_counters : list counter
}.

(** ['[data-stats-section]'] and ['[data-counter]'] *)
Definition stats_section : list (list simple) :=
  [[WithAttr "data-stats-section"]].

Definition counters : list (list simple) := [[WithAttr "data-counter"]].

(** [parseInt(counter.getAttribute('data-counter'), 10)]; without the
    attribute [getAttribute] gives [null], read as the string "null". *)
Definition targetValue (e : element) : PrimFloat.float :=
  number_to_float
    (parseInt (match getAttribute "data-counter" (attributes e) with
               | Some v => js v
               | None => js "null"
               end)).

(** The counters [animateCounter] is called for, for a section. *)
Definition section_counters (section : node) : list counter :=
  map (fun c => animateCounter (nid c) (targetValue (data c)))
    (querySelectorAll counters section).

(** The body of the [forEach] of the callback of [statsObserver] for
    one entry.  A target that is off the page is not followed. *)
Definition stats_entry (st : stats) (en : nat * bool) : stats :=
  match lookup (fst en) (stats_doc st) with
  | Some section =>
      if snd en && negb (contains "counted" (classList (data section))) then
        mkStats (unobserve (fst en) (stats_observed st))
          (update (fst en) (classList_add "counted") (stats_doc st))
          (stats_counters st ++ section_counters section)
      else st
  | None => st
  end.

(** The state once the counters of the section [S] were started. *)
Definition stats_started (doc S : node) : stats :=
  mkStats [] (update (nid S) (classList_add "counted") doc)
    (section_counters S).

(** The callback of [statsObserver]. *)
Definition stats_callback (entries : list (nat * bool)) (st : stats) : stats :=
  fold_left stats_entry entries st.

(** The first stats section, if there is one, is put under
    observation. *)
Definition stats_start (doc : node) : stats :=
  mkStats
    (match hd_error (document_querySelectorAll stats_section doc) with
     | Some section => observe (nid section) []
     | None => []
     end)
    doc [].

(** The browser reports on the targets under observation. *)
Definition stats_report (entries : list (nat * bool)) (st : stats) : stats :=
  stats_callback
    (filter (fun en => existsb (Nat.eqb (fst en)) (stats_observed st)) entries)
    st.

Definition stats_reports (bs : list (list (nat * bool))) (st : stats) : stats :=
  fold_left (fun st b => stats_report b st) bs st.

End Stats.

(** The page after the element [el], which was [E], was given a text. *)
Definition with_text (el : nat) (E : node) (text : jsstring) (doc : node)
  : node :=
  replace el (set_textContent text E) doc.

(** Two counters that differ in their element at most. *)
Definition same_count (c c' : counter) : Prop :=
  counter_target c = counter_target c' /\
  counter_increment c = counter_increment c' /\
  counter_current c = counter_current c' /\
  counter_running c = counter_running c'.

(** The interval is set for [n] runs of the callback and is cleared by
    the next. *)
Fixpoint runs_then_stops (n : nat) (c : counter) : bool :=
  match n with
  | 0 => negb (counter_running (counter_next c))
  | S n' =>
      counter_running (counter_next c) && runs_then_stops n' (counter_next c)
  end.

(** The counter for the integer [z] stops with the callback number 125
    or 126 when [z] is positive, and with the first when it is not. *)
Definition on_time (z : Z) : bool :=
  let c := animateCounter 0 (Z_to_float z) in
  if (0 <? z)%Z then runs_then_stops 124 c || runs_then_stops 125 c
  else runs_then_stops 0 c.

(** The integers from [- n] to [n]. *)
Definition around_zero (n : Z) : list Z :=
  map (fun k => (Z.of_nat k - n)%Z) (seq 0 (Z.to_nat (2 * n + 1))).

(** A page with a stats section of two counters, one of them without a
    number. *)
Definition stats_page : node :=
  Node 0 (plain "html")
    [Node 1 (plain "body")
       [Node 2 (mkElement "section" [("data-stats-section", "")]%string
                  [] [] [] [] [])
          [Node 3 (mkElement "span" [("data-counter", "1500")]%string
                     [] [] [] (js "0") []) [];
           Node 4 (mkElement "span" [("data-counter", "many")]%string
                     [] [] [] (js "0") []) []]]].

(** A page with a head and a body that holds an open modal, an element
    that is active but no modal, a button, a link that acts as a button
    and is interactive, and two animated elements. *)
Definition demo_page : node :=
  Node 0 (plain "html")
    [Node 1 (plain "head") [];
     Node 2 (plain "body")
       [Node 3 (mkElement "div" [("data-modal", "")]%string
                  ["modal"; "active"]%string [] [] [] []) [];
        Node 4 (mkElement "li" [] ["active"%string] [] [] [] []) [];
        Node 5 (plain "button") [];
        Node 6 (mkElement "a"
                  [("role", "button"); ("data-interactive", "")]%string
                  ["hover-active"%string] [] [] []
                  [("transform", "rotate(3deg)")]%string) [];
        Node 7 (mkElement "div" [("data-animate", "")]%string [] [] [] [] [])
          [];
        Node 8 (mkElement "div" [("data-animate", "")]%string [] [] [] [] [])
          []]].

(** A page whose form has none of the declared fields. *)
Definition search_page : world :=
  mkWorld
    (Node 0 (plain "html")
       [Node 1 (mkElement "form" [("name", "contact")]%string [] [] [] [] [])
          [Node 2 (input_element "search" "q" (js "leaf")) []]])
    3 [] [] 0 [].

(* ================================================================= *)
(** * Part II - lemmas and theorems *)
(* ================================================================= *)

(** ** The matcher *)

Lemma rep_spec p k : forall s n,
  rep p n k s = true <->
  exists a b, s = a ++ b /\ forallb p a = true /\ n <= List.length a /\
              k b = true.
Proof.
  induction s as [|c s IH]; intros n; simpl.
  - rewrite andb_true_iff, Nat.eqb_eq. split.
    + intros [-> Hk]. exists [], []. simpl. auto.
    + intros (a & b & E & _ & Hn & Hk).
      symmetry in E. apply app_eq_nil in E as [-> ->].
      simpl in Hn. split; [lia | assumption].
  - rewrite orb_true_iff, !andb_true_iff, Nat.eqb_eq, IH. split.
    + intros [[Hc (a & b & -> & Ha & Hn & Hk)] | [-> Hk]].
      * exists (c :: a), b. simpl. rewrite Hc, Ha.
        repeat split; auto; lia.
      * exists [], (c :: s). simpl. auto.
    + intros (a & b & E & Ha & Hn & Hk). destruct a as [|x a]; simpl in *.
      * right. subst b. split; [lia | assumption].
      * injection E as <- ->. apply andb_true_iff in Ha as [Hc Ha].
        left. split; [assumption|]. exists a, b. repeat split; auto; lia.
Qed.

Lemma exec_nil s : exec [] s = true <-> s = [].
Proof. destruct s; simpl; split; congruence. Qed.

Lemma exec_Chr p r s :
  exec (Chr p :: r) s = true <->
  exists c s', s = c :: s' /\ p c = true /\ exec r s' = true.
Proof.
  destruct s as [|c s]; simpl.
  - split; [discriminate | intros (? & ? & ? & _); discriminate].
  - rewrite andb_true_iff. split.
    + intros [? ?]. eauto.
    + intros (? & ? & E & ? & ?). injection E as <- <-. auto.
Qed.

Lemma exec_Rep n p r s :
  exec (Rep n p :: r) s = true <->
  exists a b, s = a ++ b /\ forallb p a = true /\ n <= List.length a /\
              exec r b = true.
Proof. simpl. apply rep_spec. Qed.

(** ** Strings *)

Lemma streq_true a b : streq a b = true <-> a = b.
Proof. unfold streq. destruct (jsstring_eq_dec a b); split; congruence. Qed.

Lemma streq_false a b : a <> b -> streq a b = false.
Proof. unfold streq. destruct (jsstring_eq_dec a b); congruence. Qed.

Lemma not_space_at_spec c :
  not_space_at c = true <-> is_space c = false /\ c <> ch_at.
Proof.
  unfold not_space_at. rewrite negb_true_iff, orb_false_iff, N.eqb_neq.
  tauto.
Qed.

Lemma count_at_none (l : jsstring) :
  forallb not_space_at l = true -> count_occ N.eq_dec l ch_at = 0.
Proof.
  intros H. apply count_occ_not_In. intros Hin.
  rewrite forallb_forall in H. apply H, not_space_at_spec in Hin. tauto.
Qed.

Lemma forallb_not_space_at (l : jsstring) :
  Forall (fun c => is_space c = false) l ->
  count_occ N.eq_dec l ch_at = 0 ->
  forallb not_space_at l = true.
Proof.
  intros Hs Hc. apply forallb_forall. intros c Hin.
  apply not_space_at_spec. split.
  - rewrite Forall_forall in Hs. auto.
  - intros ->. apply (count_occ_not_In N.eq_dec) in Hc. auto.
Qed.

Lemma forallb_no_space (l : jsstring) :
  forallb not_space_at l = true -> Forall (fun c => is_space c = false) l.
Proof.
  intros H. apply Forall_forall. intros c Hin.
  rewrite forallb_forall in H. apply H, not_space_at_spec in Hin. tauto.
Qed.

Lemma length_pos_nonnil (A : Type) (l : list A) :
  1 <= List.length l <-> l <> [].
Proof. destruct l; simpl; split; try congruence; try lia. Qed.

Lemma count_at_shape (a b c : jsstring) :
  count_occ N.eq_dec (a ++ ch_at :: b ++ ch_dot :: c) ch_at
  = count_occ N.eq_dec a ch_at
    + S (count_occ N.eq_dec b ch_at + count_occ N.eq_dec c ch_at).
Proof.
  rewrite count_occ_app, count_occ_cons_eq by reflexivity.
  rewrite count_occ_app, count_occ_cons_neq by discriminate.
  reflexivity.
Qed.

(** The email pattern, as a statement about the value. *)
Lemma emailRegex_spec v :
  test emailRegex v = true <->
  exists a b c, v = a ++ ch_at :: b ++ ch_dot :: c /\
    a <> [] /\ b <> [] /\ c <> [] /\
    forallb not_space_at a = true /\ forallb not_space_at b = true /\
    forallb not_space_at c = true.
Proof.
  unfold test, emailRegex. rewrite exec_Rep. split.
  - intros (a & s1 & -> & Ha & La & H).
    apply exec_Chr in H as (x & s2 & -> & Hx & H).
    apply N.eqb_eq in Hx. subst x.
    apply exec_Rep in H as (b & s3 & -> & Hb & Lb & H).
    apply exec_Chr in H as (y & s4 & -> & Hy & H).
    apply N.eqb_eq in Hy. subst y.
    apply exec_Rep in H as (c & s5 & -> & Hc & Lc & H).
    apply exec_nil in H. subst s5. rewrite app_nil_r.
    exists a, b, c. rewrite <- !length_pos_nonnil. auto 10.
  - intros (a & b & c & -> & Na & Nb & Nc & Ha & Hb & Hc).
    rewrite <- length_pos_nonnil in Na, Nb, Nc.
    exists a, (ch_at :: b ++ ch_dot :: c). repeat split; auto.
    apply exec_Chr. exists ch_at, (b ++ ch_dot :: c).
    repeat split; auto. apply exec_Rep.
    exists b, (ch_dot :: c). repeat split; auto.
    apply exec_Chr. exists ch_dot, c. repeat split; auto.
    apply exec_Rep. exists c, []. rewrite app_nil_r. repeat split; auto.
Qed.

Lemma checkRule_email v : checkRule v (js "email") = test emailRegex v.
Proof. reflexivity. Qed.

Lemma checkRule_phone v :
  checkRule v (js "phone") = test phoneRegex v || streq v (js "").
Proof. reflexivity. Qed.

(** ** Decimal numerals *)

Lemma parse_digits_step a c s :
  is_digit c = true ->
  parse_digits (Some a) (c :: s)
  = parse_digits (Some (10 * a + digit_val c)%Z) s.
Proof. intros H. cbn [parse_digits]. rewrite H. reflexivity. Qed.

Lemma parse_digits_uint d : forall a : nat,
  parse_digits (Some (Z.of_nat a)) (uint_chars d)
  = Some (Z.of_nat (Nat.of_uint_acc d a)).
Proof.
  induction d; intros a; cbn [uint_chars Nat.of_uint_acc]; trivial;
    rewrite parse_digits_step by reflexivity; rewrite <- IHd;
    f_equal; f_equal; rewrite Nat.tail_mul_spec;
    unfold digit_val; cbn [Z.of_N]; lia.
Qed.

Lemma to_uint_nonnil n : Nat.to_uint n <> Decimal.Nil.
Proof.
  intros E. pose proof (Unsigned.of_to n) as H. rewrite E in H.
  simpl in H. subst n. discriminate.
Qed.

Lemma uint_chars_digits d : Forall (fun c => is_digit c = true) (uint_chars d).
Proof. induction d; simpl; constructor; auto. Qed.

Lemma parse_digits_None_digit c s :
  is_digit c = true ->
  parse_digits None (c :: s) = parse_digits (Some 0%Z) (c :: s).
Proof. intros H. simpl. rewrite H. reflexivity. Qed.

Lemma is_digit_facts c :
  is_digit c = true ->
  is_space c = false /\ c <> ch_colon /\ c <> ch_minus /\ c <> ch_plus.
Proof.
  unfold is_digit, is_space, ch_colon, ch_minus, ch_plus.
  rewrite andb_true_iff, !N.leb_le. intros [H1 H2].
  repeat split; try lia.
  repeat (apply orb_false_iff; split);
    rewrite ?andb_false_iff, ?N.leb_gt, ?N.eqb_neq; lia.
Qed.

Lemma split_no_sep sep s :
  Forall (fun c => c <> sep) s -> split sep s = [s].
Proof.
  induction 1 as [|c s Hc _ IH]; simpl; trivial.
  apply N.eqb_neq in Hc. rewrite Hc, IH. reflexivity.
Qed.

Lemma parseInt_decimal n : parseInt (decimal n) = Int (Z.of_nat n).
Proof.
  unfold decimal, parseInt.
  pose proof (uint_chars_digits (Nat.to_uint n)) as Hd.
  pose proof (parse_digits_uint (Nat.to_uint n) 0) as Hp.
  change (Nat.of_uint_acc (Nat.to_uint n) 0)
    with (Nat.of_uint (Nat.to_uint n)) in Hp.
  rewrite Unsigned.of_to in Hp.
  destruct (uint_chars (Nat.to_uint n)) as [|c s] eqn:E.
  - exfalso. apply (to_uint_nonnil n).
    destruct (Nat.to_uint n); simpl in E; congruence.
  - inversion Hd as [|? ? Hc _]; subst.
    destruct (is_digit_facts _ Hc) as (Hs & _ & Hm & Hpl).
    simpl dropwhile. rewrite Hs.
    apply N.eqb_neq in Hm, Hpl. rewrite Hm, Hpl.
    rewrite (parse_digits_None_digit _ s Hc).
    change (Some 0%Z) with (Some (Z.of_nat 0)). rewrite Hp.
    f_equal. lia.
Qed.

Lemma rule_argument_minLength n : rule_argument (minLength_rule n) = decimal n.
Proof.
  unfold rule_argument, minLength_rule.
  assert (H : split ch_colon (decimal n) = [decimal n]).
  { apply split_no_sep. unfold decimal.
    eapply Forall_impl; [|apply uint_chars_digits].
    intros c Hc. apply is_digit_facts in Hc. tauto. }
  simpl. rewrite H. reflexivity.
Qed.

(** ** The rules *)

(** C6.  For every value and every natural number [n], the rule
    [minLength:n] passes exactly when the length of the value, not
    trimmed, is at least [n]. *)
Theorem checkRule_minLength (value : jsstring) (n : nat) :
  checkRule value (minLength_rule n) = true <-> n <= List.length value.
Proof.
  unfold checkRule.
  rewrite streq_false by (unfold minLength_rule; simpl; discriminate).
  replace (startsWith (minLength_rule n) (js "minLength")) with true
    by reflexivity.
  rewrite rule_argument_minLength, parseInt_decimal. simpl.
  rewrite Z.leb_le. lia.
Qed.

(** C5.  The phone rule passes exactly when the value is empty, or is
    made only of digits, white space, hyphens, plus signs and
    parentheses and has at least 7 characters; so the empty string and
    1234567 pass, 12345 and abc-defg fail. *)
Theorem checkRule_phone_spec :
  (forall value : jsstring,
     checkRule value (js "phone") = true <->
     value = [] \/ (Forall phone_symbol value /\ 7 <= List.length value)) /\
  checkRule (js "") (js "phone") = true /\
  checkRule (js "1234567") (js "phone") = true /\
  checkRule (js "12345") (js "phone") = false /\
  checkRule (js "abc-defg") (js "phone") = false.
Proof.
  split; [|repeat split; reflexivity].
  intros value. rewrite checkRule_phone, orb_true_iff, streq_true.
  unfold test, phoneRegex. rewrite exec_Rep.
  assert (Hsym : forall l, forallb phone_char l = true <-> Forall phone_symbol l).
  { intros l. rewrite forallb_forall, Forall_forall.
    split; intros H c Hin; specialize (H c Hin);
      unfold phone_char, phone_symbol in *;
      rewrite !orb_true_iff, !N.eqb_eq in *; tauto. }
  change (js "") with (@nil char16). split.
  - intros [(a & b & -> & Ha & La & Hb) | ->]; [|auto].
    apply exec_nil in Hb. subst b. rewrite app_nil_r.
    right. split; [apply Hsym|]; assumption.
  - intros [-> | [Hs Hl]]; [auto|].
    left. exists value, []. rewrite app_nil_r.
    repeat split; auto. apply Hsym; assumption.
Qed.

(** C4, as the specification words it, fails: a value with a blank
    inside its local part has one [@], characters that are not white
    space on each side of it and around the dot, and is rejected. *)
Lemma email_claim_counterexample :
  email_as_claimed (js "a b@c.d") /\
  checkRule (js "a b@c.d") (js "email") = false.
Proof.
  split; [|reflexivity]. split; [reflexivity|].
  exists (js "a b"), (js "c.d"). split; [reflexivity|].
  split; [apply Exists_cons_hd; reflexivity|].
  split; [apply Exists_cons_hd; reflexivity|].
  exists [], 99%N, 100%N, []. repeat split; reflexivity.
Qed.

(** C4, amended.  The email rule passes exactly when the value has
    exactly one [@], no white space anywhere, at least one character
    before the [@], and after the [@] a dot with at least one character
    between the [@] and the dot and at least one after the dot; a@b.co
    passes, a@b, @b.co and the empty string fail. *)
Theorem checkRule_email_spec :
  (forall value : jsstring,
     checkRule value (js "email") = true <-> email_shape value) /\
  checkRule (js "a@b.co") (js "email") = true /\
  checkRule (js "a@b") (js "email") = false /\
  checkRule (js "@b.co") (js "email") = false /\
  checkRule (js "") (js "email") = false.
Proof.
  split; [|repeat split; reflexivity].
  intros value. rewrite checkRule_email, emailRegex_spec.
  unfold email_shape. split.
  - intros (a & b & c & -> & Na & Nb & Nc & Ha & Hb & Hc). split; [|split].
    + rewrite count_at_shape, !count_at_none by assumption. reflexivity.
    + apply Forall_app. split; [apply forallb_no_space; assumption|].
      constructor; [reflexivity|].
      apply Forall_app. split; [apply forallb_no_space; assumption|].
      constructor; [reflexivity|]. apply forallb_no_space; assumption.
    + exists a, b, c. auto.
  - intros (Hcnt & Hsp & a & b & c & -> & Na & Nb & Nc).
    rewrite count_at_shape in Hcnt.
    apply Forall_app in Hsp as [Sa Hsp].
    inversion Hsp as [|? ? _ Hsp']; subst.
    apply Forall_app in Hsp' as [Sb Hsp'].
    inversion Hsp' as [|? ? _ Sc]; subst.
    exists a, b, c. repeat split; auto;
      apply forallb_not_space_at; auto; lia.
Qed.

(** C7, as stated, fails: a specifier that begins with minLength
    without being [minLength:N] is still read as a minLength rule, finds
    no number, and fails. *)
Lemma checkRule_default_counterexample :
  js "minLengthy" <> js "required" /\
  (forall n, js "minLengthy" <> minLength_rule n) /\
  js "minLengthy" <> js "email" /\
  js "minLengthy" <> js "phone" /\
  checkRule (js "hello") (js "minLengthy") = false.
Proof.
  split; [discriminate|]. split.
  - intros n. unfold minLength_rule. simpl. discriminate.
  - repeat split; discriminate.
Qed.

(** C7, amended.  A specifier that is not required, does not begin with
    minLength, is not email and is not phone passes for every value; a
    specifier that begins with minLength (and is not required) is read
    as a minLength rule whatever follows, and fails for every value when
    no decimal integer follows its first colon.  [checkRule] is a total
    function of two strings: no case of it fails to return. *)
Theorem checkRule_default (value rule : jsstring) :
  (rule <> js "required" -> startsWith rule (js "minLength") = false ->
   rule <> js "email" -> rule <> js "phone" ->
   checkRule value rule = true) /\
  (rule <> js "required" -> startsWith rule (js "minLength") = true ->
   checkRule value rule
   = length_ge (List.length value) (parseInt (rule_argument rule))) /\
  (startsWith rule (js "minLength") = true ->
   parseInt (rule_argument rule) = NaN -> checkRule value rule = false).
Proof.
  unfold checkRule. repeat split.
  - intros H1 H2 H3 H4. rewrite (streq_false _ _ H1), H2.
    rewrite (streq_false _ _ H3), (streq_false _ _ H4). reflexivity.
  - intros H1 H2. rewrite (streq_false _ _ H1), H2. reflexivity.
  - intros H2 H3. rewrite H2, H3.
    destruct (streq rule (js "required")) eqn:E; [|reflexivity].
    apply streq_true in E. subst rule. discriminate.
Qed.

Lemma checkRule_default_witness :
  checkRule (js "abc") (js "unknown") = true /\
  checkRule (js "abc") (js "minLength:x")
  = length_ge 3 (parseInt (js "x")) /\
  checkRule (js "abc") (js "minLength") = false.
Proof.
  pose proof (checkRule_default (js "abc") (js "unknown")) as (H & _ & _).
  pose proof (checkRule_default (js "abc") (js "minLength:x")) as (_ & H2 & _).
  pose proof (checkRule_default (js "abc") (js "minLength")) as (_ & _ & H3).
  split; [|split].
  - apply H; discriminate || reflexivity.
  - apply H2; discriminate || reflexivity.
  - apply H3; reflexivity.
Defined.

(** ** Trees *)

Lemma node_induction (Q : node -> Prop) :
  (forall i e ks, Forall Q ks -> Q (Node i e ks)) -> forall n, Q n.
Proof.
  intros H. fix IH 1. intros [i e ks]. apply H.
  induction ks as [|k ks IHks]; constructor; [apply IH | exact IHks].
Qed.

Lemma map_flat_map {A B C} (f : B -> C) (g : A -> list B) (l : list A) :
  map f (flat_map g l) = flat_map (fun x => map f (g x)) l.
Proof.
  induction l as [|a l IH]; simpl; trivial.
  rewrite map_app, IH. reflexivity.
Qed.

Lemma flat_map_map {A B C} (f : A -> B) (g : B -> list C) (l : list A) :
  flat_map g (map f l) = flat_map (fun x => g (f x)) l.
Proof.
  induction l as [|a l IH]; simpl; trivial. rewrite IH. reflexivity.
Qed.

Lemma ids_Node i e ks : ids (Node i e ks) = i :: flat_map ids ks.
Proof. unfold ids. simpl. rewrite map_flat_map. reflexivity. Qed.

Lemma subtrees_self n : In n (subtrees n).
Proof. destruct n. simpl. auto. Qed.

Lemma subtrees_kid k n : In k (kids n) -> In k (subtrees n).
Proof.
  destruct n as [i e ks]. simpl. intros H. right.
  apply in_flat_map. exists k. split; [assumption | apply subtrees_self].
Qed.

Lemma subtrees_trans a b : forall c,
  In a (subtrees b) -> In b (subtrees c) -> In a (subtrees c).
Proof.
  intros c Hab. induction c as [i e ks IH] using node_induction.
  simpl. intros [<- | H]; [exact Hab|].
  right. apply in_flat_map in H as (k & Hk & Hb).
  apply in_flat_map. exists k. split; [assumption|].
  rewrite Forall_forall in IH. auto.
Qed.

Lemma in_ids n x : In x (ids n) <-> exists m, In m (subtrees n) /\ nid m = x.
Proof.
  unfold ids. rewrite in_map_iff. split; intros (m & A & B); exists m; auto.
Qed.

Lemma ids_self n : In (nid n) (ids n).
Proof. apply in_ids. exists n. split; [apply subtrees_self | reflexivity]. Qed.

Lemma ids_subtree a b : In a (subtrees b) -> incl (ids a) (ids b).
Proof.
  intros H x Hx. apply in_ids in Hx as (m & Hm & <-).
  apply in_ids. exists m. split; [|reflexivity].
  eapply subtrees_trans; eassumption.
Qed.

Lemma descendants_ids P x :
  In x (flat_map ids (kids P)) <->
  exists m, In m (descendants P) /\ nid m = x.
Proof.
  unfold descendants. rewrite in_flat_map. split.
  - intros (k & Hk & Hx). apply in_ids in Hx as (m & Hm & <-).
    exists m. split; [|reflexivity]. apply in_flat_map. eauto.
  - intros (m & Hm & <-). apply in_flat_map in Hm as (k & Hk & Hm).
    exists k. split; [assumption|]. apply in_ids. eauto.
Qed.

(** A list of lists without repetition: a member of two of them names
    one of them. *)
Lemma NoDup_flat_map_share {A B} (f : A -> list B) (l : list A) :
  NoDup (flat_map f l) ->
  forall a b x, In a l -> In b l -> In x (f a) -> In x (f b) -> a = b.
Proof.
  induction l as [|c l IH]; simpl; intros ND a b x Ha Hb Hxa Hxb; [tauto|].
  apply NoDup_app_remove_l in ND as ND2.
  assert (D : forall y z, In y (f c) -> In z l -> In y (f z) -> False).
  { intros y z Hy Hz Hyz. clear IH.
    induction (f c) as [|u fc IHfc]; [inversion Hy|].
    simpl in ND. inversion ND as [|? ? Hnot ND']; subst.
    destruct Hy as [-> | Hy]; [|auto].
    apply Hnot, in_or_app. right. apply in_flat_map. eauto. }
  destruct Ha as [-> | Ha], Hb as [-> | Hb]; trivial.
  - exfalso. eapply D; eassumption.
  - exfalso. eapply D; eassumption.
  - eapply IH; eassumption.
Qed.

Lemma NoDup_flat_map_in {A B} (f : A -> list B) (l : list A) a :
  NoDup (flat_map f l) -> In a l -> NoDup (f a).
Proof.
  induction l as [|c l IH]; simpl; intros ND Ha; [tauto|].
  destruct Ha as [-> | Ha].
  - eapply NoDup_app_remove_r. eassumption.
  - apply IH; [|assumption]. eapply NoDup_app_remove_l. eassumption.
Qed.

Lemma NoDup_kid i e ks k :
  NoDup (ids (Node i e ks)) -> In k ks -> NoDup (ids k).
Proof.
  rewrite ids_Node. intros ND Hk. inversion ND; subst.
  eapply NoDup_flat_map_in; eassumption.
Qed.

Lemma NoDup_subtree a : forall b,
  In a (subtrees b) -> NoDup (ids b) -> NoDup (ids a).
Proof.
  induction b as [i e ks IH] using node_induction.
  simpl. intros [<- | H] ND; [assumption|].
  apply in_flat_map in H as (k & Hk & Ha).
  rewrite Forall_forall in IH. apply (IH k Hk Ha).
  eapply NoDup_kid; eassumption.
Qed.

(** Below the root nobody carries its identity. *)
Lemma NoDup_root_not_below i e ks m :
  NoDup (ids (Node i e ks)) -> In m (flat_map subtrees ks) -> nid m <> i.
Proof.
  rewrite ids_Node. intros ND Hm E. inversion ND as [|? ? Hnot _]; subst.
  apply Hnot. apply in_flat_map in Hm as (k & Hk & Hm).
  apply in_flat_map. exists k. split; [assumption|].
  apply in_ids. eauto.
Qed.

(** With distinct identities a reference names one node. *)
Lemma same_id_same_node root : NoDup (ids root) ->
  forall a b, In a (subtrees root) -> In b (subtrees root) ->
              nid a = nid b -> a = b.
Proof.
  induction root as [i e ks IH] using node_induction.
  intros ND a b Ha Hb E. simpl in Ha, Hb.
  destruct Ha as [<- | Ha], Hb as [<- | Hb]; trivial.
  - exfalso. eapply NoDup_root_not_below; [exact ND | exact Hb | auto].
  - exfalso. eapply NoDup_root_not_below; [exact ND | exact Ha | auto].
  - apply in_flat_map in Ha as (ka & Hka & Ha).
    apply in_flat_map in Hb as (kb & Hkb & Hb).
    assert (ka = kb).
    { rewrite ids_Node in ND. inversion ND; subst.
      eapply (NoDup_flat_map_share ids ks); try eassumption.
      - apply in_ids. exists a. eauto.
      - apply in_ids. exists b. eauto. }
    subst kb. rewrite Forall_forall in IH.
    apply (IH ka Hka); trivial. eapply NoDup_kid; eassumption.
Qed.

Lemma has_kid_spec i n :
  has_kid i n = true <-> exists k, In k (kids n) /\ nid k = i.
Proof.
  unfold has_kid. rewrite existsb_exists.
  split; intros (k & Hk & E); exists k; split; trivial;
    [apply Nat.eqb_eq | apply Nat.eqb_eq]; assumption.
Qed.

(** With distinct identities a node has one parent. *)
Lemma parent_unique root : NoDup (ids root) ->
  forall a b i, In a (subtrees root) -> In b (subtrees root) ->
                has_kid i a = true -> has_kid i b = true -> a = b.
Proof.
  intros ND a b i Ha Hb Ka Kb.
  apply has_kid_spec in Ka as (ka & Hka & Ea).
  apply has_kid_spec in Kb as (kb & Hkb & Eb).
  assert (ka = kb).
  { apply (same_id_same_node root ND); try congruence.
    - eapply subtrees_trans; [apply subtrees_kid|]; eassumption.
    - eapply subtrees_trans; [apply subtrees_kid|]; eassumption. }
  subst kb. clear Eb. revert a b Ha Hb Hka Hkb.
  induction root as [j e ks IH] using node_induction.
  intros a b Ha Hb Hka Hkb. simpl in Ha, Hb.
  assert (X : forall c, In c (flat_map subtrees ks) -> In ka (kids c) ->
                        In ka ks -> False).
  { intros c Hc Hkc Hk.
    apply in_flat_map in Hc as (k & Hk' & Hc).
    assert (ka = k).
    { rewrite ids_Node in ND. inversion ND; subst.
      eapply (NoDup_flat_map_share ids ks); try eassumption.
      - apply ids_self.
      - apply in_ids. exists ka. split; [|reflexivity].
        eapply subtrees_trans; [apply subtrees_kid|]; eassumption. }
    subst k. assert (NDk : NoDup (ids ka)) by (eapply NoDup_kid; eassumption).
    destruct ka as [x ex kx]. simpl in Hc. destruct Hc as [<- | Hc].
    - simpl in Hkc. rewrite ids_Node in NDk. inversion NDk as [|? ? N _]; subst.
      apply N. apply in_flat_map. exists (Node x ex kx).
      split; [assumption | apply (ids_self (Node x ex kx))].
    - eapply (NoDup_root_not_below x ex kx (Node x ex kx)); trivial.
      apply in_flat_map in Hc as (k2 & Hk2 & Hc).
      apply in_flat_map. exists k2. split; [assumption|].
      eapply subtrees_trans; [apply subtrees_kid|]; eassumption. }
  destruct Ha as [<- | Ha], Hb as [<- | Hb]; trivial.
  - exfalso. eapply X; eassumption.
  - exfalso. eapply X; eassumption.
  - apply in_flat_map in Ha as (k1 & Hk1 & Ha).
    apply in_flat_map in Hb as (k2 & Hk2 & Hb).
    assert (k1 = k2).
    { rewrite ids_Node in ND. inversion ND; subst.
      eapply (NoDup_flat_map_share ids ks); try eassumption.
      - apply in_ids. exists ka. split; [|reflexivity].
        apply (subtrees_trans ka a k1); [apply subtrees_kid|]; assumption.
      - apply in_ids. exists ka. split; [|reflexivity].
        apply (subtrees_trans ka b k2); [apply subtrees_kid|]; assumption. }
    subst k2. rewrite Forall_forall in IH.
    apply (IH k1 Hk1); trivial. eapply NoDup_kid; eassumption.
Qed.

Lemma find_unique {A} (p : A -> bool) (l : list A) (x : A) :
  In x l -> p x = true ->
  (forall y, In y l -> p y = true -> y = x) -> find p l = Some x.
Proof.
  intros Hx Hp U. destruct (find p l) as [y|] eqn:E.
  - apply find_some in E as [Hy Py]. f_equal. auto.
  - exfalso. eapply find_none in E; [|exact Hx]. congruence.
Qed.

Lemma lookup_in i root n :
  lookup i root = Some n -> In n (subtrees root) /\ nid n = i.
Proof.
  intros H. apply find_some in H as [H1 H2].
  apply Nat.eqb_eq in H2. auto.
Qed.

Lemma lookup_spec root i n : NoDup (ids root) ->
  (lookup i root = Some n <-> In n (subtrees root) /\ nid n = i).
Proof.
  intros ND. split; [apply lookup_in|]. intros [H1 H2].
  apply find_unique; trivial.
  - apply Nat.eqb_eq. assumption.
  - intros y Hy Py. apply Nat.eqb_eq in Py.
    apply (same_id_same_node root ND); congruence.
Qed.

Lemma lookup_some_iff i root : lookup i root <> None <-> In i (ids root).
Proof.
  split.
  - destruct (lookup i root) as [n|] eqn:E; [|congruence]. intros _.
    apply lookup_in in E as [H1 H2]. apply in_ids. eauto.
  - intros H E. apply in_ids in H as (m & Hm & Em).
    eapply find_none in E; [|exact Hm]. simpl in E.
    apply Nat.eqb_neq in E. auto.
Qed.

Lemma parentElement_in i root P :
  parentElement i root = Some P ->
  In P (subtrees root) /\ has_kid i P = true.
Proof. intros H. apply find_some in H. exact H. Qed.

Lemma parentElement_spec root i P : NoDup (ids root) ->
  (parentElement i root = Some P <->
   In P (subtrees root) /\ has_kid i P = true).
Proof.
  intros ND. split; [apply parentElement_in|]. intros [H1 H2].
  apply find_unique; trivial.
  intros y Hy Py. apply (parent_unique root ND y P i); assumption.
Qed.

Lemma map_id_in {A} (f : A -> A) (l : list A) :
  (forall a, In a l -> f a = a) -> map f l = l.
Proof.
  intros H. rewrite <- (map_id l) at 2. apply map_ext_in. exact H.
Qed.

Lemma flat_map_singleton {A B} (F : A -> list B) (G : A -> B) (l : list A) :
  (forall a, In a l -> F a = [G a]) -> flat_map F l = map G l.
Proof.
  induction l as [|a l IH]; simpl; intros H; trivial.
  rewrite (H a) by auto. simpl. f_equal. apply IH. auto.
Qed.

Lemma not_in_kid i e ks k x :
  ~ In x (ids (Node i e ks)) -> In k ks -> ~ In x (ids k).
Proof.
  rewrite ids_Node. intros H Hk Hx. apply H. right.
  apply in_flat_map. eauto.
Qed.

Lemma update_frame i f n : ~ In i (ids n) -> update i f n = n.
Proof.
  induction n as [j e ks IH] using node_induction. intros H. simpl.
  assert (j <> i) by (intros ->; apply H; rewrite ids_Node; simpl; auto).
  apply Nat.eqb_neq in H0. rewrite H0. f_equal.
  apply map_id_in. intros k Hk. rewrite Forall_forall in IH.
  apply IH; trivial. eapply not_in_kid; eassumption.
Qed.

Lemma detach_kids i j e ks :
  (forall k, In k ks -> nid k <> i) ->
  detach i (Node j e ks) = Node j e (map (detach i) ks).
Proof.
  intros H. simpl. f_equal. apply flat_map_singleton.
  intros k Hk. apply H, Nat.eqb_neq in Hk. rewrite Hk. reflexivity.
Qed.

Lemma detach_frame i n : ~ In i (ids n) -> detach i n = n.
Proof.
  induction n as [j e ks IH] using node_induction. intros H.
  rewrite detach_kids.
  - f_equal. apply map_id_in. intros k Hk. rewrite Forall_forall in IH.
    apply IH; trivial. eapply not_in_kid; eassumption.
  - intros k Hk E. eapply not_in_kid; try eassumption.
    rewrite <- E. apply ids_self.
Qed.

Lemma at_node_frame i g n : ~ In i (ids n) -> at_node i g n = n.
Proof.
  induction n as [j e ks IH] using node_induction. intros H. simpl.
  assert (j <> i) by (intros ->; apply H; rewrite ids_Node; simpl; auto).
  apply Nat.eqb_neq in H0. rewrite H0. f_equal.
  apply map_id_in. intros k Hk. rewrite Forall_forall in IH.
  apply IH; trivial. eapply not_in_kid; eassumption.
Qed.

Lemma nid_update i f n : nid (update i f n) = nid n.
Proof. destruct n; reflexivity. Qed.

Lemma nid_detach i n : nid (detach i n) = nid n.
Proof. destruct n; reflexivity. Qed.

Lemma nid_replace i n' n : nid n' = i -> nid (replace i n' n) = nid n.
Proof.
  intros H. destruct n as [j e ks]. unfold replace. simpl.
  destruct (j =? i) eqn:E; [|reflexivity].
  apply Nat.eqb_eq in E. simpl. congruence.
Qed.

(** *** Working inside one subtree

    With distinct identities, an operation that leaves alone what does
    not meet [P] and passes through the ancestors of [P] rebuilds [P]
    and nothing else. *)
Lemma focus (op : node -> node) (P : node) :
  (forall n, (forall x, In x (ids n) -> ~ In x (ids P)) -> op n = n) ->
  (forall j e ks, NoDup (ids (Node j e ks)) ->
                  In P (flat_map subtrees ks) ->
                  op (Node j e ks) = Node j e (map op ks)) ->
  forall root, NoDup (ids root) -> In P (subtrees root) ->
               op root = replace (nid P) (op P) root.
Proof.
  intros frame spine.
  induction root as [j e ks IH] using node_induction.
  intros ND HP. unfold replace. simpl in HP. destruct HP as [<- | HP].
  - simpl. rewrite Nat.eqb_refl. reflexivity.
  - simpl.
    pose proof (NoDup_root_not_below j e ks P ND HP) as Hne.
    assert (E : (j =? nid P) = false) by (apply Nat.eqb_neq; auto).
    rewrite E. rewrite (spine j e ks ND HP). f_equal.
    apply map_ext_in. intros k Hk.
    apply in_flat_map in HP as (k' & Hk' & HP').
    assert (NDks : NoDup (flat_map ids ks))
      by (rewrite ids_Node in ND; inversion ND; assumption).
    destruct (in_dec Nat.eq_dec (nid P) (ids k)) as [Hin | Hnin].
    + assert (k = k').
      { eapply (NoDup_flat_map_share ids ks NDks); try eassumption.
        apply in_ids. eauto. }
      subst k'. rewrite Forall_forall in IH.
      apply (IH k Hk); trivial. eapply NoDup_kid; eassumption.
    + fold (replace (nid P) (op P) k). unfold replace.
      rewrite (at_node_frame _ _ _ Hnin). apply frame.
      intros x Hx HxP. apply Hnin.
      assert (k = k').
      { eapply (NoDup_flat_map_share ids ks NDks); try eassumption.
        eapply ids_subtree; eassumption. }
      subst k'. apply in_ids. eauto.
Qed.

Lemma replace_replace i n1 n2 root :
  nid n1 = i -> replace i n2 (replace i n1 root) = replace i n2 root.
Proof.
  intros H. unfold replace.
  induction root as [j e ks IH] using node_induction. simpl.
  destruct (j =? i) eqn:E.
  - destruct n1 as [j1 e1 k1]. simpl in H. subst j1. simpl.
    rewrite Nat.eqb_refl. reflexivity.
  - simpl. rewrite E. f_equal. rewrite map_map.
    apply map_ext_in. intros k Hk. rewrite Forall_forall in IH. auto.
Qed.

Lemma at_node_replace i g n1 root :
  nid n1 = i -> at_node i g (replace i n1 root) = replace i (g n1) root.
Proof.
  intros H. unfold replace.
  induction root as [j e ks IH] using node_induction. simpl.
  destruct (j =? i) eqn:E.
  - destruct n1 as [j1 e1 k1]. simpl in H. subst j1. simpl.
    rewrite Nat.eqb_refl. reflexivity.
  - simpl. rewrite E. f_equal. rewrite map_map.
    apply map_ext_in. intros k Hk. rewrite Forall_forall in IH. auto.
Qed.

Lemma replace_same root P :
  NoDup (ids root) -> In P (subtrees root) -> replace (nid P) P root = root.
Proof.
  intros ND HP. symmetry.
  apply (focus (fun n => n) P); auto.
  intros. rewrite map_id. reflexivity.
Qed.

Lemma replace_in root P n' :
  In P (subtrees root) -> nid n' = nid P ->
  In n' (subtrees (replace (nid P) n' root)).
Proof.
  intros HP E. unfold replace.
  induction root as [j e ks IH] using node_induction. simpl.
  destruct (j =? nid P) eqn:Ej; [apply subtrees_self|].
  simpl in HP. destruct HP as [<- | HP].
  - simpl in Ej. rewrite Nat.eqb_refl in Ej. discriminate.
  - simpl. right. apply in_flat_map in HP as (k & Hk & HP).
    apply in_flat_map. exists (at_node (nid P) (fun _ => n') k).
    split; [apply in_map; assumption|].
    rewrite Forall_forall in IH. auto.
Qed.

Lemma nodes_Node i e ks : nodes (Node i e ks) = (i, e) :: flat_map nodes ks.
Proof. unfold nodes. simpl. rewrite map_flat_map. reflexivity. Qed.

Lemma ids_nodes n : ids n = map fst (nodes n).
Proof. unfold ids, nodes. rewrite map_map. reflexivity. Qed.

Lemma NoDup_app_inv {A} (l1 l2 : list A) :
  NoDup (l1 ++ l2) ->
  NoDup l1 /\ NoDup l2 /\ forall a, In a l1 -> ~ In a l2.
Proof.
  intros H. split; [eapply NoDup_app_remove_r; eassumption|].
  split; [eapply NoDup_app_remove_l; eassumption|].
  induction l1 as [|b l1 IH]; simpl in *; [tauto|].
  inversion H as [|? ? Hn H']; subst. intros a [-> | Ha] Hin.
  - apply Hn, in_or_app. auto.
  - exact (IH H' a Ha Hin).
Qed.

(** The nodes of a tree with one subtree rebuilt. *)
Lemma nodes_replace root P : NoDup (ids root) -> In P (subtrees root) ->
  exists pre post,
    nodes root = pre ++ nodes P ++ post /\
    forall n', nodes (replace (nid P) n' root) = pre ++ nodes n' ++ post.
Proof.
  induction root as [j e ks IH] using node_induction.
  intros ND HP. simpl in HP. destruct HP as [<- | HP].
  - exists [], []. simpl. rewrite app_nil_r. split; [reflexivity|].
    intros n'. unfold replace. simpl. rewrite Nat.eqb_refl, app_nil_r.
    reflexivity.
  - pose proof (NoDup_root_not_below j e ks P ND HP) as Hne.
    assert (E : (j =? nid P) = false) by (apply Nat.eqb_neq; auto).
    assert (NDks : NoDup (flat_map ids ks))
      by (rewrite ids_Node in ND; inversion ND; assumption).
    apply in_flat_map in HP as (k & Hk & HP).
    destruct (in_split k ks Hk) as (l1 & l2 & ->).
    rewrite Forall_forall in IH.
    destruct (IH k Hk (NoDup_kid _ _ _ _ ND Hk) HP) as (pre & post & E1 & E2).
    exists ((j, e) :: flat_map nodes l1 ++ pre), (post ++ flat_map nodes l2).
    assert (Hp : In (nid P) (ids k)) by (apply in_ids; eauto).
    rewrite flat_map_app in NDks. simpl in NDks.
    apply NoDup_app_inv in NDks as (_ & NDks & D1).
    apply NoDup_app_inv in NDks as (_ & _ & D2).
    assert (F1 : forall k', In k' l1 -> ~ In (nid P) (ids k')).
    { intros k' Hk' Hin. apply (D1 (nid P)).
      - apply in_flat_map. eauto.
      - apply in_or_app. auto. }
    assert (F2 : forall k', In k' l2 -> ~ In (nid P) (ids k')).
    { intros k' Hk' Hin. apply (D2 (nid P)); trivial.
      apply in_flat_map. eauto. }
    split.
    + rewrite nodes_Node, flat_map_app. simpl. rewrite E1.
      rewrite <- !app_assoc. reflexivity.
    + intros n'. unfold replace. simpl. rewrite E.
      rewrite nodes_Node, map_app. simpl.
      rewrite (map_id_in _ l1)
        by (intros; apply at_node_frame; auto).
      rewrite (map_id_in _ l2)
        by (intros; apply at_node_frame; auto).
      rewrite flat_map_app. simpl. fold (replace (nid P) n' k).
      rewrite E2, <- !app_assoc. reflexivity.
Qed.

Lemma ids_replace root P : NoDup (ids root) -> In P (subtrees root) ->
  exists pre post,
    ids root = pre ++ ids P ++ post /\
    forall n', ids (replace (nid P) n' root) = pre ++ ids n' ++ post.
Proof.
  intros ND HP. destruct (nodes_replace root P ND HP) as (pre & post & E1 & E2).
  exists (map fst pre), (map fst post). split.
  - rewrite !ids_nodes, E1, !map_app. reflexivity.
  - intros n'. rewrite !ids_nodes, E2, !map_app. reflexivity.
Qed.

Lemma NoDup_replace root P n' :
  NoDup (ids root) -> In P (subtrees root) -> NoDup (ids n') ->
  (forall x, In x (ids n') -> In x (ids P) \/ ~ In x (ids root)) ->
  NoDup (ids (replace (nid P) n' root)).
Proof.
  intros ND HP NDn H.
  destruct (ids_replace root P ND HP) as (pre & post & E1 & E2).
  rewrite E2. rewrite E1 in ND, H.
  apply NoDup_app_inv in ND as (N1 & ND & D1).
  apply NoDup_app_inv in ND as (N2 & N3 & D2).
  apply NoDup_app; trivial.
  - apply NoDup_app; trivial. intros x Hx Hp.
    destruct (H x Hx) as [HxP | Hn].
    + exact (D2 x HxP Hp).
    + apply Hn. apply in_or_app. right. apply in_or_app. auto.
  - intros x Hx Hin. apply in_app_or in Hin as [Hin | Hin].
    + destruct (H x Hin) as [HxP | Hn].
      * apply (D1 x Hx). apply in_or_app. auto.
      * apply Hn. apply in_or_app. auto.
    + apply (D1 x Hx). apply in_or_app. auto.
Qed.

Lemma in_ids_replace root P n' x :
  NoDup (ids root) -> In P (subtrees root) ->
  In x (ids root) -> ~ In x (ids P) -> In x (ids (replace (nid P) n' root)).
Proof.
  intros ND HP Hx Hn.
  destruct (ids_replace root P ND HP) as (pre & post & E1 & E2).
  rewrite E2. rewrite E1 in Hx.
  apply in_app_or in Hx as [Hx | Hx]; [apply in_or_app; auto|].
  apply in_app_or in Hx as [Hx | Hx]; [tauto|].
  apply in_or_app. right. apply in_or_app. auto.
Qed.

Lemma bound_replace root P n' b :
  NoDup (ids root) -> In P (subtrees root) ->
  Forall (fun i => i < b) (ids root) -> Forall (fun i => i < b) (ids n') ->
  Forall (fun i => i < b) (ids (replace (nid P) n' root)).
Proof.
  intros ND HP H1 H2.
  destruct (ids_replace root P ND HP) as (pre & post & E1 & E2).
  rewrite E2. rewrite E1 in H1.
  apply Forall_app in H1 as [A H1]. apply Forall_app in H1 as [_ B].
  apply Forall_app. split; trivial. apply Forall_app. split; trivial.
Qed.

Lemma flat_map_ext_in {A B} (f g : A -> list B) (l : list A) :
  (forall a, In a l -> f a = g a) -> flat_map f l = flat_map g l.
Proof.
  induction l as [|a l IH]; simpl; intros H; trivial.
  rewrite (H a), IH; auto.
Qed.

(** *** [update] *)

Lemma subtrees_update i f n :
  subtrees (update i f n) = map (update i f) (subtrees n).
Proof.
  induction n as [j e ks IH] using node_induction. simpl. f_equal.
  rewrite flat_map_map, map_flat_map. apply flat_map_ext_in.
  rewrite Forall_forall in IH. exact IH.
Qed.

Lemma ids_update i f n : ids (update i f n) = ids n.
Proof.
  unfold ids. rewrite subtrees_update, map_map.
  apply map_ext. apply nid_update.
Qed.

Lemma kids_update i f n : kids (update i f n) = map (update i f) (kids n).
Proof. destruct n; reflexivity. Qed.

Lemma has_kid_update x i f n : has_kid x (update i f n) = has_kid x n.
Proof.
  unfold has_kid. rewrite kids_update.
  induction (kids n) as [|k l IH]; simpl; trivial.
  rewrite nid_update, IH. reflexivity.
Qed.

Lemma find_map {A B} (p : B -> bool) (g : A -> B) (l : list A) :
  find p (map g l) = option_map g (find (fun a => p (g a)) l).
Proof.
  induction l as [|a l IH]; simpl; trivial.
  destruct (p (g a)); [reflexivity | exact IH].
Qed.

Lemma find_ext {A} (p q : A -> bool) (l : list A) :
  (forall a, p a = q a) -> find p l = find q l.
Proof.
  intros H. induction l as [|a l IH]; simpl; trivial.
  rewrite H, IH. reflexivity.
Qed.

Lemma parentElement_update x i f root :
  parentElement x (update i f root)
  = option_map (update i f) (parentElement x root).
Proof.
  unfold parentElement. rewrite subtrees_update, find_map. f_equal.
  apply find_ext. intros a. apply has_kid_update.
Qed.

Lemma has_kid_ids i P : has_kid i P = true -> In i (flat_map ids (kids P)).
Proof.
  intros H. apply has_kid_spec in H as (k & Hk & <-).
  apply in_flat_map. exists k. split; [assumption | apply ids_self].
Qed.

Lemma kids_ids_in i P : In i (flat_map ids (kids P)) -> In i (ids P).
Proof. destruct P as [j e ks]. rewrite ids_Node. simpl. auto. Qed.

Lemma update_focus i f root P :
  NoDup (ids root) -> In P (subtrees root) -> In i (ids P) ->
  update i f root = replace (nid P) (update i f P) root.
Proof.
  intros ND HP Hi. apply (focus (update i f) P); trivial.
  - intros n H. apply update_frame. intros Hn. exact (H i Hn Hi).
  - intros j e ks NDj HPj. simpl.
    assert (j <> i).
    { intros ->. rewrite ids_Node in NDj. inversion NDj as [|? ? N _]; subst.
      apply N. apply in_flat_map in HPj as (k & Hk & HPk).
      apply in_flat_map. exists k. split; [assumption|].
      eapply ids_subtree; eassumption. }
    apply Nat.eqb_neq in H. rewrite H. reflexivity.
Qed.

(** *** [detach] *)

Lemma detach_focus x root P :
  NoDup (ids root) -> In P (subtrees root) ->
  In x (flat_map ids (kids P)) ->
  detach x root = replace (nid P) (detach x P) root.
Proof.
  intros ND HP Hx. apply (focus (detach x) P); trivial.
  - intros n H. apply detach_frame. intros Hn.
    exact (H x Hn (kids_ids_in _ _ Hx)).
  - intros j e ks NDj HPj. apply detach_kids. intros k Hk E.
    apply in_flat_map in HPj as (k' & Hk' & HPk).
    assert (NDks : NoDup (flat_map ids ks))
      by (rewrite ids_Node in NDj; inversion NDj; assumption).
    assert (k = k').
    { apply (NoDup_flat_map_share ids ks NDks k k' x); trivial.
      - rewrite <- E. apply ids_self.
      - eapply ids_subtree; [eassumption|]. apply kids_ids_in. assumption. }
    subst k'.
    assert (NDk : NoDup (ids k)) by (eapply NoDup_kid; eassumption).
    destruct k as [y ey ky]. simpl in E. subst y. simpl in HPk.
    destruct HPk as [<- | HPk].
    + simpl in Hx. rewrite ids_Node in NDk. inversion NDk; auto.
    + rewrite ids_Node in NDk. inversion NDk as [|? ? N _]; subst.
      apply N. apply in_flat_map in HPk as (k2 & Hk2 & HP2).
      apply in_flat_map. exists k2. split; [assumption|].
      eapply ids_subtree; [eassumption|]. apply kids_ids_in. assumption.
Qed.

Lemma flat_map_flat_map {A B C} (f : A -> list B) (g : B -> list C) l :
  flat_map g (flat_map f l) = flat_map (fun a => flat_map g (f a)) l.
Proof.
  induction l as [|a l IH]; simpl; trivial.
  rewrite flat_map_app, IH. reflexivity.
Qed.

Lemma subtrees_detach_Node x j e ks :
  subtrees (detach x (Node j e ks))
  = detach x (Node j e ks)
    :: flat_map (fun k => if nid k =? x then []
                          else subtrees (detach x k)) ks.
Proof.
  simpl. f_equal. rewrite flat_map_flat_map. apply flat_map_ext.
  intros k. destruct (nid k =? x); simpl; [reflexivity|].
  apply app_nil_r.
Qed.

(** What is left after [detach] was there before, elsewhere than at
    [x]. *)
Lemma detach_descendants x n m :
  In m (descendants (detach x n)) ->
  exists m0, In m0 (descendants n) /\ nid m0 <> x /\ m = detach x m0.
Proof.
  induction n as [j e ks IH] using node_induction.
  unfold descendants. intros H.
  change (flat_map subtrees (kids (detach x (Node j e ks))))
    with (tl (subtrees (detach x (Node j e ks)))) in H.
  rewrite subtrees_detach_Node in H. simpl in H.
  apply in_flat_map in H as (k & Hk & H).
  destruct (nid k =? x) eqn:E; [inversion H|].
  apply Nat.eqb_neq in E. rewrite Forall_forall in IH.
  destruct k as [y ey ky]. rewrite subtrees_detach_Node in H.
  destruct H as [<- | H].
  - exists (Node y ey ky). split; [|auto].
    simpl. apply in_flat_map. exists (Node y ey ky).
    split; [assumption | apply subtrees_self].
  - assert (Hd : In m (descendants (detach x (Node y ey ky)))).
    { unfold descendants.
      change (flat_map subtrees (kids (detach x (Node y ey ky))))
        with (tl (subtrees (detach x (Node y ey ky)))).
      rewrite subtrees_detach_Node. exact H. }
    destruct (IH _ Hk Hd) as (m0 & H0 & N0 & E0).
    exists m0. split; [|auto]. simpl. apply in_flat_map.
    exists (Node y ey ky). split; [assumption|].
    simpl. right. exact H0.
Qed.

Lemma data_detach x n : data (detach x n) = data n.
Proof. destruct n; reflexivity. Qed.

Lemma detach_subtrees x n m :
  In m (subtrees (detach x n)) ->
  exists m0, In m0 (subtrees n) /\ m = detach x m0.
Proof.
  destruct n as [j e ks]. intros H.
  change (subtrees (detach x (Node j e ks)))
    with (detach x (Node j e ks) :: descendants (detach x (Node j e ks))) in H.
  destruct H as [<- | H].
  - exists (Node j e ks). split; [apply subtrees_self | reflexivity].
  - apply detach_descendants in H as (m0 & H0 & _ & E).
    exists m0. split; [|assumption]. simpl. right. exact H0.
Qed.

Lemma ids_detach_incl x n : incl (ids (detach x n)) (ids n).
Proof.
  intros i H. apply in_ids in H as (m & Hm & <-).
  apply detach_subtrees in Hm as (m0 & H0 & ->).
  rewrite nid_detach. apply in_ids. eauto.
Qed.

Lemma detach_not_below x n : ~ In x (flat_map ids (kids (detach x n))).
Proof.
  intros H. apply descendants_ids in H as (m & Hm & E).
  apply detach_descendants in Hm as (m0 & _ & N & ->).
  rewrite nid_detach in E. auto.
Qed.

Lemma NoDup_flat_map_shrink {A B} (f g : A -> list B) (l : list A) :
  NoDup (flat_map f l) ->
  (forall a, In a l -> NoDup (g a) /\ incl (g a) (f a)) ->
  NoDup (flat_map g l).
Proof.
  induction l as [|a l IH]; simpl; intros ND H; [constructor|].
  apply NoDup_app_inv in ND as (N1 & N2 & D).
  apply NoDup_app.
  - apply H. auto.
  - apply IH; auto.
  - intros x Hx Hin. apply (D x).
    + apply (H a); auto.
    + apply in_flat_map in Hin as (b & Hb & Hxb).
      apply in_flat_map. exists b. split; [assumption|].
      apply (H b); auto.
Qed.

Lemma ids_detach_Node x j e ks :
  ids (detach x (Node j e ks))
  = j :: flat_map (fun k => if nid k =? x then [] else ids (detach x k)) ks.
Proof.
  unfold ids at 1. rewrite subtrees_detach_Node. simpl. f_equal.
  rewrite map_flat_map. apply flat_map_ext. intros k.
  destruct (nid k =? x); reflexivity.
Qed.

Lemma NoDup_detach x n : NoDup (ids n) -> NoDup (ids (detach x n)).
Proof.
  induction n as [j e ks IH] using node_induction. intros ND.
  rewrite ids_detach_Node. rewrite ids_Node in ND.
  inversion ND as [|? ? N ND']; subst. constructor.
  - intros H. apply N. apply in_flat_map in H as (k & Hk & H).
    apply in_flat_map. exists k. split; [assumption|].
    destruct (nid k =? x); [inversion H|].
    eapply ids_detach_incl; eassumption.
  - apply (NoDup_flat_map_shrink ids); trivial.
    intros k Hk. destruct (nid k =? x).
    + split; [constructor | intros ? []].
    + split; [|apply ids_detach_incl].
      rewrite Forall_forall in IH. apply IH; trivial.
      eapply NoDup_flat_map_in; eassumption.
Qed.

Lemma has_kid_detach i x n :
  i <> x -> has_kid i (detach x n) = has_kid i n.
Proof.
  intros H. destruct n as [j e ks]. unfold has_kid. simpl.
  induction ks as [|k ks IH]; simpl; trivial.
  destruct (nid k =? x) eqn:E; simpl.
  - apply Nat.eqb_eq in E.
    assert ((nid k =? i) = false) by (apply Nat.eqb_neq; congruence).
    rewrite H0. exact IH.
  - rewrite nid_detach, IH. reflexivity.
Qed.

(** ** [showError] and [clearError] work inside the container *)

Lemma querySelector_in s P n :
  querySelector s P = Some n ->
  In n (descendants P) /\ matches s (data n) = true.
Proof. intros H. apply find_some in H. exact H. Qed.

Lemma nid_set_textContent s n : nid (set_textContent s n) = nid n.
Proof. destruct n; reflexivity. Qed.

Lemma bound_not_in b l x : Forall (fun i => i < b) l -> b <= x -> ~ In x l.
Proof.
  intros H Hx Hin. rewrite Forall_forall in H. apply H in Hin. lia.
Qed.

Lemma showError_focus element message w P :
  well_formed w ->
  parentElement element (document w) = Some P ->
  showError element message w
  = Some (tt, mkWorld
                (replace (nid P) (mark element message (fresh w) P)
                   (document w))
                (fresh_after_mark element P (fresh w))
                (listeners w) (timers w) (clock w)
                (calls w ++ [CallShowError element message])).
Proof.
  intros [ND B] HP. destruct w as [root fr ls ts ck cs]. simpl in *.
  apply parentElement_in in HP as HP'. destruct HP' as [HPin HPk].
  set (f := classList_add "field-error").
  assert (Eroot : update element f root
                  = replace (nid P) (update element f P) root).
  { apply update_focus; trivial. apply kids_ids_in, has_kid_ids. assumption. }
  unfold showError, bind, log, get_document, set_document. simpl.
  fold f. rewrite parentElement_update, HP. simpl.
  unfold mark, fresh_after_mark. fold f.
  assert (HP1 : In (update element f P) (subtrees (update element f root))).
  { rewrite subtrees_update. apply in_map. assumption. }
  assert (ND1 : NoDup (ids (update element f root)))
    by (rewrite ids_update; assumption).
  destruct (querySelector error_selector (update element f P)) as [X|] eqn:Q.
  - simpl. do 3 f_equal. unfold appendChild.
    rewrite nid_set_textContent, nid_update.
    apply querySelector_in in Q as [QX _].
    rewrite (detach_focus (nid X) _ _ ND1 HP1)
      by (apply descendants_ids; eauto).
    rewrite nid_update, Eroot, replace_replace by apply nid_update.
    apply at_node_replace. rewrite nid_detach. apply nid_update.
  - simpl. do 3 f_equal. unfold appendChild. simpl.
    rewrite nid_update.
    assert (Hfr : ~ In fr (ids (update element f root))).
    { rewrite ids_update. eapply bound_not_in; [eassumption | lia]. }
    rewrite (detach_frame fr _ Hfr).
    rewrite (detach_frame fr (update element f P)).
    + rewrite Eroot. apply at_node_replace. apply nid_update.
    + intros H. apply Hfr. eapply ids_subtree; eassumption.
Qed.

Lemma clearError_focus element w P :
  well_formed w ->
  parentElement element (document w) = Some P ->
  clearError element w
  = Some (tt, mkWorld (replace (nid P) (unmark element P) (document w))
                (fresh w) (listeners w) (timers w) (clock w)
                (calls w ++ [CallClearError element])).
Proof.
  intros [ND B] HP. destruct w as [root fr ls ts ck cs]. simpl in *.
  apply parentElement_in in HP as HP'. destruct HP' as [HPin HPk].
  set (f := classList_remove "field-error").
  assert (Eroot : update element f root
                  = replace (nid P) (update element f P) root).
  { apply update_focus; trivial. apply kids_ids_in, has_kid_ids. assumption. }
  unfold clearError, bind, log, get_document, set_document. simpl.
  fold f. rewrite parentElement_update, HP. simpl.
  unfold unmark. fold f.
  assert (HP1 : In (update element f P) (subtrees (update element f root))).
  { rewrite subtrees_update. apply in_map. assumption. }
  assert (ND1 : NoDup (ids (update element f root)))
    by (rewrite ids_update; assumption).
  destruct (querySelector error_selector (update element f P)) as [X|] eqn:Q.
  - simpl. do 3 f_equal.
    apply querySelector_in in Q as [QX _].
    rewrite (detach_focus (nid X) _ _ ND1 HP1)
      by (apply descendants_ids; eauto).
    rewrite nid_update, Eroot. apply replace_replace. apply nid_update.
  - unfold ret. simpl. do 3 f_equal. exact Eroot.
Qed.

(** ** The container after [mark] and [unmark] *)

Lemma element_eta e :
  mkElement (tagName e) (attributes e) (classList e) (value e)
    (defaultValue e) (textContent e) (style e) = e.
Proof. destruct e; reflexivity. Qed.

Lemma contains_app c l1 l2 :
  contains c (l1 ++ l2) = contains c l1 || contains c l2.
Proof. unfold contains. apply existsb_app. Qed.

Lemma classList_add_has c e : contains c (classList (classList_add c e)) = true.
Proof.
  unfold classList_add. simpl. destruct (contains c (classList e)) eqn:E.
  - exact E.
  - rewrite contains_app. simpl. rewrite String.eqb_refl.
    rewrite orb_true_r. reflexivity.
Qed.

Lemma classList_add_fix c e :
  contains c (classList e) = true -> classList_add c e = e.
Proof. intros H. unfold classList_add. rewrite H. apply element_eta. Qed.

Lemma classList_add_other c c' e :
  c' <> c ->
  contains c' (classList (classList_add c e)) = contains c' (classList e).
Proof.
  intros H. unfold classList_add. simpl.
  destruct (contains c (classList e)); trivial.
  rewrite contains_app. simpl.
  apply String.eqb_neq in H. rewrite H. simpl. apply orb_false_r.
Qed.

Lemma contains_filter c c' l :
  contains c' (filter (fun x => negb (String.eqb c x)) l)
  = negb (String.eqb c c') && contains c' l.
Proof.
  unfold contains. induction l as [|x l IH]; simpl.
  - rewrite andb_false_r. reflexivity.
  - destruct (String.eqb c x) eqn:E; simpl; rewrite IH.
    + apply String.eqb_eq in E. subst x.
      rewrite (String.eqb_sym c' c).
      destruct (String.eqb c c'); reflexivity.
    + destruct (String.eqb c' x) eqn:E'; simpl.
      * apply String.eqb_eq in E'. subst x. rewrite E. reflexivity.
      * reflexivity.
Qed.

Lemma classList_remove_has c e :
  contains c (classList (classList_remove c e)) = false.
Proof.
  unfold classList_remove. simpl. rewrite contains_filter.
  rewrite String.eqb_refl. reflexivity.
Qed.

Lemma classList_remove_other c c' e :
  c' <> c ->
  contains c' (classList (classList_remove c e)) = contains c' (classList e).
Proof.
  intros H. unfold classList_remove. simpl. rewrite contains_filter.
  assert (E : String.eqb c c' = false)
    by (apply String.eqb_neq; congruence).
  rewrite E. reflexivity.
Qed.

Lemma filter_id {A} (p : A -> bool) l :
  (forall a, In a l -> p a = true) -> filter p l = l.
Proof.
  induction l as [|a l IH]; simpl; intros H; trivial.
  rewrite (H a) by auto. f_equal. apply IH. auto.
Qed.

Lemma classList_remove_fix c e :
  contains c (classList e) = false -> classList_remove c e = e.
Proof.
  intros H. unfold classList_remove. rewrite filter_id; [apply element_eta|].
  intros a Ha. apply negb_true_iff. destruct (String.eqb c a) eqn:E; trivial.
  apply String.eqb_eq in E. subst a.
  unfold contains in H. rewrite <- H. symmetry.
  apply existsb_exists. exists c. split; [assumption | apply String.eqb_refl].
Qed.

Lemma matches_error e :
  matches error_selector e = contains "error-message" (classList e).
Proof. unfold matches. simpl. rewrite andb_true_r. reflexivity. Qed.

Lemma add_keeps : keeps_error_class (classList_add "field-error").
Proof.
  intros e. rewrite !matches_error. apply classList_add_other. discriminate.
Qed.

Lemma remove_keeps : keeps_error_class (classList_remove "field-error").
Proof.
  intros e. rewrite !matches_error. apply classList_remove_other.
  discriminate.
Qed.

Lemma data_update i f m :
  data (update i f m) = if nid m =? i then f (data m) else data m.
Proof. destruct m; reflexivity. Qed.

Lemma descendants_update i f n :
  descendants (update i f n) = map (update i f) (descendants n).
Proof.
  unfold descendants. rewrite kids_update, flat_map_map, map_flat_map.
  apply flat_map_ext. intros k. apply subtrees_update.
Qed.

Lemma filter_map_comm {A B} (p : B -> bool) (g : A -> B) l :
  filter p (map g l) = map g (filter (fun a => p (g a)) l).
Proof.
  induction l as [|a l IH]; simpl; trivial.
  destruct (p (g a)); simpl; rewrite IH; reflexivity.
Qed.

Lemma error_nodes_update i f P :
  keeps_error_class f ->
  error_nodes (update i f P) = map (update i f) (error_nodes P).
Proof.
  intros K. unfold error_nodes.
  rewrite descendants_update, filter_map_comm. f_equal.
  apply filter_ext. intros m. rewrite data_update.
  destruct (nid m =? i); [apply K | reflexivity].
Qed.

Lemma find_filter {A} (p : A -> bool) l : find p l = hd_error (filter p l).
Proof.
  induction l as [|a l IH]; simpl; trivial. destruct (p a); simpl; trivial.
Qed.

Lemma querySelector_error P :
  querySelector error_selector P = hd_error (error_nodes P).
Proof. apply find_filter. Qed.

(** Every node of identity [i] went through [f]. *)
Lemma update_all i f n m :
  In m (subtrees (update i f n)) -> nid m = i ->
  exists e, data m = f e.
Proof.
  rewrite subtrees_update. intros H E.
  apply in_map_iff in H as (m0 & <- & _).
  rewrite nid_update in E. rewrite data_update.
  apply Nat.eqb_eq in E. rewrite E. eauto.
Qed.

Lemma update_fix i f n :
  (forall m, In m (subtrees n) -> nid m = i -> f (data m) = data m) ->
  update i f n = n.
Proof.
  induction n as [j e ks IH] using node_induction. intros H. simpl.
  f_equal.
  - destruct (j =? i) eqn:E; trivial. apply Nat.eqb_eq in E.
    apply (H (Node j e ks)); [apply subtrees_self | exact E].
  - apply map_id_in. intros k Hk. rewrite Forall_forall in IH.
    apply IH; trivial. intros m Hm. apply H.
    simpl. right. apply in_flat_map. eauto.
Qed.

Lemma subtrees_add_last X n :
  subtrees (add_last X n) = add_last X n :: descendants n ++ subtrees X.
Proof.
  destruct n as [j e ks]. simpl. f_equal.
  rewrite flat_map_app. simpl. rewrite app_nil_r. reflexivity.
Qed.

Lemma descendants_add_last X n :
  descendants (add_last X n) = descendants n ++ subtrees X.
Proof.
  destruct n as [j e ks]. unfold descendants. simpl.
  rewrite flat_map_app. simpl. rewrite app_nil_r. reflexivity.
Qed.

Lemma subtrees_set_textContent s n :
  subtrees (set_textContent s n) = [set_textContent s n].
Proof. destruct n; reflexivity. Qed.

Lemma matches_set_textContent s n :
  matches error_selector (data (set_textContent s n))
  = matches error_selector (data n).
Proof. destruct n; reflexivity. Qed.

Lemma classList_set_textContent s n :
  classList (data (set_textContent s n)) = classList (data n).
Proof. destruct n; reflexivity. Qed.

Lemma textContent_set_textContent s n :
  textContent (data (set_textContent s n)) = s.
Proof. destruct n; reflexivity. Qed.

Lemma set_textContent_twice s n :
  set_textContent s (set_textContent s n) = set_textContent s n.
Proof. destruct n; reflexivity. Qed.

Lemma length_le_1_same {A} (l : list A) a b :
  List.length l <= 1 -> In a l -> In b l -> a = b.
Proof.
  destruct l as [|x [|y l]]; simpl; intros H Ha Hb.
  - destruct Ha.
  - destruct Ha as [<- | []], Hb as [<- | []]. reflexivity.
  - lia.
Qed.

Lemma error_nodes_detach_in x P m :
  In m (error_nodes (detach x P)) ->
  exists m0, In m0 (error_nodes P) /\ nid m0 <> x /\ m = detach x m0.
Proof.
  unfold error_nodes. intros H. apply filter_In in H as [Hm Mm].
  apply detach_descendants in Hm as (m0 & H0 & N0 & ->).
  rewrite data_detach in Mm. exists m0. split; [|auto].
  apply filter_In. auto.
Qed.

Lemma nil_no_member {A} (l : list A) : (forall a, ~ In a l) -> l = [].
Proof.
  destruct l as [|a l]; trivial. intros H. exfalso. apply (H a). simpl. auto.
Qed.

(** With at most one error-message node in the container, none is left
    once the one [querySelector] finds is detached. *)
Lemma error_nodes_detach P X :
  List.length (error_nodes P) <= 1 ->
  querySelector error_selector P = Some X ->
  error_nodes (detach (nid X) P) = [].
Proof.
  intros L Q. apply querySelector_in in Q as [QX MX].
  apply nil_no_member. intros m Hm.
  apply error_nodes_detach_in in Hm as (m0 & H0 & N0 & _).
  apply N0. f_equal.
  apply (length_le_1_same (error_nodes P)); trivial.
  apply filter_In. auto.
Qed.

Lemma error_nodes_detach_nil x P :
  error_nodes P = [] -> error_nodes (detach x P) = [].
Proof.
  intros E. apply nil_no_member. intros m Hm.
  apply error_nodes_detach_in in Hm as (m0 & H0 & _). rewrite E in H0.
  destruct H0.
Qed.

Lemma error_nodes_none P :
  querySelector error_selector P = None -> error_nodes P = [].
Proof.
  rewrite querySelector_error. destruct (error_nodes P); simpl; congruence.
Qed.

Lemma error_element_matches i :
  matches error_selector (data (error_element i)) = true.
Proof. reflexivity. Qed.

Section Mark.
Variables (element : nat) (message : jsstring) (fr : nat) (P : node).

Let f := classList_add "field-error".
Let P1 := update element f P.
Let X := match querySelector error_selector P1 with
         | Some n => n
         | None => error_element fr
         end.
Let X' := set_textContent message X.

Lemma mark_eq : mark element message fr P = add_last X' (detach (nid X') P1).
Proof. reflexivity. Qed.

Lemma mark_nid : nid (mark element message fr P) = nid P.
Proof.
  rewrite mark_eq. destruct (detach (nid X') P1) as [j e ks] eqn:E.
  simpl. change j with (nid (Node j e ks)). rewrite <- E.
  rewrite nid_detach. apply nid_update.
Qed.

Lemma mark_X_matches : matches error_selector (data X') = true.
Proof.
  unfold X'. rewrite matches_set_textContent. unfold X.
  destruct (querySelector error_selector P1) as [n|] eqn:Q.
  - apply querySelector_in in Q. tauto.
  - apply error_element_matches.
Qed.

(** Whatever the container held, its last child is now an
    error-message node with the message for its text. *)
Lemma mark_last_child :
  exists ks, kids (mark element message fr P) = ks ++ [X'] /\
             matches error_selector (data X') = true /\
             textContent (data X') = message /\ kids X' = [].
Proof.
  rewrite mark_eq. destruct (detach (nid X') P1) as [j e ks]. simpl.
  exists ks. split; [reflexivity|]. split; [apply mark_X_matches|].
  unfold X'. destruct X. simpl. auto.
Qed.

Lemma mark_error_class m :
  fr <> element ->
  In m (subtrees (mark element message fr P)) -> nid m = element ->
  contains "field-error" (classList (data m)) = true.
Proof.
  intros Hfr Hm E.
  assert (A : forall m0, In m0 (subtrees P1) -> nid m0 = element ->
              contains "field-error" (classList (data m0)) = true).
  { intros m0 H0 E0. destruct (update_all _ _ _ _ H0 E0) as (e & ->).
    apply classList_add_has. }
  rewrite mark_eq, subtrees_add_last in Hm.
  destruct Hm as [<- | Hm].
  - destruct (detach (nid X') P1) as [j e ks] eqn:Ed. simpl in *.
    assert (Ej : nid (detach (nid X') P1) = j) by (rewrite Ed; reflexivity).
    assert (Ee : data (detach (nid X') P1) = e) by (rewrite Ed; reflexivity).
    rewrite data_detach in Ee. rewrite nid_detach in Ej. subst e.
    apply A; [apply subtrees_self | congruence].
  - apply in_app_or in Hm as [Hm | Hm].
    + apply detach_descendants in Hm as (m0 & H0 & _ & ->).
      rewrite data_detach. rewrite nid_detach in E.
      apply A; trivial. destruct P1. simpl. right. exact H0.
    + unfold X' in Hm. rewrite subtrees_set_textContent in Hm.
      destruct Hm as [<- | []].
      rewrite classList_set_textContent.
      rewrite nid_set_textContent in E. unfold X in *.
      destruct (querySelector error_selector P1) as [n|] eqn:Q.
      * apply querySelector_in in Q as [Q _]. apply A; trivial.
        destruct P1. simpl. right. exact Q.
      * simpl in E. congruence.
Qed.

Lemma mark_has_kid :
  has_kid element P = true -> has_kid element (mark element message fr P) = true.
Proof.
  intros H. rewrite mark_eq.
  destruct (Nat.eq_dec element (nid X')) as [E | N].
  - destruct (detach (nid X') P1) as [j e ks]. unfold has_kid. simpl.
    rewrite existsb_app. simpl. rewrite <- E, Nat.eqb_refl.
    rewrite orb_true_r. reflexivity.
  - assert (K : has_kid element (detach (nid X') P1) = true).
    { rewrite has_kid_detach by assumption. unfold P1.
      rewrite has_kid_update. assumption. }
    destruct (detach (nid X') P1) as [j e ks]. unfold has_kid in *.
    simpl in *. rewrite existsb_app, K. reflexivity.
Qed.

Lemma mark_ids x :
  In x (ids (mark element message fr P)) ->
  In x (ids P) \/ (x = fr /\ querySelector error_selector P1 = None).
Proof.
  intros H. apply in_ids in H as (m & Hm & <-).
  rewrite mark_eq, subtrees_add_last in Hm.
  assert (A : forall m0, In m0 (subtrees P1) -> In (nid m0) (ids P)).
  { intros m0 H0. unfold P1 in H0. rewrite <- (ids_update element f).
    apply in_ids. eauto. }
  destruct Hm as [<- | Hm].
  - left. rewrite <- mark_eq, mark_nid. apply ids_self.
  - apply in_app_or in Hm as [Hm | Hm].
    + left. apply detach_descendants in Hm as (m0 & H0 & _ & ->).
      rewrite nid_detach. apply A. destruct P1. simpl. right. exact H0.
    + unfold X' in Hm. rewrite subtrees_set_textContent in Hm.
      destruct Hm as [<- | []]. rewrite nid_set_textContent. unfold X.
      destruct (querySelector error_selector P1) as [n|] eqn:Q.
      * left. apply querySelector_in in Q as [Q _]. apply A.
        destruct P1. simpl. right. exact Q.
      * right. split; reflexivity.
Qed.

Lemma mark_NoDup :
  NoDup (ids P) -> ~ In fr (ids P) ->
  NoDup (ids (mark element message fr P)).
Proof.
  intros ND Hfr. rewrite mark_eq.
  assert (ND1 : NoDup (ids P1)) by (unfold P1; rewrite ids_update; trivial).
  pose proof (NoDup_detach (nid X') P1 ND1) as NDd.
  pose proof (detach_not_below (nid X') P1) as Hnb.
  assert (Hroot : nid X' <> nid P1).
  { unfold X'. rewrite nid_set_textContent. unfold X.
    destruct (querySelector error_selector P1) as [n|] eqn:Q.
    - apply querySelector_in in Q as [Q _]. destruct P1 as [j e ks] eqn:EP.
      apply (NoDup_root_not_below j e ks n ND1 Q).
    - simpl. intros E. apply Hfr. rewrite E. unfold P1.
      rewrite nid_update. apply ids_self. }
  pose proof (nid_detach (nid X') P1) as Hj.
  assert (EX : ids X' = [nid X']).
  { unfold X', ids. rewrite subtrees_set_textContent. reflexivity. }
  destruct (detach (nid X') P1) as [j e ks]. simpl in Hj, Hnb. subst j.
  cbn [add_last]. rewrite ids_Node in *. rewrite flat_map_app. simpl.
  rewrite EX, app_nil_r. inversion NDd as [|? ? N NDks]; subst.
  constructor.
  - intros H. apply in_app_or in H as [H | [H | []]]; auto.
  - apply NoDup_app; trivial.
    + constructor; [intros [] | constructor].
    + intros a Ha [<- | []]. auto.
Qed.

(** With at most one error-message node before, there is exactly one
    after, the last child. *)
Lemma mark_error_nodes :
  List.length (error_nodes P) <= 1 ->
  error_nodes (mark element message fr P) = [X'].
Proof.
  intros L. rewrite mark_eq. unfold error_nodes.
  rewrite descendants_add_last, filter_app.
  assert (EX : subtrees X' = [X'])
    by (unfold X'; apply subtrees_set_textContent).
  rewrite EX. simpl. rewrite mark_X_matches.
  assert (L1 : List.length (error_nodes P1) <= 1).
  { unfold P1. rewrite error_nodes_update by apply add_keeps.
    rewrite length_map. assumption. }
  fold (error_nodes (detach (nid X') P1)).
  assert (E : error_nodes (detach (nid X') P1) = []).
  { unfold X'. rewrite nid_set_textContent. unfold X.
    destruct (querySelector error_selector P1) as [n|] eqn:Q.
    - exact (error_nodes_detach P1 n L1 Q).
    - apply error_nodes_detach_nil, error_nodes_none. exact Q. }
  rewrite E. reflexivity.
Qed.

(** Marking again changes nothing. *)
Lemma mark_again fr' :
  List.length (error_nodes P) <= 1 -> fr <> element ->
  mark element message fr' (mark element message fr P)
  = mark element message fr P.
Proof.
  intros L Hfr. pose proof (mark_error_nodes L) as EN.
  pose proof mark_error_class as EC.
  pose proof (detach_not_below (nid X') P1) as Hnb.
  revert EN EC. rewrite mark_eq.
  destruct (detach (nid X') P1) as [j e ks] eqn:Ed. intros EN EC.
  simpl in Hnb. cbn [add_last] in *.
  unfold mark. cbv zeta. fold f.
  rewrite (update_fix element f (Node j e (ks ++ [X']))).
  2:{ intros m Hm E. apply classList_add_fix. apply EC; trivial. }
  rewrite querySelector_error, EN. simpl.
  assert (EX : set_textContent message X' = X')
    by (unfold X'; apply set_textContent_twice).
  rewrite EX. cbn [add_last detach]. f_equal.
  rewrite flat_map_app. simpl. rewrite Nat.eqb_refl, app_nil_r.
  f_equal. rewrite (flat_map_singleton _ (detach (nid X'))).
  - apply map_id_in. intros k Hk. apply detach_frame.
    intros H. apply Hnb. apply in_flat_map. eauto.
  - intros k Hk. assert (N : nid k <> nid X').
    { intros E. apply Hnb. apply in_flat_map. exists k.
      split; [assumption|]. rewrite <- E. apply ids_self. }
    apply Nat.eqb_neq in N. rewrite N. reflexivity.
Qed.
End Mark.

Section Unmark.
Variables (element : nat) (P : node).

Let g := classList_remove "field-error".
Let P1 := update element g P.

Lemma unmark_eq :
  unmark element P
  = match querySelector error_selector P1 with
    | Some X => detach (nid X) P1
    | None => P1
    end.
Proof. reflexivity. Qed.

Lemma unmark_nid : nid (unmark element P) = nid P.
Proof.
  rewrite unmark_eq. destruct (querySelector error_selector P1).
  - rewrite nid_detach. apply nid_update.
  - apply nid_update.
Qed.

Lemma unmark_subtrees m :
  In m (subtrees (unmark element P)) ->
  exists m0, In m0 (subtrees P1) /\ nid m = nid m0 /\ data m = data m0.
Proof.
  rewrite unmark_eq. destruct (querySelector error_selector P1).
  - intros H. apply detach_subtrees in H as (m0 & H0 & ->).
    exists m0. rewrite nid_detach, data_detach. auto.
  - intros H. exists m. auto.
Qed.

Lemma unmark_error_class m :
  In m (subtrees (unmark element P)) -> nid m = element ->
  contains "field-error" (classList (data m)) = false.
Proof.
  intros Hm E. apply unmark_subtrees in Hm as (m0 & H0 & En & Ed).
  rewrite Ed. rewrite En in E.
  destruct (update_all _ _ _ _ H0 E) as (e & ->).
  apply classList_remove_has.
Qed.

Lemma unmark_ids : incl (ids (unmark element P)) (ids P).
Proof.
  intros x H. apply in_ids in H as (m & Hm & <-).
  apply unmark_subtrees in Hm as (m0 & H0 & En & _).
  rewrite En, <- (ids_update element g). apply in_ids. eauto.
Qed.

Lemma unmark_NoDup : NoDup (ids P) -> NoDup (ids (unmark element P)).
Proof.
  intros ND. assert (ND1 : NoDup (ids P1))
    by (unfold P1; rewrite ids_update; trivial).
  rewrite unmark_eq. destruct (querySelector error_selector P1);
    [apply NoDup_detach|]; assumption.
Qed.

Lemma unmark_has_kid :
  has_kid element P = true ->
  (forall X, In X (error_nodes P) -> nid X <> element) ->
  has_kid element (unmark element P) = true.
Proof.
  intros H N. rewrite unmark_eq.
  destruct (querySelector error_selector P1) as [X|] eqn:Q.
  - rewrite has_kid_detach; [unfold P1; rewrite has_kid_update; trivial|].
    rewrite querySelector_error in Q. unfold P1 in Q.
    rewrite error_nodes_update in Q by apply remove_keeps.
    destruct (error_nodes P) as [|X0 l]; [discriminate|].
    simpl in Q. injection Q as <-. rewrite nid_update.
    intros E. apply (N X0); simpl; auto.
  - unfold P1. rewrite has_kid_update. assumption.
Qed.

(** With at most one error-message node before, there is none
    after. *)
Lemma unmark_error_nodes :
  List.length (error_nodes P) <= 1 -> error_nodes (unmark element P) = [].
Proof.
  intros L. assert (L1 : List.length (error_nodes P1) <= 1).
  { unfold P1. rewrite error_nodes_update by apply remove_keeps.
    rewrite length_map. assumption. }
  rewrite unmark_eq.
  destruct (querySelector error_selector P1) as [X|] eqn:Q.
  - exact (error_nodes_detach P1 X L1 Q).
  - apply error_nodes_none. exact Q.
Qed.

(** Clearing again changes nothing. *)
Lemma unmark_again :
  List.length (error_nodes P) <= 1 ->
  unmark element (unmark element P) = unmark element P.
Proof.
  intros L. pose proof (unmark_error_nodes L) as EN.
  pose proof unmark_error_class as EC.
  unfold unmark at 1. cbv zeta. fold g.
  rewrite (update_fix element g (unmark element P)).
  - rewrite querySelector_error, EN. reflexivity.
  - intros m Hm E. apply classList_remove_fix. apply EC; trivial.
Qed.
End Unmark.

(** ** The methods on a well-formed page *)

Lemma has_kid_in_ids i P root :
  In P (subtrees root) -> has_kid i P = true -> In i (ids root).
Proof.
  intros HP HK. eapply ids_subtree; [eassumption|].
  apply kids_ids_in, has_kid_ids. assumption.
Qed.

Lemma bound_lt b l x : Forall (fun i => i < b) l -> In x l -> x < b.
Proof. intros H Hx. rewrite Forall_forall in H. auto. Qed.

Lemma fresh_after_mark_le element P fr : fr <= fresh_after_mark element P fr.
Proof.
  unfold fresh_after_mark.
  destruct (querySelector _ _); lia.
Qed.

(** [showError] on a well-formed page: it returns, the page stays
    well formed, and the container is the marked one. *)
Lemma showError_ok element message w P :
  well_formed w -> parentElement element (document w) = Some P ->
  exists w',
    showError element message w = Some (tt, w') /\
    well_formed w' /\
    document w'
    = replace (nid P) (mark element message (fresh w) P) (document w) /\
    parentElement element (document w')
    = Some (mark element message (fresh w) P) /\
    fresh w <= fresh w' /\
    listeners w' = listeners w /\ timers w' = timers w /\
    clock w' = clock w /\
    calls w' = calls w ++ [CallShowError element message].
Proof.
  intros WF HP. pose proof WF as [ND B].
  rewrite (showError_focus element message w P WF HP).
  eexists. split; [reflexivity|]. simpl.
  apply parentElement_in in HP as HP'. destruct HP' as [HPin HPk].
  assert (NDP : NoDup (ids P)) by (eapply NoDup_subtree; eassumption).
  assert (Hfr : ~ In (fresh w) (ids (document w)))
    by (eapply bound_not_in; [eassumption | lia]).
  assert (HfrP : ~ In (fresh w) (ids P)).
  { intros H. apply Hfr. eapply ids_subtree; eassumption. }
  assert (ND' : NoDup (ids (replace (nid P) (mark element message (fresh w) P)
                              (document w)))).
  { apply NoDup_replace; trivial.
    - apply mark_NoDup; assumption.
    - intros x Hx. apply mark_ids in Hx as [Hx | [-> _]]; auto. }
  repeat split; trivial.
  - apply bound_replace; trivial.
    + eapply Forall_impl; [|exact B]. intros a Ha.
      eapply Nat.lt_le_trans; [exact Ha | apply fresh_after_mark_le].
    + apply Forall_forall. intros x Hx.
      apply mark_ids in Hx as [Hx | [-> Q]].
      * eapply Nat.lt_le_trans; [|apply fresh_after_mark_le].
        eapply bound_lt; [exact B|]. eapply ids_subtree; eassumption.
      * unfold fresh_after_mark. rewrite Q. simpl. lia.
  - apply parentElement_spec; trivial. split.
    + apply replace_in; [assumption | apply mark_nid].
    + apply mark_has_kid. assumption.
  - apply fresh_after_mark_le.
Qed.

Lemma clearError_ok element w P :
  well_formed w -> parentElement element (document w) = Some P ->
  exists w',
    clearError element w = Some (tt, w') /\
    well_formed w' /\
    document w' = replace (nid P) (unmark element P) (document w) /\
    In (unmark element P) (subtrees (document w')) /\
    fresh w' = fresh w /\
    listeners w' = listeners w /\ timers w' = timers w /\
    clock w' = clock w /\
    calls w' = calls w ++ [CallClearError element].
Proof.
  intros WF HP. pose proof WF as [ND B].
  rewrite (clearError_focus element w P WF HP).
  eexists. split; [reflexivity|]. simpl.
  apply parentElement_in in HP as HP'. destruct HP' as [HPin HPk].
  assert (NDP : NoDup (ids P)) by (eapply NoDup_subtree; eassumption).
  repeat split; trivial.
  - apply NoDup_replace; trivial.
    + apply unmark_NoDup; assumption.
    + intros x Hx. left. apply (unmark_ids element P). assumption.
  - apply bound_replace; trivial.
    apply Forall_forall. intros x Hx.
    eapply bound_lt; [exact B|]. eapply ids_subtree; [eassumption|].
    apply (unmark_ids element P). assumption.
  - apply replace_in; [assumption | apply unmark_nid].
Qed.

(** C8, where the code keeps it.  On a page whose identities are
    distinct, for a field whose container holds at most one
    error-message node: [showError] twice with the same message returns
    both times, the second call changes nothing in the document, and
    the container then holds exactly one error-message node, with that
    text; when that node is not the field itself, [clearError] twice
    returns both times, the second call changes nothing, and the
    container then holds no error-message node. *)
Theorem marking_idempotent (w : world) (element : nat) (message : jsstring)
        (P : node) :
  well_formed w ->
  parentElement element (document w) = Some P ->
  List.length (error_nodes P) <= 1 ->
  (exists w1 w2 P' X,
     showError element message w = Some (tt, w1) /\
     showError element message w1 = Some (tt, w2) /\
     document w2 = document w1 /\
     parentElement element (document w2) = Some P' /\
     error_nodes P' = [X] /\ textContent (data X) = message) /\
  ((forall X, In X (error_nodes P) -> nid X <> element) ->
   exists w1 w2 P',
     clearError element w = Some (tt, w1) /\
     clearError element w1 = Some (tt, w2) /\
     document w2 = document w1 /\
     parentElement element (document w2) = Some P' /\
     error_nodes P' = []).
Proof.
  intros WF HP L. pose proof WF as [ND B].
  apply parentElement_in in HP as HP'. destruct HP' as [HPin HPk].
  assert (Hfr : fresh w <> element).
  { pose proof (has_kid_in_ids element P _ HPin HPk) as H.
    apply (bound_lt _ _ _ B) in H. lia. }
  split.
  - destruct (showError_ok element message w P WF HP)
      as (w1 & E1 & WF1 & D1 & HP1 & _).
    destruct (showError_ok element message w1 _ WF1 HP1)
      as (w2 & E2 & WF2 & D2 & HP2 & _).
    rewrite (mark_again element message (fresh w) P (fresh w1) L Hfr)
      in D2, HP2.
    apply parentElement_in in HP1 as HP1'. destruct HP1' as [HP1in _].
    rewrite (replace_same _ _ (proj1 WF1) HP1in) in D2.
    pose proof (mark_error_nodes element message (fresh w) P L) as EN.
    cbv zeta in EN.
    eexists w1, w2, _, _. repeat split; try eassumption.
    apply textContent_set_textContent.
  - intros N.
    destruct (clearError_ok element w P WF HP)
      as (w1 & E1 & WF1 & D1 & In1 & _).
    assert (HP1 : parentElement element (document w1)
                  = Some (unmark element P)).
    { apply parentElement_spec; [exact (proj1 WF1)|]. split; trivial.
      apply unmark_has_kid; assumption. }
    destruct (clearError_ok element w1 _ WF1 HP1)
      as (w2 & E2 & WF2 & D2 & In2 & _).
    rewrite (unmark_again element P L) in D2.
    rewrite (replace_same _ _ (proj1 WF1) In1) in D2.
    exists w1, w2, (unmark element P). repeat split; trivial.
    + rewrite D2. assumption.
    + apply unmark_error_nodes. assumption.
Qed.

(** ** Reading the page *)

Lemma distinct_NoDup l : distinct l = true -> NoDup l.
Proof.
  induction l as [|a l IH]; simpl; intros H; [constructor|].
  apply andb_true_iff in H as [H1 H2]. constructor; [|auto].
  intros Hin. apply negb_true_iff in H1.
  assert (existsb (Nat.eqb a) l = true); [|congruence].
  apply existsb_exists. exists a. split; [assumption | apply Nat.eqb_refl].
Qed.

Lemma well_formedb_spec w : well_formedb w = true -> well_formed w.
Proof.
  unfold well_formedb, well_formed. intros H.
  apply andb_true_iff in H as [H1 H2]. split.
  - apply distinct_NoDup. assumption.
  - apply Forall_forall. intros x Hx.
    rewrite forallb_forall in H2. apply Nat.ltb_lt. auto.
Qed.

Lemma logged_logged w a b : logged (logged w a) b = logged w (a ++ b).
Proof. unfold logged. simpl. rewrite app_assoc. reflexivity. Qed.

Lemma logged_nil w : logged w [] = w.
Proof. unfold logged. rewrite app_nil_r. destruct w; reflexivity. Qed.

Lemma log_eq c w : log c w = Some (tt, logged w [c]).
Proof. reflexivity. Qed.

Lemma well_formed_logged w l : well_formed w -> well_formed (logged w l).
Proof. intros H. exact H. Qed.

Lemma form_querySelector_eq form s w F :
  lookup form (document w) = Some F ->
  form_querySelector form s w = Some (querySelector s F, w).
Proof.
  intros H. unfold form_querySelector, bind, get_document, deref.
  rewrite H. reflexivity.
Qed.

Lemma findRules_in_eq fs form element w F :
  lookup form (document w) = Some F ->
  findRules_in fs form element w = Some (governing fs F element, w).
Proof.
  intros H. induction fs as [|[name f] fs IH]; simpl; [reflexivity|].
  unfold bind. rewrite (form_querySelector_eq form _ w F H).
  destruct (querySelector (selector f) F) as [n|]; [|exact IH].
  destruct (nid n =? element); [reflexivity | exact IH].
Qed.

Lemma value_of_eq element w n :
  lookup element (document w) = Some n ->
  value_of element w = Some (value (data n), w).
Proof.
  intros H. unfold value_of, bind, get_document, deref.
  rewrite H. reflexivity.
Qed.

(** An element the form finds lies below the form. *)
Lemma governing_in fs F element f :
  governing fs F element = Some f ->
  In (selector f) (map (fun x => selector (snd x)) fs) /\
  exists n, querySelector (selector f) F = Some n /\ nid n = element.
Proof.
  induction fs as [|[name g] fs IH]; simpl; [discriminate|].
  destruct (querySelector (selector g) F) as [n|] eqn:Q.
  - destruct (nid n =? element) eqn:E.
    + intros [= <-]. apply Nat.eqb_eq in E. split; [auto|]. eauto.
    + intros H. apply IH in H as [H1 H2]. auto.
  - intros H. apply IH in H as [H1 H2]. auto.
Qed.

Lemma descendants_parent n m :
  In m (descendants n) -> exists p, In p (subtrees n) /\ In m (kids p).
Proof.
  induction n as [j e ks IH] using node_induction.
  unfold descendants. simpl. intros H.
  apply in_flat_map in H as (k & Hk & H).
  destruct k as [y ey ky]. simpl in H. destruct H as [<- | H].
  - exists (Node j e ks). simpl. auto.
  - rewrite Forall_forall in IH.
    destruct (IH _ Hk H) as (p & Hp & Hm).
    exists p. split; [|assumption]. right. apply in_flat_map. eauto.
Qed.

(** Below a form of the page an element has its parent, which is the
    form or lies below it. *)
Lemma parent_below root F m :
  NoDup (ids root) -> In F (subtrees root) -> In m (descendants F) ->
  exists P, parentElement (nid m) root = Some P /\ In P (subtrees F).
Proof.
  intros ND HF Hm. apply descendants_parent in Hm as (p & Hp & Hk).
  exists p. split; [|assumption].
  apply parentElement_spec; trivial. split.
  - eapply subtrees_trans; eassumption.
  - apply has_kid_spec. eauto.
Qed.

Lemma descendants_in_subtrees n m : In m (descendants n) -> In m (subtrees n).
Proof. destruct n. simpl. auto. Qed.

(** ** The loop over the rules *)

Lemma check_rules_pass element message v n : forall rs w,
  lookup element (document w) = Some n -> value (data n) = v ->
  Forall (fun r => checkRule v r = true) rs ->
  check_rules element message rs w
  = (clearError element ;;; ret true) (logged w (map (CallCheckRule v) rs)).
Proof.
  induction rs as [|r rs IH]; intros w Hn Hv Hp.
  - simpl. rewrite logged_nil. reflexivity.
  - inversion Hp as [|? ? Hr Hrs]; subst. simpl.
    unfold bind at 1. rewrite (value_of_eq _ _ _ Hn).
    unfold bind at 1. rewrite log_eq, Hr. simpl.
    rewrite IH; trivial. rewrite logged_logged. reflexivity.
Qed.

Lemma check_rules_fail element message v n : forall pre r post w,
  lookup element (document w) = Some n -> value (data n) = v ->
  Forall (fun r' => checkRule v r' = true) pre ->
  checkRule v r = false ->
  check_rules element message (pre ++ r :: post) w
  = (showError element message ;;; ret false)
      (logged w (map (CallCheckRule v) (pre ++ [r]))).
Proof.
  induction pre as [|p pre IH]; intros r post w Hn Hv Hp Hr.
  - simpl. unfold bind at 1. rewrite (value_of_eq _ _ _ Hn).
    unfold bind at 1. rewrite log_eq, Hv, Hr. reflexivity.
  - inversion Hp as [|? ? Hp1 Hp2]; subst. simpl.
    unfold bind at 1. rewrite (value_of_eq _ _ _ Hn).
    unfold bind at 1. rewrite log_eq, Hp1. simpl.
    rewrite IH; trivial. rewrite logged_logged. reflexivity.
Qed.

(** The rules pass, or there is a first one that fails. *)
Lemma first_failing v rs :
  Forall (fun r => checkRule v r = true) rs \/
  exists pre r post, rs = pre ++ r :: post /\
    Forall (fun r' => checkRule v r' = true) pre /\ checkRule v r = false.
Proof.
  induction rs as [|r rs IH]; [left; constructor|].
  destruct (checkRule v r) eqn:E.
  - destruct IH as [IH | (pre & r' & post & -> & Hp & Hr)].
    + left. constructor; assumption.
    + right. exists (r :: pre), r', post. repeat split; trivial.
      constructor; assumption.
  - right. exists [], r, rs. repeat split; trivial.
Qed.

(** ** The marker of a field after the methods *)

Lemma replace_label_inside root P n' m' :
  NoDup (ids root) -> In P (subtrees root) ->
  In (nid m') (ids P) -> In m' (subtrees (replace (nid P) n' root)) ->
  exists m, In m (subtrees n') /\ label m = label m'.
Proof.
  intros ND HP Hx Hm.
  destruct (nodes_replace root P ND HP) as (pre & post & E1 & E2).
  assert (Hl : In (label m') (nodes (replace (nid P) n' root)))
    by (apply in_map; assumption).
  rewrite E2 in Hl. rewrite ids_nodes, E1, !map_app in ND.
  apply NoDup_app_inv in ND as (_ & ND & D1).
  apply NoDup_app_inv in ND as (_ & _ & D2).
  rewrite ids_nodes in Hx.
  apply in_app_or in Hl as [Hl | Hl].
  - exfalso. apply (D1 (nid m')).
    + change (nid m') with (fst (label m')). apply in_map. assumption.
    + apply in_or_app. auto.
  - apply in_app_or in Hl as [Hl | Hl].
    + apply in_map_iff in Hl as (m & E & Hm'). eauto.
    + exfalso. apply (D2 (nid m')); trivial.
      change (nid m') with (fst (label m')). apply in_map. assumption.
Qed.

Lemma label_data m m' : label m = label m' -> data m = data m'.
Proof. unfold label. congruence. Qed.

Lemma label_nid m m' : label m = label m' -> nid m = nid m'.
Proof. unfold label. congruence. Qed.

Lemma has_error_class_after_showError element message w P w' :
  well_formed w -> parentElement element (document w) = Some P ->
  showError element message w = Some (tt, w') ->
  has_error_class element (document w') = true.
Proof.
  intros WF HP E. pose proof WF as [ND B].
  destruct (showError_ok element message w P WF HP)
    as (w1 & E1 & WF1 & D1 & HP1 & _).
  rewrite E in E1. injection E1 as <-.
  apply parentElement_in in HP as [HPin HPk].
  apply parentElement_in in HP1 as [HP1in HP1k].
  apply has_kid_spec in HP1k as (k & Hk & Ek).
  assert (Hl : lookup element (document w') = Some k).
  { apply lookup_spec; [exact (proj1 WF1)|]. split; trivial.
    eapply subtrees_trans; [apply subtrees_kid|]; eassumption. }
  unfold has_error_class. rewrite Hl.
  apply (mark_error_class element message (fresh w) P k); trivial.
  - pose proof (has_kid_in_ids element P _ HPin HPk) as H.
    apply (bound_lt _ _ _ B) in H. lia.
  - apply subtrees_kid. assumption.
Qed.

Lemma has_error_class_after_clearError element w P w' :
  well_formed w -> parentElement element (document w) = Some P ->
  clearError element w = Some (tt, w') ->
  has_error_class element (document w') = false.
Proof.
  intros WF HP E. pose proof WF as [ND B].
  destruct (clearError_ok element w P WF HP)
    as (w1 & E1 & WF1 & D1 & In1 & _).
  rewrite E in E1. injection E1 as <-.
  apply parentElement_in in HP as [HPin HPk].
  unfold has_error_class.
  destruct (lookup element (document w')) as [m'|] eqn:Hl; trivial.
  apply lookup_in in Hl as [Hm' Em']. rewrite D1 in Hm'.
  destruct (replace_label_inside _ P (unmark element P) m' ND HPin)
    as (m & Hm & El); trivial.
  - rewrite Em'. apply kids_ids_in, has_kid_ids. assumption.
  - rewrite <- (label_data _ _ El).
    apply (unmark_error_class element P m Hm).
    rewrite (label_nid _ _ El). assumption.
Qed.

(** ** [validateField] *)

Lemma validateField_eq form element w F :
  lookup form (document w) = Some F ->
  validateField form element w
  = match governing fields F element with
    | None => Some (true, logged w [CallValidateField element])
    | Some f => check_rules element (message f) (rules f)
                  (logged w [CallValidateField element])
    end.
Proof.
  intros HF. unfold validateField, findRules.
  unfold bind at 1. rewrite log_eq. unfold bind at 1.
  rewrite (findRules_in_eq fields form element _ F) by exact HF.
  destruct (governing fields F element); reflexivity.
Qed.

(** The element a descriptor governs, with its parent. *)
Lemma governed_element w form F element f :
  well_formed w -> lookup form (document w) = Some F ->
  governing fields F element = Some f ->
  exists n P, lookup element (document w) = Some n /\
              parentElement element (document w) = Some P /\
              In P (subtrees F).
Proof.
  intros [ND B] HF G. apply lookup_in in HF as [HFin _].
  apply governing_in in G as (_ & n & Q & <-).
  apply querySelector_in in Q as [Q _].
  destruct (parent_below _ F n ND HFin Q) as (P & HP & HPF).
  exists n, P. repeat split; trivial.
  apply lookup_spec; trivial. split; [|reflexivity].
  eapply subtrees_trans; [apply descendants_in_subtrees|]; eassumption.
Qed.

(** C2.  For a field element governed by a descriptor, on a page whose
    identities are distinct: [validateField] calls [checkRule] on the
    rules in their declared order; at the first rule that fails it
    calls [showError] once with the message of the descriptor and
    returns false, no later rule being evaluated, and the field then
    carries the error class and the last child of its container is an
    error-message node with that message; when every rule passes it
    calls [clearError], returns true, and the field does not carry the
    error class; if its container held at most one error-message node,
    other than the field itself, it then holds none.  With the rules
    required and minLength:10 and an empty value, required alone is
    evaluated and the message is shown once. *)
Theorem validateField_spec (form element : nat) (w : world) (F : node)
        (f : field) :
  well_formed w ->
  lookup form (document w) = Some F ->
  governing fields F element = Some f ->
  findRules form element w = Some (Some f, w) /\
  exists n, lookup element (document w) = Some n /\
  let v := value (data n) in
  (forall pre r post,
     rules f = pre ++ r :: post ->
     Forall (fun r' => checkRule v r' = true) pre ->
     checkRule v r = false ->
     exists w' P' ks X,
       validateField form element w = Some (false, w') /\
       calls w' = calls w ++ CallValidateField element
                    :: map (CallCheckRule v) (pre ++ [r])
                    ++ [CallShowError element (message f)] /\
       has_error_class element (document w') = true /\
       parentElement element (document w') = Some P' /\
       kids P' = ks ++ [X] /\
       matches error_selector (data X) = true /\
       textContent (data X) = message f) /\
  (Forall (fun r => checkRule v r = true) (rules f) ->
   exists w',
     validateField form element w = Some (true, w') /\
     calls w' = calls w ++ CallValidateField element
                  :: map (CallCheckRule v) (rules f)
                  ++ [CallClearError element] /\
     has_error_class element (document w') = false /\
     forall P,
       parentElement element (document w) = Some P ->
       List.length (error_nodes P) <= 1 ->
       (forall X, In X (error_nodes P) -> nid X <> element) ->
       exists P', parentElement element (document w') = Some P' /\
                  error_nodes P' = []) /\
  (rules f = [js "required"; js "minLength:10"] -> v = [] ->
   exists w',
     validateField form element w = Some (false, w') /\
     calls w' = calls w ++ [CallValidateField element;
                            CallCheckRule [] (js "required");
                            CallShowError element (message f)]).
Proof.
  intros WF HF G. split.
  { unfold findRules. rewrite (findRules_in_eq fields form element w F HF), G.
    reflexivity. }
  destruct (governed_element w form F element f WF HF G)
    as (n & P & Hn & HP & _).
  exists n. split; [exact Hn|]. intros v.
  assert (A : forall pre r post,
     rules f = pre ++ r :: post ->
     Forall (fun r' => checkRule v r' = true) pre ->
     checkRule v r = false ->
     exists w' P' ks X,
       validateField form element w = Some (false, w') /\
       calls w' = calls w ++ CallValidateField element
                    :: map (CallCheckRule v) (pre ++ [r])
                    ++ [CallShowError element (message f)] /\
       has_error_class element (document w') = true /\
       parentElement element (document w') = Some P' /\
       kids P' = ks ++ [X] /\
       matches error_selector (data X) = true /\
       textContent (data X) = message f).
  { intros pre r post Er Hp Hr.
    rewrite (validateField_eq form element w F HF), G, Er.
    rewrite (check_rules_fail element (message f) v n); trivial.
    rewrite !logged_logged.
    set (w0 := logged w _).
    assert (WF0 : well_formed w0) by exact WF.
    destruct (showError_ok element (message f) w0 P WF0 HP)
      as (w' & E & WF' & D & HP' & _ & _ & _ & _ & C).
    destruct (mark_last_child element (message f) (fresh w0) P)
      as (ks & Ek & MX & TX & _).
    eexists w', _, ks, _. unfold bind. rewrite E.
    split; [reflexivity|]. split.
    { rewrite C. unfold w0. simpl. rewrite <- !app_assoc. reflexivity. }
    split.
    { exact (has_error_class_after_showError element (message f) w0 P w'
               WF0 HP E). }
    split; [exact HP'|]. split; [exact Ek|]. split; assumption. }
  split; [exact A|]. split.
  - intros Hp.
    rewrite (validateField_eq form element w F HF), G.
    rewrite (check_rules_pass element (message f) v n); trivial.
    rewrite !logged_logged.
    set (w0 := logged w _).
    assert (WF0 : well_formed w0) by exact WF.
    destruct (clearError_ok element w0 P WF0 HP)
      as (w' & E & WF' & D & In' & _ & _ & _ & _ & C).
    exists w'. unfold bind. rewrite E. split; [reflexivity|]. split.
    { rewrite C. unfold w0. simpl. rewrite <- !app_assoc. reflexivity. }
    split.
    { exact (has_error_class_after_clearError element w0 P w' WF0 HP E). }
    intros P0 HP0 L N.
    assert (P0 = P) by (change (document w0) with (document w) in HP;
                        congruence).
    subst P0. exists (unmark element P). split.
    + apply parentElement_spec; [exact (proj1 WF')|]. split; [exact In'|].
      apply unmark_has_kid; trivial.
      apply parentElement_in in HP. tauto.
    + apply unmark_error_nodes. exact L.
  - intros Er Ev.
    destruct (A [] (js "required") [js "minLength:10"])
      as (w' & _ & _ & _ & E & C & _); trivial.
    + rewrite Ev. reflexivity.
    + exists w'. split; [exact E|]. rewrite C, Ev. reflexivity.
Qed.

(** ** What the two methods leave alone *)

Lemma same_refl e : same_but_error_class e e.
Proof. unfold same_but_error_class. auto. Qed.

Lemma same_trans e1 e2 e3 :
  same_but_error_class e1 e2 -> same_but_error_class e2 e3 ->
  same_but_error_class e1 e3.
Proof.
  unfold same_but_error_class.
  intros (A1 & A2 & A3 & A4 & A5) (B1 & B2 & B3 & B4 & B5).
  repeat split; try congruence.
  intros c Hc. rewrite B5, A5; trivial.
Qed.

Lemma same_add e : same_but_error_class e (classList_add "field-error" e).
Proof.
  unfold same_but_error_class. repeat split; try reflexivity.
  intros c Hc. apply classList_add_other. assumption.
Qed.

Lemma same_remove e :
  same_but_error_class e (classList_remove "field-error" e).
Proof.
  unfold same_but_error_class. repeat split; try reflexivity.
  intros c Hc. apply classList_remove_other. assumption.
Qed.

Lemma same_set_textContent s n :
  same_but_error_class (data n) (data (set_textContent s n)).
Proof. destruct n. unfold same_but_error_class. simpl. auto. Qed.

Lemma update_origin i f n m :
  (forall e, same_but_error_class e (f e)) ->
  In m (subtrees (update i f n)) ->
  exists m0, In m0 (subtrees n) /\ nid m0 = nid m /\
             same_but_error_class (data m0) (data m) /\
             (nid m <> i -> data m = data m0).
Proof.
  intros Hf H. rewrite subtrees_update in H.
  apply in_map_iff in H as (m0 & <- & H0).
  exists m0. rewrite nid_update, data_update.
  split; [exact H0|]. split; [reflexivity|]. split.
  - destruct (nid m0 =? i); [apply Hf | apply same_refl].
  - intros N. apply Nat.eqb_neq in N. rewrite N. reflexivity.
Qed.

Lemma mark_origin element message fr P m :
  In m (subtrees (mark element message fr P)) ->
  (exists m0, In m0 (subtrees P) /\ nid m0 = nid m /\
              same_but_error_class (data m0) (data m) /\
              (nid m <> element -> classList (data m) = classList (data m0)))
  \/ (nid m = fr /\ classList (data m) = ["error-message"%string] /\
      same_but_error_class (data (error_element 0)) (data m)).
Proof.
  intros Hm. rewrite mark_eq, subtrees_add_last in Hm.
  set (f := classList_add "field-error") in *.
  set (P1 := update element f P) in *.
  assert (A : forall m1, In m1 (subtrees P1) ->
            exists m0, In m0 (subtrees P) /\ nid m0 = nid m1 /\
              same_but_error_class (data m0) (data m1) /\
              (nid m1 <> element -> data m1 = data m0)).
  { intros m1 H1. apply (update_origin element f P m1); trivial.
    intros e. apply same_add. }
  destruct Hm as [<- | Hm].
  - left. destruct (A P1 (subtrees_self P1)) as (m0 & H0 & E0 & S0 & C0).
    exists m0.
    assert (Ed : data (add_last (set_textContent message
                   match querySelector error_selector P1 with
                   | Some n => n | None => error_element fr end)
                 (detach (nid (set_textContent message
                   match querySelector error_selector P1 with
                   | Some n => n | None => error_element fr end)) P1))
                 = data P1).
    { rewrite <- (data_detach (nid (set_textContent message
                   match querySelector error_selector P1 with
                   | Some n => n | None => error_element fr end)) P1).
      destruct (detach _ P1). reflexivity. }
    assert (En : nid (add_last (set_textContent message
                   match querySelector error_selector P1 with
                   | Some n => n | None => error_element fr end)
                 (detach (nid (set_textContent message
                   match querySelector error_selector P1 with
                   | Some n => n | None => error_element fr end)) P1))
                 = nid P1).
    { rewrite <- (nid_detach (nid (set_textContent message
                   match querySelector error_selector P1 with
                   | Some n => n | None => error_element fr end)) P1).
      destruct (detach _ P1). reflexivity. }
    rewrite Ed, En.
    split; [exact H0|]. split; [exact E0|]. split; [exact S0|].
    intros N. rewrite C0; trivial.
  - apply in_app_or in Hm as [Hm | Hm].
    + left. apply detach_descendants in Hm as (m1 & H1 & _ & ->).
      rewrite nid_detach, data_detach.
      destruct (A m1 (descendants_in_subtrees _ _ H1))
        as (m0 & H0 & E0 & S0 & C0).
      exists m0.
      split; [exact H0|]. split; [exact E0|]. split; [exact S0|].
      intros N. rewrite C0; trivial.
    + rewrite subtrees_set_textContent in Hm. destruct Hm as [<- | []].
      rewrite nid_set_textContent, classList_set_textContent.
      destruct (querySelector error_selector P1) as [X|] eqn:Q.
      * left. apply querySelector_in in Q as [Q _].
        destruct (A X (descendants_in_subtrees _ _ Q))
          as (m0 & H0 & E0 & S0 & C0).
        exists m0. split; [exact H0|]. split; [exact E0|]. split.
        -- eapply same_trans; [exact S0 | apply same_set_textContent].
        -- intros N. rewrite C0; trivial.
      * right. split; [reflexivity|]. split; [reflexivity|].
        apply (same_set_textContent message (error_element fr)).
Qed.

Lemma unmark_origin element P m :
  In m (subtrees (unmark element P)) ->
  exists m0, In m0 (subtrees P) /\ nid m0 = nid m /\
             same_but_error_class (data m0) (data m) /\
             (nid m <> element -> classList (data m) = classList (data m0)).
Proof.
  intros Hm. apply unmark_subtrees in Hm as (m1 & H1 & En & Ed).
  destruct (update_origin element (classList_remove "field-error") P m1)
    as (m0 & H0 & E0 & S0 & C0); trivial.
  { intros e. apply same_remove. }
  exists m0. rewrite En, Ed.
  split; [exact H0|]. split; [exact E0|]. split; [exact S0|].
  intros N. rewrite C0; trivial.
Qed.

Lemma replace_label root P n' m' :
  NoDup (ids root) -> In P (subtrees root) ->
  In m' (subtrees (replace (nid P) n' root)) ->
  (exists m, In m (subtrees n') /\ label m = label m') \/
  (exists m, In m (subtrees root) /\ label m = label m').
Proof.
  intros ND HP Hm.
  destruct (nodes_replace root P ND HP) as (pre & post & E1 & E2).
  assert (Hl : In (label m') (nodes (replace (nid P) n' root)))
    by (apply in_map; assumption).
  rewrite E2 in Hl.
  assert (R : forall l, In (label m') l ->
                        (forall x, In x l -> In x (nodes root)) ->
                        exists m, In m (subtrees root) /\ label m = label m').
  { intros l Hin Hsub. apply Hsub in Hin.
    apply in_map_iff in Hin as (m & E & Hm'). eauto. }
  apply in_app_or in Hl as [Hl | Hl].
  - right. apply (R pre); trivial. intros x Hx. rewrite E1.
    apply in_or_app. auto.
  - apply in_app_or in Hl as [Hl | Hl].
    + left. apply in_map_iff in Hl as (m & E & Hm'). eauto.
    + right. apply (R post); trivial. intros x Hx. rewrite E1.
      apply in_or_app. right. apply in_or_app. auto.
Qed.

Lemma step_kept_label (element fr : nat) root P n' :
  NoDup (ids root) -> In P (subtrees root) ->
  (forall m, In m (subtrees n') ->
     (exists m0, In m0 (subtrees P) /\ nid m0 = nid m /\
                 same_but_error_class (data m0) (data m) /\
                 (nid m <> element ->
                  classList (data m) = classList (data m0)))
     \/ (nid m = fr /\ classList (data m) = ["error-message"%string] /\
         same_but_error_class (data (error_element 0)) (data m))) ->
  step_kept element fr root (replace (nid P) n' root).
Proof.
  intros ND HP H m' Hm'.
  destruct (replace_label root P n' m' ND HP Hm') as [(m & Hm & El) | (m & Hm & El)].
  - rewrite <- (label_nid _ _ El), <- (label_data _ _ El).
    destruct (H m Hm) as [(m0 & H0 & E0 & S0 & C0) | R]; [left | right; exact R].
    exists m0. split; [eapply subtrees_trans; eassumption|].
    split; [exact E0|]. split; [exact S0 | exact C0].
  - left. exists m. rewrite <- (label_nid _ _ El), <- (label_data _ _ El).
    split; [exact Hm|]. split; [reflexivity|].
    split; [apply same_refl | reflexivity].
Qed.

Lemma showError_kept element message w P w' :
  well_formed w -> parentElement element (document w) = Some P ->
  showError element message w = Some (tt, w') ->
  step_kept element (fresh w) (document w) (document w').
Proof.
  intros WF HP E.
  destruct (showError_ok element message w P WF HP) as (w1 & E1 & _ & D & _).
  rewrite E in E1. injection E1 as <-. rewrite D.
  apply parentElement_in in HP as [HPin _].
  apply step_kept_label; [exact (proj1 WF) | exact HPin |].
  intros m Hm. apply (mark_origin element message (fresh w) P m Hm).
Qed.

Lemma clearError_kept element w P w' :
  well_formed w -> parentElement element (document w) = Some P ->
  clearError element w = Some (tt, w') ->
  step_kept element (fresh w) (document w) (document w').
Proof.
  intros WF HP E.
  destruct (clearError_ok element w P WF HP) as (w1 & E1 & _ & D & _).
  rewrite E in E1. injection E1 as <-. rewrite D.
  apply parentElement_in in HP as [HPin _].
  apply step_kept_label; [exact (proj1 WF) | exact HPin |].
  intros m Hm. left. apply (unmark_origin element P m Hm).
Qed.

Lemma step_kept_refl element fr doc : step_kept element fr doc doc.
Proof.
  intros m' Hm'. left. exists m'. split; [exact Hm'|].
  split; [reflexivity|]. split; [apply same_refl | reflexivity].
Qed.

(** ** [handleSubmit] *)

Lemma governing_some fs F name f n :
  In (name, f) fs -> querySelector (selector f) F = Some n ->
  governing fs F (nid n) <> None.
Proof.
  induction fs as [|[name' g] fs IH]; simpl; [tauto|].
  intros [[= -> ->] | H] Q.
  - rewrite Q, Nat.eqb_refl. discriminate.
  - destruct (querySelector (selector g) F) as [n'|]; [|auto].
    destruct (nid n' =? nid n); [discriminate | auto].
Qed.

(** The form is not touched by a change made to the parent of one of
    the elements below it. *)
Lemma form_survives root form F m P n' :
  NoDup (ids root) -> lookup form root = Some F ->
  In m (descendants F) -> parentElement (nid m) root = Some P ->
  nid n' = nid P ->
  In form (ids (replace (nid P) n' root)).
Proof.
  intros ND HF Hm HP En. apply lookup_in in HF as [HFin EF].
  destruct (parent_below root F m ND HFin Hm) as (P0 & HP0 & HPF).
  rewrite HP in HP0. injection HP0 as <-.
  apply parentElement_in in HP as [HPin _].
  destruct (in_dec Nat.eq_dec form (ids P)) as [Hin | Hnin].
  - assert (form = nid P).
    { destruct F as [j e ks]. simpl in EF. subst j. simpl in HPF.
      destruct HPF as [<- | HPF]; [reflexivity|].
      exfalso. apply in_ids in Hin as (q & Hq & Eq).
      assert (NDF : NoDup (ids (Node form e ks)))
        by (eapply NoDup_subtree; eassumption).
      apply (NoDup_root_not_below form e ks q NDF); trivial.
      apply in_flat_map in HPF as (k & Hk & HPk).
      apply in_flat_map. exists k. split; [assumption|].
      eapply subtrees_trans; eassumption. }
    rewrite H. apply in_ids. exists n'.
    split; [|exact En]. apply replace_in; assumption.
  - apply in_ids_replace; trivial.
    apply in_ids. exists F. auto.
Qed.

Lemma projections_checks v l :
  validated (map (CallCheckRule v) l) = [] /\
  shown (map (CallCheckRule v) l) = [] /\
  existsb is_submitForm (map (CallCheckRule v) l) = false.
Proof. induction l as [|r l (A & B & C)]; simpl; auto. Qed.

Lemma validated_app a b : validated (a ++ b) = validated a ++ validated b.
Proof. apply flat_map_app. Qed.

Lemma shown_app a b : shown (a ++ b) = shown a ++ shown b.
Proof. apply flat_map_app. Qed.

Lemma has_error_class_kept element fr w w' x :
  well_formed w -> step_kept element fr (document w) (document w') ->
  x <> element ->
  has_error_class x (document w') = true ->
  has_error_class x (document w) = true.
Proof.
  intros [ND _] K N. unfold has_error_class.
  destruct (lookup x (document w')) as [m'|] eqn:L; [|discriminate].
  apply lookup_in in L as [Hm' E']. intros C.
  destruct (K m' Hm') as [(m & Hm & En & _ & Ec) | (_ & Ec & _)].
  - assert (L0 : lookup x (document w) = Some m).
    { apply lookup_spec; trivial. split; congruence. }
    rewrite L0, <- Ec; [assumption | congruence].
  - rewrite Ec in C. discriminate.
Qed.

Lemma came_from_step element doc0 fr0 doc doc' fr m' :
  (forall m, In m (subtrees doc) -> came_from doc0 fr0 m) ->
  fr0 <= fr -> step_kept element fr doc doc' ->
  In m' (subtrees doc') -> came_from doc0 fr0 m'.
Proof.
  intros H Hfr K Hm'.
  destruct (K m' Hm') as [(m & Hm & En & S & _) | (En & _ & S)].
  - destruct (H m Hm) as [(m0 & H0 & E0 & S0) | (B & S0)].
    + left. exists m0. split; [exact H0|]. split; [congruence|].
      eapply same_trans; eassumption.
    + right. split; [lia|]. eapply same_trans; eassumption.
  - right. split; [lia | exact S].
Qed.

(** [validateField] on an element a declared field finds. *)
Lemma validateField_ok form w F name f n :
  well_formed w -> lookup form (document w) = Some F ->
  In (name, f) fields -> querySelector (selector f) F = Some n ->
  exists ok w' tr,
    validateField form (nid n) w = Some (ok, w') /\
    well_formed w' /\ In form (ids (document w')) /\
    timers w' = timers w /\ listeners w' = listeners w /\
    clock w' = clock w /\ fresh w <= fresh w' /\
    calls w' = calls w ++ CallValidateField (nid n) :: tr /\
    validated tr = [] /\
    shown tr = (if ok then [] else [nid n]) /\
    existsb is_submitForm tr = false /\
    step_kept (nid n) (fresh w) (document w) (document w') /\
    has_error_class (nid n) (document w') = negb ok.
Proof.
  intros WF HF Hf Q. pose proof WF as [ND B].
  destruct (governing fields F (nid n)) as [g|] eqn:G;
    [|exfalso; eapply governing_some; eassumption].
  destruct (governed_element w form F (nid n) g WF HF G)
    as (n0 & P & Hn0 & HP & HPF).
  rewrite (validateField_eq form (nid n) w F HF), G.
  set (v := value (data n0)).
  apply querySelector_in in Q as [Qin _].
  set (w0 := logged w [CallValidateField (nid n)]).
  destruct (projections_checks v (rules g)) as (V1 & S1 & X1).
  destruct (first_failing v (rules g))
    as [Hp | (pre & r & post & Er & Hp & Hr)].
  - rewrite (check_rules_pass (nid n) (message g) v n0); trivial.
    set (w1 := logged w0 _).
    assert (WF1 : well_formed w1) by exact WF.
    destruct (clearError_ok (nid n) w1 P WF1 HP)
      as (w' & E & WF' & D & _ & Fr & Ls & Ts & Ck & C).
    exists true, w', (map (CallCheckRule v) (rules g) ++ [CallClearError (nid n)]).
    unfold bind. rewrite E.
    split; [reflexivity|]. split; [exact WF'|]. split.
    { rewrite D. apply (form_survives _ form F n P); trivial.
      apply unmark_nid. }
    split; [exact Ts|]. split; [exact Ls|]. split; [exact Ck|].
    split; [rewrite Fr; apply Nat.le_refl|]. split.
    { rewrite C. unfold w1, w0. simpl. rewrite <- !app_assoc. reflexivity. }
    split; [rewrite validated_app, V1; reflexivity|].
    split; [rewrite shown_app, S1; reflexivity|].
    split; [rewrite existsb_app, X1; reflexivity|].
    split; [exact (clearError_kept (nid n) w1 P w' WF1 HP E)|].
    exact (has_error_class_after_clearError (nid n) w1 P w' WF1 HP E).
  - rewrite Er.
    rewrite (check_rules_fail (nid n) (message g) v n0); trivial.
    set (w1 := logged w0 _).
    assert (WF1 : well_formed w1) by exact WF.
    destruct (showError_ok (nid n) (message g) w1 P WF1 HP)
      as (w' & E & WF' & D & _ & Fr & Ls & Ts & Ck & C).
    destruct (projections_checks v (pre ++ [r])) as (V2 & S2 & X2).
    exists false, w',
      (map (CallCheckRule v) (pre ++ [r])
       ++ [CallShowError (nid n) (message g)]).
    unfold bind. rewrite E.
    split; [reflexivity|]. split; [exact WF'|]. split.
    { rewrite D. apply (form_survives _ form F n P); trivial.
      apply mark_nid. }
    split; [exact Ts|]. split; [exact Ls|]. split; [exact Ck|].
    split; [exact Fr|]. split.
    { rewrite C. unfold w1, w0. simpl. rewrite <- !app_assoc. reflexivity. }
    split; [rewrite validated_app, V2; reflexivity|].
    split; [rewrite shown_app, S2; reflexivity|].
    split; [rewrite existsb_app, X2; reflexivity|].
    split; [exact (showError_kept (nid n) (message g) w1 P w' WF1 HP E)|].
    exact (has_error_class_after_showError (nid n) (message g) w1 P w'
             WF1 HP E).
Qed.

Lemma came_from_refl doc fr m : In m (subtrees doc) -> came_from doc fr m.
Proof.
  intros H. left. exists m. split; [exact H|]. split; [reflexivity|].
  apply same_refl.
Qed.

Lemma came_from_trans doc0 fr0 doc1 fr1 m' :
  (forall m, In m (subtrees doc1) -> came_from doc0 fr0 m) ->
  fr0 <= fr1 -> came_from doc1 fr1 m' -> came_from doc0 fr0 m'.
Proof.
  intros H Hfr [(m1 & H1 & E1 & S1) | (B & S1)].
  - destruct (H m1 H1) as [(m0 & H0 & E0 & S0) | (B0 & S0)].
    + left. exists m0. split; [exact H0|]. split; [congruence|].
      eapply same_trans; eassumption.
    + right. split; [lia|]. eapply same_trans; eassumption.
  - right. split; [lia | exact S1].
Qed.

Lemma lookup_present form doc :
  In form (ids doc) -> exists F, lookup form doc = Some F.
Proof.
  intros H. apply lookup_some_iff in H.
  destruct (lookup form doc) as [F|]; [eauto | congruence].
Qed.

(** The loop of [handleSubmit] meets the specification's account of
    it, and keeps the page well formed. *)
Lemma validate_all_ok form : forall fs, incl fs fields ->
  forall w isValid,
  well_formed w -> In form (ids (document w)) ->
  exists rs w' tr,
    validates form fs w rs w' /\
    validate_all fs form isValid w = Some (isValid && forallb snd rs, w') /\
    well_formed w' /\ In form (ids (document w')) /\
    timers w' = timers w /\ listeners w' = listeners w /\
    clock w' = clock w /\ fresh w <= fresh w' /\
    calls w' = calls w ++ tr /\
    validated tr = map fst rs /\
    shown tr = invalid rs /\
    existsb is_submitForm tr = false /\
    (forall x, has_error_class x (document w') = true ->
               has_error_class x (document w) = true \/ In x (invalid rs)) /\
    (forall m', In m' (subtrees (document w')) ->
                came_from (document w) (fresh w) m').
Proof.
  induction fs as [|[name f] fs IH]; intros Hincl w isValid WF Hform.
  - exists [], w, []. simpl. rewrite andb_true_r, app_nil_r.
    split; [constructor|]. split; [reflexivity|].
    split; [exact WF|]. split; [exact Hform|].
    split; [reflexivity|]. split; [reflexivity|]. split; [reflexivity|].
    split; [apply Nat.le_refl|].
    split; [reflexivity|]. split; [reflexivity|]. split; [reflexivity|].
    split; [reflexivity|]. split; [auto|].
    intros m' Hm'. apply came_from_refl. assumption.
  - destruct (lookup_present form _ Hform) as (F & HF).
    assert (Hf : In (name, f) fields) by (apply Hincl; simpl; auto).
    assert (Hincl' : incl fs fields)
      by (intros x Hx; apply Hincl; simpl; auto).
    simpl. unfold bind at 1.
    rewrite (form_querySelector_eq form (selector f) w F HF).
    destruct (querySelector (selector f) F) as [n|] eqn:Q.
    + destruct (validateField_ok form w F name f n WF HF Hf Q)
        as (ok & w1 & tr1 & E1 & WF1 & Hform1 & Ts1 & Ls1 & Ck1 & Fr1 & C1
            & V1 & S1 & X1 & K1 & M1).
      unfold bind. rewrite E1.
      destruct (IH Hincl' w1 (if negb ok then false else isValid) WF1 Hform1)
        as (rs & w' & tr & Hv & E & WF' & Hform' & Ts & Ls & Ck & Fr & C
            & V & S & X & M & O).
      exists ((nid n, ok) :: rs), w', (CallValidateField (nid n) :: tr1 ++ tr).
      split.
      { eapply validates_present; [|exact E1 | exact Hv].
        rewrite (form_querySelector_eq form (selector f) w F HF), Q.
        reflexivity. }
      split.
      { rewrite E. simpl. destruct ok, isValid; reflexivity. }
      split; [exact WF'|]. split; [exact Hform'|].
      split; [congruence|]. split; [congruence|]. split; [congruence|].
      split; [lia|]. split.
      { rewrite C, C1, <- app_assoc. reflexivity. }
      split.
      { simpl. rewrite validated_app, V1, V. reflexivity. }
      split.
      { simpl. rewrite shown_app, S1, S. unfold invalid. simpl.
        destruct ok; reflexivity. }
      split.
      { simpl. rewrite existsb_app, X1, X. reflexivity. }
      split.
      { intros x Hx. destruct (M x Hx) as [Hx1 | Hin].
        - destruct (Nat.eq_dec x (nid n)) as [-> | N].
          + right. rewrite M1 in Hx1. unfold invalid. simpl.
            rewrite Hx1. simpl. auto.
          + left.
            exact (has_error_class_kept (nid n) (fresh w) w w1 x WF K1 N Hx1).
        - right. unfold invalid in *. simpl.
          destruct (negb ok); simpl; auto. }
      intros m' Hm'.
      apply (came_from_trans (document w) (fresh w) (document w1) (fresh w1));
        [|exact Fr1 | exact (O m' Hm')].
      intros m Hm.
      apply (came_from_step (nid n) (document w) (fresh w) (document w)
               (document w1) (fresh w)); trivial.
      intros m0 H0. apply came_from_refl. assumption.
    + destruct (IH Hincl' w isValid WF Hform)
        as (rs & w' & tr & Hv & E & R).
      exists rs, w', tr. split; [|split; [exact E | exact R]].
      eapply validates_absent; [|exact Hv].
      rewrite (form_querySelector_eq form (selector f) w F HF), Q.
      reflexivity.
Qed.

Lemma submitForm_eq form w F :
  lookup form (document w) = Some F ->
  submitForm form w
  = Some (tt, mkWorld
                (insertFirst form (Node (fresh w) success_element [])
                   (document w))
                (S (fresh w)) (listeners w)
                (timers w ++ [(clock w + 2000, ResetAndFade form (fresh w))])
                (clock w) (calls w ++ [CallSubmitForm])).
Proof.
  intros H. unfold submitForm, bind, log, new_id, get_document, deref,
    set_document, setTimeout. simpl. rewrite H. reflexivity.
Qed.

Lemma matches_success e :
  matches success_selector e
  = contains "form-success-message" (classList e).
Proof. unfold matches. simpl. rewrite andb_true_r. reflexivity. Qed.

(** ** The markers [handleSubmit] leaves *)

Lemma disjoint_spec a b i :
  disjoint a b = true -> In i a -> ~ In i b.
Proof.
  unfold disjoint. rewrite forallb_forall. intros H Ha Hb.
  apply H in Ha. apply negb_true_iff in Ha.
  assert (existsb (Nat.eqb i) b = true); [|congruence].
  apply existsb_exists. exists i. split; [exact Hb | apply Nat.eqb_refl].
Qed.

Lemma in_field_containers doc x P :
  NoDup (ids doc) -> field_id doc x -> parentElement x doc = Some P ->
  In (x, P) (field_containers doc).
Proof.
  intros ND (m & Hm & Fm) HP.
  apply parentElement_in in HP as [HPin HPk].
  apply has_kid_spec in HPk as (k & Hk & Ek).
  apply lookup_in in Hm as [Hm Em].
  assert (k = m).
  { apply (same_id_same_node doc ND); trivial; [|congruence].
    eapply subtrees_trans; [apply subtrees_kid|]; eassumption. }
  subst k. unfold field_containers. apply in_flat_map. exists P.
  split; [exact HPin|]. apply in_map_iff. exists m.
  split; [rewrite Ek; reflexivity|]. apply filter_In. auto.
Qed.

Lemma tidy_spec doc : NoDup (ids doc) -> tidy doc = true -> Tidy doc.
Proof.
  intros ND H. unfold tidy in H. apply andb_true_iff in H as [H1 H2].
  rewrite forallb_forall in H1, H2.
  repeat split.
  - intros m Hm Fm. apply H1 in Hm. apply andb_true_iff in Hm as [_ Hm].
    rewrite Fm in Hm. simpl in Hm. apply negb_true_iff in Hm. exact Hm.
  - intros m a b Hm Ha Hb Ma Mb. apply H1 in Hm.
    apply andb_true_iff in Hm as [Hm _]. apply Nat.leb_le in Hm.
    apply (length_le_1_same (descriptors_of (data m))); trivial;
      apply filter_In; auto.
  - intros x P Fx HP.
    pose proof (in_field_containers doc x P ND Fx HP) as Hin.
    apply H2 in Hin. apply andb_true_iff in Hin as [Hin _].
    apply Nat.leb_le in Hin. exact Hin.
  - intros x y P Q Fx Fy N HP HQ i Hi.
    pose proof (in_field_containers doc x P ND Fx HP) as Hx.
    pose proof (in_field_containers doc y Q ND Fy HQ) as Hy.
    apply H2 in Hx. apply andb_true_iff in Hx as [_ Hx].
    rewrite forallb_forall in Hx. apply Hx in Hy. cbn [fst snd] in Hy.
    apply orb_true_iff in Hy as [Hy | Hy].
    + apply Nat.eqb_eq in Hy. contradiction.
    + apply (disjoint_spec _ _ _ Hy Hi).
Qed.

(** The declared selectors look at the tag and the attributes only. *)
Lemma matches_field_same e e' x :
  In x fields -> same_but_error_class e e' ->
  matches (selector (snd x)) e' = matches (selector (snd x)) e.
Proof.
  intros Hx (T & A & _). unfold fields in Hx. simpl in Hx.
  destruct Hx as [<- | [<- | [<- | [<- | []]]]];
    unfold matches; simpl; rewrite T, A; reflexivity.
Qed.

Lemma is_field_same e e' :
  same_but_error_class e e' -> is_field e' = is_field e.
Proof.
  intros S. unfold is_field.
  assert (A : forall l, incl l fields ->
              existsb (fun x => matches (selector (snd x)) e') l
              = existsb (fun x => matches (selector (snd x)) e) l).
  { induction l as [|a l IH]; intros Hl; simpl; trivial.
    rewrite (matches_field_same e e' a) by (trivial; apply Hl; simpl; auto).
    rewrite IH; trivial. intros y Hy. apply Hl. simpl. auto. }
  apply A. apply incl_refl.
Qed.

Lemma is_field_matches e x :
  In x fields -> matches (selector (snd x)) e = true -> is_field e = true.
Proof.
  intros Hx M. unfold is_field. apply existsb_exists. eauto.
Qed.

Lemma error_same e e' :
  same_but_error_class e e' ->
  matches error_selector e' = matches error_selector e.
Proof.
  intros (_ & _ & _ & _ & C). rewrite !matches_error. apply C. discriminate.
Qed.

Lemma error_element_no_field e :
  same_but_error_class (data (error_element 0)) e -> is_field e = false.
Proof.
  intros S. rewrite (is_field_same _ _ S). reflexivity.
Qed.

(** The root has no parent. *)
Lemma root_no_parent doc :
  NoDup (ids doc) -> parentElement (nid doc) doc = None.
Proof.
  intros ND. destruct (parentElement (nid doc) doc) as [P|] eqn:E; trivial.
  exfalso. apply parentElement_in in E as [HP HK].
  apply has_kid_spec in HK as (k & Hk & Ek).
  destruct doc as [j e ks]. simpl in *.
  destruct HP as [<- | HP].
  - simpl in Hk. apply (NoDup_root_not_below j e ks k ND); trivial.
    apply in_flat_map. exists k. split; [exact Hk | apply subtrees_self].
  - apply (NoDup_root_not_below j e ks k ND); trivial.
    apply in_flat_map in HP as (c & Hc & HP). apply in_flat_map.
    exists c. split; [exact Hc|].
    eapply subtrees_trans; [apply subtrees_kid|]; eassumption.
Qed.

(** Every other node of the page has one. *)
Lemma has_parent doc x :
  In x (ids doc) -> x <> nid doc -> exists P, parentElement x doc = Some P.
Proof.
  intros Hx N. apply in_ids in Hx as (m & Hm & <-).
  destruct doc as [j e ks]. simpl in Hm. destruct Hm as [<- | Hm].
  - simpl in N. congruence.
  - destruct (descendants_parent (Node j e ks) m Hm) as (p & Hp & Hk).
    destruct (parentElement (nid m) (Node j e ks)) as [P|] eqn:E; [eauto|].
    exfalso. unfold parentElement in E.
    apply (find_none _ _ E) in Hp.
    assert (has_kid (nid m) p = true) by (apply has_kid_spec; eauto).
    congruence.
Qed.

(** A subtree that has no node in common with the one rebuilt stays
    as it is. *)
Lemma replace_apart root P Q n' :
  NoDup (ids root) -> In P (subtrees root) -> In Q (subtrees root) ->
  (forall i, In i (ids Q) -> ~ In i (ids P)) ->
  In Q (subtrees (replace (nid P) n' root)).
Proof.
  intros ND HP HQ D. unfold replace.
  induction root as [j e ks IH] using node_induction.
  assert (NQ : ~ In (nid P) (ids Q)).
  { intros H. apply (D _ H). apply ids_self. }
  simpl in HQ. destruct HQ as [<- | HQ].
  { exfalso. apply NQ. apply in_ids. eauto. }
  cbn [at_node]. destruct (Nat.eqb_spec j (nid P)) as [E | N].
  { exfalso.
    assert (Node j e ks = P).
    { apply (same_id_same_node (Node j e ks) ND); trivial.
      apply subtrees_self. }
    subst P. apply (D (nid Q) (ids_self Q)). apply in_ids. exists Q.
    split; [|reflexivity]. simpl. auto. }
  simpl. right. apply in_flat_map in HQ as (k & Hk & HQ).
  apply in_flat_map. exists (at_node (nid P) (fun _ => n') k).
  split; [apply in_map; exact Hk|].
  destruct (in_dec Nat.eq_dec (nid P) (ids k)) as [Hin | Hnin].
  - rewrite Forall_forall in IH. apply IH; trivial.
    + eapply NoDup_kid; eassumption.
    + apply in_ids in Hin as (m & Hm & Em).
      assert (m = P); [|subst; assumption].
      apply (same_id_same_node (Node j e ks) ND); trivial.
      simpl. right. apply in_flat_map. eauto.
  - rewrite at_node_frame by assumption. exact HQ.
Qed.

Lemma lookup_in_container doc C x :
  NoDup (ids doc) -> In C (subtrees doc) -> In x (ids C) ->
  lookup x doc = lookup x C.
Proof.
  intros ND HC Hx. apply in_ids in Hx as (m & Hm & Em).
  assert (NDC : NoDup (ids C)) by (eapply NoDup_subtree; eassumption).
  assert (A : lookup x C = Some m) by (apply lookup_spec; auto).
  rewrite A. apply lookup_spec; trivial. split; [|exact Em].
  eapply subtrees_trans; eassumption.
Qed.

Lemma has_error_class_in_container doc C x :
  NoDup (ids doc) -> parentElement x doc = Some C ->
  has_error_class x doc = has_error_class x C.
Proof.
  intros ND HP. apply parentElement_in in HP as [HC HK].
  unfold has_error_class. rewrite (lookup_in_container doc C x); trivial.
  apply kids_ids_in, has_kid_ids. exact HK.
Qed.

Lemma governing_entry fs F x g :
  governing fs F x = Some g ->
  exists name n, In (name, g) fs /\ querySelector (selector g) F = Some n /\
                 nid n = x.
Proof.
  induction fs as [|[name f] fs IH]; simpl; [discriminate|].
  destruct (querySelector (selector f) F) as [n|] eqn:Q.
  - destruct (nid n =? x) eqn:E.
    + intros [= <-]. apply Nat.eqb_eq in E. exists name, n. auto.
    + intros H. destruct (IH H) as (name' & n' & A & B & C).
      exists name', n'. auto.
  - intros H. destruct (IH H) as (name' & n' & A & B & C).
    exists name', n'. auto.
Qed.

Lemma NoDup_fields : NoDup fields.
Proof.
  unfold fields. repeat constructor; simpl; intuition discriminate.
Qed.

(** One step of the two methods on the container of the field [x]
    keeps the page tidy and leaves the other fields and their
    containers as they are. *)
Lemma Tidy_step doc doc' x fr P C :
  NoDup (ids doc) -> NoDup (ids doc') -> Tidy doc ->
  field_id doc x ->
  parentElement x doc = Some P -> parentElement x doc' = Some C ->
  doc' = replace (nid P) C doc -> nid C = nid P ->
  step_kept x fr doc doc' ->
  (forall i, In i (ids C) -> In i (ids P) \/ i = fr) ->
  ~ In fr (ids doc) ->
  List.length (error_nodes C) <= 1 ->
  Tidy doc' /\ field_id doc' x /\
  (forall y Q, field_id doc y -> y <> x -> parentElement y doc = Some Q ->
     parentElement y doc' = Some Q /\ field_id doc' y) /\
  (forall y m', lookup y doc' = Some m' -> is_field (data m') = true ->
     exists m, lookup y doc = Some m /\
               same_but_error_class (data m) (data m')).
Proof.
  intros ND ND' (T2 & T3 & T4 & T1) Fx HP HC D EC K IC Hfr LC.
  assert (Fx' : field_id doc' x).
  { destruct Fx as (m & Lm & Fm). apply lookup_in in Lm as [Hm Em].
    apply parentElement_in in HC as [HCin HCk].
    apply has_kid_spec in HCk as (k & Hk & Ek).
    assert (Hk' : In k (subtrees doc'))
      by (eapply subtrees_trans; [apply subtrees_kid|]; eassumption).
    exists k. split; [apply lookup_spec; auto|].
    destruct (K k Hk') as [(m0 & H0 & E0 & S & _) | (E0 & _)].
    - assert (m0 = m).
      { apply (same_id_same_node doc ND); trivial. congruence. }
      subst m0. rewrite (is_field_same _ _ S). exact Fm.
    - exfalso. apply Hfr. rewrite <- E0, Ek, <- Em. apply in_ids. eauto. }
  assert (HPin : In P (subtrees doc)) by (apply parentElement_in in HP; tauto).
  assert (Org : forall m', In m' (subtrees doc') -> is_field (data m') = true ->
            exists m, In m (subtrees doc) /\ nid m = nid m' /\
                      same_but_error_class (data m) (data m')).
  { intros m' Hm' Fm'.
    destruct (K m' Hm') as [(m & Hm & En & S & _) | (_ & _ & S)].
    - exists m. auto.
    - rewrite (error_element_no_field _ S) in Fm'. discriminate. }
  assert (Back : forall y m', lookup y doc' = Some m' ->
            is_field (data m') = true ->
            exists m, lookup y doc = Some m /\
                      same_but_error_class (data m) (data m')).
  { intros y m' L Fm'. apply lookup_in in L as [Hm' E'].
    destruct (Org m' Hm' Fm') as (m & Hm & En & S).
    exists m. split; [|exact S]. apply lookup_spec; trivial.
    split; [exact Hm | congruence]. }
  assert (Frame : forall y Q, field_id doc y -> y <> x ->
            parentElement y doc = Some Q ->
            parentElement y doc' = Some Q /\ field_id doc' y).
  { intros y Q Fy N HQ. pose proof HQ as HQ'.
    apply parentElement_in in HQ' as [HQin HQk].
    assert (HQ1 : In Q (subtrees doc')).
    { rewrite D. apply replace_apart; trivial.
      intros i Hi Hi'. exact (T1 x y P Q Fx Fy (not_eq_sym N) HP HQ i Hi' Hi). }
    split.
    - apply parentElement_spec; auto.
    - destruct Fy as (m & Lm & Fm). exists m. split; [|exact Fm].
      apply lookup_in in Lm as [Hm Em].
      apply has_kid_spec in HQk as (k & Hk & Ek).
      assert (k = m).
      { apply (same_id_same_node doc ND); trivial; [|congruence].
        eapply subtrees_trans; [apply subtrees_kid|]; eassumption. }
      subst k. apply lookup_spec; trivial. split; [|exact Em].
      eapply subtrees_trans; [apply subtrees_kid|]; eassumption. }
  assert (Par : forall y Q', field_id doc' y ->
            parentElement y doc' = Some Q' ->
            (y = x /\ Q' = C) \/
            (y <> x /\ field_id doc y /\ parentElement y doc = Some Q')).
  { intros y Q' (m' & L' & F') HQ'.
    destruct (Nat.eq_dec y x) as [-> | N].
    - left. split; [reflexivity | congruence].
    - right. split; [exact N|].
      destruct (Back y m' L' F') as (m & L & S).
      assert (Fy : field_id doc y).
      { exists m. split; [exact L|]. rewrite <- (is_field_same _ _ S).
        exact F'. }
      split; [exact Fy|].
      assert (Hy : In y (ids doc)).
      { apply lookup_some_iff. rewrite L. discriminate. }
      assert (Ny : y <> nid doc).
      { intros E. assert (E' : y = nid doc').
        { rewrite D. rewrite nid_replace; trivial. }
        rewrite E' in HQ'. rewrite (root_no_parent doc' ND') in HQ'.
        discriminate. }
      destruct (has_parent doc y Hy Ny) as (Q & HQ).
      destruct (Frame y Q Fy N HQ) as [HQ1 _]. congruence. }
  split; [|split; [exact Fx' | split; [exact Frame | exact Back]]].
  repeat split.
  - intros m' Hm' Fm'. destruct (Org m' Hm' Fm') as (m & Hm & _ & S).
    rewrite (error_same _ _ S). apply T2; trivial.
    rewrite <- (is_field_same _ _ S). exact Fm'.
  - intros m' a b Hm' Ha Hb Ma Mb.
    assert (Fm' : is_field (data m') = true)
      by (eapply is_field_matches; eassumption).
    destruct (Org m' Hm' Fm') as (m & Hm & _ & S).
    apply (T3 m a b); trivial.
    + rewrite <- (matches_field_same _ _ a Ha S). exact Ma.
    + rewrite <- (matches_field_same _ _ b Hb S). exact Mb.
  - intros y Q' Fy HQ'.
    destruct (Par y Q' Fy HQ') as [(-> & ->) | (N & Fy0 & HQ)]; [exact LC|].
    exact (T4 y Q' Fy0 HQ).
  - intros y1 y2 Q1 Q2 F1 F2 N H1 H2 i Hi1 Hi2.
    destruct (Par y1 Q1 F1 H1) as [(-> & ->) | (N1 & F10 & H10)];
      destruct (Par y2 Q2 F2 H2) as [(-> & ->) | (N2 & F20 & H20)].
    + congruence.
    + destruct (IC i Hi1) as [Hi | ->].
      * exact (T1 x y2 P Q2 Fx F20 (not_eq_sym N2) HP H20 i Hi Hi2).
      * apply Hfr. apply parentElement_in in H20 as [HQ _].
        eapply ids_subtree; eassumption.
    + destruct (IC i Hi2) as [Hi | ->].
      * exact (T1 x y1 P Q1 Fx F10 (not_eq_sym N1) HP H10 i Hi Hi1).
      * apply Hfr. apply parentElement_in in H10 as [HQ _].
        eapply ids_subtree; eassumption.
    + exact (T1 y1 y2 Q1 Q2 F10 F20 N H10 H20 i Hi1 Hi2).
Qed.

(** [validateField] on an element a declared field finds, on a tidy
    page. *)
Lemma validateField_tidy form w F name f n :
  well_formed w -> lookup form (document w) = Some F ->
  In (name, f) fields -> querySelector (selector f) F = Some n ->
  Tidy (document w) ->
  exists ok w1 C,
    validateField form (nid n) w = Some (ok, w1) /\
    well_formed w1 /\ In form (ids (document w1)) /\
    lookup (nid n) (document w) = Some n /\
    Tidy (document w1) /\ field_id (document w1) (nid n) /\
    parentElement (nid n) (document w1) = Some C /\
    marker (nid n) ok f C /\
    (forall y Q, field_id (document w) y -> y <> nid n ->
       parentElement y (document w) = Some Q ->
       parentElement y (document w1) = Some Q /\ field_id (document w1) y) /\
    (forall y m', lookup y (document w1) = Some m' ->
       is_field (data m') = true ->
       exists m, lookup y (document w) = Some m /\
                 same_but_error_class (data m) (data m')).
Proof.
  intros WF HF Hf Q T. pose proof WF as [ND B].
  destruct (validateField_ok form w F name f n WF HF Hf Q)
    as (ok & w1 & tr & E & WF1 & Hform1 & _ & _ & _ & _ & _ & _ & _ & _ & K
        & M).
  destruct (governing fields F (nid n)) as [g|] eqn:G;
    [|exfalso; eapply governing_some; eassumption].
  destruct (governed_element w form F (nid n) g WF HF G)
    as (n0 & P & Hn0 & HP & _).
  pose proof Q as Q'. apply querySelector_in in Q' as [Qin Mn].
  pose proof HF as HF'. apply lookup_in in HF' as [HFin _].
  assert (Hn : lookup (nid n) (document w) = Some n).
  { apply lookup_spec; trivial. split; [|reflexivity].
    eapply subtrees_trans; [apply descendants_in_subtrees|]; eassumption. }
  assert (n0 = n) by congruence. subst n0.
  assert (Fx : field_id (document w) (nid n)).
  { exists n. split; [exact Hn|]. eapply is_field_matches; eassumption. }
  assert (Eg : g = f).
  { destruct (governing_entry _ _ _ _ G) as (name' & n' & Hg & Qg & En').
    apply querySelector_in in Qg as [Qgin Mg].
    assert (n' = n).
    { apply (same_id_same_node (document w) ND); trivial;
        eapply subtrees_trans;
        try (apply descendants_in_subtrees; eassumption); eassumption. }
    subst n'. pose proof T as (_ & T3 & _).
    assert (H : (name', g) = (name, f)).
    { apply (T3 n); trivial.
      eapply subtrees_trans; [apply descendants_in_subtrees|]; eassumption. }
    congruence. }
  subst g.
  pose proof T as (T2 & _ & T4 & _).
  assert (L : List.length (error_nodes P) <= 1) by exact (T4 _ _ Fx HP).
  assert (HPin : In P (subtrees (document w)))
    by (apply parentElement_in in HP; tauto).
  assert (HPk : has_kid (nid n) P = true)
    by (apply parentElement_in in HP; tauto).
  assert (Hfr : ~ In (fresh w) (ids (document w)))
    by (eapply bound_not_in; [eassumption | lia]).
  pose proof E as E0.
  rewrite (validateField_eq form (nid n) w F HF), G in E.
  set (v := value (data n)) in *.
  set (w0 := logged w [CallValidateField (nid n)]) in *.
  destruct (first_failing v (rules f))
    as [Hp | (pre & r & post & Er & Hp & Hr)].
  - rewrite (check_rules_pass (nid n) (message f) v n) in E; trivial.
    set (w2 := logged w0 _) in *.
    assert (WF2 : well_formed w2) by exact WF.
    destruct (clearError_ok (nid n) w2 P WF2 HP)
      as (w' & E' & _ & D & In' & _).
    unfold bind in E. rewrite E' in E. injection E as <- <-.
    assert (HC : parentElement (nid n) (document w')
                 = Some (unmark (nid n) P)).
    { apply parentElement_spec; [exact (proj1 WF1)|]. split; [exact In'|].
      apply unmark_has_kid; trivial.
      intros X HX EX. apply filter_In in HX as [HX MX].
      assert (X = n).
      { apply (same_id_same_node (document w) ND); trivial.
        - eapply subtrees_trans; [apply descendants_in_subtrees|]; eassumption.
        - apply lookup_in in Hn. tauto. }
      subst X. destruct Fx as (m & Lm & Fm).
      assert (m = n) by congruence. subst m.
      rewrite (T2 n) in MX; [discriminate | | exact Fm].
      apply lookup_in in Hn. tauto. }
    exists true, w', (unmark (nid n) P).
    split; [exact E0|]. split; [exact WF1|]. split; [exact Hform1|].
    split; [exact Hn|].
    destruct (Tidy_step (document w) (document w') (nid n) (fresh w) P
                (unmark (nid n) P)) as (T' & Fx' & Fr & Bk);
      trivial.
    + exact (proj1 WF1).
    + apply unmark_nid.
    + intros i Hi. left. apply (unmark_ids (nid n) P). exact Hi.
    + rewrite (unmark_error_nodes (nid n) P L). simpl. lia.
    + split; [exact T'|]. split; [exact Fx'|]. split; [exact HC|].
      split; [|split; assumption].
      split.
      * rewrite <- (has_error_class_in_container (document w') _ _
                      (proj1 WF1) HC). exact M.
      * apply unmark_error_nodes. exact L.
  - rewrite Er in E.
    rewrite (check_rules_fail (nid n) (message f) v n) in E; trivial.
    set (w2 := logged w0 _) in *.
    assert (WF2 : well_formed w2) by exact WF.
    destruct (showError_ok (nid n) (message f) w2 P WF2 HP)
      as (w' & E' & _ & D & HC & _).
    unfold bind in E. rewrite E' in E. injection E as <- <-.
    change (fresh w2) with (fresh w) in *.
    change (document w2) with (document w) in *.
    exists false, w', (mark (nid n) (message f) (fresh w) P).
    split; [exact E0|]. split; [exact WF1|]. split; [exact Hform1|].
    split; [exact Hn|].
    pose proof (mark_error_nodes (nid n) (message f) (fresh w) P L) as EN.
    cbv zeta in EN.
    destruct (Tidy_step (document w) (document w') (nid n) (fresh w) P
                (mark (nid n) (message f) (fresh w) P)) as (T' & Fx' & Fr & Bk);
      trivial.
    + exact (proj1 WF1).
    + apply mark_nid.
    + intros i Hi. apply mark_ids in Hi as [Hi | [-> _]]; auto.
    + rewrite EN. simpl. lia.
    + split; [exact T'|]. split; [exact Fx'|]. split; [exact HC|].
      split; [|split; assumption].
      split.
      * rewrite <- (has_error_class_in_container (document w') _ _
                      (proj1 WF1) HC). exact M.
      * destruct (mark_last_child (nid n) (message f) (fresh w) P)
          as (ks & Ek & _ & TX & _).
        eexists ks, _. split; [exact Ek|]. split; [exact EN | exact TX].
Qed.

(** The loop of [handleSubmit] on a tidy page: every field validated
    ends with the marker its result asks for, in a container no later
    validation touches. *)
Lemma validates_marks form : forall fs w rs w',
  validates form fs w rs w' ->
  incl fs fields -> NoDup fs ->
  well_formed w -> In form (ids (document w)) -> Tidy (document w) ->
  well_formed w' /\ Tidy (document w') /\
  (forall y, In y (map fst rs) ->
     exists name f m, In (name, f) fs /\ lookup y (document w) = Some m /\
                      matches (selector f) (data m) = true) /\
  (forall y Q, field_id (document w) y -> ~ In y (map fst rs) ->
     parentElement y (document w) = Some Q ->
     parentElement y (document w') = Some Q /\ field_id (document w') y) /\
  (forall x ok, In (x, ok) rs ->
     exists name f m C, In (name, f) fs /\ lookup x (document w) = Some m /\
       matches (selector f) (data m) = true /\
       parentElement x (document w') = Some C /\ marker x ok f C).
Proof.
  induction 1 as [w | name f fs w rs w' Hq Hv IH
                  | name f fs w n ok w1 rs w' Hq Hval Hv IH];
    intros Hincl NDfs WF Hform T.
  - split; [exact WF|]. split; [exact T|]. split; [intros y []|].
    split; [auto | intros x ok []].
  - assert (Hincl' : incl fs fields)
      by (intros x Hx; apply Hincl; simpl; auto).
    inversion NDfs as [|? ? _ NDfs']; subst.
    destruct (IH Hincl' NDfs' WF Hform T) as (A & B & C & D & E).
    split; [exact A|]. split; [exact B|]. split; [|split; [exact D|]].
    + intros y Hy. destruct (C y Hy) as (name' & f' & m & H1 & H2).
      exists name', f', m. simpl. auto.
    + intros x ok Hx. destruct (E x ok Hx) as (name' & f' & m & C' & H1 & H2).
      exists name', f', m, C'. simpl. auto.
  - assert (Hincl' : incl fs fields)
      by (intros x Hx; apply Hincl; simpl; auto).
    assert (Hf : In (name, f) fields) by (apply Hincl; simpl; auto).
    inversion NDfs as [|? ? Nf NDfs']; subst.
    destruct (lookup_present form _ Hform) as (F & HF).
    rewrite (form_querySelector_eq form (selector f) w F HF) in Hq.
    injection Hq as Hq.
    destruct (validateField_tidy form w F name f n WF HF Hf Hq T)
      as (ok' & w1' & C & E & WF1 & Hform1 & Hn & T1 & Fx1 & HC & Mk & Fr & Bk).
    rewrite Hval in E. injection E as <- <-.
    destruct (IH Hincl' NDfs' WF1 Hform1 T1) as (A & B & Cl & D & Ev).
    pose proof (querySelector_in _ _ _ Hq) as [_ Mn].
    assert (Back : forall y name' f' m1,
              In (name', f') fs -> lookup y (document w1) = Some m1 ->
              matches (selector f') (data m1) = true ->
              exists m, lookup y (document w) = Some m /\
                        matches (selector f') (data m) = true).
    { intros y name' f' m1 Hin L1 M1.
      assert (F1 : is_field (data m1) = true).
      { apply (is_field_matches _ (name', f')); auto. }
      destruct (Bk y m1 L1 F1) as (m & L & S).
      exists m. split; [exact L|].
      pose proof (matches_field_same _ _ (name', f') (Hincl' _ Hin) S) as R.
      cbn [snd] in R. rewrite <- R. exact M1. }
    assert (Nin : ~ In (nid n) (map fst rs)).
    { intros Hin. destruct (Cl _ Hin) as (name' & f' & m1 & H1 & L1 & M1).
      destruct (Back _ _ _ _ H1 L1 M1) as (m & L & M).
      assert (m = n) by congruence. subst m.
      destruct T as (_ & T3 & _).
      assert (Eq : (name', f') = (name, f)).
      { apply (T3 n); auto. apply lookup_in in Hn. tauto. }
      apply Nf. rewrite <- Eq. exact H1. }
    split; [exact A|]. split; [exact B|]. split; [|split].
    + intros y [<- | Hy].
      * exists name, f, n. simpl. auto.
      * destruct (Cl y Hy) as (name' & f' & m1 & H1 & L1 & M1).
        destruct (Back _ _ _ _ H1 L1 M1) as (m & L & M).
        exists name', f', m. simpl. auto.
    + intros y Q Fy Ny HQ. simpl in Ny.
      destruct (Fr y Q Fy) as (HQ1 & Fy1); auto.
    + intros x ok' [[= <- <-] | Hx].
      * exists name, f, n, C.
        destruct (D (nid n) C Fx1 Nin HC) as (HC' & _).
        simpl. auto 6.
      * destruct (Ev x ok' Hx) as (name' & f' & m1 & C' & H1 & L1 & M1 & R).
        destruct (Back _ _ _ _ H1 L1 M1) as (m & L & M).
        exists name', f', m, C'. simpl. auto 6.
Qed.

(** What [handleSubmit] leaves on a tidy page. *)
Lemma handleSubmit_marks form w rs w1 :
  validates form fields (logged w [CallHandleSubmit]) rs w1 ->
  well_formed w -> In form (ids (document w)) ->
  tidy (document w) = true ->
  forall x ok, In (x, ok) rs ->
    exists name f m C,
      In (name, f) fields /\ lookup x (document w) = Some m /\
      matches (selector f) (data m) = true /\
      has_error_class x (document w1) = negb ok /\
      parentElement x (document w1) = Some C /\
      if ok then error_nodes C = []
      else exists ks X, kids C = ks ++ [X] /\ error_nodes C = [X] /\
                        textContent (data X) = message f.
Proof.
  intros Hv WF Hform T x ok Hx.
  assert (WF0 : well_formed (logged w [CallHandleSubmit])) by exact WF.
  destruct (validates_marks form fields _ rs w1 Hv (incl_refl _) NoDup_fields
              WF0 Hform (tidy_spec _ (proj1 WF) T))
    as (WF1 & _ & _ & _ & E).
  destruct (E x ok Hx) as (name & f & m & C & H1 & H2 & H3 & H4 & H5 & H6).
  exists name, f, m, C. split; [exact H1|]. split; [exact H2|].
  split; [exact H3|]. split; [|split; [exact H4 | exact H6]].
  rewrite (has_error_class_in_container _ C x (proj1 WF1) H4). exact H5.
Qed.

(** C1.  On a page whose identities are distinct and where the bound
    form exists, [handleSubmit] always prevents the default action; it
    validates every declared field whose element is present, in the
    order of declaration and whatever the earlier fields reported; it
    runs [submitForm] exactly when every validated field reported
    valid.  [showError] is called on the fields that reported invalid
    and on no other, and an element carries the error class afterwards
    only if it did before or reported invalid.  Where the fields have a
    container each ([tidy]) the markers are what the results ask for: a
    field that reported invalid carries the error class and its
    container ends with an error-message node, the only one it holds,
    with the message of the field's descriptor; a field that reported
    valid does not carry the class and its container holds no
    error-message node.  When some field reported invalid,
    [submitForm] is not called, no timer is set, every banner on the
    page was there before and no element that was on the page changed
    its value. *)
Theorem handleSubmit_spec (form : nat) (e : event) (w : world) :
  well_formed w ->
  In form (ids (document w)) ->
  exists rs w1 tr,
    validates form fields (logged w [CallHandleSubmit]) rs w1 /\
    calls w1 = calls w ++ CallHandleSubmit :: tr /\
    validated tr = map fst rs /\
    shown tr = invalid rs /\
    (forall x, has_error_class x (document w1) = true ->
               has_error_class x (document w) = true \/ In x (invalid rs)) /\
    (tidy (document w) = true ->
     forall x ok, In (x, ok) rs ->
       exists name f m C,
         In (name, f) fields /\ lookup x (document w) = Some m /\
         matches (selector f) (data m) = true /\
         has_error_class x (document w1) = negb ok /\
         parentElement x (document w1) = Some C /\
         if ok then error_nodes C = []
         else exists ks X, kids C = ks ++ [X] /\ error_nodes C = [X] /\
                           textContent (data X) = message f) /\
    (forallb snd rs = true ->
     exists w',
       submitForm form w1 = Some (tt, w') /\
       handleSubmit form e w = Some (mkEvent true, w') /\
       calls w' = calls w1 ++ [CallSubmitForm]) /\
    (forallb snd rs = false ->
     handleSubmit form e w = Some (mkEvent true, w1) /\
     existsb is_submitForm tr = false /\
     timers w1 = timers w /\
     (forall b, In b (banners (document w1)) ->
                exists b0, In b0 (banners (document w)) /\ nid b0 = nid b) /\
     (forall m', In m' (subtrees (document w1)) -> nid m' < fresh w ->
                 exists m, In m (subtrees (document w)) /\ nid m = nid m' /\
                           value (data m') = value (data m))).
Proof.
  intros WF Hform.
  set (w0 := logged w [CallHandleSubmit]).
  assert (WF0 : well_formed w0) by exact WF.
  destruct (validate_all_ok form fields (incl_refl _) w0 true WF0 Hform)
    as (rs & w1 & tr & Hv & E & WF1 & Hform1 & Ts & Ls & Ck & Fr & C
        & V & S & X & M & O).
  exists rs, w1, tr.
  split; [exact Hv|]. split.
  { rewrite C. unfold w0. simpl. rewrite <- app_assoc. reflexivity. }
  split; [exact V|]. split; [exact S|]. split; [exact M|].
  split; [exact (handleSubmit_marks form w rs w1 Hv WF Hform)|].
  assert (HS : handleSubmit form e w
               = (isValid <- validate_all fields form true ;;
                  if isValid then submitForm form ;;; ret (mkEvent true)
                  else ret (mkEvent true)) w0) by reflexivity.
  assert (HS' : handleSubmit form e w
                = if forallb snd rs
                  then (submitForm form ;;; ret (mkEvent true)) w1
                  else Some (mkEvent true, w1)).
  { rewrite HS. unfold bind at 1. rewrite E.
    change (true && forallb snd rs) with (forallb snd rs).
    destruct (forallb snd rs); reflexivity. }
  rewrite HS'. clear HS HS'. split.
  - intros A. rewrite A.
    destruct (lookup_present form _ Hform1) as (F1 & HF1).
    rewrite (submitForm_eq form w1 F1 HF1).
    eexists. split; [reflexivity|]. unfold bind.
    rewrite (submitForm_eq form w1 F1 HF1). split; reflexivity.
  - intros A. rewrite A. split; [reflexivity|]. split; [exact X|].
    split; [exact Ts|]. split.
    + intros b Hb. apply filter_In in Hb as [Hb Mb].
      rewrite matches_success in Mb.
      destruct (O b Hb) as [(m & Hm & En & Sm) | (_ & Sm)].
      * exists m. split; [|exact En]. apply filter_In. split; [exact Hm|].
        rewrite matches_success.
        destruct Sm as (_ & _ & _ & _ & Sc).
        rewrite <- Sc; [exact Mb | discriminate].
      * destruct Sm as (_ & _ & _ & _ & Sc).
        rewrite Sc in Mb; [discriminate Mb | discriminate].
    + intros m' Hm' Hlt.
      destruct (O m' Hm') as [(m & Hm & En & Sm) | (B & _)].
      * exists m. split; [exact Hm|]. split; [exact En|].
        destruct Sm as (_ & _ & Sv & _). exact Sv.
      * unfold w0 in B. simpl in B. lia.
Qed.

(** ** The constructor *)

Lemma with_listeners_nil w : with_listeners w [] = w.
Proof. unfold with_listeners. rewrite app_nil_r. destruct w; reflexivity. Qed.

Lemma with_listeners_app w a b :
  with_listeners (with_listeners w a) b = with_listeners w (a ++ b).
Proof. unfold with_listeners. simpl. rewrite app_assoc. reflexivity. Qed.

Lemma init_fields_eq form F : forall fs w,
  lookup form (document w) = Some F ->
  init_fields fs form w
  = Some (tt, with_listeners w (field_listeners fs form F)).
Proof.
  induction fs as [|[name f] fs IH]; intros w HF; simpl.
  - rewrite with_listeners_nil. reflexivity.
  - unfold bind at 1. rewrite (form_querySelector_eq form _ w F HF).
    destruct (querySelector (selector f) F) as [n|]; [|apply IH; exact HF].
    unfold bind, addEventListener. rewrite IH by exact HF.
    unfold with_listeners. simpl. rewrite <- !app_assoc. reflexivity.
Qed.

Lemma document_querySelector_lookup s doc F :
  NoDup (ids doc) -> document_querySelector s doc = Some F ->
  lookup (nid F) doc = Some F.
Proof.
  intros ND H. apply find_some in H as [H _].
  apply lookup_spec; auto.
Qed.

(** What the constructor does. *)
Lemma new_FormValidator_eq formSelector w :
  NoDup (ids (document w)) ->
  new_FormValidator formSelector w
  = match document_querySelector formSelector (document w) with
    | None => Some (mkFormValidator None, w)
    | Some F =>
        Some (mkFormValidator (Some (nid F)),
              with_listeners w
                (field_listeners fields (nid F) F
                 ++ [(nid F, Submit, OnSubmit (nid F))]))
    end.
Proof.
  intros ND. unfold new_FormValidator, bind, get_document.
  destruct (document_querySelector formSelector (document w)) as [F|] eqn:Q;
    [|reflexivity].
  unfold init, bind.
  rewrite (init_fields_eq (nid F) F fields w)
    by (eapply document_querySelector_lookup; eassumption).
  unfold addEventListener, ret, with_listeners. simpl.
  rewrite <- !app_assoc. reflexivity.
Qed.

(** C3, the code at work.  [new] always gives an object and an object
    is truthy, so of the three lookups only the first is ever made:
    [contactForm] is the validator for [form[name="contact"]], and on a
    page without such a form it is inert - no listener is attached and
    the world is as it was - whatever other forms the page holds. *)
Theorem contactForm_first_only (w : world) :
  contactForm w = new_FormValidator sel_contact_name w /\
  (document_querySelector sel_contact_name (document w) = None ->
   contactForm w = Some (mkFormValidator None, w)).
Proof.
  assert (E : contactForm w = new_FormValidator sel_contact_name w).
  { unfold contactForm, or_else, bind.
    destruct (new_FormValidator sel_contact_name w) as [[v w']|]; reflexivity. }
  split; [exact E|]. intros H. rewrite E.
  unfold new_FormValidator, bind, get_document. rewrite H. reflexivity.
Qed.

(** ** The input listener *)

Lemma handlers_of_app target ev a b :
  handlers_of target ev (a ++ b)
  = handlers_of target ev a ++ handlers_of target ev b.
Proof. unfold handlers_of. rewrite filter_app, map_app. reflexivity. Qed.

(** The input listeners [init] attaches to an element are all
    [clearError] on that element. *)
Lemma handlers_of_field_listeners form F element : forall fs,
  exists k, handlers_of element Input (field_listeners fs form F)
            = repeat (OnInput form element) k.
Proof.
  induction fs as [|[name f] fs (k & IH)]; simpl; [exists 0; reflexivity|].
  destruct (querySelector (selector f) F) as [n|]; [|eauto].
  unfold handlers_of in *. simpl. rewrite andb_false_r.
  destruct (nid n =? element) eqn:E; simpl.
  - apply Nat.eqb_eq in E. subst element. exists (S k). simpl.
    rewrite IH. reflexivity.
  - eauto.
Qed.

Lemma handlers_of_field_present form F element name f n : forall fs,
  In (name, f) fs -> querySelector (selector f) F = Some n ->
  nid n = element ->
  exists k, handlers_of element Input (field_listeners fs form F)
            = repeat (OnInput form element) (S k).
Proof.
  induction fs as [|[name' g] fs IH]; simpl; [tauto|].
  intros [[= -> ->] | Hin] Q E.
  - rewrite Q. destruct (handlers_of_field_listeners form F element fs)
      as (k & Hk).
    exists k. unfold handlers_of in *. simpl. rewrite andb_false_r.
    rewrite E, Nat.eqb_refl. simpl. rewrite Hk. reflexivity.
  - destruct (IH Hin Q E) as (k & Hk).
    destruct (querySelector (selector g) F) as [n'|]; [|eauto].
    unfold handlers_of in *. simpl. rewrite andb_false_r.
    destruct (nid n' =? element) eqn:E'; simpl.
    + apply Nat.eqb_eq in E'. exists (S k). rewrite Hk, E'. reflexivity.
    + eauto.
Qed.

Lemma kept_all_refl doc : kept_all doc doc.
Proof.
  intros m' H. exists m'. split; [exact H|]. split; [reflexivity|].
  apply same_refl.
Qed.

Lemma kept_all_trans a b c : kept_all a b -> kept_all b c -> kept_all a c.
Proof.
  intros H1 H2 m' Hm'. destruct (H2 m' Hm') as (m & Hm & E & S).
  destruct (H1 m Hm) as (m0 & H0 & E0 & S0).
  exists m0. split; [exact H0|]. split; [congruence|].
  eapply same_trans; eassumption.
Qed.

Lemma clearError_kept_all element w P w' :
  well_formed w -> parentElement element (document w) = Some P ->
  clearError element w = Some (tt, w') ->
  kept_all (document w) (document w').
Proof.
  intros WF HP E m' Hm'.
  destruct (clearError_ok element w P WF HP) as (w1 & E1 & _ & D & _).
  rewrite E in E1. injection E1 as <-. rewrite D in Hm'.
  apply parentElement_in in HP as [HPin _].
  destruct (replace_label _ P _ m' (proj1 WF) HPin Hm')
    as [(m & Hm & El) | (m & Hm & El)].
  - rewrite <- (label_nid _ _ El), <- (label_data _ _ El).
    destruct (unmark_origin element P m Hm) as (m0 & H0 & E0 & S0 & _).
    exists m0. split; [eapply subtrees_trans; eassumption|].
    split; [exact E0 | exact S0].
  - exists m. rewrite <- (label_nid _ _ El), <- (label_data _ _ El).
    split; [exact Hm|]. split; [reflexivity | apply same_refl].
Qed.

(** [clearError] any number of times, one at least, on a field whose
    container holds at most one error-message node that is not the
    field. *)
Lemma clearError_many form element : forall k w P,
  well_formed w -> parentElement element (document w) = Some P ->
  List.length (error_nodes P) <= 1 ->
  (forall X, In X (error_nodes P) -> nid X <> element) ->
  exists w',
    run_handlers (repeat (OnInput form element) (S k)) w = Some (tt, w') /\
    well_formed w' /\
    calls w' = calls w ++ repeat (CallClearError element) (S k) /\
    listeners w' = listeners w /\ timers w' = timers w /\
    has_error_class element (document w') = false /\
    parentElement element (document w') = Some (unmark element P) /\
    error_nodes (unmark element P) = [] /\
    kept_all (document w) (document w').
Proof.
  induction k as [|k IH]; intros w P WF HP L N.
  - destruct (clearError_ok element w P WF HP)
      as (w' & E & WF' & D & In' & _ & Ls & Ts & _ & C).
    exists w'. simpl. unfold bind. rewrite E.
    split; [reflexivity|]. split; [exact WF'|]. split; [exact C|].
    split; [exact Ls|]. split; [exact Ts|]. split.
    { exact (has_error_class_after_clearError element w P w' WF HP E). }
    split.
    { apply parentElement_spec; [exact (proj1 WF')|]. split; [exact In'|].
      apply unmark_has_kid; trivial.
      apply parentElement_in in HP. tauto. }
    split; [apply unmark_error_nodes; exact L|].
    exact (clearError_kept_all element w P w' WF HP E).
  - destruct (clearError_ok element w P WF HP)
      as (w1 & E & WF1 & D & In1 & _ & Ls & Ts & _ & C).
    assert (HP1 : parentElement element (document w1)
                  = Some (unmark element P)).
    { apply parentElement_spec; [exact (proj1 WF1)|]. split; [exact In1|].
      apply unmark_has_kid; trivial.
      apply parentElement_in in HP. tauto. }
    pose proof (unmark_error_nodes element P L) as EN.
    destruct (IH w1 (unmark element P) WF1 HP1) as
        (w' & E' & WF' & C' & Ls' & Ts' & H' & HP' & EN' & K').
    { rewrite EN. simpl. lia. }
    { rewrite EN. intros X []. }
    exists w'. change (repeat (OnInput form element) (S (S k)))
      with (OnInput form element :: repeat (OnInput form element) (S k)).
    cbn [run_handlers run_handler]. unfold bind at 1. rewrite E.
    split; [exact E'|]. split; [exact WF'|]. split.
    { rewrite C', C. rewrite <- app_assoc. reflexivity. }
    split; [congruence|]. split; [congruence|]. split; [exact H'|].
    rewrite (unmark_again element P L) in HP'.
    split; [exact HP'|]. split; [exact EN|].
    eapply kept_all_trans; [|exact K'].
    exact (clearError_kept_all element w P w1 WF HP E).
Qed.

Lemma checked_repeat_clear element k :
  checked (repeat (CallClearError element) k) = [].
Proof. induction k; simpl; trivial. Qed.

(** C9, where the code keeps it.  The input listeners the constructor
    attaches to a declared field are [clearError] on that field and
    nothing else.  When the input event fires on a page whose
    identities are distinct, for a field whose container holds at most
    one error-message node, other than the field itself: the handler
    returns, no rule is evaluated, the value of the field is what it
    was - valid or not - and afterwards the field does not carry the
    error class and its container holds no error-message node. *)
Theorem input_clears (formSelector : compound) (w0 w : world) (form : nat)
        (F n : node) (name : string) (f : field) :
  NoDup (ids (document w0)) ->
  listeners w0 = [] ->
  new_FormValidator formSelector w0 = Some (mkFormValidator (Some form), w) ->
  lookup form (document w0) = Some F ->
  In (name, f) fields ->
  querySelector (selector f) F = Some n ->
  (exists k, handlers_of (nid n) Input (listeners w)
             = repeat (OnInput form (nid n)) (S k)) /\
  forall w' P,
    listeners w' = listeners w ->
    well_formed w' ->
    parentElement (nid n) (document w') = Some P ->
    List.length (error_nodes P) <= 1 ->
    (forall X, In X (error_nodes P) -> nid X <> nid n) ->
    exists w'' P' tr,
      dispatch (nid n) Input w' = Some (tt, w'') /\
      calls w'' = calls w' ++ tr /\ checked tr = [] /\
      has_error_class (nid n) (document w'') = false /\
      parentElement (nid n) (document w'') = Some P' /\
      error_nodes P' = [] /\
      (forall m', lookup (nid n) (document w'') = Some m' ->
         exists m, lookup (nid n) (document w') = Some m /\
                   value (data m') = value (data m)).
Proof.
  intros ND L0 Hnew HF Hf Q.
  rewrite (new_FormValidator_eq formSelector w0 ND) in Hnew.
  destruct (document_querySelector formSelector (document w0)) as [F'|] eqn:QF;
    [|discriminate].
  injection Hnew as Eform Ew.
  assert (F' = F).
  { pose proof (document_querySelector_lookup _ _ _ ND QF) as H.
    rewrite Eform, HF in H. congruence. }
  subst F'.
  assert (Hk : exists k, handlers_of (nid n) Input (listeners w)
                         = repeat (OnInput form (nid n)) (S k)).
  { assert (EL : listeners w
                 = field_listeners fields (nid F) F
                   ++ [(nid F, Submit, OnSubmit (nid F))]).
    { rewrite <- Ew. unfold with_listeners. cbn [listeners].
      rewrite L0. reflexivity. }
    rewrite EL, handlers_of_app.
    destruct (handlers_of_field_present (nid F) F (nid n) name f n fields
                Hf Q eq_refl) as (k & Hk).
    exists k. rewrite Hk, Eform. unfold handlers_of. cbn [filter fst snd].
    rewrite andb_false_r. apply app_nil_r. }
  split; [exact Hk|].
  intros w' P Ls WF HP L N. destruct Hk as (k & Hk).
  destruct (clearError_many form (nid n) k w' P WF HP L N)
    as (w'' & E & WF'' & C & _ & _ & H & HP'' & EN & K).
  exists w'', (unmark (nid n) P), (repeat (CallClearError (nid n)) (S k)).
  split; [unfold dispatch; rewrite Ls, Hk; exact E|].
  split; [exact C|]. split; [apply checked_repeat_clear|].
  split; [exact H|]. split; [exact HP''|]. split; [exact EN|].
  intros m' Hm'. apply lookup_in in Hm' as [Hm' Em'].
  destruct (K m' Hm') as (m & Hm & En & S).
  exists m. split.
  - apply lookup_spec; [exact (proj1 WF)|]. split; congruence.
  - destruct S as (_ & _ & Sv & _). exact Sv.
Qed.

(** ** The success sequence *)

Lemma at_node_focus g root F :
  NoDup (ids root) -> In F (subtrees root) ->
  at_node (nid F) g root = replace (nid F) (g F) root.
Proof.
  intros ND HF.
  assert (E : at_node (nid F) g F = g F).
  { destruct F as [j e ks]. simpl. rewrite Nat.eqb_refl. reflexivity. }
  rewrite <- E. apply (focus (at_node (nid F) g) F); trivial.
  - intros n H. apply at_node_frame. intros Hn.
    exact (H _ Hn (ids_self F)).
  - intros j e ks NDj HFj. simpl.
    assert (N : j <> nid F).
    { intros ->. eapply (NoDup_root_not_below _ e ks F); eauto. }
    apply Nat.eqb_neq in N. rewrite N. reflexivity.
Qed.

Lemma lookup_update i b f doc :
  lookup i (update b f doc) = option_map (update b f) (lookup i doc).
Proof.
  unfold lookup. rewrite subtrees_update, find_map. f_equal.
  apply find_ext. intros a. rewrite nid_update. reflexivity.
Qed.









Lemma banners_nodes doc :
  List.length (banners doc)
  = List.length (filter (fun x => matches success_selector (snd x))
                   (nodes doc)).
Proof.
  unfold banners, nodes. rewrite filter_map_comm, length_map. reflexivity.
Qed.

Lemma nodes_add_first B F :
  kids B = [] ->
  nodes (add_first B F) = label F :: label B :: flat_map nodes (kids F).
Proof.
  intros H. destruct F as [j e ks], B as [b eb kb]. simpl in H. subst kb.
  unfold add_first. rewrite nodes_Node. cbn [flat_map].
  rewrite nodes_Node. reflexivity.
Qed.

Lemma insertFirst_focus form B doc F :
  NoDup (ids doc) -> lookup form doc = Some F ->
  insertFirst form B doc = replace form (add_first B F) doc.
Proof.
  intros ND HF. apply lookup_in in HF as [HFin <-].
  apply at_node_focus; assumption.
Qed.

(** Exactly one banner more. *)
Lemma banners_insertFirst form b doc F :
  NoDup (ids doc) -> lookup form doc = Some F ->
  List.length (banners (insertFirst form (Node b success_element []) doc))
  = S (List.length (banners doc)).
Proof.
  intros ND HF. rewrite (insertFirst_focus form _ doc F ND HF).
  apply lookup_in in HF as [HFin <-].
  destruct (nodes_replace doc F ND HFin) as (pre & post & E1 & E2).
  rewrite !banners_nodes, E2, E1, nodes_add_first by reflexivity.
  destruct F as [j e ks]. rewrite nodes_Node.
  rewrite !filter_app, !length_app. simpl.
  destruct (matches success_selector e); simpl; lia.
Qed.

(** *** The timers *)

Lemma run_timers_idle fuel limit w :
  next_due limit (timers w) = None ->
  run_timers fuel limit w = set_clock limit w.
Proof. intros H. destruct fuel; simpl; rewrite H; reflexivity. Qed.

Lemma run_timers_step fuel limit w due t :
  next_due limit (timers w) = Some (due, t) ->
  run_timers (S fuel) limit w
  = (set_timers (cancel (due, t) (timers w)) ;;;
     set_clock (Nat.max due (clock w)) ;;;
     run_task t ;;;
     run_timers fuel limit) w.
Proof. intros H. simpl. rewrite H. reflexivity. Qed.


Lemma task_eqb_refl t : task_eqb t t = true.
Proof. destruct t; simpl; rewrite ?Nat.eqb_refl; reflexivity. Qed.


(** No timer that is due stays behind: the fuel [advance] takes is
    enough. *)
Lemma weight_cancel x l :
  In x l -> weight (cancel x l) + weight [x] = weight l.
Proof.
  unfold weight. induction l as [|y l IH]; simpl; [tauto|].
  intros Hin.
  destruct ((fst x =? fst y) && task_eqb (snd x) (snd y)) eqn:E.
  - apply andb_true_iff in E as [E1 E2].
    assert (snd x = snd y).
    { destruct (snd x), (snd y); simpl in E2; try discriminate.
      - apply andb_true_iff in E2 as [A B].
        apply Nat.eqb_eq in A, B. congruence.
      - apply Nat.eqb_eq in E2. congruence. }
    rewrite H. lia.
  - simpl. destruct Hin as [-> | Hin].
    + rewrite Nat.eqb_refl, task_eqb_refl in E. discriminate.
    + specialize (IH Hin). simpl in IH. lia.
Qed.

Lemma next_due_in limit l x : next_due limit l = Some x -> In x l.
Proof.
  revert x. induction l as [|[due t] l IH]; simpl; intros x; [discriminate|].
  destruct (next_due limit l) as [[due' t']|].
  - destruct (due <=? due'); intros [= <-]; auto.
  - destruct (due <=? limit); intros [= <-]; auto.
Qed.

Lemma next_due_none limit l :
  next_due limit l = None -> Forall (fun x => limit < fst x) l.
Proof.
  induction l as [|[due t] l IH]; simpl; [constructor|].
  destruct (next_due limit l) as [[due' t']|].
  - destruct (due <=? due'); discriminate.
  - destruct (due <=? limit) eqn:E; [discriminate|].
    intros _. constructor; [|auto]. simpl. apply Nat.leb_gt. assumption.
Qed.

Lemma run_task_weight t w :
  exists w', run_task t w = Some (tt, w') /\
             weight (timers w') + 1 = weight (timers w) + weight [(0, t)].
Proof.
  destruct t as [f b | b]; eexists; (split; [reflexivity|]); simpl.
  - unfold weight. rewrite map_app, list_sum_app. simpl. lia.
  - unfold weight. simpl. lia.
Qed.

Lemma run_timers_total : forall fuel limit w,
  weight (timers w) <= fuel ->
  exists w', run_timers fuel limit w = Some (tt, w') /\
             clock w' = limit /\
             Forall (fun x => limit < fst x) (timers w').
Proof.
  induction fuel as [|fuel IH]; intros limit w Hw.
  - destruct (next_due limit (timers w)) as [[due t]|] eqn:E.
    + exfalso. apply next_due_in in E.
      pose proof (weight_cancel _ _ E) as H.
      assert (0 < weight [(due, t)])
        by (unfold weight; simpl; destruct t; lia).
      lia.
    + rewrite (run_timers_idle 0 limit w E). eexists.
      split; [reflexivity|]. split; [reflexivity|].
      apply next_due_none. exact E.
  - destruct (next_due limit (timers w)) as [[due t]|] eqn:E.
    + rewrite (run_timers_step fuel limit w due t E).
      unfold bind at 1. unfold set_timers. unfold bind at 1. unfold set_clock.
      unfold bind at 1.
      set (wa := mkWorld _ _ _ _ _ _).
      destruct (run_task_weight t wa) as (wb & Eb & Wb). rewrite Eb.
      apply IH. apply next_due_in in E.
      pose proof (weight_cancel _ _ E) as H.
      unfold wa in Wb. simpl in Wb.
      assert (weight [(due, t)] = weight [(0, t)]) by reflexivity.
      lia.
    + rewrite (run_timers_idle (S fuel) limit w E). eexists.
      split; [reflexivity|]. split; [reflexivity|].
      apply next_due_none. exact E.
Qed.

(** [advance] returns, with the clock where it was sent and nothing
    due left behind. *)
Lemma advance_total ms w :
  exists w', advance ms w = Some (tt, w') /\
             clock w' = clock w + ms /\
             Forall (fun x => clock w + ms < fst x) (timers w').
Proof. apply run_timers_total. apply Nat.le_refl. Qed.




(** ** The theorems at work on the pages *)

Lemma contactForm_first_only_witness :
  document_querySelector sel_contact_class (document class_page)
  = Some class_form /\
  contactForm class_page = Some (mkFormValidator None, class_page).
Proof.
  split; [reflexivity|].
  apply (proj2 (contactForm_first_only class_page)). reflexivity.
Defined.

(** On [contact_page] the empty message fails at required; on
    [contact_page_fixed] the email passes its two rules and its marker
    goes. *)
Lemma validateField_spec_witness :
  (exists w',
     validateField 1 7 contact_page = Some (false, w') /\
     calls w'
     = [CallValidateField 7; CallCheckRule [] (js "required");
        CallShowError 7 (js "Message must be at least 10 characters")]) /\
  has_error_class 3 (document contact_page_fixed) = true /\
  (exists P X, parentElement 3 (document contact_page_fixed) = Some P /\
               error_nodes P = [X]) /\
  (exists w' P',
     validateField 1 3 contact_page_fixed = Some (true, w') /\
     has_error_class 3 (document w') = false /\
     parentElement 3 (document w') = Some P' /\ error_nodes P' = []).
Proof.
  split; [|split; [reflexivity|split]].
  - destruct (validateField_spec 1 7 contact_page contact_form
                (mkField (tag_attr "textarea" "name" "message")
                   [js "required"; js "minLength:10"]
                   (js "Message must be at least 10 characters")))
      as (_ & n & Hn & _ & _ & H).
    + apply well_formedb_spec. reflexivity.
    + reflexivity.
    + reflexivity.
    + injection Hn as <-.
      destruct (H eq_refl eq_refl) as (w' & E & C).
      exists w'. split; [exact E | exact C].
  - eexists _, _. split; reflexivity.
  - destruct (lookup 1 (document contact_page_fixed)) as [F|] eqn:HF;
      [|discriminate HF].
    destruct (validateField_spec 1 3 contact_page_fixed F
                (mkField (tag_attr "input" "type" "email")
                   [js "required"; js "email"]
                   (js "Please enter a valid email address")))
      as (_ & n & Hn & _ & H & _).
    + apply well_formedb_spec. reflexivity.
    + exact HF.
    + vm_compute in HF. injection HF as <-. reflexivity.
    + vm_compute in Hn. injection Hn as <-.
      destruct H as (w' & E & _ & Hc & Hm).
      { repeat constructor. }
      destruct (parentElement 3 (document contact_page_fixed)) as [P|] eqn:HP;
        [|discriminate HP].
      destruct (Hm P eq_refl) as (P' & HP' & EN).
      * vm_compute in HP. injection HP as <-. simpl. lia.
      * vm_compute in HP. injection HP as <-.
        intros X [<- | []]. discriminate.
      * exists w', P'. auto.
Defined.

(** The email field of the submitted page carries its message; marking
    it twice more, or clearing it twice, is as the theorem says. *)
Lemma marking_idempotent_witness :
  (exists w1 w2 P' X,
     showError 3 (js "no") contact_page_submitted = Some (tt, w1) /\
     showError 3 (js "no") w1 = Some (tt, w2) /\
     document w2 = document w1 /\
     parentElement 3 (document w2) = Some P' /\
     error_nodes P' = [X] /\ textContent (data X) = js "no") /\
  (exists w1 w2 P',
     clearError 3 contact_page_submitted = Some (tt, w1) /\
     clearError 3 w1 = Some (tt, w2) /\
     document w2 = document w1 /\
     parentElement 3 (document w2) = Some P' /\
     error_nodes P' = []).
Proof.
  destruct (marking_idempotent contact_page_submitted 3 (js "no")
              (Node 2 (plain "div")
                 [Node 3 (classList_add "field-error"
                            (input_element "email" "email" (js "x"))) [];
                  set_textContent
                    (js "Please enter a valid email address")
                    (error_element 8)]))
    as [A B].
  - apply well_formedb_spec. reflexivity.
  - reflexivity.
  - simpl. lia.
  - split; [exact A|]. apply B.
    intros X [<- | []]. discriminate.
Defined.

(** On [contact_page] the email and the message are invalid and the
    name is valid: the two are shown their message and end with their
    marker, the name ends with none, and nothing else happens. *)
Lemma handleSubmit_spec_witness :
  exists w1,
    handleSubmit 1 (mkEvent false) contact_page = Some (mkEvent true, w1) /\
    shown (calls w1) = [3; 7] /\
    validated (calls w1) = [3; 5; 7] /\
    timers w1 = [] /\
    (forall b, ~ In b (banners (document w1))) /\
    (exists C X,
       has_error_class 3 (document w1) = true /\
       parentElement 3 (document w1) = Some C /\ error_nodes C = [X] /\
       textContent (data X) = js "Please enter a valid email address") /\
    (exists C,
       has_error_class 5 (document w1) = false /\
       parentElement 5 (document w1) = Some C /\ error_nodes C = []).
Proof.
  destruct (handleSubmit_spec 1 (mkEvent false) contact_page)
    as (rs & w1 & tr & A & B & C & D & M & Mk & T & F).
  - apply well_formedb_spec. reflexivity.
  - simpl. auto.
  - assert (K : option_map (fun x => (shown (calls (snd x)),
                                      validated (calls (snd x))))
                  (handleSubmit 1 (mkEvent false) contact_page)
                = Some ([3; 7], [3; 5; 7]))
      by (vm_compute; reflexivity).
    destruct (forallb snd rs) eqn:E.
    + destruct (T eq_refl) as (w' & _ & H & Cw).
      rewrite H in K. simpl in K. rewrite Cw, B in K.
      rewrite !shown_app in K. simpl in K.
      rewrite app_nil_r, D in K. unfold invalid in K.
      injection K as K1 K2. rewrite !validated_app in K2. simpl in K2.
      rewrite app_nil_r, C in K2. clear - E K1 K2.
      destruct rs as [|[i1 b1] [|[i2 b2] [|[i3 b3] [|x rs]]]];
        try discriminate K2.
      simpl in E. destruct b1, b2, b3; try discriminate E.
      discriminate K1.
    + destruct (F eq_refl) as (H & _ & Tm & Bn & _).
      rewrite H in K. simpl in K. injection K as K1 K2.
      exists w1. split; [exact H|]. split; [exact K1|].
      split; [exact K2|]. split; [exact Tm|]. split.
      { intros b Hb. destruct (Bn b Hb) as (b0 & [] & _). }
      assert (Ers : rs = [(3, false); (5, true); (7, false)]).
      { rewrite B in K1, K2. simpl in K1, K2. rewrite D in K1.
        rewrite C in K2. unfold invalid in K1. clear - K1 K2.
        destruct rs as [|[i1 b1] [|[i2 b2] [|[i3 b3] [|x rs]]]];
          try discriminate K2.
        simpl in K2. injection K2 as -> -> ->.
        destruct b1, b2, b3; try discriminate K1. reflexivity. }
      subst rs.
      assert (Ty : tidy (document contact_page) = true) by reflexivity.
      split.
      * destruct (Mk Ty 3 false) as (name & f & m & C0 & H1 & H2 & H3 & H4
                                     & H5 & ks & X & H6 & H7 & H8);
          [simpl; auto|].
        vm_compute in H2. injection H2 as <-.
        exists C0, X. split; [exact H4|]. split; [exact H5|].
        split; [exact H7|]. rewrite H8. clear - H1 H3.
        simpl in H1.
        destruct H1 as [[= <- <-] | [[= <- <-] | [[= <- <-] | [[= <- <-] | []]]]];
          try (vm_compute in H3; discriminate H3).
        reflexivity.
      * destruct (Mk Ty 5 true) as (name & f & m & C0 & _ & _ & _ & H4
                                    & H5 & H6); [simpl; auto|].
        exists C0. auto.
Defined.

(** The email field of the submitted page shows its error and still
    holds "x"; the input event clears the marker all the same. *)
Lemma input_clears_witness :
  has_error_class 3 (document contact_page_submitted) = true /\
  checkRule (js "x") (js "email") = false /\
  exists w'' P' tr,
    dispatch 3 Input contact_page_submitted = Some (tt, w'') /\
    calls w'' = calls contact_page_submitted ++ tr /\ checked tr = [] /\
    has_error_class 3 (document w'') = false /\
    parentElement 3 (document w'') = Some P' /\
    error_nodes P' = [] /\
    (forall m', lookup 3 (document w'') = Some m' ->
       exists m, lookup 3 (document contact_page_submitted) = Some m /\
                 value (data m') = value (data m)).
Proof.
  split; [reflexivity|]. split; [reflexivity|].
  destruct (input_clears sel_contact_name contact_page contact_page_ready
              1 contact_form
              (Node 3 (input_element "email" "email" (js "x")) [])
              "email"
              (mkField (tag_attr "input" "type" "email")
                 [js "required"; js "email"]
                 (js "Please enter a valid email address")))
    as [_ H].
  - apply distinct_NoDup. reflexivity.
  - reflexivity.
  - reflexivity.
  - reflexivity.
  - simpl. auto.
  - reflexivity.
  - apply (H contact_page_submitted
             (Node 2 (plain "div")
                [Node 3 (classList_add "field-error"
                           (input_element "email" "email" (js "x"))) [];
                 set_textContent
                   (js "Please enter a valid email address")
                   (error_element 8)])).
    + reflexivity.
    + apply well_formedb_spec. reflexivity.
    + reflexivity.
    + simpl. lia.
    + intros X [<- | []]. discriminate.
Defined.


(** C8 as stated fails on [nested_page], which holds no error-message
    node to begin with.  Once the script has run and the form has been
    submitted, each of the three fields has its message, and the
    container of the email field - the form - encloses all three.
    The two methods put the message in as a child of the container but
    look for it anywhere below the container, so they come upon the
    messages of the other fields: two calls of [showError] on the email
    field leave three error-message nodes with its message in that
    container, and two calls of [clearError] leave one. *)
Lemma marking_counterexample :
  exists v w ws,
    new_FormValidator sel_contact_name nested_page = Some (v, w) /\
    dispatch 1 Submit w = Some (tt, ws) /\
    (exists w1 w2 P',
       showError 2 (js "Please enter a valid email address") ws
       = Some (tt, w1) /\
       showError 2 (js "Please enter a valid email address") w1
       = Some (tt, w2) /\
       parentElement 2 (document w2) = Some P' /\
       error_texts P' = [js "Please enter a valid email address";
                         js "Please enter a valid email address";
                         js "Please enter a valid email address"]) /\
    (exists w1 w2 P',
       clearError 2 ws = Some (tt, w1) /\
       clearError 2 w1 = Some (tt, w2) /\
       parentElement 2 (document w2) = Some P' /\
       error_texts P' = [js "Please enter a valid email address"]).
Proof.
  eexists _, _, _. split; [cbv; reflexivity|]. split; [cbv; reflexivity|].
  split.
  - eexists _, _, _. split; [cbv; reflexivity|].
    split; [cbv; reflexivity|]. split; [cbv; reflexivity | reflexivity].
  - eexists _, _, _. split; [cbv; reflexivity|].
    split; [cbv; reflexivity|]. split; [cbv; reflexivity | reflexivity].
Qed.

(** C9 as stated fails on the same page: after the input event on the
    email field its container still holds two error-message nodes, its
    own among them. *)
Lemma input_counterexample :
  exists v w ws w' P,
    new_FormValidator sel_contact_name nested_page = Some (v, w) /\
    dispatch 1 Submit w = Some (tt, ws) /\
    dispatch 2 Input ws = Some (tt, w') /\
    parentElement 2 (document w') = Some P /\
    error_texts P = [js "Message must be at least 10 characters";
                     js "Please enter a valid email address"].
Proof.
  eexists _, _, _, _, _. split; [cbv; reflexivity|].
  split; [cbv; reflexivity|]. split; [cbv; reflexivity|].
  split; [cbv; reflexivity | reflexivity].
Qed.

(** C1 as stated fails on [wrap_page]: the email is invalid and the
    name is valid.  [showError] puts the message of the email into the
    container of the email field; [clearError] on the name, whose
    container is the form, then looks for an error-message node
    anywhere below the form, finds that one and removes it.  The
    invalid field ends with the error class and no message: the page
    holds no error-message node at all. *)
Lemma handleSubmit_counterexample :
  exists w1 P,
    handleSubmit 1 (mkEvent false) wrap_page = Some (mkEvent true, w1) /\
    validated (calls w1) = [3; 4] /\
    shown (calls w1) = [3] /\
    has_error_class 3 (document w1) = true /\
    parentElement 3 (document w1) = Some P /\
    error_nodes P = [] /\
    error_nodes (document w1) = [].
Proof.
  eexists _, _. split; [cbv; reflexivity|].
  repeat split; reflexivity.
Qed.

(** C2 as stated fails on [nested_page_fixed]: the three fields carry
    their markers, and the email now holds a valid address.
    [validateField] on the email field returns true and removes the
    error class, but the error-message node [clearError] finds below
    the form is the first in document order, that of the name field:
    the message of the email field stays where it was, a child of the
    form. *)
Lemma validateField_counterexample :
  exists P0 w' P,
    parentElement 2 (document nested_page_fixed) = Some P0 /\
    error_texts P0 = [js "Name must be at least 2 characters";
                      js "Message must be at least 10 characters";
                      js "Please enter a valid email address"] /\
    validateField 1 2 nested_page_fixed = Some (true, w') /\
    has_error_class 2 (document w') = false /\
    parentElement 2 (document w') = Some P /\
    error_texts P = [js "Message must be at least 10 characters";
                     js "Please enter a valid email address"] /\
    map (fun k => textContent (data k))
      (filter (fun k => matches error_selector (data k)) (kids P))
    = [js "Please enter a valid email address"].
Proof.
  eexists _, _, _. split; [cbv; reflexivity|].
  split; [reflexivity|]. split; [cbv; reflexivity|].
  split; [reflexivity|]. split; [cbv; reflexivity|].
  split; reflexivity.
Qed.

(* ----------------------------------------------------------------- *)
(** * The rest of the script: lemmas and theorems *)
(* ----------------------------------------------------------------- *)

Lemma dropwhile_nil p s : dropwhile p s = [] <-> Forall (fun c => p c = true) s.
Proof.
  induction s as [|c s IH]; simpl.
  - split; auto.
  - destruct (p c) eqn:E.
    + rewrite IH. split; intros H; [constructor; auto | inversion H; auto].
    + split; [discriminate|]. intros H. inversion H. congruence.
Qed.

Lemma dropwhile_suffix p s :
  exists a, s = a ++ dropwhile p s /\ Forall (fun c => p c = true) a.
Proof.
  induction s as [|c s (a & E & H)]; simpl.
  - exists []. auto.
  - destruct (p c) eqn:Ec.
    + exists (c :: a). simpl. split; [congruence | constructor; auto].
    + exists []. auto.
Qed.

Lemma trim_nil s : trim s = [] <-> Forall (fun c => is_space c = true) s.
Proof.
  unfold trim. split.
  - intros H. apply (f_equal (@rev _)) in H. rewrite rev_involutive in H.
    simpl in H. apply dropwhile_nil in H.
    destruct (dropwhile_suffix is_space s) as (a & E & Ha).
    rewrite E. apply Forall_app. split; trivial.
    apply Forall_forall. intros c Hc. rewrite Forall_forall in H.
    apply H. apply in_rev in Hc. exact Hc.
  - intros H. apply dropwhile_nil in H. rewrite H. reflexivity.
Qed.

Lemma required_iff (value : jsstring) :
  checkRule value (js "required") = true
  <-> Exists (fun c => is_space c = false) value.
Proof.
  unfold checkRule.
  replace (streq (js "required") (js "required")) with true by reflexivity.
  rewrite Nat.ltb_lt. rewrite Exists_exists.
  split.
  - intros H.
    destruct (forallb is_space value) eqn:E.
    + rewrite forallb_forall in E.
      assert (T : trim value = []).
      { apply trim_nil. apply Forall_forall. exact E. }
      rewrite T in H. simpl in H. lia.
    + assert (N : ~ (forall x, In x value -> is_space x = true)).
      { intros F. apply forallb_forall in F. congruence. }
      clear E H. induction value as [|c v IH].
      * exfalso. apply N. intros x [].
      * destruct (is_space c) eqn:Ec.
        -- destruct IH as (x & Hx & Hs).
           ++ intros F. apply N. intros x [<-|Hx]; auto.
           ++ exists x. split; [right|]; trivial.
        -- exists c. split; [left|]; trivial.
  - intros (c & Hc & Hs).
    destruct (trim value) eqn:E; [|simpl; lia].
    apply trim_nil in E. rewrite Forall_forall in E. apply E in Hc. congruence.
Qed.

(** X1.  The rule [required] passes exactly when the value holds a
    character that is not white space, wherever it stands: the empty
    string and a value of blanks, tabs, line ends or no-break spaces
    fail, and a value with a zero-width space, which is no white space
    for [trim], passes. *)
Theorem checkRule_required :
  (forall value,
     checkRule value (js "required") = true
     <-> Exists (fun c => is_space c = false) value) /\
  checkRule (js "") (js "required") = false /\
  checkRule [32; 9; 10; 13; 160]%N (js "required") = false /\
  checkRule (js "  x ") (js "required") = true /\
  checkRule [8203]%N (js "required") = true.
Proof.
  split; [exact required_iff|]. repeat split; reflexivity.
Qed.

(** X2.  For a field whose rules hold the email rule, the verdict of
    all its rules is the verdict of the email rule alone: a value the
    email pattern accepts is never empty or blank, so [required] adds
    nothing there. *)
Theorem email_makes_required_redundant (v : jsstring) (name : string)
        (f : field) :
  In (name, f) fields -> In (js "email") (rules f) ->
  forallb (checkRule v) (rules f) = checkRule v (js "email").
Proof.
  intros Hf Hr.
  assert (E : rules f = [js "required"; js "email"]).
  { unfold fields in Hf. simpl in Hf.
    destruct Hf as [H|[H|[H|[H|[]]]]]; inversion H; subst; clear H;
      simpl in Hr; trivial;
      repeat (destruct Hr as [Hr|Hr]; [discriminate Hr|]); destruct Hr. }
  rewrite E. cbn [forallb]. rewrite andb_true_r.
  destruct (checkRule v (js "email")) eqn:Em; [|apply andb_false_r].
  rewrite andb_true_r. apply required_iff.
  rewrite checkRule_email in Em. apply emailRegex_spec in Em.
  destruct Em as (a & b & c & -> & Na & _ & _ & Ha & _).
  destruct a as [|x a]; [congruence|]. simpl in Ha.
  apply andb_true_iff in Ha as [Hx _]. apply not_space_at_spec in Hx.
  apply Exists_cons_hd. tauto.
Qed.

Lemma email_makes_required_redundant_witness :
  forallb (checkRule (js "a@b.co")) [js "required"; js "email"]
  = checkRule (js "a@b.co") (js "email").
Proof.
  apply (email_makes_required_redundant (js "a@b.co") "email"
           (mkField (tag_attr "input" "type" "email")
              [js "required"; js "email"]
              (js "Please enter a valid email address"))).
  - left. reflexivity.
  - right. left. reflexivity.
Defined.

(** The digits are read up to the first character that is none. *)
Lemma parse_digits_app_digits d : forall acc rest,
  parse_digits acc (uint_chars d ++ rest)
  = parse_digits (match d with
                  | Decimal.Nil => acc
                  | _ => parse_digits acc (uint_chars d)
                  end) rest.
Proof.
  induction d; intros acc rest; cbn [uint_chars app]; trivial;
    cbn [parse_digits is_digit]; simpl N.leb; cbn [andb];
    rewrite IHd; destruct d; reflexivity.
Qed.

Lemma parse_digits_stop acc junk :
  match junk with [] => True | c :: _ => is_digit c = false end ->
  parse_digits acc junk = acc.
Proof. destruct junk as [|c junk]; simpl; trivial. intros ->. trivial. Qed.

Lemma parse_digits_decimal_junk n junk :
  match junk with [] => True | c :: _ => is_digit c = false end ->
  parse_digits None (decimal n ++ junk) = Some (Z.of_nat n).
Proof.
  intros Hj. unfold decimal. rewrite parse_digits_app_digits.
  pose proof (to_uint_nonnil n) as Hn.
  pose proof (parse_digits_uint (Nat.to_uint n) 0) as Hp.
  change (Nat.of_uint_acc (Nat.to_uint n) 0)
    with (Nat.of_uint (Nat.to_uint n)) in Hp.
  rewrite Unsigned.of_to in Hp.
  pose proof (uint_chars_digits (Nat.to_uint n)) as Hd.
  assert (E : parse_digits None (uint_chars (Nat.to_uint n)) = Some (Z.of_nat n)).
  { destruct (uint_chars (Nat.to_uint n)) as [|c s] eqn:E.
    - exfalso. destruct (Nat.to_uint n); simpl in E; congruence.
    - inversion Hd; subst. rewrite parse_digits_None_digit by assumption.
      exact Hp. }
  rewrite parse_digits_stop by assumption.
  destruct (Nat.to_uint n); congruence.
Qed.

Lemma dropwhile_app_all p a b :
  Forall (fun c => p c = true) a -> dropwhile p (a ++ b) = dropwhile p b.
Proof. induction 1 as [|c a Hc _ IH]; simpl; trivial. rewrite Hc. exact IH. Qed.

Lemma decimal_head n : exists c s, decimal n = c :: s /\ is_digit c = true.
Proof.
  unfold decimal. pose proof (uint_chars_digits (Nat.to_uint n)) as Hd.
  destruct (uint_chars (Nat.to_uint n)) as [|c s] eqn:E.
  - exfalso. apply (to_uint_nonnil n).
    destruct (Nat.to_uint n); simpl in E; congruence.
  - inversion Hd; subst. eauto.
Qed.

(** [parseInt] skips leading white space, takes one sign and stops at the
    first character that is no digit. *)
Lemma parseInt_lenient ws n junk :
  Forall (fun c => is_space c = true) ws ->
  match junk with [] => True | c :: _ => is_digit c = false end ->
  parseInt (ws ++ decimal n ++ junk) = Int (Z.of_nat n) /\
  parseInt (ws ++ ch_plus :: decimal n ++ junk) = Int (Z.of_nat n) /\
  parseInt (ws ++ ch_minus :: decimal n ++ junk) = Int (- Z.of_nat n).
Proof.
  intros Hws Hj. unfold parseInt.
  rewrite !(dropwhile_app_all is_space ws) by assumption.
  pose proof (parse_digits_decimal_junk n junk Hj) as Hp.
  destruct (decimal_head n) as (c & s & E & Hc).
  destruct (is_digit_facts _ Hc) as (Hs & _ & Hm & Hpl).
  apply N.eqb_neq in Hm, Hpl.
  repeat split.
  - rewrite E in *. cbn [app dropwhile]. rewrite Hs, Hm, Hpl.
    cbn [app] in Hp. rewrite Hp. f_equal. lia.
  - change (dropwhile is_space (ch_plus :: decimal n ++ junk))
      with (ch_plus :: decimal n ++ junk).
    cbv beta iota. change (ch_plus =? ch_minus)%N with false.
    change (ch_plus =? ch_plus)%N with true. cbv beta iota.
    rewrite Hp. f_equal; lia.
  - change (dropwhile is_space (ch_minus :: decimal n ++ junk))
      with (ch_minus :: decimal n ++ junk).
    cbv beta iota. change (ch_minus =? ch_minus)%N with true. cbv beta iota.
    rewrite Hp. f_equal; lia.
Qed.

Lemma split_first sep a b :
  Forall (fun c => c <> sep) a ->
  split sep (a ++ sep :: b) = a :: split sep b.
Proof.
  induction 1 as [|c a Hc _ IH]; simpl.
  - rewrite N.eqb_refl. reflexivity.
  - apply N.eqb_neq in Hc. rewrite Hc, IH. reflexivity.
Qed.

Lemma split_hd sep a tail :
  Forall (fun c => c <> sep) a ->
  tail = [] \/ (exists t, tail = sep :: t) ->
  hd_error (split sep (a ++ tail)) = Some a.
Proof.
  intros Ha [-> | (t & ->)].
  - rewrite app_nil_r, split_no_sep by assumption. reflexivity.
  - rewrite split_first by assumption. reflexivity.
Qed.

Lemma rule_argument_general pre arg tail :
  Forall (fun c => c <> ch_colon) pre ->
  Forall (fun c => c <> ch_colon) arg ->
  tail = [] \/ (exists t, tail = ch_colon :: t) ->
  rule_argument (pre ++ ch_colon :: arg ++ tail) = arg.
Proof.
  intros Hp Ha Ht. unfold rule_argument.
  rewrite split_first by assumption.
  pose proof (split_hd ch_colon arg tail Ha Ht) as H.
  cbn [nth_error]. destruct (split ch_colon (arg ++ tail)); simpl in *.
  - discriminate.
  - congruence.
Qed.

Lemma startsWith_app p s : startsWith (p ++ s) p = true.
Proof.
  induction p as [|a p IH]; [destruct s; reflexivity|].
  cbn [app startsWith]. rewrite N.eqb_refl. exact IH.
Qed.

Lemma space_not_colon c : is_space c = true -> c <> ch_colon.
Proof. intros H ->. discriminate H. Qed.

(** X3.  A rule that begins with [minLength] is read leniently.
    Whatever stands between [minLength] and the first colon, the
    argument is what stands between the first colon and the second, if
    there is one; white space before the number is skipped, one sign is
    read, and the number ends at the first character that is no digit.
    With the number [n] the rule passes exactly when the value has at
    least [n] characters; with [-n] it passes for every value. *)
Theorem checkRule_minLength_lenient (value pre ws junk tail : jsstring)
        (n : nat) :
  Forall (fun c => c <> ch_colon) pre ->
  Forall (fun c => is_space c = true) ws ->
  Forall (fun c => c <> ch_colon) junk ->
  match junk with [] => True | c :: _ => is_digit c = false end ->
  tail = [] \/ (exists t, tail = ch_colon :: t) ->
  let rule sign :=
    js "minLength" ++ pre ++ ch_colon :: (ws ++ sign ++ decimal n ++ junk)
    ++ tail in
  (checkRule value (rule []) = true <-> n <= List.length value) /\
  (checkRule value (rule [ch_plus]) = true <-> n <= List.length value) /\
  checkRule value (rule [ch_minus]) = true.
Proof.
  intros Hpre Hws Hjunk Hj Htail rule.
  assert (Hdec : Forall (fun c => c <> ch_colon) (decimal n)).
  { unfold decimal. eapply Forall_impl; [|apply uint_chars_digits].
    intros c Hc. apply is_digit_facts in Hc. tauto. }
  assert (Hws' : Forall (fun c => c <> ch_colon) ws).
  { eapply Forall_impl; [|exact Hws]. apply space_not_colon. }
  assert (Hm : Forall (fun c => c <> ch_colon) (js "minLength" ++ pre)).
  { apply Forall_app. split; [|assumption].
    repeat constructor; discriminate. }
  assert (R : forall sign, Forall (fun c => c <> ch_colon) sign ->
            checkRule value (rule sign)
            = length_ge (List.length value)
                (parseInt (ws ++ sign ++ decimal n ++ junk))).
  { intros sign Hsign. unfold checkRule, rule.
    rewrite streq_false by (simpl; discriminate).
    rewrite startsWith_app.
    rewrite (app_assoc (js "minLength") pre).
    rewrite rule_argument_general; trivial.
    repeat (apply Forall_app; split); assumption. }
  destruct (parseInt_lenient ws n junk Hws Hj) as (P0 & P1 & P2).
  rewrite !R by (repeat constructor; discriminate).
  cbn [app]. rewrite P0, P1, P2. cbn [length_ge].
  rewrite !Z.leb_le. repeat split; lia.
Qed.

Lemma checkRule_minLength_lenient_witness :
  (checkRule (js "abc") (js "minLengthOf: 3px:9") = true <-> 3 <= 3) /\
  (checkRule (js "abc") (js "minLengthOf: +3px:9") = true <-> 3 <= 3) /\
  checkRule (js "abc") (js "minLengthOf: -3px:9") = true.
Proof.
  apply (checkRule_minLength_lenient (js "abc") (js "Of") (js " ") (js "px")
           (js ":9") 3).
  - repeat constructor; discriminate.
  - repeat constructor.
  - repeat constructor; discriminate.
  - reflexivity.
  - right. exists (js "9"). reflexivity.
Defined.

Lemma governing_none fs F element :
  (forall name f n, In (name, f) fs ->
     querySelector (selector f) F = Some n -> nid n <> element) ->
  governing fs F element = None.
Proof.
  induction fs as [|[name g] fs IH]; intros H; simpl; trivial.
  destruct (querySelector (selector g) F) as [n|] eqn:Q.
  - destruct (Nat.eqb_spec (nid n) element) as [E|E].
    + exfalso. apply (H name g n); simpl; auto.
    + apply IH. intros name' f n' Hin. apply (H name' f n'). right. exact Hin.
  - apply IH. intros name' f n' Hin. apply (H name' f n'). right. exact Hin.
Qed.

(** X4.  [validateField] on an element that no declared selector finds
    first in the form - a second email input, a control of another
    kind, an element outside the form - returns true: no rule is
    evaluated, nothing is marked or cleared, and the page is left as it
    is. *)
Theorem validateField_unlisted (form element : nat) (w : world) (F : node) :
  lookup form (document w) = Some F ->
  (forall name f n, In (name, f) fields ->
     querySelector (selector f) F = Some n -> nid n <> element) ->
  validateField form element w
  = Some (true, logged w [CallValidateField element]).
Proof.
  intros HF H. rewrite (validateField_eq form element w F HF).
  rewrite governing_none by assumption. reflexivity.
Qed.

Lemma validateField_unlisted_witness :
  validateField 1 2 contact_page
  = Some (true, logged contact_page [CallValidateField 2]).
Proof.
  apply (validateField_unlisted 1 2 contact_page contact_form).
  - reflexivity.
  - intros name f n Hin Q.
    destruct Hin as [H|[H|[H|[H|[]]]]]; inversion H; subst; clear H;
      vm_compute in Q; try discriminate Q;
      injection Q as <-; discriminate.
Defined.

Lemma validate_all_absent form F : forall fs isValid w,
  lookup form (document w) = Some F ->
  (forall name f, In (name, f) fs -> querySelector (selector f) F = None) ->
  validate_all fs form isValid w = Some (isValid, w).
Proof.
  induction fs as [|[name g] fs IH]; intros isValid w HF H; simpl; trivial.
  unfold bind. rewrite (form_querySelector_eq form _ w F HF).
  rewrite (H name g) by (left; reflexivity).
  apply IH; trivial. intros name' f Hin. apply (H name' f). right. exact Hin.
Qed.

(** X5.  On a form that holds none of the declared fields
    [handleSubmit] validates nothing and goes straight to [submitForm]:
    the default is prevented, one banner is added and the timer of the
    reset is set. *)
Theorem handleSubmit_no_fields (form : nat) (e : event) (w : world) (F : node) :
  NoDup (ids (document w)) ->
  lookup form (document w) = Some F ->
  (forall name f, In (name, f) fields -> querySelector (selector f) F = None) ->
  exists w',
    handleSubmit form e w = Some (mkEvent true, w') /\
    calls w' = calls w ++ [CallHandleSubmit; CallSubmitForm] /\
    List.length (banners (document w'))
    = S (List.length (banners (document w))) /\
    timers w' = timers w ++ [(clock w + 2000, ResetAndFade form (fresh w))].
Proof.
  intros ND HF H. unfold handleSubmit.
  unfold bind at 1. rewrite log_eq.
  unfold bind at 1.
  rewrite (validate_all_absent form F fields true (logged w [CallHandleSubmit]))
    by assumption.
  unfold bind. rewrite (submitForm_eq form _ F) by assumption.
  eexists. split; [reflexivity|]. cbn [calls document timers logged fresh clock].
  split; [rewrite <- app_assoc; reflexivity|]. split; [|reflexivity].
  apply (banners_insertFirst form _ _ F); assumption.
Qed.

Lemma handleSubmit_no_fields_witness :
  exists w',
    handleSubmit 1 (mkEvent false) search_page = Some (mkEvent true, w') /\
    calls w' = [CallHandleSubmit; CallSubmitForm] /\
    timers w' = [(2000, ResetAndFade 1 3)].
Proof.
  destruct (handleSubmit_no_fields 1 (mkEvent false) search_page
              (Node 1 (mkElement "form" [("name", "contact")]%string
                         [] [] [] [] [])
                 [Node 2 (input_element "search" "q" (js "leaf")) []]))
    as (w' & E & C & _ & T).
  - apply distinct_NoDup. reflexivity.
  - reflexivity.
  - intros name f Hin.
    destruct Hin as [H|[H|[H|[H|[]]]]]; inversion H; reflexivity.
  - exists w'. split; [exact E|]. split; [exact C | exact T].
Defined.

Section ThrottleFacts.
Variables A B St : Type.
Variable func : A -> St -> B * St.

Lemma throttled_calls_cons delay now args cs lastCall s :
  throttled_calls func delay ((now, args) :: cs) lastCall s
  = let x := throttled func delay now args lastCall s in
    let y := throttled_calls func delay cs (snd (fst x)) (snd x) in
    (fst (fst x) :: fst (fst y), snd (fst y), snd y).
Proof.
  cbn [throttled_calls].
  destruct (throttled func delay now args lastCall s) as [[r l] s'].
  cbn [fst snd].
  destruct (throttled_calls func delay cs l s') as [[rs l'] s''].
  reflexivity.
Qed.

(** Consecutive calls that pass are at least [d] apart, the first at
    least [d] after [lastCall]. *)
Lemma throttled_spacing d : forall cs lastCall s,
  Sorted (fun t t' => d <= t' - t)%Z
    (lastCall
     :: map fst
          (passed cs (fst (fst (throttled_calls func (Int d) cs lastCall s))))).
Proof.
  induction cs as [|[now args] cs IH]; intros lastCall s.
  - simpl. repeat constructor.
  - rewrite throttled_calls_cons. cbn zeta. unfold throttled.
    cbn [number_ge]. destruct (Z.leb_spec d (now - lastCall)) as [H|H].
    + destruct (func args s) as [b s']. cbn [fst snd passed map].
      specialize (IH now s'). constructor; [exact IH|].
      constructor. exact H.
    + cbn [fst snd passed]. apply IH.
Qed.

Lemma throttled_calls_length delay : forall cs lastCall s,
  List.length (fst (fst (throttled_calls func delay cs lastCall s)))
  = List.length cs.
Proof.
  induction cs as [|[now args] cs IH]; intros lastCall s; trivial.
  rewrite throttled_calls_cons. cbn zeta. cbn [fst List.length].
  rewrite IH. reflexivity.
Qed.

Lemma throttled_calls_state delay : forall cs lastCall s,
  snd (throttled_calls func delay cs lastCall s)
  = apply_all func
      (passed cs (fst (fst (throttled_calls func delay cs lastCall s)))) s.
Proof.
  induction cs as [|[now args] cs IH]; intros lastCall s; trivial.
  rewrite throttled_calls_cons. cbn zeta. cbn [fst snd].
  unfold throttled. destruct (number_ge (now - lastCall) delay).
  - destruct (func args s) as [b s'] eqn:E. cbn [fst snd passed apply_all].
    rewrite E. cbn [snd]. apply IH.
  - cbn [fst snd passed]. apply IH.
Qed.

Lemma throttled_last_le delay now args lastCall s :
  (lastCall <= now)%Z ->
  (snd (fst (throttled func delay now args lastCall s)) <= now)%Z.
Proof.
  intros H. unfold throttled. destruct (number_ge (now - lastCall) delay).
  - destruct (func args s). cbn. lia.
  - cbn. exact H.
Qed.

(** A call made at least [d] after the call before it goes through. *)
Lemma throttled_after_pause d : forall i cs lastCall s t' a' t a,
  Sorted Z.le (lastCall :: map fst cs) ->
  nth_error cs i = Some (t', a') -> nth_error cs (S i) = Some (t, a) ->
  (d <= t - t')%Z ->
  exists b,
    nth_error (fst (fst (throttled_calls func (Int d) cs lastCall s))) (S i)
    = Some (Some b).
Proof.
  induction i as [|i IH]; intros cs lastCall s t' a' t a Hs H1 H2 Hd.
  - destruct cs as [|[t0 a0] [|[t1 a1] cs]]; try discriminate.
    cbn in H1, H2. injection H1 as -> ->. injection H2 as -> ->.
    rewrite throttled_calls_cons. cbn zeta. cbn [fst nth_error].
    cbn [map fst] in Hs. apply Sorted_inv in Hs as [_ Hh].
    apply HdRel_inv in Hh.
    pose proof (throttled_last_le (Int d) t' a' lastCall s Hh) as L.
    rewrite throttled_calls_cons. cbn zeta. cbn [fst nth_error].
    unfold throttled at 1. cbn [number_ge].
    destruct (Z.leb_spec d (t - snd (fst (throttled func (Int d) t' a' lastCall s))));
      [|lia].
    destruct (func a _) as [b s']. cbn. eauto.
  - destruct cs as [|[t0 a0] cs]; [discriminate|].
    cbn [nth_error] in H1, H2.
    rewrite throttled_calls_cons. cbn zeta. cbn [fst nth_error].
    cbn [map fst] in Hs. apply Sorted_inv in Hs as [Hs Hh].
    apply HdRel_inv in Hh.
    pose proof (throttled_last_le (Int d) t0 a0 lastCall s Hh) as L.
    apply (IH cs _ _ t' a' t a); trivial.
    destruct cs as [|[t1 a1] cs]; [destruct i; discriminate|].
    cbn [map fst] in *. apply Sorted_inv in Hs as [Hs' Hh'].
    apply HdRel_inv in Hh'. constructor; [exact Hs'|]. constructor. lia.
Qed.

Lemma throttled_NaN : forall cs lastCall s,
  throttled_calls func NaN cs lastCall s
  = (map (fun _ => None) cs, lastCall, s).
Proof.
  induction cs as [|[now args] cs IH]; intros lastCall s; trivial.
  rewrite throttled_calls_cons. cbn zeta. unfold throttled.
  cbn [number_ge fst snd]. rewrite IH. reflexivity.
Qed.

Lemma throttled_always d : forall cs lastCall s,
  (d <= 0)%Z -> Sorted Z.le (lastCall :: map fst cs) ->
  passed cs (fst (fst (throttled_calls func (Int d) cs lastCall s))) = cs.
Proof.
  induction cs as [|[now args] cs IH]; intros lastCall s Hd Hs; trivial.
  rewrite throttled_calls_cons. cbn zeta. cbn [fst]. unfold throttled.
  cbn [map fst] in Hs. apply Sorted_inv in Hs as [Hs Hh].
  apply HdRel_inv in Hh. cbn [number_ge].
  destruct (Z.leb_spec d (now - lastCall)); [|lia].
  destruct (func args s) as [b s']. cbn [fst snd passed].
  rewrite IH; trivial.
Qed.

End ThrottleFacts.

Section ThrottleTheorems.
Variables A B St : Type.
Variable func : A -> St -> B * St.

(** X6.  Whatever the calls and their times, a call
    that goes through to [func] comes at least [d] after the call that
    went through before it, and the first at least [d] after time 0;
    when [d] is not negative any two calls that went through are at
    least [d] apart. *)
Theorem throttle_rate (d : Z) (cs : list (Z * A)) (s : St) :
  let went := map fst (passed cs (fst (fst (throttle func (Int d) cs s)))) in
  Sorted (fun t t' => d <= t' - t)%Z (0%Z :: went) /\
  ((0 <= d)%Z -> StronglySorted (fun t t' => d <= t' - t)%Z (0%Z :: went)).
Proof.
  cbv zeta. split.
  - apply throttled_spacing.
  - intros Hd. apply Sorted_StronglySorted.
    + intros x y z Hxy Hyz. lia.
    + apply throttled_spacing.
Qed.

(** X7.  There is one result for each call;
    [func] is applied, in order, to the calls that returned a result and
    to no other: a call that returned [undefined] is dropped for good.
    On a clock that does not go back, a call made at least [d] after
    the call before it goes through. *)
Theorem throttle_leading_edge (d : Z) (cs : list (Z * A)) (s : St) :
  let x := throttle func (Int d) cs s in
  List.length (fst (fst x)) = List.length cs /\
  snd x = apply_all func (passed cs (fst (fst x))) s /\
  (Sorted Z.le (0%Z :: map fst cs) ->
   forall i t' a' t a,
     nth_error cs i = Some (t', a') -> nth_error cs (S i) = Some (t, a) ->
     (d <= t - t')%Z ->
     exists b, nth_error (fst (fst x)) (S i) = Some (Some b)).
Proof.
  cbv zeta. unfold throttle. split; [apply throttled_calls_length|].
  split; [apply throttled_calls_state|].
  intros Hs i t' a' t a H1 H2 Hd.
  eapply throttled_after_pause; eassumption.
Qed.

(** X8.  With a delay that is no number,
    as when it is left out, no call ever goes through; with a delay of
    0 or less, on a clock that does not go back, every call does. *)
Theorem throttle_degenerate (cs : list (Z * A)) (s : St) :
  throttle func NaN cs s = (map (fun _ => None) cs, 0%Z, s) /\
  forall d, (d <= 0)%Z -> Sorted Z.le (0%Z :: map fst cs) ->
    passed cs (fst (fst (throttle func (Int d) cs s))) = cs /\
    snd (throttle func (Int d) cs s) = apply_all func cs s.
Proof.
  split; [apply throttled_NaN|]. intros d Hd Hs. unfold throttle.
  pose proof (throttled_always A B St func d cs 0%Z s Hd Hs) as P.
  split; [exact P|]. rewrite throttled_calls_state, P. reflexivity.
Qed.

End ThrottleTheorems.

Ltac sorted_by_lia :=
  repeat first [apply Sorted_nil | apply Sorted_cons
               | apply HdRel_nil | apply HdRel_cons];
  lia.

Lemma throttle_rate_witness :
  StronglySorted (fun t t' => 100 <= t' - t)%Z [0; 1000; 1100; 1250]%Z.
Proof.
  exact (proj2 (throttle_rate Z unit (list Z) (fun a s => (tt, a :: s))
                  100 [(1000, 1); (1050, 2); (1100, 3); (1199, 4); (1250, 5)]%Z
                  [])
           ltac:(lia)).
Defined.

Lemma throttle_leading_edge_witness :
  exists b,
    nth_error
      (fst (fst (throttle (fun (a : Z) (s : list Z) => (a, a :: s)) (Int 100)
                   [(1000, 1); (1050, 2); (1150, 3)]%Z [])))
      2
    = Some (Some b).
Proof.
  apply (proj2 (proj2 (throttle_leading_edge Z Z (list Z)
                         (fun a s => (a, a :: s)) 100
                         [(1000, 1); (1050, 2); (1150, 3)]%Z []))
           ltac:(cbn [map fst]; sorted_by_lia)
           1 1050%Z 2%Z 1150%Z 3%Z eq_refl eq_refl ltac:(lia)).
Defined.

Lemma throttle_degenerate_witness :
  snd (throttle (fun (a : Z) (s : list Z) => (tt, a :: s)) (Int 0)
         [(5, 1); (5, 2); (7, 3)]%Z [])
  = [3; 2; 1]%Z.
Proof.
  destruct (proj2 (throttle_degenerate Z unit (list Z)
                     (fun a s => (tt, a :: s))
                     [(5, 1); (5, 2); (7, 3)]%Z []) 0%Z) as (_ & H).
  - lia.
  - cbn [map fst]. sorted_by_lia.
  - rewrite H. reflexivity.
Defined.

Section DebounceFacts.
Variables A St : Type.
Variable func : A -> St -> St.

Lemma call_arms delay args (st : debounced A St) :
  (idle st \/ exists due a0, armed due a0 st) ->
  let st' := debounced_call delay args st in
  armed (sched_clock (pending st) + timeout_ms delay) args st' /\
  sched_clock (pending st') = sched_clock (pending st) /\
  acted st' = acted st /\ invoked st' = invoked st.
Proof.
  intros H. unfold debounced_call.
  destruct st as [to [c n q] s l]. cbn [timeout pending acted invoked] in *.
  destruct H as [[Hq Hto] | (t0 & a0 & id & Hto & Hq & Hlt)];
    cbn [sched_queue sched_clock sched_next pending timeout] in *; subst.
  - assert (E : unschedule to (mkScheduler c n ([] : list (timer A)))
                = mkScheduler c n []) by (destruct to; reflexivity).
    rewrite E. unfold schedule.
    cbn [timeout pending acted invoked sched_clock sched_next sched_queue app].
    repeat split. exists n. cbn. auto.
  - unfold unschedule, schedule, drop_timer.
    cbn [sched_queue sched_clock sched_next filter timer_id].
    rewrite Nat.eqb_refl.
    cbn [negb app timeout pending acted invoked sched_clock].
    repeat split. exists n. cbn. auto.
Qed.

Lemma wait_idle t (st : debounced A St) :
  idle st ->
  let st' := debounced_wait func t st in
  idle st' /\
  sched_clock (pending st') = Nat.max t (sched_clock (pending st)) /\
  acted st' = acted st /\ invoked st' = invoked st.
Proof.
  intros [Hq Hto]. unfold debounced_wait, wait_until. rewrite Hq.
  cbn [List.length fire_due].
  cbn [pending timeout acted invoked sched_queue sched_clock sched_next].
  unfold idle. cbn [pending timeout sched_queue sched_next]. auto.
Qed.

Lemma wait_armed due args t (st : debounced A St) :
  armed due args st -> sched_clock (pending st) <= t ->
  sched_clock (pending st) <= due ->
  let st' := debounced_wait func t st in
  sched_clock (pending st') = t /\
  if due <=? t then
    idle st' /\ acted st' = func args (acted st) /\
    invoked st' = invoked st ++ [(due, args)]
  else
    armed due args st' /\ acted st' = acted st /\ invoked st' = invoked st.
Proof.
  intros (id & Hto & Hq & Hlt) Ht Hd. unfold debounced_wait, wait_until.
  rewrite Hq. cbn [List.length fire_due]. rewrite Hq.
  cbn [earliest timer_due].
  destruct (Nat.leb_spec due t) as [H|H].
  - unfold drop_timer.
    cbn [filter timer_id timer_due timer_callback]. rewrite Nat.eqb_refl.
    cbn [negb debounced_run fst snd].
    cbn [pending timeout acted invoked sched_queue sched_clock sched_next].
    split; [lia|]. split; [|split; [reflexivity|]].
    + split; [reflexivity|]. cbn [timeout pending sched_next].
      rewrite Hto. exact Hlt.
    + do 3 f_equal. lia.
  - cbn [pending timeout acted invoked sched_queue sched_clock sched_next].
    split; [lia|]. split; [|auto].
    exists id. cbn. rewrite Hq. auto.
Qed.

Lemma calls_from_armed delay : forall cs t0 a0 final (st : debounced A St),
  armed (t0 + timeout_ms delay) a0 st ->
  sched_clock (pending st) = t0 ->
  Sorted le (t0 :: map fst cs ++ [final]) ->
  Sorted (fun t t' => t < t' -> t' <> t + timeout_ms delay)
    (t0 :: map fst cs) ->
  let st' := debounced_calls func delay cs final st in
  invoked st'
  = invoked st ++ settled (timeout_ms delay) ((t0, a0) :: cs) final /\
  acted st'
  = run_all func (settled (timeout_ms delay) ((t0, a0) :: cs) final)
      (acted st) /\
  List.length (sched_queue (pending st')) <= 1 /\
  sched_clock (pending st') = final.
Proof.
  induction cs as [|[t a] cs IH]; intros t0 a0 final st Ha Hc Hs Hn.
  - cbn [debounced_calls settled map app] in *.
    apply Sorted_inv in Hs as [_ Hs]. apply HdRel_inv in Hs.
    destruct (wait_armed _ _ final st Ha) as (C & W); [lia | lia |].
    destruct (t0 + timeout_ms delay <=? final).
    + destruct W as ((Q & _) & W1 & W2). rewrite W1, W2, Q, app_nil_r.
      cbn. auto.
    + destruct W as ((id & _ & Q & _) & W1 & W2).
      rewrite W1, W2, Q, !app_nil_r. cbn. auto.
  - cbn [debounced_calls map app fst] in *.
    apply Sorted_inv in Hs as [Hs Hh]. apply HdRel_inv in Hh.
    apply Sorted_inv in Hn as [Hn Hd]. apply HdRel_inv in Hd.
    change (settled (timeout_ms delay) ((t0, a0) :: (t, a) :: cs) final)
      with ((if t0 + timeout_ms delay <? t
             then [(t0 + timeout_ms delay, a0)] else [])
            ++ settled (timeout_ms delay) ((t, a) :: cs) final).
    rewrite Hc.
    set (st1 := if t =? t0 then st else debounced_wait func t st).
    assert (W : sched_clock (pending st1) = t /\
                if t0 + timeout_ms delay <? t then
                  idle st1 /\ acted st1 = func a0 (acted st) /\
                  invoked st1 = invoked st ++ [(t0 + timeout_ms delay, a0)]
                else
                  armed (t0 + timeout_ms delay) a0 st1 /\
                  acted st1 = acted st /\ invoked st1 = invoked st).
    { unfold st1. destruct (Nat.eqb_spec t t0) as [-> | N].
      - split; [exact Hc|].
        assert (E : (t0 + timeout_ms delay <? t0) = false)
          by (apply Nat.ltb_ge; lia).
        rewrite E. auto.
      - destruct (wait_armed _ _ t st Ha) as (C & W); [lia | lia |].
        split; [exact C|].
        assert (E : (t0 + timeout_ms delay <? t)
                    = (t0 + timeout_ms delay <=? t)).
        { assert (t <> t0 + timeout_ms delay) by (apply Hd; lia).
          destruct (Nat.ltb_spec (t0 + timeout_ms delay) t),
                   (Nat.leb_spec (t0 + timeout_ms delay) t); trivial; lia. }
        rewrite E. exact W. }
    destruct W as (C & W).
    assert (Hor : idle st1 \/ exists due a1, armed due a1 st1).
    { destruct (t0 + timeout_ms delay <? t).
      - left. apply W.
      - right. exists (t0 + timeout_ms delay), a0. apply W. }
    destruct (call_arms delay a st1 Hor) as (Ha2 & Hc2 & Hs2 & Hi2).
    rewrite C in Ha2, Hc2.
    specialize (IH t a final _ Ha2 Hc2 Hs Hn).
    destruct IH as (I1 & I2 & I3 & I4).
    split; [|split; [|auto]].
    + rewrite I1, Hi2.
      destruct (t0 + timeout_ms delay <? t).
      * destruct W as (_ & _ & W2). rewrite W2, <- app_assoc. reflexivity.
      * destruct W as (_ & _ & W2). rewrite W2. reflexivity.
    + rewrite I2, Hs2.
      unfold run_all. rewrite fold_left_app.
      destruct (t0 + timeout_ms delay <? t).
      * destruct W as (_ & W1 & _). rewrite W1. reflexivity.
      * destruct W as (_ & W1 & _). rewrite W1. reflexivity.
Qed.

(** The whole run, from [debounce(func, delay)] on. *)
Lemma debounce_settled delay cs final s :
  Sorted le (map fst cs ++ [final]) ->
  Sorted (fun t t' => t < t' -> t' <> t + timeout_ms delay) (map fst cs) ->
  let st := debounce func delay cs final s in
  invoked st = settled (timeout_ms delay) cs final /\
  acted st = run_all func (settled (timeout_ms delay) cs final) s /\
  List.length (sched_queue (pending st)) <= 1 /\
  sched_clock (pending st) = final.
Proof.
  intros Hs Hn. unfold debounce. destruct cs as [|[t a] cs].
  - cbn. repeat split; lia.
  - cbn [debounced_calls].
    set (st0 := mkDebounced None (mkScheduler 0 1 []) s []).
    assert (I0 : idle st0) by (split; cbn; trivial).
    set (st1 := if t =? sched_clock (pending st0) then st0
                else debounced_wait func t st0).
    assert (W : idle st1 /\ sched_clock (pending st1) = t /\
                acted st1 = s /\ invoked st1 = []).
    { unfold st1. cbn [st0 pending sched_clock].
      destruct (Nat.eqb_spec t 0) as [-> | N].
      - cbn. auto.
      - destruct (wait_idle t st0 I0) as (I1 & C1 & A1 & V1).
        split; [exact I1|]. split; [rewrite C1; cbn; lia|].
        split; assumption. }
    destruct W as (I1 & C1 & A1 & V1).
    destruct (call_arms delay a st1 (or_introl I1)) as (Ha2 & Hc2 & Hs2 & Hi2).
    rewrite C1 in Ha2, Hc2.
    destruct (calls_from_armed delay cs t a final _ Ha2 Hc2 Hs Hn)
      as (J1 & J2 & J3 & J4).
    rewrite J1, J2, Hi2, Hs2, V1, A1. cbn [app]. auto.
Qed.

End DebounceFacts.

Lemma Sorted_weaken {A} (R R' : A -> A -> Prop) l :
  (forall x y, R x y -> R' x y) -> Sorted R l -> Sorted R' l.
Proof.
  intros H. induction 1 as [|a l S IH Hd]; constructor; trivial.
  destruct Hd; constructor; auto.
Qed.

Lemma Sorted_snoc {A} (R : A -> A -> Prop) l t x :
  Sorted R (l ++ [t]) -> R t x -> Sorted R (l ++ [t; x]).
Proof.
  intros H Hx. induction l as [|a l IH]; cbn [app] in *.
  - repeat constructor. exact Hx.
  - apply Sorted_inv in H as [H Hd]. constructor; [auto|].
    destruct l as [|b l]; cbn [app] in *; apply HdRel_inv in Hd;
      constructor; exact Hd.
Qed.

Lemma settled_burst {A} d (pre : list (nat * A)) t a final :
  Sorted (fun x y => x <= y < x + d) (map fst pre ++ [t]) ->
  settled d (pre ++ [(t, a)]) final
  = if t + d <=? final then [(t + d, a)] else [].
Proof.
  induction pre as [|[t0 a0] pre IH]; intros H.
  - cbn. rewrite app_nil_r. reflexivity.
  - cbn [map fst app] in H. apply Sorted_inv in H as [H Hd].
    change (settled d (((t0, a0) :: pre) ++ [(t, a)]) final)
      with ((if match pre ++ [(t, a)] with
                | [] => t0 + d <=? final
                | (t', _) :: _ => t0 + d <? t'
                end
             then [(t0 + d, a0)] else [])
            ++ settled d (pre ++ [(t, a)]) final).
    rewrite (IH H).
    assert (E : match pre ++ [(t, a)] with
                | [] => t0 + d <=? final
                | (t', _) :: _ => t0 + d <? t'
                end = false).
    { destruct pre as [|[t1 a1] pre]; cbn [map fst app] in *;
        apply HdRel_inv in Hd; apply Nat.ltb_ge; lia. }
    rewrite E. reflexivity.
Qed.

Section DebounceTheorems.
Variables A St : Type.
Variable func : A -> St -> St.

(** X9.  When the debounced function is called at the times [cs], in
    order, and the clock then comes to [final] - the calls of one time
    being those of one task, and no task starting at the very time a
    pending timer is due - [func] has run for exactly the calls whose
    timer was due before the next call was made, each [delay]
    milliseconds after its call and with the arguments of that call; of
    the calls one task makes the last alone can count, whatever the
    delay; no more than one timer is ever left pending. *)
Theorem debounce_spec (delay : number) (cs : list (nat * A)) (final : nat)
        (s : St) :
  Sorted le (map fst cs ++ [final]) ->
  Sorted (fun t t' => t < t' -> t' <> t + timeout_ms delay) (map fst cs) ->
  let st := debounce func delay cs final s in
  invoked st = settled (timeout_ms delay) cs final /\
  acted st = run_all func (settled (timeout_ms delay) cs final) s /\
  List.length (sched_queue (pending st)) <= 1.
Proof.
  intros H Hn. destruct (debounce_settled A St func delay cs final s H Hn)
    as (H1 & H2 & H3 & _). auto.
Qed.

(** X10.  A burst of calls, each less than the delay
    after the one before: [func] does not run while the burst lasts; it
    runs once, [delay] milliseconds after the last call and with the
    arguments of the last call, whatever the earlier calls were
    given. *)
Theorem debounce_burst (delay : number) (pre : list (nat * A)) (t : nat)
        (a : A) (final : nat) (s : St) :
  Sorted (fun x y => x <= y < x + timeout_ms delay) (map fst pre ++ [t]) ->
  t <= final ->
  let st := debounce func delay (pre ++ [(t, a)]) final s in
  (final < t + timeout_ms delay -> invoked st = [] /\ acted st = s) /\
  (t + timeout_ms delay <= final ->
   invoked st = [(t + timeout_ms delay, a)] /\ acted st = func a s).
Proof.
  intros H Hf st.
  assert (Hs : Sorted le (map fst (pre ++ [(t, a)]) ++ [final])).
  { rewrite map_app. cbn [map fst]. rewrite <- app_assoc. cbn [app].
    apply Sorted_snoc; [|exact Hf].
    apply (Sorted_weaken (fun x y => x <= y < x + timeout_ms delay));
      [intros; lia | exact H]. }
  assert (Hn : Sorted (fun x y => x < y -> y <> x + timeout_ms delay)
                 (map fst (pre ++ [(t, a)]))).
  { rewrite map_app. cbn [map fst].
    apply (Sorted_weaken (fun x y => x <= y < x + timeout_ms delay));
      [intros; lia | exact H]. }
  destruct (debounce_settled A St func delay _ final s Hs Hn) as (H1 & H2 & _).
  fold st in H1, H2. rewrite (settled_burst _ pre t a final H) in H1, H2.
  split; intros Hc.
  - apply Nat.leb_gt in Hc. rewrite Hc in H1, H2. auto.
  - apply Nat.leb_le in Hc. rewrite Hc in H1, H2. auto.
Qed.

End DebounceTheorems.

Lemma debounce_spec_witness :
  invoked (debounce (fun (a : nat) (s : list nat) => a :: s) (Int 300)
             [(0, 1); (0, 2); (100, 3); (500, 4); (600, 5)] 2000 [])
  = [(400, 3); (900, 5)] /\
  invoked (debounce (fun (a : nat) (s : list nat) => a :: s) (Int 0)
             [(5, 1); (5, 2); (7, 3)] 9 [])
  = [(5, 2); (7, 3)].
Proof.
  split.
  - destruct (debounce_spec nat (list nat) (fun a s => a :: s) (Int 300)
                [(0, 1); (0, 2); (100, 3); (500, 4); (600, 5)] 2000 [])
      as (H & _).
    + cbn [map fst app]. sorted_by_lia.
    + cbn [map fst]. change (timeout_ms (Int 300)) with 300. sorted_by_lia.
    + rewrite H. reflexivity.
  - destruct (debounce_spec nat (list nat) (fun a s => a :: s) (Int 0)
                [(5, 1); (5, 2); (7, 3)] 9 []) as (H & _).
    + cbn [map fst app]. sorted_by_lia.
    + cbn [map fst]. change (timeout_ms (Int 0)) with 0. sorted_by_lia.
    + rewrite H. reflexivity.
Defined.

Lemma debounce_burst_witness :
  acted (debounce (fun (a : nat) (s : list nat) => a :: s) (Int 300)
           ([(0, 1); (100, 2)] ++ [(250, 3)]) 1000 [])
  = [3].
Proof.
  destruct (debounce_burst nat (list nat) (fun a s => a :: s) (Int 300)
              [(0, 1); (100, 2)] 250 3 1000 []) as (_ & H).
  - cbn [map fst app]. change (timeout_ms (Int 300)) with 300.
    sorted_by_lia.
  - lia.
  - apply H. change (timeout_ms (Int 300)) with 300. lia.
Defined.

Lemma filter_filter {A} (p q : A -> bool) l :
  filter p (filter q l) = filter (fun x => q x && p x) l.
Proof.
  induction l as [|a l IH]; simpl; trivial.
  destruct (q a); simpl; [destruct (p a)|]; rewrite IH; reflexivity.
Qed.

Lemma filter_ext_in' {A} (p q : A -> bool) l :
  (forall a, In a l -> p a = q a) -> filter p l = filter q l.
Proof.
  induction l as [|a l IH]; simpl; intros H; trivial.
  rewrite (H a) by auto. rewrite IH by auto. reflexivity.
Qed.
Lemma NoDup_map_filter {A B} (g : A -> B) (p : A -> bool) l :
  NoDup (map g l) -> NoDup (map g (filter p l)).
Proof.
  induction l as [|a l IH]; simpl; intros H; [constructor|].
  inversion H as [|? ? Hn ND]; subst. destruct (p a); simpl; auto.
  constructor; auto. intros Hin. apply Hn.
  apply in_map_iff in Hin as (x & E & Hx). apply filter_In in Hx as [Hx _].
  apply in_map_iff. eauto.
Qed.

Lemma map_elements_ext g g' n :
  (forall m, In m (subtrees n) -> g (nid m) (data m) = g' (nid m) (data m)) ->
  map_elements g n = map_elements g' n.
Proof.
  induction n as [j e ks IH] using node_induction. intros H. simpl. f_equal.
  - apply (H (Node j e ks)). apply subtrees_self.
  - apply map_ext_in. intros k Hk. rewrite Forall_forall in IH.
    apply IH; trivial. intros m Hm. apply H. simpl. right.
    apply in_flat_map. eauto.
Qed.

Lemma map_elements_id n : map_elements (fun _ e => e) n = n.
Proof.
  induction n as [j e ks IH] using node_induction. simpl. f_equal.
  apply map_id_in. rewrite Forall_forall in IH. exact IH.
Qed.

Lemma update_map_elements i f n :
  update i f n = map_elements (fun j e => if j =? i then f e else e) n.
Proof.
  induction n as [j e ks IH] using node_induction. simpl. f_equal.
  apply map_ext_in. rewrite Forall_forall in IH. exact IH.
Qed.

Lemma map_elements_compose g h n :
  map_elements g (map_elements h n) = map_elements (fun j e => g j (h j e)) n.
Proof.
  induction n as [j e ks IH] using node_induction. simpl. f_equal.
  rewrite map_map. apply map_ext_in. rewrite Forall_forall in IH. exact IH.
Qed.

Lemma subtrees_map_elements g n :
  subtrees (map_elements g n) = map (map_elements g) (subtrees n).
Proof.
  induction n as [j e ks IH] using node_induction. simpl. f_equal.
  rewrite flat_map_map, map_flat_map. apply flat_map_ext_in.
  rewrite Forall_forall in IH. exact IH.
Qed.

Lemma nid_map_elements g n : nid (map_elements g n) = nid n.
Proof. destruct n; reflexivity. Qed.

Lemma data_map_elements g n : data (map_elements g n) = g (nid n) (data n).
Proof. destruct n; reflexivity. Qed.

Lemma ids_map_elements g n : ids (map_elements g n) = ids n.
Proof.
  unfold ids. rewrite subtrees_map_elements, map_map.
  apply map_ext. apply nid_map_elements.
Qed.

(** The changes of a [forEach], made at once. *)
Lemma forEach_update_map f : forall (l : list node) doc,
  forEach_update f l doc
  = map_elements
      (fun j e => fold_left (fun e m => if j =? nid m then f e else e) l e) doc.
Proof.
  unfold forEach_update.
  induction l as [|m l IH]; intros doc; cbn [fold_left].
  - symmetry. apply map_elements_id.
  - rewrite IH, update_map_elements, map_elements_compose. reflexivity.
Qed.

Lemma fold_skip (f : element -> element) j : forall (l : list node) e,
  ~ In j (map nid l) ->
  fold_left (fun e m => if j =? nid m then f e else e) l e = e.
Proof.
  induction l as [|m l IH]; intros e H; cbn [fold_left]; trivial.
  simpl in H. assert (j <> nid m) by (intros ->; apply H; auto).
  apply Nat.eqb_neq in H0. rewrite H0. apply IH. tauto.
Qed.

Lemma fold_once (f : element -> element) j : forall (l : list node) e,
  NoDup (map nid l) -> In j (map nid l) ->
  fold_left (fun e m => if j =? nid m then f e else e) l e = f e.
Proof.
  induction l as [|m l IH]; intros e ND H; [destruct H|].
  cbn [fold_left]. simpl in ND, H. inversion ND as [|? ? Hn ND']; subst.
  destruct (Nat.eqb_spec j (nid m)) as [E|E].
  - apply fold_skip. rewrite E. exact Hn.
  - apply IH; trivial. destruct H; [congruence | assumption].
Qed.


(** Under distinct identities a [forEach] over the matches of a test
    changes the elements that pass the test, each once. *)
Lemma forEach_update_filter f p doc :
  NoDup (ids doc) ->
  forEach_update f (filter (fun n => p (data n)) (subtrees doc)) doc
  = map_elements (fun _ e => if p e then f e else e) doc.
Proof.
  intros ND. rewrite forEach_update_map. apply map_elements_ext.
  intros m Hm. destruct (p (data m)) eqn:E.
  - apply fold_once.
    + apply NoDup_map_filter. exact ND.
    + apply in_map. apply filter_In. auto.
  - apply fold_skip. intros Hin. apply in_map_iff in Hin as (m' & Em & Hm').
    apply filter_In in Hm' as [Hm' Pm'].
    assert (m' = m) by (eapply same_id_same_node; eassumption).
    subst m'. congruence.
Qed.

Lemma close_modal_closed e : matches_list open_modals (close_modal e) = false.
Proof.
  unfold close_modal. destruct (matches_list open_modals e) eqn:E; trivial.
  unfold matches_list, open_modals. cbn [existsb forallb matches_simple].
  rewrite classList_remove_has. rewrite andb_false_r. reflexivity.
Qed.

Lemma escape_map doc :
  NoDup (ids doc) ->
  on_keydown "Escape" doc = Some (map_elements (fun _ => close_modal) doc).
Proof.
  intros ND. unfold on_keydown. cbn [String.eqb Ascii.eqb Bool.eqb].
  unfold document_querySelectorAll.
  rewrite (forEach_update_filter _ (matches_list open_modals)) by assumption.
  reflexivity.
Qed.

(** X11.  On a page whose identities are distinct the Escape key
    closes every open modal and nothing else: afterwards no element
    matches [[data-modal].active]; an element that was no open modal,
    one that is active but no modal among them, is as it was; an open
    modal has lost the class [active] and kept its tag, its attributes
    and its other classes; no node is added or removed. *)
Theorem escape_closes_modals (doc : node) :
  NoDup (ids doc) ->
  exists doc',
    on_keydown "Escape" doc = Some doc' /\
    doc' = map_elements (fun _ => close_modal) doc /\
    document_querySelectorAll open_modals doc' = [] /\
    ids doc' = ids doc /\
    forall m', In m' (subtrees doc') ->
      exists m, In m (subtrees doc) /\ nid m = nid m' /\
        tagName (data m') = tagName (data m) /\
        attributes (data m') = attributes (data m) /\
        (forall c, c <> "active"%string ->
           contains c (classList (data m')) = contains c (classList (data m))) /\
        (matches_list open_modals (data m) = false -> data m' = data m).
Proof.
  intros ND. eexists. split; [apply escape_map; assumption|].
  split; [reflexivity|]. split; [|split].
  - unfold document_querySelectorAll. rewrite subtrees_map_elements.
    induction (subtrees doc) as [|m l IH]; trivial.
    cbn [map filter]. rewrite data_map_elements, close_modal_closed. exact IH.
  - apply ids_map_elements.
  - intros m' Hm'. rewrite subtrees_map_elements in Hm'.
    apply in_map_iff in Hm' as (m & <- & Hm). exists m.
    rewrite nid_map_elements, data_map_elements. split; [assumption|].
    split; [reflexivity|]. unfold close_modal.
    destruct (matches_list open_modals (data m)).
    + repeat split; try discriminate.
      intros c Hc. apply classList_remove_other. exact Hc.
    + repeat split.
Qed.

Lemma escape_closes_modals_witness :
  exists doc',
    on_keydown "Escape" demo_page = Some doc' /\
    document_querySelectorAll open_modals doc' = [] /\
    option_map (fun m => classList (data m)) (lookup 3 doc')
    = Some ["modal"%string] /\
    lookup 4 doc' = lookup 4 demo_page.
Proof.
  destruct (escape_closes_modals demo_page) as (doc' & E & D & Q & _).
  - apply distinct_NoDup. reflexivity.
  - exists doc'. split; [exact E|]. split; [exact Q|].
    rewrite D. split; reflexivity.
Defined.


Lemma html_child_map_elements tags g doc :
  keeps_tag g ->
  html_child tags (map_elements g doc)
  = option_map (map_elements g) (html_child tags doc).
Proof.
  intros H. unfold html_child. destruct doc as [j e ks]. cbn [data kids map_elements].
  rewrite H. destruct (String.eqb (tagName e) "html"); trivial.
  induction ks as [|k ks IH]; trivial. cbn [map find].
  rewrite data_map_elements, H.
  destruct (existsb (String.eqb (tagName (data k))) tags); trivial.
Qed.

Lemma html_child_update tags i f doc :
  (forall e, tagName (f e) = tagName e) ->
  html_child tags (update i f doc)
  = option_map (update i f) (html_child tags doc).
Proof.
  intros H. rewrite update_map_elements, html_child_map_elements.
  - destruct (html_child tags doc); trivial. cbn. rewrite update_map_elements.
    reflexivity.
  - intros j e. destruct (j =? i); auto.
Qed.

Lemma close_modal_tag e : tagName (close_modal e) = tagName e.
Proof. unfold close_modal. destruct (matches_list open_modals e); reflexivity. Qed.

Lemma close_modal_other c e :
  c <> "active"%string ->
  contains c (classList (close_modal e)) = contains c (classList e).
Proof.
  intros H. unfold close_modal. destruct (matches_list open_modals e); trivial.
  apply classList_remove_other. exact H.
Qed.

Lemma on_input_step i doc body :
  NoDup (ids doc) -> document_body doc = Some body ->
  exists doc' body',
    on_input i doc = Some doc' /\ NoDup (ids doc') /\
    document_body doc' = Some body' /\ nid body' = nid body /\
    contains "keyboard-nav" (classList (data body'))
    = keyboard_nav [i] (contains "keyboard-nav" (classList (data body))).
Proof.
  intros ND Hb. destruct i as [key|]; cbn [on_input keyboard_nav].
  - destruct (String.eqb key "Escape") eqn:Ee.
    + apply String.eqb_eq in Ee. subst key.
      rewrite escape_map by assumption. cbn [String.eqb Ascii.eqb Bool.eqb].
      eexists _, _. split; [reflexivity|]. rewrite ids_map_elements.
      split; [assumption|]. unfold document_body.
      rewrite html_child_map_elements by (intros j e; apply close_modal_tag).
      unfold document_body in Hb. rewrite Hb. cbn [option_map].
      split; [reflexivity|]. rewrite nid_map_elements, data_map_elements.
      split; [reflexivity|]. apply close_modal_other. discriminate.
    + unfold on_keydown. rewrite Ee. destruct (String.eqb key "Tab") eqn:Et.
      * rewrite Hb. eexists _, _. split; [reflexivity|]. rewrite ids_update.
        split; [assumption|]. unfold document_body.
        rewrite html_child_update by reflexivity.
        unfold document_body in Hb. rewrite Hb. cbn [option_map].
        split; [reflexivity|]. rewrite nid_update, data_update, Nat.eqb_refl.
        split; [reflexivity|]. apply classList_add_has.
      * exists doc, body. auto.
  - unfold on_mousedown. rewrite Hb. eexists _, _. split; [reflexivity|].
    rewrite ids_update. split; [assumption|]. unfold document_body.
    rewrite html_child_update by reflexivity.
    unfold document_body in Hb. rewrite Hb. cbn [option_map].
    split; [reflexivity|]. rewrite nid_update, data_update, Nat.eqb_refl.
    split; [reflexivity|]. apply classList_remove_has.
Qed.

Lemma keyboard_nav_cons i l b :
  keyboard_nav (i :: l) b = keyboard_nav l (keyboard_nav [i] b).
Proof. destruct i; reflexivity. Qed.

(** X12.  On a page with a body and distinct identities no sequence
    of key presses and mouse presses throws, and the body carries the
    class [keyboard-nav] afterwards exactly when the last of the Tab
    presses and mouse presses was a Tab press; when there was neither,
    it carries the class as it did.  The other keys, Escape among them,
    do not touch that class. *)
Theorem keyboard_nav_follows (l : list input) (doc body : node) :
  NoDup (ids doc) -> document_body doc = Some body ->
  exists doc' body',
    on_inputs l doc = Some doc' /\
    document_body doc' = Some body' /\ nid body' = nid body /\
    contains "keyboard-nav" (classList (data body'))
    = keyboard_nav l (contains "keyboard-nav" (classList (data body))).
Proof.
  revert doc body. induction l as [|i l IH]; intros doc body ND Hb.
  - exists doc, body. auto.
  - destruct (on_input_step i doc body ND Hb) as (d1 & b1 & E1 & ND1 & Hb1 & Eb & Ec).
    destruct (IH d1 b1 ND1 Hb1) as (d2 & b2 & E2 & Hb2 & Eb2 & Ec2).
    exists d2, b2. cbn [on_inputs]. rewrite E1. split; [assumption|].
    split; [assumption|]. split; [congruence|].
    rewrite keyboard_nav_cons, <- Ec. exact Ec2.
Qed.

Lemma keyboard_nav_follows_witness :
  exists doc' body',
    on_inputs [Keydown "Tab"; Keydown "Escape"; Mousedown; Keydown "a";
               Keydown "Tab"; Keydown "Enter"] demo_page = Some doc' /\
    document_body doc' = Some body' /\ nid body' = 2 /\
    contains "keyboard-nav" (classList (data body')) = true.
Proof.
  exact (keyboard_nav_follows
           [Keydown "Tab"; Keydown "Escape"; Mousedown; Keydown "a";
            Keydown "Tab"; Keydown "Enter"] demo_page
           (Node 2 (plain "body") (kids (Node 2 (plain "body")
              [Node 3 (mkElement "div" [("data-modal", "")]%string
                         ["modal"; "active"]%string [] [] [] []) [];
               Node 4 (mkElement "li" [] ["active"%string] [] [] [] []) [];
               Node 5 (plain "button") [];
               Node 6 (mkElement "a"
                         [("role", "button"); ("data-interactive", "")]%string
                         ["hover-active"%string] [] [] []
                         [("transform", "rotate(3deg)")]%string) [];
               Node 7 (mkElement "div" [("data-animate", "")]%string
                         [] [] [] [] []) [];
               Node 8 (mkElement "div" [("data-animate", "")]%string
                         [] [] [] [] []) []])))
           (distinct_NoDup (ids demo_page) eq_refl) eq_refl).
Defined.

Lemma tag_at_node i g n :
  (forall m, tagName (data (g m)) = tagName (data m)) ->
  tagName (data (at_node i g n)) = tagName (data n).
Proof.
  intros H. destruct n as [j e ks]. simpl. destruct (j =? i); [apply H|].
  reflexivity.
Qed.

Lemma html_child_at_node tags g doc h :
  NoDup (ids doc) -> html_child tags doc = Some h ->
  (forall m, tagName (data (g m)) = tagName (data m)) ->
  html_child tags (at_node (nid h) g doc) = Some (g h).
Proof.
  intros ND Hh Hg. unfold html_child in *. destruct doc as [j e ks].
  cbn [data kids] in Hh.
  destruct (String.eqb (tagName e) "html") eqn:Et; [|discriminate].
  assert (Hin : In h ks) by (apply find_some in Hh; tauto).
  assert (N : j <> nid h).
  { intros ->. apply (NoDup_root_not_below (nid h) e ks h ND); trivial.
    apply in_flat_map. exists h. split; [assumption | apply subtrees_self]. }
  apply Nat.eqb_neq in N. cbn [at_node]. rewrite N. cbn [data kids].
  rewrite Et. clear ND Hin N Et.
  induction ks as [|k ks IH]; [discriminate|]. cbn [map find] in *.
  rewrite tag_at_node by assumption.
  destruct (existsb (String.eqb (tagName (data k))) tags).
  - injection Hh as ->. destruct h as [i eh kh]. simpl.
    rewrite Nat.eqb_refl. reflexivity.
  - apply IH. exact Hh.
Qed.

Lemma matches_count sl doc :
  List.length (document_querySelectorAll sl doc)
  = List.length (filter (fun x => matches_list sl (snd x)) (nodes doc)).
Proof.
  unfold document_querySelectorAll, nodes.
  rewrite filter_map_comm, length_map. reflexivity.
Qed.

Lemma nodes_add_last X n :
  nodes (add_last X n) = nodes n ++ nodes X.
Proof.
  unfold nodes. rewrite subtrees_add_last. destruct n as [j e ks].
  cbn [map add_last label nid data subtrees]. f_equal.
  rewrite map_app. reflexivity.
Qed.

Lemma html_child_in tags doc h :
  html_child tags doc = Some h -> In h (subtrees doc).
Proof.
  unfold html_child. destruct (String.eqb (tagName (data doc)) "html");
    [|discriminate].
  intros H. apply find_some in H as [H _]. apply subtrees_kid. exact H.
Qed.

(** X13.  On a page with a head, distinct identities and a next
    identity above them, the statement that adds the style sheet does
    not throw and running it again changes nothing.  On a page that has
    a [style[data-animations]] already it changes nothing the first
    time either; otherwise it makes one style element, the last child
    of the head, and the page then has exactly one such element. *)
Theorem add_animations_once (doc head : node) (fresh : nat) :
  NoDup (ids doc) -> Forall (fun i => i < fresh) (ids doc) ->
  document_head doc = Some head ->
  exists doc' fresh',
    add_animations doc fresh = Some (doc', fresh') /\
    add_animations doc' fresh' = Some (doc', fresh') /\
    (document_querySelectorAll animations_style doc <> [] ->
     doc' = doc /\ fresh' = fresh) /\
    (document_querySelectorAll animations_style doc = [] ->
     fresh' = S fresh /\
     document_head doc' = Some (add_last (style_element fresh) head) /\
     List.length (document_querySelectorAll animations_style doc') = 1).
Proof.
  intros ND B Hh. unfold add_animations.
  destruct (document_querySelectorAll animations_style doc) as [|x l] eqn:Q.
  - cbn [hd_error]. rewrite Hh.
    set (X := style_element fresh).
    assert (Hd : appendChild (nid head) X doc
                 = replace (nid head) (add_last X head) doc).
    { unfold appendChild. rewrite detach_frame.
      - apply at_node_focus; trivial. eapply html_child_in; eassumption.
      - apply (bound_not_in fresh); trivial. }
    assert (Hc : List.length
                   (document_querySelectorAll animations_style
                      (appendChild (nid head) X doc)) = 1).
    { rewrite Hd, matches_count.
      destruct (nodes_replace doc head ND (html_child_in _ _ _ Hh))
        as (pre & post & E1 & E2).
      rewrite E2, nodes_add_last.
      assert (Z : List.length (filter (fun x => matches_list animations_style (snd x))
                    (nodes doc)) = 0).
      { rewrite <- matches_count, Q. reflexivity. }
      assert (HX : filter (fun x => matches_list animations_style (snd x))
                     (nodes X) = [label X]) by reflexivity.
      rewrite E1 in Z. rewrite !filter_app, !length_app in Z.
      rewrite !filter_app, !length_app, HX. cbn [List.length]. lia. }
    eexists _, _. split; [reflexivity|].
    split; [|split].
    + destruct (document_querySelectorAll animations_style
                  (appendChild (nid head) X doc)); [discriminate Hc|].
      reflexivity.
    + intros N. congruence.
    + intros _. split; [reflexivity|]. split; [|exact Hc].
      unfold appendChild. rewrite detach_frame
        by (apply (bound_not_in fresh); trivial).
      unfold document_head.
      apply (html_child_at_node _ (add_last X)); trivial.
      intros [j e ks]. reflexivity.
  - cbn [hd_error]. exists doc, fresh. rewrite Q. cbn [hd_error].
    repeat split; congruence.
Qed.

Lemma add_animations_once_witness :
  exists doc',
    add_animations demo_page 9 = Some (doc', 10) /\
    add_animations doc' 10 = Some (doc', 10) /\
    document_head doc' = Some (Node 1 (plain "head") [style_element 9]).
Proof.
  destruct (add_animations_once demo_page (Node 1 (plain "head") []) 9)
    as (doc' & fresh' & E1 & E2 & _ & H).
  - apply distinct_NoDup. reflexivity.
  - exact (proj2 (well_formedb_spec (mkWorld demo_page 9 [] [] 0 []) eq_refl)).
  - reflexivity.
  - destruct (H eq_refl) as (-> & Hh & _).
    exists doc'. split; [exact E1|]. split; [exact E2 | exact Hh].
Defined.

Lemma handlers_of_flat_map3 target ev (h1 h2 h3 : pointer_handler) e1 e2 e3 :
  forall l : list node,
  NoDup (map nid l) ->
  pointer_handlers_of target ev
    (flat_map (fun b => [(nid b, e1, h1); (nid b, e2, h2); (nid b, e3, h3)]) l)
  = if existsb (fun b => nid b =? target) l then
      (if pointer_event_eqb e1 ev then [h1] else [])
      ++ (if pointer_event_eqb e2 ev then [h2] else [])
      ++ (if pointer_event_eqb e3 ev then [h3] else [])
    else [].
Proof.
  unfold pointer_handlers_of.
  induction l as [|b l IH]; intros ND; trivial.
  cbn [map] in ND. inversion ND as [|? ? Hn ND']; subst.
  cbn [flat_map app filter fst snd existsb]. specialize (IH ND').
  destruct (Nat.eqb_spec (nid b) target) as [E|E].
  - cbn [andb orb].
    assert (X : existsb (fun b0 => nid b0 =? target) l = false).
    { destruct (existsb (fun b0 => nid b0 =? target) l) eqn:X; trivial.
      exfalso. apply existsb_exists in X as (y & Hy & Ey).
      apply Nat.eqb_eq in Ey. apply Hn. rewrite E, <- Ey. apply in_map.
      exact Hy. }
    rewrite X in IH.
    destruct (pointer_event_eqb e1 ev), (pointer_event_eqb e2 ev),
      (pointer_event_eqb e3 ev); cbn [map snd app]; rewrite IH; reflexivity.
  - cbn [andb orb]. exact IH.
Qed.

Lemma handlers_of_flat_map2 target ev (h1 h2 : pointer_handler) e1 e2 :
  forall l : list node,
  NoDup (map nid l) ->
  pointer_handlers_of target ev
    (flat_map (fun b => [(nid b, e1, h1); (nid b, e2, h2)]) l)
  = if existsb (fun b => nid b =? target) l then
      (if pointer_event_eqb e1 ev then [h1] else [])
      ++ (if pointer_event_eqb e2 ev then [h2] else [])
    else [].
Proof.
  unfold pointer_handlers_of.
  induction l as [|b l IH]; intros ND; trivial.
  cbn [map] in ND. inversion ND as [|? ? Hn ND']; subst.
  cbn [flat_map app filter fst snd existsb]. specialize (IH ND').
  destruct (Nat.eqb_spec (nid b) target) as [E|E].
  - cbn [andb orb].
    assert (X : existsb (fun b0 => nid b0 =? target) l = false).
    { destruct (existsb (fun b0 => nid b0 =? target) l) eqn:X; trivial.
      exfalso. apply existsb_exists in X as (y & Hy & Ey).
      apply Nat.eqb_eq in Ey. apply Hn. rewrite E, <- Ey. apply in_map.
      exact Hy. }
    rewrite X in IH.
    destruct (pointer_event_eqb e1 ev), (pointer_event_eqb e2 ev);
      cbn [map snd app]; rewrite IH; reflexivity.
  - cbn [andb orb]. exact IH.
Qed.

Lemma pointer_handlers_of_app target ev a b :
  pointer_handlers_of target ev (a ++ b)
  = pointer_handlers_of target ev a ++ pointer_handlers_of target ev b.
Proof. unfold pointer_handlers_of. rewrite filter_app, map_app. reflexivity. Qed.

(** Whether the node [m] of the page is among the matches. *)
Lemma matched_by_id sl doc m :
  NoDup (ids doc) -> In m (subtrees doc) ->
  existsb (fun b => nid b =? nid m) (document_querySelectorAll sl doc)
  = matches_list sl (data m).
Proof.
  intros ND Hm. unfold document_querySelectorAll.
  destruct (matches_list sl (data m)) eqn:E.
  - apply existsb_exists. exists m. split; [|apply Nat.eqb_refl].
    apply filter_In. auto.
  - destruct (existsb _ _) eqn:X; trivial. exfalso.
    apply existsb_exists in X as (y & Hy & Ey). apply Nat.eqb_eq in Ey.
    apply filter_In in Hy as [Hy Py].
    assert (y = m) by (eapply same_id_same_node; eassumption).
    subst y. congruence.
Qed.

(** The listeners of an element of the page: one of each kind at most,
    whichever way it matches. *)
Lemma pointer_handlers_of_page doc m ev :
  NoDup (ids doc) -> In m (subtrees doc) ->
  pointer_handlers_of (nid m) ev (pointer_listeners doc)
  = (if matches_list buttons (data m) then
       match ev with
       | Click => [CreateRipple]
       | Mouseenter => [HoverOn]
       | Mouseleave => [HoverOff]
       end
     else [])
    ++ (if matches_list interactive (data m) then
          match ev with
          | Click => []
          | Mouseenter => [LiftOn]
          | Mouseleave => [LiftOff]
          end
        else []).
Proof.
  intros ND Hm. unfold pointer_listeners.
  rewrite pointer_handlers_of_app.
  rewrite handlers_of_flat_map3, handlers_of_flat_map2
    by (apply NoDup_map_filter; exact ND).
  rewrite !matched_by_id by assumption.
  destruct (matches_list buttons (data m)),
    (matches_list interactive (data m)), ev; reflexivity.
Qed.

Lemma update_update i f g n :
  update i f (update i g n) = update i (fun e => f (g e)) n.
Proof.
  rewrite !update_map_elements, map_elements_compose.
  apply map_elements_ext. intros m _. destruct (nid m =? i); reflexivity.
Qed.

Lemma fold_update i : forall (hs : list pointer_handler) doc,
  fold_left (fun d h => update i (hover h) d) hs doc
  = update i (fun e => fold_left (fun e h => hover h e) hs e) doc.
Proof.
  induction hs as [|h hs IH]; intros doc; cbn [fold_left].
  - symmetry. apply update_fix. reflexivity.
  - rewrite IH, update_update. reflexivity.
Qed.

Lemma get_set_property k v l : getAttribute k (set_property k v l) = Some v.
Proof.
  induction l as [|[k' v'] l IH]; simpl.
  - rewrite String.eqb_refl. reflexivity.
  - destruct (String.eqb k k') eqn:E; simpl.
    + rewrite String.eqb_refl. reflexivity.
    + rewrite E. exact IH.
Qed.

Lemma get_set_property_other k k' v l :
  k' <> k -> getAttribute k' (set_property k v l) = getAttribute k' l.
Proof.
  intros H. induction l as [|[k0 v0] l IH]; simpl.
  - apply String.eqb_neq in H. rewrite H. reflexivity.
  - destruct (String.eqb k k0) eqn:E; simpl.
    + apply String.eqb_eq in E. subst k0.
      apply String.eqb_neq in H. rewrite H. reflexivity.
    + destruct (String.eqb k' k0); trivial.
Qed.

Lemma get_remove_property k l : getAttribute k (remove_property k l) = None.
Proof.
  induction l as [|[k' v'] l IH]; simpl; trivial.
  destruct (String.eqb k k') eqn:E; simpl; trivial. rewrite E. exact IH.
Qed.

Lemma get_remove_property_other k k' l :
  k' <> k -> getAttribute k' (remove_property k l) = getAttribute k' l.
Proof.
  intros H. induction l as [|[k0 v0] l IH]; simpl; trivial.
  destruct (String.eqb k k0) eqn:E; simpl.
  - apply String.eqb_eq in E. subst k0.
    apply String.eqb_neq in H. rewrite H. exact IH.
  - destruct (String.eqb k' k0); trivial.
Qed.

Lemma hover_dispatch_eq doc m ev :
  NoDup (ids doc) -> In m (subtrees doc) ->
  hover_dispatch (nid m) ev (pointer_listeners doc) doc
  = update (nid m)
      (fun e => fold_left (fun e h => hover h e)
                  (pointer_handlers_of (nid m) ev (pointer_listeners doc)) e)
      doc.
Proof. intros ND Hm. unfold hover_dispatch. apply fold_update. Qed.

Lemma update_at doc m f :
  NoDup (ids doc) -> In m (subtrees doc) ->
  update (nid m) f doc = update (nid m) (fun _ => f (data m)) doc.
Proof.
  intros ND Hm. rewrite !update_map_elements. apply map_elements_ext.
  intros x Hx. destruct (Nat.eqb_spec (nid x) (nid m)) as [E|E]; trivial.
  assert (x = m) by (eapply same_id_same_node; eassumption).
  subst x. reflexivity.
Qed.

Lemma classList_set_style k v e : classList (set_style k v e) = classList e.
Proof. reflexivity. Qed.

Lemma classList_clear_style k e : classList (clear_style k e) = classList e.
Proof. reflexivity. Qed.

(** X14.  On a page whose identities are distinct, the pointer enters
    an element and leaves it again, with the listeners the script
    added when it ran.  Only that element changes.  An element that
    matches [button, [role="button"]] carries [hover-active] while the
    pointer is on it and not afterwards, also when it carried that class
    before.  An element with [data-interactive] has the transform and
    the shadow of the script while the pointer is on it; afterwards
    its transform is [translateY(0)] and it has no shadow of its own,
    whatever it had before.  An element that matches both gets both
    treatments, and one that matches neither is left as it is. *)
Theorem hover_in_and_out (doc m : node) :
  NoDup (ids doc) -> In m (subtrees doc) ->
  let ls := pointer_listeners doc in
  let e := data m in
  exists e1 e2,
    hover_dispatch (nid m) Mouseenter ls doc
    = update (nid m) (fun _ => e1) doc /\
    hover_dispatch (nid m) Mouseleave ls
      (hover_dispatch (nid m) Mouseenter ls doc)
    = update (nid m) (fun _ => e2) doc /\
    (if matches_list buttons e then
       contains "hover-active" (classList e1) = true /\
       contains "hover-active" (classList e2) = false /\
       forall c, c <> "hover-active"%string ->
                 contains c (classList e2) = contains c (classList e)
     else classList e1 = classList e /\ classList e2 = classList e) /\
    (if matches_list interactive e then
       style_of "transform" e1 = Some "translateY(-4px)"%string /\
       style_of "box-shadow" e1
       = Some "0 8px 24px rgba(0, 0, 0, 0.15)"%string /\
       style_of "transform" e2 = Some "translateY(0)"%string /\
       style_of "box-shadow" e2 = None /\
       forall k, k <> "transform"%string -> k <> "box-shadow"%string ->
                 style_of k e2 = style_of k e
     else style e1 = style e /\ style e2 = style e) /\
    tagName e2 = tagName e /\ attributes e2 = attributes e /\
    value e2 = value e /\ textContent e2 = textContent e.
Proof.
  intros ND Hm ls e.
  set (enter := pointer_handlers_of (nid m) Mouseenter ls).
  set (leave := pointer_handlers_of (nid m) Mouseleave ls).
  set (e1 := fold_left (fun e h => hover h e) enter e).
  set (e2 := fold_left (fun e h => hover h e) leave e1).
  assert (D1 : hover_dispatch (nid m) Mouseenter ls doc
               = update (nid m) (fun _ => e1) doc).
  { unfold ls. rewrite hover_dispatch_eq by assumption.
    apply update_at; assumption. }
  assert (D2 : hover_dispatch (nid m) Mouseleave ls
                 (update (nid m) (fun _ => e1) doc)
               = update (nid m) (fun _ => e2) doc).
  { unfold hover_dispatch. rewrite fold_update, update_update. reflexivity. }
  exists e1, e2. split; [exact D1|]. split; [rewrite D1; exact D2|].
  unfold e2, e1, enter, leave, ls.
  rewrite !pointer_handlers_of_page by assumption. fold e.
  destruct (matches_list buttons e), (matches_list interactive e);
    cbn [app fold_left hover].
  - split; [|split; [|auto]].
    + rewrite !classList_clear_style, !classList_set_style.
      split; [apply classList_add_has|]. split.
      * apply classList_remove_has.
      * intros c Hc.
        rewrite classList_remove_other by assumption.
        rewrite !classList_set_style.
        apply classList_add_other. assumption.
    + unfold style_of. cbn [style clear_style set_style classList_remove classList_add].
      split; [rewrite get_set_property_other by discriminate;
              apply get_set_property|].
      split; [apply get_set_property|].
      split; [rewrite get_remove_property_other by discriminate;
              apply get_set_property|].
      split; [apply get_remove_property|].
      intros k K1 K2.
      rewrite get_remove_property_other, !get_set_property_other by assumption.
      reflexivity.
  - split; [|split; [|auto]].
    + split; [apply classList_add_has|]. split.
      * apply classList_remove_has.
      * intros c Hc.
        rewrite classList_remove_other, classList_add_other by assumption.
        reflexivity.
    + split; reflexivity.
  - split; [|split; [|auto]].
    + split; reflexivity.
    + unfold style_of. cbn [style clear_style set_style].
      split; [rewrite get_set_property_other by discriminate;
              apply get_set_property|].
      split; [apply get_set_property|].
      split; [rewrite get_remove_property_other by discriminate;
              apply get_set_property|].
      split; [apply get_remove_property|].
      intros k K1 K2.
      rewrite get_remove_property_other, !get_set_property_other by assumption.
      reflexivity.
  - repeat split.
Qed.

Lemma hover_in_and_out_witness :
  option_map data
    (lookup 6
       (hover_dispatch 6 Mouseleave (pointer_listeners demo_page)
          (hover_dispatch 6 Mouseenter (pointer_listeners demo_page)
             demo_page)))
  = Some (mkElement "a" [("role", "button"); ("data-interactive", "")]%string
            [] [] [] [] [("transform", "translateY(0)")]%string).
Proof.
  destruct (hover_in_and_out demo_page
              (Node 6 (mkElement "a"
                         [("role", "button"); ("data-interactive", "")]%string
                         ["hover-active"%string] [] [] []
                         [("transform", "rotate(3deg)")]%string) []))
    as (e1 & e2 & _ & E2 & _).
  - apply distinct_NoDup. reflexivity.
  - right. right. right. right. right. right. left. reflexivity.
  - reflexivity.
Defined.

Lemma classList_add_twice c e :
  classList_add c (classList_add c e) = classList_add c e.
Proof. apply classList_add_fix. apply classList_add_has. Qed.



(** The callback, entry by entry, at once. *)
Lemma fade_in_eq : forall entries st,
  fade_in entries st
  = mkObserving
      (filter (fun j => negb (intersecting j entries)) (observed st))
      (map_elements
         (fun j e => if intersecting j entries
                     then classList_add "animate-fade-in" e else e)
         (observed_doc st)).
Proof.
  unfold fade_in.
  induction entries as [|[i b] entries IH]; intros [obs doc]; cbn [fold_left].
  - cbn [intersecting existsb negb observed observed_doc].
    rewrite map_elements_id.
    f_equal. symmetry. apply filter_id. reflexivity.
  - cbn [fst snd]. destruct b.
    + rewrite IH. cbn [observed observed_doc]. f_equal.
      * unfold unobserve. rewrite filter_filter. apply filter_ext.
        intros j. cbn [intersecting existsb fst snd].
        rewrite andb_true_r, negb_orb, (Nat.eqb_sym i j). reflexivity.
      * rewrite update_map_elements, map_elements_compose.
        apply map_elements_ext. intros m _.
        cbn [intersecting existsb fst snd]. rewrite andb_true_r.
        rewrite (Nat.eqb_sym i (nid m)).
        destruct (nid m =? i); cbn [orb]; trivial.
        fold (intersecting (nid m) entries).
        destruct (intersecting (nid m) entries); trivial.
        apply classList_add_twice.
    + rewrite IH. cbn [observed observed_doc]. f_equal.
      * apply filter_ext. intros j. cbn [intersecting existsb fst snd].
        rewrite andb_false_r. reflexivity.
      * apply map_elements_ext. intros m _.
        cbn [intersecting existsb fst snd]. rewrite andb_false_r.
        reflexivity.
Qed.

Lemma intersecting_filter j (p : nat -> bool) entries :
  intersecting j (filter (fun en => p (fst en)) entries)
  = p j && intersecting j entries.
Proof.
  unfold intersecting. induction entries as [|[i b] l IH]; cbn [filter existsb fst snd].
  - symmetry. apply andb_false_r.
  - destruct (p i) eqn:E; cbn [existsb fst snd]; rewrite IH.
    + destruct (Nat.eqb_spec i j) as [->|N].
      * rewrite E. cbn [andb]. reflexivity.
      * cbn [andb orb]. reflexivity.
    + destruct (Nat.eqb_spec i j) as [->|N].
      * rewrite E. reflexivity.
      * reflexivity.
Qed.

Lemma intersecting_app j a b :
  intersecting j (a ++ b) = intersecting j a || intersecting j b.
Proof. apply existsb_app. Qed.


Lemma among_filter p l j : among (filter p l) j = among l j && p j.
Proof.
  unfold among. induction l as [|a l IH]; simpl; trivial.
  destruct (p a) eqn:E; simpl; rewrite IH.
  - destruct (Nat.eqb_spec j a) as [->|N]; simpl; [rewrite E|]; trivial.
  - destruct (Nat.eqb_spec j a) as [->|N]; simpl; [rewrite E|]; trivial.
    rewrite andb_false_r. reflexivity.
Qed.

Lemma among_in l j : among l j = true <-> In j l.
Proof.
  unfold among. rewrite existsb_exists. split.
  - intros (x & Hx & E). apply Nat.eqb_eq in E. subst. exact Hx.
  - intros H. exists j. split; [exact H | apply Nat.eqb_refl].
Qed.

Lemma fade_in_report_eq entries st :
  fade_in_report entries st
  = mkObserving
      (filter (fun j => negb (intersecting j entries)) (observed st))
      (map_elements
         (fun j e => if among (observed st) j && intersecting j entries
                     then classList_add "animate-fade-in" e else e)
         (observed_doc st)).
Proof.
  unfold fade_in_report. rewrite fade_in_eq. f_equal.
  - apply filter_ext_in'. intros j Hj.
    rewrite (intersecting_filter j (fun i => existsb (Nat.eqb i) (observed st))).
    apply among_in in Hj. unfold among in Hj. rewrite Hj. reflexivity.
  - apply map_elements_ext. intros m _.
    rewrite (intersecting_filter _ (fun i => existsb (Nat.eqb i) (observed st))).
    reflexivity.
Qed.

Lemma fade_in_reports_eq : forall bs st,
  fade_in_reports bs st
  = mkObserving
      (filter (fun j => negb (intersecting j (List.concat bs))) (observed st))
      (map_elements
         (fun j e => if among (observed st) j && intersecting j (List.concat bs)
                     then classList_add "animate-fade-in" e else e)
         (observed_doc st)).
Proof.
  unfold fade_in_reports.
  induction bs as [|b bs IH]; intros [obs doc]; cbn [fold_left List.concat].
  - cbn [intersecting existsb negb observed observed_doc].
    f_equal.
    + symmetry. apply filter_id. reflexivity.
    + rewrite <- (map_elements_id doc) at 1. apply map_elements_ext.
      intros m _. rewrite andb_false_r. reflexivity.
  - rewrite IH, fade_in_report_eq. cbn [observed observed_doc]. f_equal.
    + rewrite filter_filter. apply filter_ext. intros j.
      rewrite intersecting_app, negb_orb. reflexivity.
    + rewrite map_elements_compose. apply map_elements_ext. intros m _.
      rewrite among_filter, intersecting_app.
      destruct (among obs (nid m)), (intersecting (nid m) b),
        (intersecting (nid m) (List.concat bs)); cbn [andb orb negb]; trivial.
Qed.

Lemma observe_all : forall (l : list node) acc,
  NoDup (acc ++ map nid l) ->
  fold_left (fun l n => observe (nid n) l) l acc = acc ++ map nid l.
Proof.
  induction l as [|n l IH]; intros acc ND; cbn [fold_left map].
  - rewrite app_nil_r. reflexivity.
  - cbn [map] in ND. unfold observe at 2.
    assert (X : existsb (Nat.eqb (nid n)) acc = false).
    { destruct (existsb (Nat.eqb (nid n)) acc) eqn:X; trivial. exfalso.
      apply existsb_exists in X as (y & Hy & E). apply Nat.eqb_eq in E.
      subst y. apply NoDup_remove_2 in ND. apply ND.
      apply in_or_app. left. exact Hy. }
    rewrite X. rewrite IH.
    + rewrite <- app_assoc. reflexivity.
    + rewrite <- app_assoc. exact ND.
Qed.

Lemma among_map_nid (l : list node) j :
  among (map nid l) j = existsb (fun b => nid b =? j) l.
Proof.
  unfold among. induction l as [|x l IH]; cbn [map existsb]; trivial.
  rewrite IH, (Nat.eqb_sym j). reflexivity.
Qed.

(** X15.  On a page whose identities are distinct, after any reports
    of the browser: the elements still observed are the elements with
    [data-animate] that no report has called intersecting so far, and
    the page is the page as it was with the class [animate-fade-in]
    added to the elements with [data-animate] that some report has
    called intersecting.  So an element is revealed by the first report
    that calls it intersecting, is never reported on again, and no
    other element is touched. *)
Theorem fade_in_once (doc : node) (bs : list (list (nat * bool))) :
  NoDup (ids doc) ->
  let st := fade_in_reports bs (fade_in_start doc) in
  observed st
  = filter (fun j => negb (intersecting j (List.concat bs)))
      (map nid (document_querySelectorAll animated doc)) /\
  observed_doc st
  = map_elements
      (fun j e => if matches_list animated e && intersecting j (List.concat bs)
                  then classList_add "animate-fade-in" e else e)
      doc.
Proof.
  intros ND st. unfold st. rewrite fade_in_reports_eq.
  assert (O : observed (fade_in_start doc)
              = map nid (document_querySelectorAll animated doc)).
  { unfold fade_in_start. cbn [observed].
    rewrite observe_all; [reflexivity|]. cbn [app].
    apply NoDup_map_filter. exact ND. }
  cbn [observed observed_doc]. rewrite O. split; [reflexivity|].
  cbn [fade_in_start observed_doc].
  apply map_elements_ext. intros m Hm.
  assert (E : among (map nid (document_querySelectorAll animated doc)) (nid m)
              = matches_list animated (data m)).
  { rewrite among_map_nid. apply matched_by_id; assumption. }
  rewrite E. reflexivity.
Qed.

Lemma fade_in_once_witness :
  observed
    (fade_in_reports [[(7, false); (8, true)]; [(8, true); (4, true)]]
       (fade_in_start demo_page))
  = [7].
Proof.
  exact (proj1 (fade_in_once demo_page
                  [[(7, false); (8, true)]; [(8, true); (4, true)]]
                  (distinct_NoDup (ids demo_page) eq_refl))).
Defined.

(** *** Timers in the order they are due *)

Lemma earliest_due {T} limit (q : list (timer T)) tm :
  earliest limit q = Some tm -> In tm q /\ timer_due tm <= limit.
Proof.
  revert tm. induction q as [|a q IH]; intros tm; cbn [earliest]; [discriminate|].
  destruct (earliest limit q) as [tm'|].
  - destruct (IH tm' eq_refl) as [I1 I2].
    destruct (Nat.leb_spec (timer_due a) (timer_due tm')); intros [= <-].
    + split; [left; reflexivity | lia].
    + split; [right; assumption | assumption].
  - destruct (Nat.leb_spec (timer_due a) limit); [|discriminate].
    intros [= <-]. split; [left; reflexivity | assumption].
Qed.

(** In a queue in the order of the due times the head is the timer to
    fire. *)
Lemma earliest_head {T} limit (a : timer T) q :
  Forall (fun tm => timer_due a <= timer_due tm) q ->
  earliest limit (a :: q)
  = if timer_due a <=? limit then Some a else None.
Proof.
  intros H. cbn [earliest]. destruct (earliest limit q) as [tm'|] eqn:E.
  - apply earliest_due in E as [I1 I2]. rewrite Forall_forall in H.
    specialize (H _ I1).
    destruct (Nat.leb_spec (timer_due a) (timer_due tm')); [|lia].
    destruct (Nat.leb_spec (timer_due a) limit); [reflexivity | lia].
  - reflexivity.
Qed.

Lemma drop_timer_head {T} (a : timer T) q :
  ~ In (timer_id a) (map timer_id q) ->
  drop_timer (timer_id a) (a :: q) = q.
Proof.
  intros H. unfold drop_timer. cbn [filter]. rewrite Nat.eqb_refl. cbn [negb].
  apply filter_id. intros x Hx. apply negb_true_iff, Nat.eqb_neq.
  intros E. apply H. rewrite <- E. apply in_map. exact Hx.
Qed.

(** *** Appending and removing *)

Lemma nid_at_node_add_last b x n : nid (at_node b (add_last x) n) = nid n.
Proof.
  destruct n as [j e ks]. cbn [at_node]. destruct (j =? b); reflexivity.
Qed.

Lemma flat_map_app_one {A B} (F : A -> list B) l a :
  flat_map F (l ++ [a]) = flat_map F l ++ F a.
Proof. rewrite flat_map_app. cbn. rewrite app_nil_r. reflexivity. Qed.

(** Removing one element and appending another can be done in either
    order. *)
Lemma detach_at_node_add_last r b x n :
  nid x <> r -> kids x = [] ->
  detach r (at_node b (add_last x) n) = at_node b (add_last x) (detach r n).
Proof.
  intros Hx Hk.
  assert (Dx : detach r x = x).
  { destruct x as [i e ks]. cbn in Hk. subst ks. reflexivity. }
  induction n as [j e ks IH] using node_induction.
  cbn [at_node detach]. destruct (j =? b) eqn:Ej.
  - cbn [add_last detach at_node]. f_equal.
    rewrite flat_map_app_one. apply Nat.eqb_neq in Hx. rewrite Hx, Dx.
    reflexivity.
  - cbn [detach]. f_equal. rewrite flat_map_map.
    rewrite Forall_forall in IH.
    induction ks as [|k ks IHks]; trivial. cbn [flat_map map].
    rewrite nid_at_node_add_last.
    destruct (nid k =? r).
    + apply IHks. intros y Hy. apply IH. right. exact Hy.
    + cbn [app map]. rewrite IH by (left; reflexivity). f_equal.
      apply IHks. intros y Hy. apply IH. right. exact Hy.
Qed.

(** An element appended and then removed leaves the page as it was. *)
Lemma detach_appended b x n :
  ~ In (nid x) (ids n) -> kids x = [] ->
  detach (nid x) (at_node b (add_last x) n) = n.
Proof.
  intros Hn Hk.
  induction n as [j e ks IH] using node_induction.
  cbn [at_node]. destruct (j =? b) eqn:Ej.
  - cbn [add_last detach]. f_equal. rewrite flat_map_app_one.
    rewrite Nat.eqb_refl, app_nil_r.
    change (flat_map (fun k => if nid k =? nid x then [] else [detach (nid x) k]) ks)
      with (kids (detach (nid x) (Node j e ks))).
    rewrite detach_frame by assumption. reflexivity.
  - cbn [detach]. f_equal. rewrite flat_map_map.
    rewrite Forall_forall in IH.
    assert (H : forall k, In k ks -> ~ In (nid x) (ids k)).
    { intros k Hk0. eapply not_in_kid; eassumption. }
    clear Hn. induction ks as [|k ks IHks]; trivial. cbn [flat_map].
    rewrite nid_at_node_add_last.
    assert (N : nid k <> nid x).
    { intros E. apply (H k); [left; reflexivity|]. rewrite <- E. apply ids_self. }
    apply Nat.eqb_neq in N. rewrite N. cbn [app].
    rewrite IH; [|left; reflexivity | apply H; left; reflexivity].
    f_equal. apply IHks.
    + intros y Hy. apply IH. right. exact Hy.
    + intros y Hy. apply H. right. exact Hy.
Qed.

Lemma ids_at_node_add_last b x n i :
  In i (ids (at_node b (add_last x) n)) -> In i (ids n) \/ In i (ids x).
Proof.
  induction n as [j e ks IH] using node_induction.
  cbn [at_node]. destruct (j =? b).
  - cbn [add_last]. rewrite !ids_Node, flat_map_app_one.
    intros [H|H]; [left; left; exact H|].
    apply in_app_or in H as [H|H]; [left; right; exact H | right; exact H].
  - rewrite !ids_Node. intros [H|H]; [left; left; exact H|].
    rewrite flat_map_map in H. apply in_flat_map in H as (k & Hk & H).
    rewrite Forall_forall in IH. destruct (IH k Hk H) as [H'|H'].
    + left. right. apply in_flat_map. eauto.
    + right. exact H'.
Qed.

Lemma with_ripples_app l1 l2 doc :
  with_ripples (l1 ++ l2) doc = with_ripples l2 (with_ripples l1 doc).
Proof. apply fold_left_app. Qed.

Lemma detach_with_ripples r : forall (l : list (nat * node)) doc,
  Forall (fun y => nid (snd y) <> r /\ kids (snd y) = []) l ->
  detach r (with_ripples l doc) = with_ripples l (detach r doc).
Proof.
  induction l as [|[b x] l IH]; intros doc H; trivial.
  inversion H as [|? ? [H1 H2] H']; subst. cbn [with_ripples fold_left fst snd] in *.
  fold (with_ripples l (at_node b (add_last x) doc)).
  rewrite IH by assumption.
  rewrite detach_at_node_add_last by assumption. reflexivity.
Qed.

Lemma remove_first b x (l : list (nat * node)) doc :
  ~ In (nid x) (ids doc) -> kids x = [] ->
  Forall (fun y => nid (snd y) <> nid x /\ kids (snd y) = []) l ->
  detach (nid x) (with_ripples ((b, x) :: l) doc) = with_ripples l doc.
Proof.
  intros Hn Hk H. cbn [with_ripples fold_left fst snd].
  fold (with_ripples l (at_node b (add_last x) doc)).
  rewrite detach_with_ripples by assumption.
  rewrite detach_appended by assumption. reflexivity.
Qed.

Lemma ids_with_ripples i : forall (l : list (nat * node)) doc,
  In i (ids (with_ripples l doc)) ->
  In i (ids doc) \/ exists y, In y l /\ In i (ids (snd y)).
Proof.
  induction l as [|[b x] l IH]; intros doc H; [left; exact H|].
  cbn [with_ripples fold_left fst snd] in H.
  fold (with_ripples l (at_node b (add_last x) doc)) in H.
  apply IH in H as [H | (y & Hy & H)].
  - apply ids_at_node_add_last in H as [H|H]; [left; exact H|].
    right. exists (b, x). split; [left; reflexivity | exact H].
  - right. exists y. split; [right; exact Hy | exact H].
Qed.

Lemma leaf_ids x : kids x = [] -> ids x = [nid x].
Proof. destruct x as [i e ks]. cbn. intros ->. reflexivity. Qed.

Section RippleFacts.
Variable Number_toString : PrimFloat.float -> string.
Variables (fresh0 : nat) (d0 : node).
Hypothesis bound0 : Forall (fun i => i < fresh0) (ids d0).



Lemma filter_all {A} (p : A -> bool) l :
  Forall (fun a => p a = true) l -> filter p l = l.
Proof. intros H. apply filter_id. apply Forall_forall. exact H. Qed.

(** The timers due by [t] fire: the ripples that are left are those
    due later. *)
Lemma fire_due_ok t : forall pend fuel clock next doc,
  List.length pend <= fuel ->
  doc = with_ripples (map snd pend) d0 ->
  StronglySorted le (map (fun y => snd (fst y)) pend) ->
  NoDup (map (fun y => fst (fst y)) pend) ->
  NoDup (map (fun y => nid (snd (snd y))) pend) ->
  Forall (fun y => fresh0 <= nid (snd (snd y)) /\ kids (snd (snd y)) = []) pend ->
  exists clock',
    fire_due (fun _ ripple doc => detach ripple doc) fuel t
      (mkScheduler clock next (map ripple_timer pend)) doc
    = (mkScheduler clock' next (map ripple_timer (filter (alive t) pend)),
       with_ripples (map snd (filter (alive t) pend)) d0) /\
    clock <= clock' /\ (clock <= t -> clock' <= t).
Proof.
  induction pend as [|[[id due] [b x]] pend IH];
    intros fuel clock next doc Hf Hd Hs Hi Hr Hx.
  - exists clock. subst doc. destruct fuel; cbn; auto.
  - destruct fuel as [|fuel]; [cbn in Hf; lia|].
    cbn [map fst snd] in Hs, Hi, Hr.
    apply StronglySorted_inv in Hs as [Hs Hh].
    inversion Hi as [|? ? Hi1 Hi2]; subst.
    inversion Hr as [|? ? Hr1 Hr2]; subst.
    inversion Hx as [|? ? [Hx1 Hx2] Hx3]; subst. cbn [fst snd] in *.
    cbn [fire_due sched_queue map].
    rewrite earliest_head.
    2:{ cbn [ripple_timer timer_due fst snd]. apply Forall_forall.
        intros tm Htm. apply in_map_iff in Htm as (y & <- & Hy).
        cbn [ripple_timer timer_due]. rewrite Forall_forall in Hh.
        apply Hh. apply in_map_iff. exists y. auto. }
    cbn [ripple_timer timer_due timer_id timer_callback fst snd filter].
    change (alive t (id, due, (b, x))) with (t <? due).
    destruct (Nat.leb_spec due t) as [L|L].
    + assert (E : (t <? due) = false) by (apply Nat.ltb_ge; exact L).
      rewrite E.
      cbn [sched_clock sched_next].
      change (timer_due (ripple_timer (id, due, (b, x)))) with due.
      change (timer_callback (ripple_timer (id, due, (b, x)))) with (nid x).
      rewrite (drop_timer_head (ripple_timer (id, due, (b, x)))).
      2:{ cbn [ripple_timer timer_id fst snd]. rewrite map_map.
          cbn [ripple_timer timer_id]. exact Hi1. }
      destruct (IH fuel (Nat.max due clock) next
                  (detach (nid x) (with_ripples (map snd ((id, due, (b, x)) :: pend)) d0)))
        as (c' & E' & C1 & C2); trivial.
      * cbn in Hf. lia.
      * cbn [map snd]. apply remove_first; trivial.
        -- apply (bound_not_in fresh0); trivial.
        -- apply Forall_forall. intros y Hy.
           apply in_map_iff in Hy as (z & <- & Hz). rewrite Forall_forall in Hx3.
           split; [|apply (Hx3 z Hz)]. intros E2. apply Hr1.
           rewrite <- E2. apply in_map_iff. exists z. auto.
      * exists c'. cbn [map snd] in E'. rewrite E'.
        split; [reflexivity|]. split; lia.
    + assert (E : (t <? due) = true) by (apply Nat.ltb_lt; exact L).
      rewrite E. exists clock.
      assert (F : filter (alive t) pend = pend).
      { apply filter_all. apply Forall_forall. intros y Hy. unfold alive.
        apply Nat.ltb_lt. rewrite Forall_forall in Hh.
        assert (due <= snd (fst y)) by (apply Hh; apply in_map_iff; eauto).
        lia. }
      rewrite F. split; [reflexivity | auto].
Qed.
End RippleFacts.

Section RippleRun.
Variable Number_toString : PrimFloat.float -> string.
Variables (fresh0 : nat) (d0 : node).
Hypothesis bound0 : Forall (fun i => i < fresh0) (ids d0).

Lemma StronglySorted_map_filter {A B} (R : B -> B -> Prop) (g : A -> B)
      (p : A -> bool) l :
  StronglySorted R (map g l) -> StronglySorted R (map g (filter p l)).
Proof.
  induction l as [|a l IH]; cbn [map filter]; intros H; [constructor|].
  apply StronglySorted_inv in H as [H1 H2].
  destruct (p a); [|auto]. cbn [map]. constructor; [auto|].
  apply Forall_forall. intros x Hx. apply in_map_iff in Hx as (y & <- & Hy).
  apply filter_In in Hy as [Hy _]. rewrite Forall_forall in H2.
  apply H2. apply in_map. exact Hy.
Qed.

Lemma Forall_filter {A} (P : A -> Prop) (p : A -> bool) l :
  Forall P l -> Forall P (filter p l).
Proof.
  intros H. apply Forall_forall. intros x Hx. apply filter_In in Hx as [Hx _].
  rewrite Forall_forall in H. auto.
Qed.

Lemma page_wait_ok t p pend :
  ripples_ok fresh0 d0 p pend ->
  sched_clock (page_timers p) <= t ->
  let p' := page_wait t p in
  ripples_ok fresh0 d0 p' (filter (alive t) pend) /\
  sched_clock (page_timers p') = t /\
  page_fresh p' = page_fresh p.
Proof.
  intros (Q & D & S & Du & I1 & I2 & R1 & R2 & F) Ht.
  destruct p as [doc fresh [clock next queue]].
  cbn [page_document page_fresh page_timers sched_queue sched_clock sched_next] in *.
  subst queue. unfold page_wait, wait_until.
  cbn [page_document page_fresh page_timers sched_queue sched_clock sched_next].
  rewrite length_map.
  destruct (fire_due_ok fresh0 d0 bound0 t pend (List.length pend) clock next doc)
    as (c' & E & C1 & C2); trivial.
  { eapply Forall_impl; [|exact R2]. cbn. tauto. }
  rewrite E.
  cbn [page_document page_fresh page_timers sched_queue sched_clock sched_next].
  split; [|split; [lia | reflexivity]].
  unfold ripples_ok.
  cbn [page_document page_fresh page_timers sched_queue sched_clock sched_next].
  split; [reflexivity|]. split; [reflexivity|].
  split; [apply StronglySorted_map_filter; assumption|].
  split.
  { apply Forall_filter. eapply Forall_impl; [|exact Du]. cbn. intros y Hy. lia. }
  split; [apply NoDup_map_filter; assumption|].
  split; [apply Forall_filter; assumption|].
  split; [apply NoDup_map_filter; assumption|].
  split; [apply Forall_filter; assumption | assumption].
Qed.

Lemma StronglySorted_snoc (l : list nat) x :
  StronglySorted le l -> Forall (fun y => y <= x) l ->
  StronglySorted le (l ++ [x]).
Proof.
  induction 1 as [|a l S IH H]; intros Hx; cbn [app].
  - repeat constructor.
  - inversion Hx; subst. constructor; [auto|].
    apply Forall_app. split; [assumption|]. repeat constructor. assumption.
Qed.

Lemma NoDup_snoc {A} (l : list A) x : NoDup l -> ~ In x l -> NoDup (l ++ [x]).
Proof.
  intros H Hx. apply NoDup_app; [exact H | repeat constructor; intros [] |].
  intros a Ha [<-|[]]. auto.
Qed.

Lemma createRipple_ok b ev r p pend :
  ripples_ok fresh0 d0 p pend ->
  let p' := createRipple Number_toString b ev r p in
  ripples_ok fresh0 d0 p'
    (pend ++ [(sched_next (page_timers p),
               sched_clock (page_timers p) + 600,
               (b, ripple_element Number_toString (page_fresh p) ev r))]) /\
  sched_clock (page_timers p') = sched_clock (page_timers p) /\
  page_fresh p' = S (page_fresh p).
Proof.
  intros (Q & D & S & Du & I1 & I2 & R1 & R2 & F).
  destruct p as [doc fresh [clock next queue]].
  cbn [page_document page_fresh page_timers sched_queue sched_clock sched_next] in *.
  subst queue. unfold createRipple, schedule.
  cbn [page_document page_fresh page_timers sched_queue sched_clock sched_next].
  split; [|split; reflexivity].
  set (x := ripple_element Number_toString fresh ev r).
  assert (Nx : nid x = fresh) by reflexivity.
  assert (Kx : kids x = []) by reflexivity.
  assert (Hnew : ~ In fresh (ids doc)).
  { subst doc. intros H. apply ids_with_ripples in H as [H | (y & Hy & H)].
    - apply (bound_lt fresh0) in H; trivial. lia.
    - apply in_map_iff in Hy as (z & <- & Hz). rewrite Forall_forall in R2.
      destruct (R2 z Hz) as [[_ Hlt] Hk].
      rewrite (leaf_ids _ Hk) in H. destruct H as [H|[]]. lia. }
  unfold ripples_ok.
  cbn [page_document page_fresh page_timers sched_queue sched_clock sched_next].
  rewrite !map_app. cbn [map fst snd ripple_timer].
  split; [rewrite ?Nx; reflexivity|].
  split.
  { rewrite with_ripples_app. cbn [with_ripples fold_left fst snd].
    unfold appendChild. rewrite ?Nx. rewrite detach_frame by assumption.
    rewrite D. reflexivity. }
  split; [apply StronglySorted_snoc; trivial; apply Forall_forall; intros y Hy;
          apply in_map_iff in Hy as (z & <- & Hz); rewrite Forall_forall in Du;
          apply Du; exact Hz|].
  split.
  { apply Forall_app. split; [exact Du|]. repeat constructor. }
  split.
  { apply NoDup_snoc; trivial. intros H. apply in_map_iff in H as (z & E & Hz).
    rewrite Forall_forall in I2. specialize (I2 z Hz). lia. }
  split.
  { apply Forall_app. split.
    - eapply Forall_impl; [|exact I2]. cbn. intros; lia.
    - repeat constructor. }
  split.
  { apply NoDup_snoc; trivial. rewrite ?Nx. intros H.
    apply in_map_iff in H as (z & E & Hz).
    rewrite Forall_forall in R2. destruct (R2 z Hz) as [[_ Hlt] _]. lia. }
  split; [|lia].
  apply Forall_app. split.
  - eapply Forall_impl; [|exact R2]. cbn. intros y [[H1 H2] H3].
    split; [lia | assumption].
  - repeat constructor; cbn [fst snd]; rewrite ?Nx; trivial; lia.
Qed.

Lemma clicks_ok : forall cs final p pend,
  ripples_ok fresh0 d0 p pend ->
  Sorted le (sched_clock (page_timers p) :: map click_time cs ++ [final]) ->
  exists pend',
    ripples_ok fresh0 d0 (clicks Number_toString cs final p) pend' /\
    map snd pend'
    = map snd (filter (alive final) pend)
      ++ lasting Number_toString cs final (page_fresh p).
Proof.
  induction cs as [|c cs IH]; intros final p pend Hok Hs.
  - cbn [clicks lasting map app] in *. apply Sorted_inv in Hs as [_ Hs].
    apply HdRel_inv in Hs.
    destruct (page_wait_ok final p pend Hok Hs) as (H & _).
    exists (filter (alive final) pend). rewrite app_nil_r. auto.
  - cbn [clicks map app] in *. apply Sorted_inv in Hs as [Hs Hh].
    apply HdRel_inv in Hh.
    destruct (page_wait_ok (click_time c) p pend Hok Hh) as (H1 & C1 & F1).
    set (p1 := page_wait (click_time c) p) in *.
    destruct (createRipple_ok (click_button c) (click_mouse c) (click_rect c)
                p1 _ H1) as (H2 & C2 & F2).
    set (p2 := createRipple Number_toString (click_button c) (click_mouse c)
                 (click_rect c) p1) in *.
    rewrite C1 in H2.
    destruct (IH final p2 _ H2) as (pend' & H3 & E3).
    { rewrite C2, C1. exact Hs. }
    exists pend'. split; [exact H3|]. rewrite E3, F2, F1.
    rewrite filter_app, map_app. cbn [filter alive fst snd lasting].
    rewrite <- app_assoc. f_equal.
    + rewrite filter_filter. f_equal. apply filter_ext_in'. intros y Hy.
      unfold alive.
      assert (click_time c <= final).
      { clear - Hs. destruct cs; cbn [map app] in Hs.
        - apply Sorted_inv in Hs as [_ Hs]. apply HdRel_inv in Hs. exact Hs.
        - apply Sorted_StronglySorted in Hs; [|intros ? ? ?; lia].
          apply StronglySorted_inv in Hs as [_ Hs]. rewrite Forall_forall in Hs.
          apply Hs. right. apply in_or_app. right. left. reflexivity. }
      destruct (Nat.ltb_spec final (snd (fst y))),
        (Nat.ltb_spec (click_time c) (snd (fst y))); cbn; trivial; lia.
    + unfold alive. cbn [fst snd].
      destruct (final <? click_time c + 600); reflexivity.
Qed.

End RippleRun.

(** X16.  Whatever the clicks, in the order of their times, and
    wherever the buttons are: at any later time the page is the page as
    it was with one ripple appended for each click of the last 600 ms,
    and as many timers are pending; 600 ms after the last click the
    page is exactly the page as it was and no timer is left. *)
Theorem ripples_fade (Number_toString : PrimFloat.float -> string)
        (doc : node) (fresh : nat) (cs : list click) (final : nat) :
  Forall (fun i => i < fresh) (ids doc) ->
  Sorted le (map click_time cs ++ [final]) ->
  let p := clicks Number_toString cs final
             (mkPage doc fresh (mkScheduler 0 1 [])) in
  page_document p
  = with_ripples (lasting Number_toString cs final fresh) doc /\
  List.length (sched_queue (page_timers p))
  = List.length (lasting Number_toString cs final fresh) /\
  (Forall (fun c => click_time c + 600 <= final) cs ->
   page_document p = doc /\ sched_queue (page_timers p) = []).
Proof.
  intros B Hs p.
  assert (H0 : ripples_ok fresh doc (mkPage doc fresh (mkScheduler 0 1 [])) []).
  { unfold ripples_ok. cbn. repeat split; try constructor. }
  destruct (clicks_ok Number_toString fresh doc B cs final _ [] H0)
    as (pend & (Q & D & _) & E).
  { cbn [page_timers sched_clock]. constructor; [exact Hs|].
    destruct cs; cbn [map app]; constructor; lia. }
  fold p in Q, D. cbn [filter map app page_fresh] in E.
  rewrite E in D. split; [exact D|]. split.
  - rewrite Q, length_map, <- E, length_map. reflexivity.
  - intros Hall.
    assert (L : lasting Number_toString cs final fresh = []).
    { clear - Hall. revert fresh. induction Hall as [|c cs Hc _ IH];
        intros fresh; cbn [lasting]; trivial.
      apply Nat.ltb_ge in Hc. rewrite Hc, IH. reflexivity. }
    rewrite L in D, E. split; [exact D|].
    rewrite Q. destruct pend; [reflexivity | discriminate E].
Qed.

Lemma ripples_fade_witness :
  page_document
    (clicks (fun _ => "0"%string)
       [mkClick 10 2 (mkMouse PrimFloat.one PrimFloat.two)
          (mkRect PrimFloat.zero PrimFloat.zero PrimFloat.two PrimFloat.one);
        mkClick 300 2 (mkMouse PrimFloat.one PrimFloat.one)
          (mkRect PrimFloat.zero PrimFloat.zero PrimFloat.two PrimFloat.one)]
       900 (mkPage button_page 3 (mkScheduler 0 1 [])))
  = button_page.
Proof.
  apply (ripples_fade (fun _ => "0"%string) button_page 3).
  - repeat constructor.
  - cbn [map app click_time]. sorted_by_lia.
  - repeat (apply Forall_cons || apply Forall_nil); cbn [click_time]; lia.
Defined.

(** *** The counters *)

Lemma counter_after_S n c :
  counter_after (S n) c = counter_after n (counter_next c).
Proof. unfold counter_after. apply Nat.iter_succ_r. Qed.

Lemma runs_then_stops_spec : forall n c,
  counter_running c = true ->
  runs_then_stops n c = true ->
  counter_running (counter_after (S n) c) = false /\
  forall m, m <= n -> counter_running (counter_after m c) = true.
Proof.
  induction n as [|n IH]; intros c Hc H; cbn [runs_then_stops] in H.
  - apply negb_true_iff in H. split; [exact H|].
    intros m Hm. replace m with 0 by lia. exact Hc.
  - apply andb_true_iff in H as [H1 H2].
    destruct (IH _ H1 H2) as [I1 I2]. split.
    + rewrite counter_after_S. exact I1.
    + intros [|m] Hm; [exact Hc|]. rewrite counter_after_S. apply I2. lia.
Qed.

Lemma same_count_next c c' :
  same_count c c' -> same_count (counter_next c) (counter_next c').
Proof.
  intros (H1 & H2 & H3 & H4). unfold same_count, counter_next.
  cbn [counter_target counter_increment counter_current counter_running].
  rewrite H1, H2, H3. auto.
Qed.

Lemma runs_then_stops_same : forall n c c',
  same_count c c' -> runs_then_stops n c = runs_then_stops n c'.
Proof.
  induction n as [|n IH]; intros c c' H; cbn [runs_then_stops];
    pose proof (same_count_next c c' H) as H';
    destruct H' as (_ & _ & _ & H4); rewrite H4; trivial.
  f_equal. apply IH. apply same_count_next. exact H.
Qed.

Lemma counter_after_fields n c :
  counter_element (counter_after n c) = counter_element c /\
  counter_target (counter_after n c) = counter_target c.
Proof.
  unfold counter_after. induction n as [|n [I1 I2]]; [auto|].
  cbn [Nat.iter]. split; [rewrite <- I1 | rewrite <- I2]; reflexivity.
Qed.

(** The callback that clears the interval shows the target. *)
Lemma stopping_shows_target c :
  counter_running (counter_next c) = false ->
  counter_shows c = counter_target c.
Proof.
  unfold counter_next, counter_shows. cbn [counter_running].
  intros H. apply negb_false_iff in H. rewrite H. reflexivity.
Qed.

Section CounterFacts.
Variable toLocaleString : PrimFloat.float -> jsstring.

Lemma with_text_first el E text doc :
  NoDup (ids doc) -> lookup el doc = Some E ->
  at_node el (set_textContent text) doc = with_text el E text doc.
Proof.
  intros ND H. apply lookup_in in H as [H <-].
  apply at_node_focus; assumption.
Qed.

Lemma with_text_again el E text text' doc :
  nid E = el ->
  at_node el (set_textContent text') (with_text el E text doc)
  = with_text el E text' doc.
Proof.
  intros H. unfold with_text. rewrite at_node_replace.
  - destruct E; reflexivity.
  - rewrite nid_set_textContent. exact H.
Qed.

Lemma write_text el E text' doc d :
  NoDup (ids doc) -> lookup el doc = Some E ->
  d = doc \/ (exists text, d = with_text el E text doc) ->
  at_node el (set_textContent text') d = with_text el E text' doc.
Proof.
  intros ND HE [-> | (text & ->)].
  - apply with_text_first; assumption.
  - apply with_text_again. apply lookup_in in HE. tauto.
Qed.

(** While the interval is set, every run of the callback writes what it
    shows. *)
Lemma counter_ticks_running el E doc :
  NoDup (ids doc) -> lookup el doc = Some E ->
  forall n c d,
  counter_element c = el ->
  (forall m, m <= n -> counter_running (counter_after m c) = true) ->
  d = doc \/ (exists text, d = with_text el E text doc) ->
  counter_ticks toLocaleString (S n) c d
  = (counter_after (S n) c,
     with_text el E (toLocaleString (counter_shows (counter_after n c))) doc).
Proof.
  intros ND HE. induction n as [|n IH]; intros c d Hel Hrun Hd.
  - cbn [counter_ticks]. unfold counter_tick.
    rewrite (Hrun 0 (Nat.le_refl _) : counter_running c = true).
    rewrite Hel, (write_text el E _ doc d) by assumption.
    reflexivity.
  - change (counter_ticks toLocaleString (S (S n)) c d)
      with (let '(c', doc') := counter_tick toLocaleString c d in
            counter_ticks toLocaleString (S n) c' doc').
    unfold counter_tick.
    rewrite (Hrun 0 (Nat.le_0_l _) : counter_running c = true).
    rewrite Hel, (write_text el E _ doc d) by assumption.
    rewrite IH.
    + rewrite <- !counter_after_S. reflexivity.
    + exact Hel.
    + intros m Hm. rewrite <- counter_after_S. apply Hrun. lia.
    + right. eauto.
Qed.

(** Once the interval is cleared nothing changes any more. *)
Lemma counter_ticks_stopped : forall n c doc,
  counter_running c = false ->
  counter_ticks toLocaleString n c doc = (c, doc).
Proof.
  induction n as [|n IH]; intros c doc H; trivial.
  cbn [counter_ticks]. unfold counter_tick. rewrite H. apply IH. exact H.
Qed.

Lemma counter_ticks_add : forall n k c doc,
  counter_ticks toLocaleString (n + k) c doc
  = let '(c', doc') := counter_ticks toLocaleString n c doc in
    counter_ticks toLocaleString k c' doc'.
Proof.
  induction n as [|n IH]; intros k c doc; trivial.
  cbn [Nat.add counter_ticks].
  destruct (counter_tick toLocaleString c doc) as [c' doc'].
  apply IH.
Qed.

End CounterFacts.

Lemma animateCounter_nan el :
  animateCounter el PrimFloat.nan
  = mkCounter el PrimFloat.nan PrimFloat.nan PrimFloat.zero true.
Proof. reflexivity. Qed.

Lemma counter_after_nan el x n :
  x = PrimFloat.zero \/ x = PrimFloat.nan ->
  counter_after (S n) (mkCounter el PrimFloat.nan PrimFloat.nan x true)
  = mkCounter el PrimFloat.nan PrimFloat.nan PrimFloat.nan true.
Proof.
  intros Hx. induction n as [|n IH].
  - destruct Hx as [-> | ->]; reflexivity.
  - change (counter_after (S (S n)) ?c)
      with (counter_next (counter_after (S n) c)).
    rewrite IH. reflexivity.
Qed.

Lemma counter_shows_nan el x :
  x = PrimFloat.zero \/ x = PrimFloat.nan ->
  counter_shows (mkCounter el PrimFloat.nan PrimFloat.nan x true)
  = PrimFloat.nan.
Proof. intros [-> | ->]; reflexivity. Qed.

(** X17.  When the attribute of a counter
    does not begin with a number, its interval is never cleared: after
    every run of the callback the counter is still running, and the
    element shows what NaN is written as. *)
Theorem counter_without_number (toLocaleString : PrimFloat.float -> jsstring)
        (doc : node) (el : nat) (E : node) (n : nat) :
  NoDup (ids doc) -> lookup el doc = Some E ->
  parseInt (match getAttribute "data-counter" (attributes (data E)) with
            | Some v => js v
            | None => js "null"
            end) = NaN ->
  counter_ticks toLocaleString (S n)
    (animateCounter el (targetValue (data E))) doc
  = (mkCounter el PrimFloat.nan PrimFloat.nan PrimFloat.nan true,
     with_text el E (toLocaleString PrimFloat.nan) doc).
Proof.
  intros ND HE HP. unfold targetValue. rewrite HP. cbn [number_to_float].
  rewrite animateCounter_nan.
  rewrite (counter_ticks_running toLocaleString el E doc ND HE n _ doc).
  - rewrite counter_after_nan by auto. f_equal. f_equal. f_equal.
    destruct n as [|n].
    + apply counter_shows_nan. auto.
    + rewrite counter_after_nan by auto. apply counter_shows_nan. auto.
  - reflexivity.
  - intros [|m] _; [reflexivity|]. rewrite counter_after_nan by auto.
    reflexivity.
  - left. reflexivity.
Qed.

Lemma counter_without_number_witness :
  counter_running
    (fst (counter_ticks (fun _ => js "NaN") 500
            (animateCounter 4 (number_to_float (parseInt (js "many"))))
            stats_page))
  = true.
Proof.
  exact (f_equal (fun x => counter_running (fst x))
           (counter_without_number (fun _ => js "NaN") stats_page 4
              (Node 4 (mkElement "span" [("data-counter", "many")]%string
                         [] [] [] (js "0") []) []) 499
              (distinct_NoDup (ids stats_page) eq_refl) eq_refl eq_refl)).
Defined.

Lemma on_time_all : forallb on_time (around_zero 10000%Z) = true.
Proof. vm_compute. reflexivity. Qed.

Lemma on_time_range z : (-10000 <= z <= 10000)%Z -> on_time z = true.
Proof.
  intros H. pose proof on_time_all as A. rewrite forallb_forall in A.
  apply A. unfold around_zero. apply in_map_iff.
  exists (Z.to_nat (z + 10000)). split; [lia|].
  apply in_seq. lia.
Qed.

(** X18.  For every integer target from -10000
    to 10000 the interval is cleared: by the first run of the callback
    when the target is not positive, by run number 125 or 126, and
    never sooner, when it is; from then on the element shows the
    target. *)
Theorem counter_reaches_target (toLocaleString : PrimFloat.float -> jsstring)
        (z : Z) (doc : node) (el : nat) (E : node) :
  (-10000 <= z <= 10000)%Z ->
  NoDup (ids doc) -> lookup el doc = Some E ->
  let c := animateCounter el (Z_to_float z) in
  exists n,
    (if (0 <? z)%Z then n = 125 \/ n = 126 else n = 1) /\
    (forall m, m < n ->
       counter_running (fst (counter_ticks toLocaleString m c doc)) = true) /\
    (forall k, n <= k ->
       counter_running (fst (counter_ticks toLocaleString k c doc)) = false /\
       snd (counter_ticks toLocaleString k c doc)
       = with_text el E (toLocaleString (Z_to_float z)) doc).
Proof.
  intros Hz ND HE c.
  assert (G : forall n', runs_then_stops n' (animateCounter 0 (Z_to_float z)) = true ->
            (forall m, m < S n' ->
               counter_running (fst (counter_ticks toLocaleString m c doc)) = true) /\
            (forall k, S n' <= k ->
               counter_running (fst (counter_ticks toLocaleString k c doc)) = false /\
               snd (counter_ticks toLocaleString k c doc)
               = with_text el E (toLocaleString (Z_to_float z)) doc)).
  { intros n' H.
    rewrite (runs_then_stops_same n' _ c) in H by (repeat split).
    destruct (runs_then_stops_spec n' c eq_refl H) as [S1 S2].
    split.
    - intros [|m] Hm; [reflexivity|].
      rewrite (counter_ticks_running toLocaleString el E doc ND HE m c doc);
        auto.
      + cbn [fst]. apply S2. lia.
      + intros j Hj. apply S2. lia.
    - intros k Hk. replace k with (S n' + (k - S n')) by lia.
      rewrite counter_ticks_add.
      rewrite (counter_ticks_running toLocaleString el E doc ND HE n' c doc);
        auto.
      rewrite counter_ticks_stopped by exact S1. cbn [fst snd].
      split; [exact S1|]. f_equal. f_equal.
      rewrite stopping_shows_target by exact S1.
      apply counter_after_fields. }
  pose proof (on_time_range z Hz) as T. unfold on_time in T.
  destruct (0 <? z)%Z.
  - apply orb_true_iff in T as [T|T].
    + exists 125. split; [left; reflexivity | apply G; exact T].
    + exists 126. split; [right; reflexivity | apply G; exact T].
  - exists 1. split; [reflexivity | apply G; exact T].
Qed.

Lemma counter_reaches_target_witness :
  exists n,
    (n = 125 \/ n = 126) /\
    snd (counter_ticks (fun _ => js "1,500") n
           (animateCounter 3 (Z_to_float 1500)) stats_page)
    = with_text 3
        (Node 3 (mkElement "span" [("data-counter", "1500")]%string
                   [] [] [] (js "0") []) [])
        (js "1,500") stats_page.
Proof.
  destruct (counter_reaches_target (fun _ => js "1,500") 1500 stats_page 3
              (Node 3 (mkElement "span" [("data-counter", "1500")]%string
                         [] [] [] (js "0") []) []))
    as (n & Hn & _ & H).
  - lia.
  - apply distinct_NoDup. reflexivity.
  - reflexivity.
  - exists n. split; [exact Hn|]. apply (H n). lia.
Defined.

(** *** The observer of the stats section *)

Section StatsFacts.

Lemma stats_callback_counted doc s S' entries obs cs :
  lookup s doc = Some S' ->
  contains "counted" (classList (data S')) = true ->
  Forall (fun en => fst en = s) entries ->
  stats_callback entries (mkStats obs doc cs) = mkStats obs doc cs.
Proof.
  intros HS HC. induction 1 as [|[i b] entries Hi _ IH]; trivial.
  cbn [stats_callback fold_left]. unfold stats_entry at 2.
  cbn [fst snd stats_doc] in *. subst i. rewrite HS, HC.
  rewrite andb_false_r. exact IH.
Qed.

Lemma stats_callback_first doc S entries :
  NoDup (ids doc) -> In S (subtrees doc) ->
  contains "counted" (classList (data S)) = false ->
  Forall (fun en => fst en = nid S) entries ->
  stats_callback entries (mkStats [nid S] doc [])
  = if intersecting (nid S) entries then stats_started doc S
    else mkStats [nid S] doc [].
Proof.
  intros ND HS HC. induction 1 as [|[i b] entries Hi Hall IH]; trivial.
  cbn [stats_callback fold_left]. unfold stats_entry at 2.
  cbn [fst snd stats_doc stats_observed stats_counters] in *. subst i.
  assert (L : lookup (nid S) doc = Some S) by (apply lookup_spec; auto).
  rewrite L, HC. cbn [negb intersecting existsb fst snd].
  rewrite Nat.eqb_refl. destruct b; cbn [andb orb].
  - unfold unobserve. cbn [filter]. rewrite Nat.eqb_refl. cbn [negb app].
    apply (stats_callback_counted _ (nid S) (update (nid S) (classList_add "counted") S));
      trivial.
    + rewrite lookup_update, L. reflexivity.
    + rewrite data_update, Nat.eqb_refl. apply classList_add_has.
  - exact IH.
Qed.

Lemma observed_entries s (entries : list (nat * bool)) :
  Forall (fun en => fst en = s)
    (filter (fun en => existsb (Nat.eqb (fst en)) [s]) entries).
Proof.
  apply Forall_forall. intros en H. apply filter_In in H as [_ H].
  cbn [existsb] in H. rewrite orb_false_r in H. apply Nat.eqb_eq in H.
  exact H.
Qed.

Lemma intersecting_observed s (entries : list (nat * bool)) :
  intersecting s (filter (fun en => existsb (Nat.eqb (fst en)) [s]) entries)
  = intersecting s entries.
Proof.
  rewrite (intersecting_filter s (fun i => existsb (Nat.eqb i) [s])).
  cbn [existsb]. rewrite Nat.eqb_refl. reflexivity.
Qed.

Lemma stats_reports_idle doc cs : forall bs,
  stats_reports bs (mkStats [] doc cs) = mkStats [] doc cs.
Proof.
  unfold stats_reports. induction bs as [|b bs IH]; trivial.
  cbn [fold_left]. unfold stats_report at 2. cbn [stats_observed existsb].
  assert (E : filter (fun _ : nat * bool => false) b = []).
  { induction b; trivial. }
  rewrite E. exact IH.
Qed.

(** X19.  Only the first stats section of the
    page is observed.  When a report says it is in view, and it does
    not carry the class [counted] already, one counter is started for
    each element with a data-counter attribute below it, in document
    order, the section gets the class and leaves observation: whatever
    is reported afterwards, in the same report or in later ones, starts
    no counter again.  Until then, and for ever if the section carries
    the class from the start, nothing changes. *)
Theorem stats_counts_once (doc S : node) (bs : list (list (nat * bool))) :
  NoDup (ids doc) ->
  hd_error (document_querySelectorAll stats_section doc) = Some S ->
  stats_reports bs (stats_start doc)
  = if intersecting (nid S) (List.concat bs)
       && negb (contains "counted" (classList (data S)))
    then stats_started doc S
    else mkStats [nid S] doc [].
Proof.
  intros ND HS.
  assert (HSin : In S (subtrees doc)).
  { unfold document_querySelectorAll in HS.
    destruct (filter _ (subtrees doc)) as [|x l] eqn:E; [discriminate|].
    injection HS as ->. assert (In S (S :: l)) by (left; reflexivity).
    rewrite <- E in H. apply filter_In in H. tauto. }
  unfold stats_start. rewrite HS. cbn [observe existsb app].
  unfold stats_reports.
  destruct (contains "counted" (classList (data S))) eqn:HC.
  - rewrite andb_false_r. cbn [negb].
    induction bs as [|b bs IH]; trivial. cbn [fold_left].
    unfold stats_report at 2. cbn [stats_observed].
    rewrite (stats_callback_counted doc (nid S) S); trivial.
    + apply lookup_spec; auto.
    + apply observed_entries.
  - cbn [negb]. rewrite andb_true_r.
    induction bs as [|b bs IH]; trivial. cbn [fold_left List.concat].
    unfold stats_report at 2. cbn [stats_observed].
    rewrite stats_callback_first; trivial; [|apply observed_entries].
    rewrite intersecting_observed, intersecting_app.
    destruct (intersecting (nid S) b); cbn [orb].
    + apply stats_reports_idle.
    + exact IH.
Qed.

End StatsFacts.

Lemma stats_counts_once_witness :
  map counter_element
    (stats_counters
       (stats_reports [[(2, false)]; [(2, true); (2, true)]; [(2, true)]]
          (stats_start stats_page)))
  = [3; 4].
Proof.
  rewrite (stats_counts_once stats_page
             (Node 2 (mkElement "section" [("data-stats-section", "")]%string
                        [] [] [] [] [])
                [Node 3 (mkElement "span" [("data-counter", "1500")]%string
                           [] [] [] (js "0") []) [];
                 Node 4 (mkElement "span" [("data-counter", "many")]%string
                           [] [] [] (js "0") []) []])).
  - reflexivity.
  - apply distinct_NoDup. reflexivity.
  - reflexivity.
Defined.
